(** * gophersat: the [bf] formula package and the CDCL search drivers of
    [solver/solver.go], embedded shallowly.

    Layout: the definitions of both packages come first (modules [bf] and
    [solver]), the lemmas and theorems about them follow ([BfFacts],
    [SolverFacts]). *)

From stdpp Require Import gmap list strings sorting pretty.
From Stdlib Require Import ZArith Lia.

Local Open Scope Z_scope.

(* ===================================================================== *)
(** * Package [bf] (bf/bf.go)                                             *)
(* ===================================================================== *)

Module bf.

(** [type variable struct { name string; dummy bool }] *)
Record variable := { name : string; dummy : bool }.

(** The seven implementations of the [Formula] interface: [trueConst],
    [falseConst], [variable], [lit], [not], [and], [or]. The exported
    constructors [Not], [And], [Or] give the last three their Rocq names. *)
#[warnings="-register-all"]
Inductive Formula : Type :=
| trueConst
| falseConst
| Var (v : variable)
| Lit (v : variable) (signed : bool)
| Not (f : Formula)
| And (subs : list Formula)
| Or (subs : list Formula).

(** End of [and.nnf]: [len(res) == 1] gives [res[0]], [len(res) == 0] gives
    [False], anything else the flattened conjunction itself. *)
Definition and_finish (res : list Formula) : Formula :=
  match res with
  | [r] => r
  | [] => falseConst
  | _ => And res
  end.

(** End of [or.nnf]. *)
Definition or_finish (res : list Formula) : Formula :=
  match res with
  | [r] => r
  | [] => trueConst
  | _ => Or res
  end.

(** The [for _, s := range a] loop of [and.nnf]; [rec] is [s.nnf()] and
    [res] the accumulator. [None] is only ever produced by [rec]. *)
Fixpoint and_loop (rec : Formula -> option Formula) (a res : list Formula)
  : option Formula :=
  match a with
  | [] => Some (and_finish res)
  | s :: a' =>
      match rec s with
      | None => None
      | Some (And l) => and_loop rec a' (res ++ l)
      | Some trueConst => and_loop rec a' res
      | Some falseConst => Some falseConst
      | Some r => and_loop rec a' (res ++ [r])
      end
  end.

(** The loop of [or.nnf]. *)
Fixpoint or_loop (rec : Formula -> option Formula) (o res : list Formula)
  : option Formula :=
  match o with
  | [] => Some (or_finish res)
  | s :: o' =>
      match rec s with
      | None => None
      | Some (Or l) => or_loop rec o' (res ++ l)
      | Some falseConst => or_loop rec o' res
      | Some trueConst => Some trueConst
      | Some r => or_loop rec o' (res ++ [r])
      end
  end.

(** [subs[i] = not{sub}.nnf()] for every [sub]. *)
Fixpoint nnf_each (rec : Formula -> option Formula) (subs : list Formula)
  : option (list Formula) :=
  match subs with
  | [] => Some []
  | sub :: subs' =>
      match rec (Not sub) with
      | None => None
      | Some r =>
          match nnf_each rec subs' with
          | None => None
          | Some rs => Some (r :: rs)
          end
      end
  end.

(** The [nnf] method of all seven types. [not.nnf] calls [nnf] on a formula
    it has just built ([or(subs).nnf()]), so the recursion is not structural:
    [fuel] bounds the depth of nested calls and [None] means it ran out. *)
Fixpoint nnf (fuel : nat) (f : Formula) : option Formula :=
  match fuel with
  | O => None
  | S n =>
      match f with
      | trueConst => Some trueConst
      | falseConst => Some falseConst
      | Var v => Some (Lit v false)
      | Lit v s => Some (Lit v s)
      | Not g =>
          match g with
          | Var v => Some (Lit v true)
          | Lit v s => Some (Lit v (negb s))
          | Not h => nnf n h
          | And subs =>
              match nnf_each (nnf n) subs with
              | None => None
              | Some subs' => nnf n (Or subs')
              end
          | Or subs =>
              match nnf_each (nnf n) subs with
              | None => None
              | Some subs' => nnf n (And subs')
              end
          | trueConst => Some falseConst
          | falseConst => Some trueConst
          end
      | And a => and_loop (nnf n) a []
      | Or o => or_loop (nnf n) o []
      end
  end.

(** [Implies] (bf.go:249), [Eq] (bf.go:254) and [Xor] (bf.go:259). *)
Definition Implies (f1 f2 : Formula) : Formula := Or [Not f1; f2].
Definition Eq (f1 f2 : Formula) : Formula :=
  And [Or [Not f1; f2]; Or [f1; Not f2]].
Definition Xor (f1 f2 : Formula) : Formula :=
  And [Or [Not f1; Not f2]; Or [f1; f2]].

(** [pbVar] (bf.go:92) and [dummyVar] (bf.go:96). *)
Definition pbVar (n : string) : variable := {| name := n; dummy := false |}.
Definition dummyVar (n : string) : variable := {| name := n; dummy := true |}.

(** [uniqueSmall] (bf.go:275): the disjunction of all the variables, then
    for [i < j], in the order of the two loops, [Or(Not(vi), Not(vj))]. *)
Fixpoint uniquePairs (fs : list Formula) : list Formula :=
  match fs with
  | [] => []
  | f :: fs' => ((fun g => Or [Not f; Not g]) <$> fs') ++ uniquePairs fs'
  end.

Definition uniqueSmall (vs : list variable) : Formula :=
  let varsAsForms := Var <$> vs in
  And (Or varsAsForms :: uniquePairs varsAsForms).

(** *** Reading a formula

    The truth value of a formula under a valuation of its variables, as the
    comments of the constructors give it ([Not]: a negation, [And]: a
    conjunction, [Or]: a disjunction; a [lit] is signed when negated). The
    package has no evaluator of its own: this one is what the statements
    about [nnf] are measured against. *)
Fixpoint eval (v : variable -> bool) (f : Formula) : bool :=
  match f with
  | trueConst => true
  | falseConst => false
  | Var x => v x
  | Lit x signed => xorb signed (v x)
  | Not g => negb (eval v g)
  | And subs => forallb (eval v) subs
  | Or subs => existsb (eval v) subs
  end.

(** The nesting depth of a formula, and the same with [Not] not counted. *)
Fixpoint depth (f : Formula) : nat :=
  match f with
  | Not g => S (depth g)
  | And subs => S (foldr (fun g n => Nat.max (depth g) n) 0%nat subs)
  | Or subs => S (foldr (fun g n => Nat.max (depth g) n) 0%nat subs)
  | _ => 1%nat
  end.

Fixpoint ndepth (f : Formula) : nat :=
  match f with
  | Not g => ndepth g
  | And subs => S (foldr (fun g n => Nat.max (ndepth g) n) 0%nat subs)
  | Or subs => S (foldr (fun g n => Nat.max (ndepth g) n) 0%nat subs)
  | _ => 1%nat
  end.

Definition isConst (f : Formula) : bool :=
  match f with trueConst | falseConst => true | _ => false end.
Definition isAnd (f : Formula) : bool :=
  match f with And _ => true | _ => false end.
Definition isOr (f : Formula) : bool :=
  match f with Or _ => true | _ => false end.

(** Negation normal form, as [cnfRec] expects it below the top: literals,
    and conjunctions and disjunctions of two subformulas or more, none
    nested in one of its own kind; no constant, variable or negation. *)
Fixpoint normalIn (f : Formula) : bool :=
  match f with
  | Lit _ _ => true
  | And subs =>
      (2 <=? length subs)%nat && forallb (fun g => negb (isAnd g) && normalIn g) subs
  | Or subs =>
      (2 <=? length subs)%nat && forallb (fun g => negb (isOr g) && normalIn g) subs
  | _ => false
  end.

(** At the top a constant is allowed as well. *)
Definition normal (f : Formula) : bool := isConst f || normalIn f.

(** A formula without constants and without empty conjunction or
    disjunction. *)
Fixpoint plain (f : Formula) : bool :=
  match f with
  | trueConst | falseConst => false
  | Var _ | Lit _ _ => true
  | Not g => plain g
  | And subs => negb (bool_decide (subs = [])) && forallb plain subs
  | Or subs => negb (bool_decide (subs = [])) && forallb plain subs
  end.

(** *** Conversion to clauses

    [map[variable]int]: a finite map; its keys are compared field by
    field. *)
#[global] Instance variable_eq_dec : EqDecision variable.
Proof. solve_decision. Defined.

#[global] Instance variable_countable : Countable variable.
Proof.
  refine (inj_countable' (fun v => (name v, dummy v))
                         (fun p => {| name := p.1; dummy := p.2 |}) _).
  intros []. reflexivity.
Defined.

(** [type vars struct] (bf.go:322). *)
Record vars : Type := { all : gmap variable Z; pb : gmap variable Z }.

(** [litValue] (bf.go:329), for the literal [lit{v, signed}]; it returns
    the updated maps with the value. [len] of a map is far from the bounds
    of [int]. *)
Definition litValue (vs : vars) (v : variable) (signed : bool) : vars * Z :=
  match all vs !! v with
  | Some val => (vs, if signed then - val else val)
  | None =>
      let val := Z.of_nat (size (all vs)) + 1 in
      ({| all := <[v := val]> (all vs); pb := <[v := val]> (pb vs) |},
       if signed then - val else val)
  end.

(** [vars.dummy] (bf.go:343); [%d] prints the decimal form. *)
Definition vars_dummy (vs : vars) : vars * Z :=
  let val := Z.of_nat (size (all vs)) + 1 in
  ({| all := <[dummyVar ("dummy-" +:+ pretty val) := val]> (all vs); pb := pb vs |}, val).

(** [cnfRec] (bf.go:391). [None] is a panic: "invalid NNF formula",
    "unexpected or in or", or the index [0] of an empty slice. The three
    loops are [cnfAnd] (case [and]), [cnfOr] (case [or]) and, inside it,
    [cnfOrAnd] (the loop over the subformulas of a conjunction met in a
    disjunction, [d] being its dummy variable); [rec] is [cnfRec]. *)
Definition cnfAnd (rec : Formula -> vars -> option (vars * list (list Z)))
  : list Formula -> vars -> list (list Z) -> option (vars * list (list Z)) :=
  fix go subs vs res :=
    match subs with
    | [] => Some (vs, res)
    | sub :: subs' =>
        match rec sub vs with
        | Some (vs, r) => go subs' vs (res ++ r)
        | None => None
        end
    end.

Definition cnfOrAnd (rec : Formula -> vars -> option (vars * list (list Z))) (d : Z)
  : list Formula -> vars -> list (list Z) -> option (vars * list (list Z)) :=
  fix go subs vs res :=
    match subs with
    | [] => Some (vs, res)
    | sub2 :: subs' =>
        match rec sub2 vs with
        | Some (vs, c :: _) => go subs' vs (res ++ [c ++ [- d]])
        | _ => None
        end
    end.

Definition cnfOr (rec : Formula -> vars -> option (vars * list (list Z)))
  : list Formula -> vars -> list (list Z) -> list Z -> option (vars * list (list Z)) :=
  fix go subs vs res lits :=
    match subs with
    | [] => Some (vs, res ++ [lits])
    | sub :: subs' =>
        match sub with
        | Lit v signed =>
            let '(vs, x) := litValue vs v signed in
            go subs' vs res (lits ++ [x])
        | And subs2 =>
            let '(vs, d) := vars_dummy vs in
            let lits := lits ++ [d] in
            match cnfOrAnd rec d subs2 vs res with
            | Some (vs, res) => go subs' vs res lits
            | None => None
            end
        | _ => None
        end
    end.

Fixpoint cnfRec (f : Formula) (vs : vars) {struct f} : option (vars * list (list Z)) :=
  match f with
  | Lit v signed => let '(vs, x) := litValue vs v signed in Some (vs, [[x]])
  | And subs => cnfAnd cnfRec subs vs []
  | Or subs => cnfOr cnfRec subs vs [] []
  | trueConst => Some (vs, [])
  | falseConst => Some (vs, [[]])
  | _ => None
  end.

(** [type cnf struct] (bf.go:351) and [asCnf] (bf.go:381). [f.nnf()] is
    run with twice the depth of [f] as fuel. *)
Record cnf : Type := { cnf_vars : vars; clauses : list (list Z) }.

Definition asCnf (f : Formula) : option cnf :=
  match nnf (2 * depth f) f with
  | Some g =>
      match cnfRec g {| all := ∅; pb := ∅ |} with
      | Some (vs, cls) => Some {| cnf_vars := vs; clauses := cls |}
      | None => None
      end
  | None => None
  end.

(** The variables of a formula, in order, with repetitions. *)
Fixpoint fvars (f : Formula) : list variable :=
  match f with
  | Var x => [x]
  | Lit x _ => [x]
  | Not g => fvars g
  | And subs => concat (map fvars subs)
  | Or subs => concat (map fvars subs)
  | _ => []
  end.

(** The numbering that [litValue] and [vars.dummy] keep: the indices are
    1 to [len(all)], one per variable; [pb] is a part of [all]; and what
    is in [all] but not in [pb] are the dummies, ["dummy-k"] for index
    [k]. *)
Record numbered (vs : vars) : Prop := {
  nb_range : forall v val, all vs !! v = Some val -> 1 <= val <= Z.of_nat (size (all vs));
  nb_inj : forall v w val, all vs !! v = Some val -> all vs !! w = Some val -> v = w;
  nb_pb : forall v val, pb vs !! v = Some val -> all vs !! v = Some val;
  nb_dummy : forall (k val : Z),
      all vs !! dummyVar ("dummy-" +:+ pretty k) = Some val -> val = k;
  nb_all : forall v val,
      all vs !! v = Some val ->
      pb vs !! v = Some val \/ v = dummyVar ("dummy-" +:+ pretty val) }.

(** [x] is a literal over the indices of [vs]. *)
Definition indexed (vs : vars) (x : Z) : Prop :=
  1 <= Z.abs x <= Z.of_nat (size (all vs)).

(** [v] is not one of the names that [vars.dummy] makes up. *)
Definition notGenerated (v : variable) : Prop :=
  forall k : Z, v <> dummyVar ("dummy-" +:+ pretty k).

(** A model of the clauses: [m] gives each index its value, a positive
    int of a clause stands for the variable of that index and a negative
    one for its negation. [readBack] is the valuation of the problem's
    variables that [cnf.solve] (bf.go:374) reads off a model, the value at
    [idx] for each [v, idx] of [pb]. *)
Definition litHolds (m : Z -> bool) (x : Z) : bool :=
  if 0 <? x then m x else negb (m (- x)).
Definition clauseHolds (m : Z -> bool) (c : list Z) : bool := existsb (litHolds m) c.
Definition cnfHolds (m : Z -> bool) (cs : list (list Z)) : bool :=
  forallb (clauseHolds m) cs.
Definition readBack (vs : vars) (m : Z -> bool) (v : variable) : bool :=
  match pb vs !! v with Some idx => m idx | None => false end.

(** The formulas for which [cnfRec] returns one clause: a literal or a
    disjunction of literals. [supported] are the formulas in which the
    conjunctions met in a disjunction have only such subformulas, the ones
    of which [cnfRec(sub2, vars)[0]] (bf.go:412) is the whole result. *)
Definition isLit (f : Formula) : bool :=
  match f with Lit _ _ => true | _ => false end.
Definition clausal (f : Formula) : bool :=
  match f with
  | Lit _ _ => true
  | Or subs => forallb isLit subs
  | _ => false
  end.
Fixpoint supported (f : Formula) : bool :=
  match f with
  | trueConst | falseConst | Lit _ _ => true
  | And subs => forallb supported subs
  | Or subs =>
      forallb (fun sub => match sub with
                          | Lit _ _ => true
                          | And subs2 => forallb clausal subs2
                          | _ => false
                          end) subs
  | _ => false
  end.

(** [m] gives the variables of [pb] the values that [rho] gives them;
    [m'] is [m] on the indices of [vs]. *)
Definition agrees (rho : variable -> bool) (vs : vars) (m : Z -> bool) : Prop :=
  forall v idx, pb vs !! v = Some idx -> m idx = rho v.
Definition sameOn (vs : vars) (m m' : Z -> bool) : Prop :=
  forall idx, 1 <= idx <= Z.of_nat (size (all vs)) -> m' idx = m idx.

End bf.

(* ===================================================================== *)
(** * Package [solver] (solver/solver.go)                                 *)
(* ===================================================================== *)

Module solver.

(** ** Go's [int]

    [int] is taken to be 64 bits wide: sums, differences, products and
    negations wrap around. *)
Definition wrap (z : Z) : Z := (z + 2 ^ 63) `mod` 2 ^ 64 - 2 ^ 63.
Definition add (a b : Z) : Z := wrap (a + b).
Definition sub (a b : Z) : Z := wrap (a - b).
Definition mul (a b : Z) : Z := wrap (a * b).
Definition neg (a : Z) : Z := wrap (- a).

(** [int32(x)]: the low 32 bits, signed. *)
Definition wrap32 (z : Z) : Z := (z + 2 ^ 31) `mod` 2 ^ 32 - 2 ^ 31.

(** ** Outcomes of a call

    [Ret a]: the call returns [a]. [Panic]: a run-time panic (index out of
    range, division by zero, the [panic] of [Model]). [OutOfFuel]: the
    bound put on the loops of this embedding was reached. [Blocked]: the
    goroutine is blocked for ever (a send on a nil channel). *)
Inductive result (A : Type) : Type :=
| Ret (a : A)
| Panic
| OutOfFuel
| Blocked.
Arguments Ret {A} a.
Arguments Panic {A}.
Arguments OutOfFuel {A}.
Arguments Blocked {A}.

Definition bind {A B : Type} (m : result A) (k : A -> result B) : result B :=
  match m with
  | Ret a => k a
  | Panic => Panic
  | OutOfFuel => OutOfFuel
  | Blocked => Blocked
  end.

Notation "x <- m ; k" := (bind m (fun x => k))
  (at level 20, m at level 100, k at level 200, only parsing).
Notation "' pat <- m ; k" := (bind m (fun x => match x with pat => k end))
  (at level 20, pat pattern, m at level 100, k at level 200, only parsing).

(** [l[i]] and [l[i] = x] on a slice: out of range is a panic. *)
Definition idx {A : Type} (l : list A) (i : Z) : result A :=
  if i <? 0 then Panic
  else match l !! Z.to_nat i with
       | Some x => Ret x
       | None => Panic
       end.

Definition upd {A : Type} (l : list A) (i : Z) (x : A) : result (list A) :=
  if i <? 0 then Panic
  else if (Z.to_nat i <? length l)%nat then Ret (<[Z.to_nat i := x]> l)
  else Panic.

(** [copy(dst, src)]: the first [min(len(dst), len(src))] elements. *)
Definition copySlice {A : Type} (dst src : list A) : list A :=
  take (length dst) src ++ drop (length src) dst.

(** ** Types declared in files other than solver.go *)

(** Modelled from the spec: the [Status] of a solver (section 4.6: status
    is one of Indet, Sat, Unsat); its declaration is not in solver.go. *)
Inductive Status : Type := Indet | Sat | Unsat.

#[global] Instance Status_eq_dec : EqDecision Status.
Proof. solve_decision. Defined.

(** Modelled from the spec: [Var] and [Lit] (section 4.1), declared outside
    solver.go. A variable is an index; the literal of variable [v] is
    [2v + sign bit], the bit being set for the negated literal; the external
    representation of a literal is plus or minus [v + 1]. *)
Abbreviation Var := Z.
Abbreviation Lit := Z.

Definition Lit_Var (l : Lit) : Var := l `quot` 2.
Definition IsPositive (l : Lit) : bool := l `rem` 2 =? 0.
Definition Negation (l : Lit) : Lit := Z.lxor l 1.
Definition SignedLit (v : Var) (signed : bool) : Lit :=
  if signed then 2 * v + 1 else 2 * v.
Definition IntToLit (i : Z) : Lit :=
  if i <? 0 then 2 * (- i - 1) + 1 else 2 * (i - 1).

(** [type decLevel int] *)
Abbreviation decLevel := Z.

(** Modelled from the spec: [lvlToSignedLvl] (section 3, assignment level:
    the magnitude is the level, the sign the truth value); it is defined
    outside solver.go. *)
Definition lvlToSignedLvl (l : Lit) (lvl : decLevel) : decLevel :=
  if IsPositive l then lvl else neg lvl.

(** Modelled from the spec: the constraint object [Clause] (sections 3 and
    4.2), declared outside solver.go. One layout for clauses, cardinality
    and PB constraints: every literal carries a weight (1 by default), the
    threshold is [cardinality], and the lock is a counter. A [*Clause] is an
    index into the [heap] of the solver. *)
Record Clause : Type := {
  terms : list (Lit * Z);
  cardinality : Z;
  pseudoBoolean : bool;
  isLearned : bool;
  lbdValue : Z;
  lockCount : Z }.

Abbreviation cid := nat.

Definition lits (c : Clause) : list Lit := (terms c).*1.
Definition Len (c : Clause) : nat := length (terms c).
Definition Get (c : Clause) (i : Z) : result Lit :=
  t <- idx (terms c) i ; Ret (fst t).
Definition Weight (c : Clause) (i : Z) : result Z :=
  t <- idx (terms c) i ; Ret (snd t).
Definition First (c : Clause) : result Lit := Get c 0.

Definition set_terms (ts : list (Lit * Z)) (c : Clause) : Clause :=
  {| terms := ts; cardinality := cardinality c;
     pseudoBoolean := pseudoBoolean c; isLearned := isLearned c;
     lbdValue := lbdValue c; lockCount := lockCount c |}.
Definition set_lockCount (n : Z) (c : Clause) : Clause :=
  {| terms := terms c; cardinality := cardinality c;
     pseudoBoolean := pseudoBoolean c; isLearned := isLearned c;
     lbdValue := lbdValue c; lockCount := n |}.

(** [removeLit(i)]: the literal in slot [i] (and its weight) leaves the
    constraint; the last literal takes its slot. *)
Definition removeLit (c : Clause) (i : Z) : result Clause :=
  _ <- idx (terms c) i ;
  match last (terms c) with
  | Some t =>
      ts <- upd (terms c) i t ;
      Ret (set_terms (take (length ts - 1)%nat ts) c)
  | None => Panic
  end.

Definition updateCardinality (c : Clause) (a : Z) : Clause :=
  {| terms := terms c; cardinality := add (cardinality c) a;
     pseudoBoolean := pseudoBoolean c; isLearned := isLearned c;
     lbdValue := lbdValue c; lockCount := lockCount c |}.

Definition lock (c : Clause) : Clause := set_lockCount (add (lockCount c) 1) c.
Definition unlock (c : Clause) : Clause := set_lockCount (sub (lockCount c) 1) c.

(** [NewClause(lits)]: a plain clause. *)
Definition mkClause (ls : list Lit) : Clause :=
  {| terms := (fun l => (l, 1)) <$> ls; cardinality := 1;
     pseudoBoolean := false; isLearned := false;
     lbdValue := 0; lockCount := 0 |}.

(** [NewPBClause(lits, weights, card)]; its code is in clause.go, which is
    not under src/. Modelled from the spec (section 3: a pseudo-Boolean
    constraint has a weight per literal, a cardinality constraint has all
    weights 1): a nil [weights] is [None] and gives every literal the weight
    1; a slice that is not nil, [Some], holds the weights, one per literal:
    the constructor indexes it, and panics (index out of range) when it is
    empty or of another length than the literals. *)
Definition mkPBClause (ls : list Lit) (ws : option (list Z)) (card : Z) : result Clause :=
  match ws with
  | None => Ret {| terms := (fun l => (l, 1)) <$> ls; cardinality := card;
                   pseudoBoolean := true; isLearned := false;
                   lbdValue := 0; lockCount := 0 |}
  | Some ws =>
      if (length ws =? 0)%nat then Panic
      else if (length ls =? length ws)%nat
           then Ret {| terms := zip ls ws; cardinality := card;
                       pseudoBoolean := true; isLearned := false;
                       lbdValue := 0; lockCount := 0 |}
           else Panic
  end.

(** ** The solver

    [Stats], as in solver.go. *)
Record Stats : Type := {
  NbRestarts : Z;
  NbConflicts : Z;
  NbDecisions : Z;
  NbUnitLearned : Z;
  NbBinaryLearned : Z;
  NbLearned : Z;
  NbDeleted : Z }.

(** The state of the files that are not part of this development: the
    per-literal watch lists of the watcher list, the variable-order heap
    ([queue]) and the restart statistics ([lbdStats]). Their representation
    is left open. *)
Record EngineTypes : Type := {
  watchIndex : Type;
  queue : Type;
  lbdStatsT : Type }.

(** The fields of [watcherList] that solver.go reads and writes
    ([pbClauses], [learned], [idxReduce], [nbMax]); the watch lists
    themselves are the component [windex]. *)
Record watcherList (T : EngineTypes) : Type := {
  pbClauses : list cid;
  learned : list cid;
  idxReduce : Z;
  nbMax : Z;
  windex : watchIndex T }.
Arguments pbClauses {T} _.
Arguments learned {T} _.
Arguments idxReduce {T} _.
Arguments nbMax {T} _.
Arguments windex {T} _.

(** [type Solver struct]. [heap] holds the [Clause] objects the pointers of
    [reason] and of the watcher list refer to. [nil] slices that the code
    tests for ([lastModel], [minLits], [minWeights]) are [None]. Left out:
    [Verbose] (it only starts the goroutine that prints statistics) and
    [activity], [varInc], [clauseInc] (floating-point heuristics, not read by
    any function embedded here). *)
Record Solver (T : EngineTypes) : Type := {
  nbVars : nat;
  status : Status;
  wl : watcherList T;
  trail : list Lit;
  model : list decLevel;
  lastModel : option (list decLevel);
  polarity : list bool;
  reason : list (option cid);
  varQueue : queue T;
  lbdStats : lbdStatsT T;
  stats : Stats;
  minLits : option (list Lit);
  minWeights : option (list Z);
  asumptions : list Lit;
  localNbRestarts : Z;
  heap : list Clause }.
Arguments nbVars {T} _.
Arguments status {T} _.
Arguments wl {T} _.
Arguments trail {T} _.
Arguments model {T} _.
Arguments lastModel {T} _.
Arguments polarity {T} _.
Arguments reason {T} _.
Arguments varQueue {T} _.
Arguments lbdStats {T} _.
Arguments stats {T} _.
Arguments minLits {T} _.
Arguments minWeights {T} _.
Arguments asumptions {T} _.
Arguments localNbRestarts {T} _.
Arguments heap {T} _.

(** The missing functions of the package, as solver.go calls them. The
    methods of [queue] and of [lbdStats] act on their own field; the methods
    of [*Solver] take and return the solver and may panic. [learnClause]
    returns the learned clause (or nil) and the unit literal. *)
Record EngineOps (T : EngineTypes) : Type := {
  q_contains : queue T -> Z -> bool;
  q_insert : queue T -> Z -> queue T;
  q_empty : queue T -> bool;
  q_removeMin : queue T -> Z * queue T;
  q_build : queue T -> list Z -> queue T;
  lbd_mustRestart : lbdStatsT T -> bool;
  lbd_clear : lbdStatsT T -> lbdStatsT T;
  lbd_addConflict : lbdStatsT T -> Z -> lbdStatsT T;
  lbd_addLbd : lbdStatsT T -> Z -> lbdStatsT T;
  unifyLiteral : Solver T -> Lit -> decLevel -> result (Solver T * option cid);
  learnClause : Solver T -> cid -> decLevel -> result (Solver T * option cid * Lit);
  appendClause : Solver T -> cid -> result (Solver T);
  addLearned : Solver T -> cid -> result (Solver T);
  reduceLearned : Solver T -> result (Solver T);
  bumpNbMax : Solver T -> result (Solver T);
  tryUnwatchClause : Solver T -> cid -> result (Solver T) }.
Arguments q_contains {T} _.
Arguments q_insert {T} _.
Arguments q_empty {T} _.
Arguments q_removeMin {T} _.
Arguments q_build {T} _.
Arguments lbd_mustRestart {T} _.
Arguments lbd_clear {T} _.
Arguments lbd_addConflict {T} _.
Arguments lbd_addLbd {T} _.
Arguments unifyLiteral {T} _.
Arguments learnClause {T} _.
Arguments appendClause {T} _.
Arguments addLearned {T} _.
Arguments reduceLearned {T} _.
Arguments bumpNbMax {T} _.
Arguments tryUnwatchClause {T} _.

Section Setters.
Context {T : EngineTypes}.

Definition set_status (x : Status) (s : Solver T) : Solver T :=
  {| nbVars := nbVars s; status := x; wl := wl s; trail := trail s;
     model := model s; lastModel := lastModel s; polarity := polarity s;
     reason := reason s; varQueue := varQueue s; lbdStats := lbdStats s;
     stats := stats s; minLits := minLits s; minWeights := minWeights s;
     asumptions := asumptions s; localNbRestarts := localNbRestarts s;
     heap := heap s |}.
Definition set_wl (x : watcherList T) (s : Solver T) : Solver T :=
  {| nbVars := nbVars s; status := status s; wl := x; trail := trail s;
     model := model s; lastModel := lastModel s; polarity := polarity s;
     reason := reason s; varQueue := varQueue s; lbdStats := lbdStats s;
     stats := stats s; minLits := minLits s; minWeights := minWeights s;
     asumptions := asumptions s; localNbRestarts := localNbRestarts s;
     heap := heap s |}.
Definition set_trail (x : list Lit) (s : Solver T) : Solver T :=
  {| nbVars := nbVars s; status := status s; wl := wl s; trail := x;
     model := model s; lastModel := lastModel s; polarity := polarity s;
     reason := reason s; varQueue := varQueue s; lbdStats := lbdStats s;
     stats := stats s; minLits := minLits s; minWeights := minWeights s;
     asumptions := asumptions s; localNbRestarts := localNbRestarts s;
     heap := heap s |}.
Definition set_model (x : list decLevel) (s : Solver T) : Solver T :=
  {| nbVars := nbVars s; status := status s; wl := wl s; trail := trail s;
     model := x; lastModel := lastModel s; polarity := polarity s;
     reason := reason s; varQueue := varQueue s; lbdStats := lbdStats s;
     stats := stats s; minLits := minLits s; minWeights := minWeights s;
     asumptions := asumptions s; localNbRestarts := localNbRestarts s;
     heap := heap s |}.
Definition set_lastModel (x : option (list decLevel)) (s : Solver T) : Solver T :=
  {| nbVars := nbVars s; status := status s; wl := wl s; trail := trail s;
     model := model s; lastModel := x; polarity := polarity s;
     reason := reason s; varQueue := varQueue s; lbdStats := lbdStats s;
     stats := stats s; minLits := minLits s; minWeights := minWeights s;
     asumptions := asumptions s; localNbRestarts := localNbRestarts s;
     heap := heap s |}.
Definition set_polarity (x : list bool) (s : Solver T) : Solver T :=
  {| nbVars := nbVars s; status := status s; wl := wl s; trail := trail s;
     model := model s; lastModel := lastModel s; polarity := x;
     reason := reason s; varQueue := varQueue s; lbdStats := lbdStats s;
     stats := stats s; minLits := minLits s; minWeights := minWeights s;
     asumptions := asumptions s; localNbRestarts := localNbRestarts s;
     heap := heap s |}.
Definition set_reason (x : list (option cid)) (s : Solver T) : Solver T :=
  {| nbVars := nbVars s; status := status s; wl := wl s; trail := trail s;
     model := model s; lastModel := lastModel s; polarity := polarity s;
     reason := x; varQueue := varQueue s; lbdStats := lbdStats s;
     stats := stats s; minLits := minLits s; minWeights := minWeights s;
     asumptions := asumptions s; localNbRestarts := localNbRestarts s;
     heap := heap s |}.
Definition set_varQueue (x : queue T) (s : Solver T) : Solver T :=
  {| nbVars := nbVars s; status := status s; wl := wl s; trail := trail s;
     model := model s; lastModel := lastModel s; polarity := polarity s;
     reason := reason s; varQueue := x; lbdStats := lbdStats s;
     stats := stats s; minLits := minLits s; minWeights := minWeights s;
     asumptions := asumptions s; localNbRestarts := localNbRestarts s;
     heap := heap s |}.
Definition set_lbdStats (x : lbdStatsT T) (s : Solver T) : Solver T :=
  {| nbVars := nbVars s; status := status s; wl := wl s; trail := trail s;
     model := model s; lastModel := lastModel s; polarity := polarity s;
     reason := reason s; varQueue := varQueue s; lbdStats := x;
     stats := stats s; minLits := minLits s; minWeights := minWeights s;
     asumptions := asumptions s; localNbRestarts := localNbRestarts s;
     heap := heap s |}.
Definition set_stats (x : Stats) (s : Solver T) : Solver T :=
  {| nbVars := nbVars s; status := status s; wl := wl s; trail := trail s;
     model := model s; lastModel := lastModel s; polarity := polarity s;
     reason := reason s; varQueue := varQueue s; lbdStats := lbdStats s;
     stats := x; minLits := minLits s; minWeights := minWeights s;
     asumptions := asumptions s; localNbRestarts := localNbRestarts s;
     heap := heap s |}.
Definition set_asumptions (x : list Lit) (s : Solver T) : Solver T :=
  {| nbVars := nbVars s; status := status s; wl := wl s; trail := trail s;
     model := model s; lastModel := lastModel s; polarity := polarity s;
     reason := reason s; varQueue := varQueue s; lbdStats := lbdStats s;
     stats := stats s; minLits := minLits s; minWeights := minWeights s;
     asumptions := x; localNbRestarts := localNbRestarts s;
     heap := heap s |}.
Definition set_localNbRestarts (x : Z) (s : Solver T) : Solver T :=
  {| nbVars := nbVars s; status := status s; wl := wl s; trail := trail s;
     model := model s; lastModel := lastModel s; polarity := polarity s;
     reason := reason s; varQueue := varQueue s; lbdStats := lbdStats s;
     stats := stats s; minLits := minLits s; minWeights := minWeights s;
     asumptions := asumptions s; localNbRestarts := x;
     heap := heap s |}.
Definition set_heap (x : list Clause) (s : Solver T) : Solver T :=
  {| nbVars := nbVars s; status := status s; wl := wl s; trail := trail s;
     model := model s; lastModel := lastModel s; polarity := polarity s;
     reason := reason s; varQueue := varQueue s; lbdStats := lbdStats s;
     stats := stats s; minLits := minLits s; minWeights := minWeights s;
     asumptions := asumptions s; localNbRestarts := localNbRestarts s;
     heap := x |}.

Definition set_pbClauses (x : list cid) (w : watcherList T) : watcherList T :=
  {| pbClauses := x; learned := learned w; idxReduce := idxReduce w;
     nbMax := nbMax w; windex := windex w |}.
Definition set_learned (x : list cid) (w : watcherList T) : watcherList T :=
  {| pbClauses := pbClauses w; learned := x; idxReduce := idxReduce w;
     nbMax := nbMax w; windex := windex w |}.
Definition set_idxReduce (x : Z) (w : watcherList T) : watcherList T :=
  {| pbClauses := pbClauses w; learned := learned w; idxReduce := x;
     nbMax := nbMax w; windex := windex w |}.

End Setters.

Definition incrRestarts (st : Stats) : Stats :=
  {| NbRestarts := add (NbRestarts st) 1; NbConflicts := NbConflicts st;
     NbDecisions := NbDecisions st; NbUnitLearned := NbUnitLearned st;
     NbBinaryLearned := NbBinaryLearned st; NbLearned := NbLearned st;
     NbDeleted := NbDeleted st |}.
Definition incrConflicts (st : Stats) : Stats :=
  {| NbRestarts := NbRestarts st; NbConflicts := add (NbConflicts st) 1;
     NbDecisions := NbDecisions st; NbUnitLearned := NbUnitLearned st;
     NbBinaryLearned := NbBinaryLearned st; NbLearned := NbLearned st;
     NbDeleted := NbDeleted st |}.
Definition incrDecisions (st : Stats) : Stats :=
  {| NbRestarts := NbRestarts st; NbConflicts := NbConflicts st;
     NbDecisions := add (NbDecisions st) 1; NbUnitLearned := NbUnitLearned st;
     NbBinaryLearned := NbBinaryLearned st; NbLearned := NbLearned st;
     NbDeleted := NbDeleted st |}.
Definition incrUnitLearned (st : Stats) : Stats :=
  {| NbRestarts := NbRestarts st; NbConflicts := NbConflicts st;
     NbDecisions := NbDecisions st; NbUnitLearned := add (NbUnitLearned st) 1;
     NbBinaryLearned := NbBinaryLearned st; NbLearned := NbLearned st;
     NbDeleted := NbDeleted st |}.
Definition incrBinaryLearned (st : Stats) : Stats :=
  {| NbRestarts := NbRestarts st; NbConflicts := NbConflicts st;
     NbDecisions := NbDecisions st; NbUnitLearned := NbUnitLearned st;
     NbBinaryLearned := add (NbBinaryLearned st) 1; NbLearned := NbLearned st;
     NbDeleted := NbDeleted st |}.
Definition incrLearned (st : Stats) : Stats :=
  {| NbRestarts := NbRestarts st; NbConflicts := NbConflicts st;
     NbDecisions := NbDecisions st; NbUnitLearned := NbUnitLearned st;
     NbBinaryLearned := NbBinaryLearned st; NbLearned := add (NbLearned st) 1;
     NbDeleted := NbDeleted st |}.

(** Left fold of a step that may fail: the shape of the [for ... range]
    loops below. *)
Fixpoint foldM {A B : Type} (f : A -> B -> result A) (a : A) (l : list B)
  : result A :=
  match l with
  | [] => Ret a
  | b :: l' => a' <- f a b ; foldM f a' l'
  end.

Section Functions.
Context {T : EngineTypes} (E : EngineOps T).

(** Dereference of a [*Clause], and the write through it. An index that is
    not in the heap stands for a nil pointer. *)
Definition deref (s : Solver T) (c : cid) : result Clause :=
  match heap s !! c with
  | Some cl => Ret cl
  | None => Panic
  end.

Definition store (s : Solver T) (c : cid) (cl : Clause) : Solver T :=
  set_heap (<[c := cl]> (heap s)) s.

(** A new object on the heap. *)
Definition alloc (s : Solver T) (cl : Clause) : Solver T * cid :=
  (set_heap (heap s ++ [cl]) s, length (heap s)).

(** [resetOptimPolarity] (solver.go:128). *)
Definition resetOptimPolarity (s : Solver T) : result (Solver T) :=
  match minLits s with
  | None => Ret s
  | Some ls =>
      pol <- foldM (fun pol lit => upd pol (Lit_Var lit) (negb (IsPositive lit)))
                   (polarity s) ls ;
      Ret (set_polarity pol s)
  end.

(** [litStatus] (solver.go:166). *)
Definition litStatus (s : Solver T) (l : Lit) : result Status :=
  assign <- idx (model s) (Lit_Var l) ;
  if assign =? 0 then Ret Indet
  else if Bool.eqb (0 <? assign) (IsPositive l) then Ret Sat
  else Ret Unsat.

(** [chooseLit] (solver.go:214). The loop empties the queue until it finds
    a free variable; [fuel] bounds its iterations. *)
Fixpoint chooseVar (fuel : nat) (m : list decLevel) (q : queue T)
  : result (Var * queue T) :=
  if q_empty E q then Ret (-1, q)
  else match fuel with
       | O => OutOfFuel
       | S n =>
           let '(v2, q') := q_removeMin E q in
           a <- idx m v2 ;
           if a =? 0 then
             (* the loop stops as soon as [v] is not -1 *)
             if v2 =? -1 then chooseVar n m q' else Ret (v2, q')
           else chooseVar n m q'
       end.

Definition chooseLit (fuel : nat) (s : Solver T) : result (Solver T * Lit) :=
  '(v, q) <- chooseVar fuel (model s) (varQueue s) ;
  let s := set_varQueue q s in
  if v =? -1 then Ret (s, -1)
  else
    p <- idx (polarity s) v ;
    Ret (set_stats (incrDecisions (stats s)) s, SignedLit v (negb p)).

(** [abs] (solver.go:228). *)
Definition abs (val : decLevel) : decLevel :=
  if val <? 0 then neg val else val.

(** [cleanupBindings] (solver.go:237).

    The outer loop looks for the first literal of the trail bound beyond
    [lvl]; [splitTrail] returns the literals before it and the literals from
    it on. The model is only written after the scan has stopped. *)
Fixpoint splitTrail (m : list decLevel) (lvl : decLevel) (tr : list Lit)
  : result (list Lit * list Lit) :=
  match tr with
  | [] => Ret ([], [])
  | lit :: tr' =>
      a <- idx m (Lit_Var lit) ;
      if lvl <? abs a then Ret ([], lit :: tr')
      else '(keep, undo) <- splitTrail m lvl tr' ; Ret (lit :: keep, undo)
  end.

(** The body of the inner loop, for the literal [lit2 = s.trail[j]]. *)
Definition unbind (st : Solver T * list Z) (lit2 : Lit)
  : result (Solver T * list Z) :=
  let '(s, toInsert) := st in
  let v := Lit_Var lit2 in
  m <- upd (model s) v 0 ;
  let s := set_model m s in
  r <- idx (reason s) v ;
  s <- match r with
       | Some c =>
           cl <- deref s c ;
           let s := store s c (unlock cl) in
           rs <- upd (reason s) v None ;
           Ret (set_reason rs s)
       | None => Ret s
       end ;
  pol <- upd (polarity s) v (IsPositive lit2) ;
  let s := set_polarity pol s in
  if q_contains E (varQueue s) v then Ret (s, toInsert)
  else Ret (set_varQueue (q_insert E (varQueue s) v) s, toInsert ++ [v]).

Definition cleanupBindings (lvl : decLevel) (s : Solver T) : result (Solver T) :=
  '(keep, undo) <- splitTrail (model s) lvl (trail s) ;
  '(s, toInsert) <- foldM unbind (s, []) undo ;
  let s := set_trail keep s in
  let s := set_varQueue (foldl (q_insert E) (varQueue s) (reverse toInsert)) s in
  resetOptimPolarity s.

(** [backtrackData] (solver.go:284). *)
Definition backtrackData (c : Clause) (m : list decLevel) : result (decLevel * Lit) :=
  l1 <- Get c 1 ;
  a <- idx m (Lit_Var l1) ;
  l0 <- Get c 0 ;
  Ret (abs a, l0).

(** [rebuildOrderHeap] (solver.go:289). [make([]int, s.nbVars)] has
    [nbVars] zeros already, and the free variables are appended to them. *)
Definition rebuildOrderHeap (s : Solver T) : result (Solver T) :=
  ints <- foldM (fun ints v =>
                   a <- idx (model s) (Z.of_nat v) ;
                   if a =? 0 then Ret (ints ++ [Z.of_nat v]) else Ret ints)
                (replicate (nbVars s) 0) (seq 0 (nbVars s)) ;
  Ret (set_varQueue (q_build E (varQueue s) ints) s).

(** [satClause] (solver.go:300). *)
Fixpoint satLits (m : list decLevel) (ls : list Lit) : result bool :=
  match ls with
  | [] => Ret false
  | lit :: ls' =>
      assign <- idx m (Lit_Var lit) ;
      if (assign =? 1) && IsPositive lit || (assign =? -1) && negb (IsPositive lit)
      then Ret true
      else satLits m ls'
  end.

Definition satClause (s : Solver T) (c : Clause) : result bool :=
  if (Len c =? 2)%nat || negb (cardinality c =? 1) || pseudoBoolean c
  then Ret false
  else satLits (model s) (lits c).

(** [rmSatClauses] (solver.go:317). The two loops are the same code on
    [s.wl.pbClauses] and on [s.wl.learned]; [get] and [set] select the
    slice. An iteration either advances [i] or lowers [j]: [fuel] is the
    length of the slice. *)
Fixpoint rmSatLoop (get : watcherList T -> list cid)
    (set : list cid -> watcherList T -> watcherList T)
    (fuel : nat) (s : Solver T) (i j : Z) : result (Solver T * Z) :=
  if i <=? j then
    match fuel with
    | O => OutOfFuel
    | S n =>
        c <- idx (get (wl s)) i ;
        cl <- deref s c ;
        b <- satClause s cl ;
        if b then
          cj <- idx (get (wl s)) j ;
          cs <- upd (get (wl s)) i cj ;
          let s := set_wl (set cs (wl s)) s in
          s <- tryUnwatchClause E s c ;
          cl <- deref s c ;
          f <- First cl ;
          r <- idx (reason s) (Lit_Var f) ;
          s <- (if decide (r = Some c)
                then rs <- upd (reason s) (Lit_Var f) None ; Ret (set_reason rs s)
                else Ret s) ;
          rmSatLoop get set n s i (j - 1)
        else rmSatLoop get set n s (i + 1) j
    end
  else Ret (s, j).

Definition rmSatClauses (s : Solver T) : result (Solver T) :=
  let n := length (pbClauses (wl s)) in
  '(s, j) <- rmSatLoop pbClauses set_pbClauses n s 0 (Z.of_nat n - 1) ;
  let s := set_wl (set_pbClauses (take (Z.to_nat (j + 1)) (pbClauses (wl s))) (wl s)) s in
  let n := length (learned (wl s)) in
  '(s, j) <- rmSatLoop learned set_learned n s 0 (Z.of_nat n - 1) ;
  Ret (set_wl (set_learned (take (Z.to_nat (j + 1)) (learned (wl s))) (wl s)) s).

(** [propagateUnits] (solver.go:606). *)
Fixpoint propagateUnits (s : Solver T) (units : list Lit) : result (Solver T) :=
  match units with
  | [] => Ret s
  | unit :: units' =>
      let s := set_lbdStats (lbd_addLbd E (lbdStats s) 1) s in
      let s := set_stats (incrUnitLearned (stats s)) s in
      s <- cleanupBindings 1 s ;
      m <- upd (model s) (Lit_Var unit) (lvlToSignedLvl unit 1) ;
      let s := set_model m s in
      '(s, conflict) <- unifyLiteral E s unit 1 ;
      match conflict with
      | Some _ => Ret (set_status Unsat s)
      | None => s <- rebuildOrderHeap s ; propagateUnits s units'
      end
  end.

(** [propagateAndSearch] (solver.go:353). [fuel] bounds the iterations of
    [for lit != -1]. The update of the package variable [varDecay] every
    5000 conflicts is left out: nothing embedded here reads it. *)
Fixpoint propagateAndSearch (fuel : nat) (s : Solver T) (lit : Lit) (lvl : decLevel)
  : result (Solver T * Status) :=
  if lit =? -1 then Ret (s, Sat)
  else
    match fuel with
    | O => OutOfFuel
    | S n =>
        '(s, conflict) <- unifyLiteral E s lit lvl ;
        match conflict with
        | None =>
            if lbd_mustRestart E (lbdStats s) then
              let s := set_lbdStats (lbd_clear E (lbdStats s)) s in
              s <- cleanupBindings 1 s ;
              Ret (s, Indet)
            else
              s <- (if mul (idxReduce (wl s)) (nbMax (wl s)) <=? NbConflicts (stats s)
                    then
                      if nbMax (wl s) =? 0 then Panic
                      else
                        let r := add (wrap (NbConflicts (stats s) `quot` nbMax (wl s))) 1 in
                        let s := set_wl (set_idxReduce r (wl s)) s in
                        s <- reduceLearned E s ;
                        bumpNbMax E s
                    else Ret s) ;
              let lvl := add lvl 1 in
              '(s, lit) <- chooseLit n s ;
              propagateAndSearch n s lit lvl
        | Some conflict =>
            let s := set_stats (incrConflicts (stats s)) s in
            let s := set_lbdStats
                       (lbd_addConflict E (lbdStats s) (Z.of_nat (length (trail s)))) s in
            '(s, learnt, unit) <- learnClause E s conflict lvl ;
            match learnt with
            | None =>
                let s := set_stats (incrUnitLearned (stats s)) s in
                let s := set_lbdStats (lbd_addLbd E (lbdStats s) 1) s in
                s <- cleanupBindings 1 s ;
                m <- upd (model s) (Lit_Var unit) (lvlToSignedLvl unit 1) ;
                let s := set_model m s in
                '(s, conflict) <- unifyLiteral E s unit 1 ;
                match conflict with
                | Some _ => Ret (set_status Unsat s, Unsat)
                | None =>
                    (* the call of rmSatClauses is commented out here *)
                    s <- rebuildOrderHeap s ;
                    '(s, lit) <- chooseLit n s ;
                    propagateAndSearch n s lit 2
                end
            | Some learnt =>
                cl <- deref s learnt ;
                let s := if (Len cl =? 2)%nat
                         then set_stats (incrBinaryLearned (stats s)) s else s in
                let s := set_stats (incrLearned (stats s)) s in
                let s := set_lbdStats (lbd_addLbd E (lbdStats s) (lbdValue cl)) s in
                s <- addLearned E s learnt ;
                cl <- deref s learnt ;
                '(lvl, lit) <- backtrackData cl (model s) ;
                s <- cleanupBindings lvl s ;
                rs <- upd (reason s) (Lit_Var lit) (Some learnt) ;
                let s := set_reason rs s in
                cl <- deref s learnt ;
                let s := store s learnt (lock cl) in
                propagateAndSearch n s lit lvl
            end
        end
    end.

(** [search] (solver.go:407); the status it returns is [s.status]. *)
Definition search (fuel : nat) (s : Solver T) : result (Solver T) :=
  let s := set_localNbRestarts (add (localNbRestarts s) 1) s in
  '(s, lit) <- chooseLit fuel s ;
  '(s, st) <- propagateAndSearch fuel s lit 2 ;
  Ret (set_status st s).

(** [Solve] (solver.go:415); [fuel] bounds the restarts. The [Verbose]
    branches only print. *)
Fixpoint solveLoop (fuel : nat) (s : Solver T) : result (Solver T) :=
  match status s with
  | Indet =>
      match fuel with
      | O => OutOfFuel
      | S n =>
          s <- search n s ;
          match status s with
          | Indet =>
              let s := set_stats (incrRestarts (stats s)) s in
              s <- rebuildOrderHeap s ;
              solveLoop n s
          | _ => solveLoop n s
          end
      end
  | _ => Ret s
  end.

Definition Solve (fuel : nat) (s : Solver T) : result (Solver T * Status) :=
  match status s with
  | Unsat => Ret (s, status s)
  | _ =>
      let s := set_status Indet s in
      let s := set_localNbRestarts 0 s in
      s <- solveLoop fuel s ;
      let s := match status s with
               | Sat => set_lastModel
                          (Some (copySlice (replicate (length (model s)) 0) (model s))) s
               | _ => s
               end in
      Ret (s, status s)
  end.

(** [decisionLits] (solver.go:589); [decisionStep] is the body of its loop
    [for i, r := range s.reason]. *)
Definition decisionStep (s : Solver T) (ls : list Lit) (ir : nat * option cid)
  : result (list Lit) :=
  let '(i, r) := ir in
  a <- idx (model s) (Z.of_nat i) ;
  let lvl := abs a in
  match r with
  | None =>
      if 1 <? lvl then
        if a <? 0
        then upd ls (sub lvl 2) (IntToLit (wrap32 (Z.of_nat i + 1)))
        else upd ls (sub lvl 2) (IntToLit (wrap32 (- Z.of_nat i - 1)))
      else Ret ls
  | Some _ => Ret ls
  end.

Definition decisionLits (s : Solver T) : result (list Lit) :=
  lastLit <- idx (trail s) (Z.of_nat (length (trail s)) - 1) ;
  a <- idx (model s) (Lit_Var lastLit) ;
  let lvls := abs a in
  if sub lvls 1 <? 0 then Panic
  else
    foldM (decisionStep s)
          (replicate (Z.to_nat (sub lvls 1)) 0)
          (zip (seq 0 (length (reason s))) (reason s)).

(** [Model] (solver.go:698) and [ModelMap] (solver.go:711). *)
Definition Model (s : Solver T) : result (list bool) :=
  match lastModel s with
  | None => Panic
  | Some lm =>
      foldM (fun res '(i, lvl) => upd res (Z.of_nat i) (0 <? lvl))
            (replicate (nbVars s) false)
            (zip (seq 0 (length lm)) lm)
  end.

Definition ModelMap (s : Solver T) : result (gmap Z bool) :=
  match lastModel s with
  | None => Panic
  | Some lm =>
      Ret (foldl (fun res '(i, lvl) => <[Z.of_nat i + 1 := (0 <? lvl)]> res)
                 ∅ (zip (seq 0 (length lm)) lm))
  end.

(** [AppendClause] (solver.go:660). The loop either advances [i] or takes a
    literal out of the constraint: [fuel] is the length of the constraint. *)
Fixpoint appendScan (fuel : nat) (s : Solver T) (cl : Clause) (i minW maxW : Z)
  : result (Clause * Z * Z) :=
  if i <? Z.of_nat (Len cl) then
    match fuel with
    | O => OutOfFuel
    | S n =>
        lit <- Get cl i ;
        st <- litStatus s lit ;
        match st with
        | Sat =>
            w <- Weight cl i ;
            cl' <- removeLit cl i ;
            appendScan n s (updateCardinality cl' (neg w)) i (add minW w) (add maxW w)
        | Unsat =>
            cl' <- removeLit cl i ;
            appendScan n s cl' i minW maxW
        | Indet =>
            w <- Weight cl i ;
            appendScan n s cl (add i 1) minW (add maxW w)
        end
    end
  else Ret (cl, minW, maxW).

Definition AppendClause (s : Solver T) (c : cid) : result (Solver T) :=
  s <- cleanupBindings 1 s ;
  cl <- deref s c ;
  let card := cardinality cl in
  '(cl', minW, maxW) <- appendScan (Len cl) s cl 0 0 0 ;
  let s := store s c cl' in
  if card <=? minW then Ret s
  else if maxW <? card then Ret (set_status Unsat s)
  else if maxW =? card then propagateUnits s (lits cl')
  else appendClause E s c.

(** The code that follows a model in [Enumerate] (solver.go:493-509) and,
    word for word, in [CountModels] (solver.go:561-577): [s.status = Indet],
    then the [switch] on the number of decision literals. [NewClause] is
    taken to keep its own copy of [lits]. *)
Definition blockModel (fuel : nat) (s : Solver T) : result (Solver T) :=
  let s := set_status Indet s in
  ls <- decisionLits s ;
  match ls with
  | [] => Ret (set_status Unsat s)
  | [_] => propagateUnits s ls
  | _ =>
      let '(s, c) := alloc s (mkClause ls) in
      s <- appendClause E s c ;
      lit <- idx ls (Z.of_nat (length ls) - 1) ;
      let v := Lit_Var lit in
      a <- idx (model s) v ;
      let lvl := sub (abs a) 1 in
      s <- cleanupBindings lvl s ;
      rs <- upd (reason s) v (Some c) ;
      let s := set_reason rs s in
      '(s, _) <- propagateAndSearch fuel s lit lvl ;
      Ret s
  end.

(** The inner loop of [Enumerate] and [CountModels]:
    [for s.status == Indet { s.search(); ... }]. *)
Fixpoint searchLoop (fuel : nat) (s : Solver T) : result (Solver T) :=
  match status s with
  | Indet =>
      match fuel with
      | O => OutOfFuel
      | S n =>
          s <- search n s ;
          match status s with
          | Indet => searchLoop n (set_stats (incrRestarts (stats s)) s)
          | _ => searchLoop n s
          end
      end
  | _ => Ret s
  end.

(** A channel is the list of the values sent on it so far; the nil channel
    is [None], and a send on it blocks for ever. Receivers and [close] are
    not part of the embedding. *)
Definition send {A : Type} (ch : option (list A)) (x : A) : result (option (list A)) :=
  match ch with
  | None => Blocked
  | Some sent => Ret (Some (sent ++ [x]))
  end.

(** [copy(s.lastModel, s.model)]. *)
Definition saveModel (s : Solver T) : Solver T :=
  set_lastModel (match lastModel s with
                 | None => None
                 | Some dst => Some (copySlice dst (model s))
                 end) s.

(** [Enumerate] (solver.go:472). The [stop] channel is never read. *)
Fixpoint enumLoop (fuel : nat) (s : Solver T) (nb : Z) (models : option (list (gmap Z bool)))
  : result (Solver T * Z * option (list (gmap Z bool))) :=
  match status s with
  | Unsat => Ret (s, nb, models)
  | _ =>
      match fuel with
      | O => OutOfFuel
      | S n =>
          s <- searchLoop n s ;
          match status s with
          | Sat =>
              let nb := add nb 1 in
              '(s, models) <-
                 match models with
                 | None => Ret (s, models)
                 | Some _ =>
                     let s := saveModel s in
                     mm <- ModelMap s ;
                     models <- send models mm ;
                     Ret (s, models)
                 end ;
              s <- blockModel n s ;
              enumLoop n s nb models
          | _ => enumLoop n s nb models
          end
      end
  end.

Definition Enumerate (fuel : nat) (s : Solver T) (models : option (list (gmap Z bool)))
  : result (Solver T * Z * option (list (gmap Z bool))) :=
  let s := set_lastModel (Some (replicate (length (model s)) 0)) s in
  '(s, _) <- chooseLit fuel s ;
  enumLoop fuel s 0 models.

(** [CountModels] (solver.go:516). *)
Fixpoint countLoop (fuel : nat) (s : Solver T) (nb : Z) : result (Solver T * Z) :=
  match status s with
  | Unsat => Ret (s, nb)
  | _ =>
      match fuel with
      | O => OutOfFuel
      | S n =>
          s <- searchLoop n s ;
          match status s with
          | Sat =>
              let nb := add nb 1 in
              s <- blockModel n s ;
              countLoop n s nb
          | _ => countLoop n s nb
          end
      end
  end.

Definition CountModels (fuel : nat) (s : Solver T) : result (Solver T * Z) :=
  '(s, _) <- chooseLit fuel s ;
  countLoop fuel s 0.

(** [sort.Sort(wLits{lits, weights})] (solver.go:854-865): [Less] compares
    [weights[i] > weights[j]], [Swap] swaps both slices. The library calls
    [Less] on every index as soon as there are two elements, so weights
    shorter than the literals make it panic. The library does not fix the
    order of entries of equal weight; [sortWLits] keeps their order. *)
Fixpoint insertDesc (p : Lit * Z) (l : list (Lit * Z)) : list (Lit * Z) :=
  match l with
  | [] => [p]
  | q :: l' => if snd p <=? snd q then q :: insertDesc p l' else p :: q :: l'
  end.

Definition sortDesc (l : list (Lit * Z)) : list (Lit * Z) :=
  foldl (fun acc p => insertDesc p acc) [] l.

Definition sortWLits (ls : list Lit) (ws : list Z) : result (list Lit * list Z) :=
  let n := length ls in
  if (n <=? 1)%nat then Ret (ls, ws)
  else if (length ws <? n)%nat then Panic
  else
    let sorted := sortDesc (zip ls (take n ws)) in
    Ret (sorted.*1, sorted.*2 ++ drop n ws).

(** The objective: [s.minLits] as a list, and the lines that [Optimal]
    (solver.go:743-758) and [Minimize] (solver.go:806-821) share before
    their loop. They return [maxCost] and the sorted copy [weights]. *)
Definition objLits (s : Solver T) : list Lit :=
  match minLits s with
  | None => []
  | Some ls => ls
  end.

Definition objWeights (s : Solver T) : list Z :=
  match minWeights s with
  | None => []
  | Some ws => ws
  end.

Definition optimSetup (s : Solver T) : result (Solver T * Z * list Z) :=
  let maxCost := match minWeights s with
                 | None => Z.of_nat (length (objLits s))
                 | Some ws => foldl add 0 ws
                 end in
  let asum := Negation <$> objLits s in
  let weights := objWeights s in
  '(asum, weights) <- sortWLits asum weights ;
  let s := set_asumptions asum s in
  let s := set_lastModel (Some (replicate (length (model s)) 0)) s in
  Ret (s, maxCost, weights).

(** The cost of the current model: the [for i, lit := range s.minLits] loop
    of both functions. *)
Definition modelCost (s : Solver T) : result Z :=
  foldM (fun cost '(i, lit) =>
           a <- idx (model s) (Lit_Var lit) ;
           if Bool.eqb (0 <? a) (IsPositive lit) then
             match minWeights s with
             | None => Ret (add cost 1)
             | Some ws => w <- idx ws (Z.of_nat i) ; Ret (add cost w)
             end
           else Ret cost)
        0 (zip (seq 0 (length (objLits s))) (objLits s)).

(** The constraint both loops append: [lits2] and [weights2] are copies of
    [s.asumptions] and [weights], the threshold is [maxCost-cost+1].
    [weights2] is made by [make([]int, len(s.minWeights))]: it is never nil,
    and it is empty when the objective has no weights. *)
Definition tighten (s : Solver T) (maxCost : Z) (weights : list Z) (cost : Z)
  : result (Solver T) :=
  let lits2 := copySlice (replicate (length (objLits s)) 0) (asumptions s) in
  let weights2 := copySlice (replicate (length (objWeights s)) 0) weights in
  cl <- mkPBClause lits2 (Some weights2) (add (sub maxCost cost) 1) ;
  let '(s, c) := alloc s cl in
  s <- AppendClause s c ;
  rebuildOrderHeap s.

(** [type Result struct]. *)
Record Result : Type := {
  r_Status : Status;
  r_Model : option (gmap Z bool);
  r_Weight : Z }.

(** [Optimal] (solver.go:725); [fuel] bounds the iterations of
    [for status == Sat] and is handed to every [Solve]. *)
Fixpoint optimalLoop (fuel : nat) (maxCost : Z) (weights : list Z)
    (s : Solver T) (status : Status) (models : option (list Result)) (res : Result)
  : result (Solver T * option (list Result) * Result) :=
  match status with
  | Sat =>
      match fuel with
      | O => OutOfFuel
      | S n =>
          let s := saveModel s in
          cost <- modelCost s ;
          mm <- ModelMap s ;
          let res := {| r_Status := Sat; r_Model := Some mm; r_Weight := cost |} in
          models <- send models res ;
          if cost =? 0 then Ret (s, models, res)
          else
            s <- tighten s maxCost weights cost ;
            '(s, status) <- Solve n s ;
            optimalLoop n maxCost weights s status models res
      end
  | _ => Ret (s, models, res)
  end.

Definition Optimal (fuel : nat) (s : Solver T) (models : option (list Result))
  : result (Solver T * option (list Result) * Result) :=
  '(s, status) <- Solve fuel s ;
  match status with
  | Unsat => Ret (s, models, {| r_Status := Unsat; r_Model := None; r_Weight := 0 |})
  | _ =>
      match minLits s with
      | None =>
          let s := set_lastModel
                     (Some (copySlice (replicate (length (model s)) 0) (model s))) s in
          mm <- ModelMap s ;
          Ret (s, models, {| r_Status := Sat; r_Model := Some mm; r_Weight := 0 |})
      | Some _ =>
          '(s, maxCost, weights) <- optimSetup s ;
          optimalLoop fuel maxCost weights s status models
                      {| r_Status := Indet; r_Model := None; r_Weight := 0 |}
      end
  end.

(** [Minimize] (solver.go:798). *)
Fixpoint minimizeLoop (fuel : nat) (maxCost : Z) (weights : list Z)
    (s : Solver T) (status : Status) (cost : Z) : result (Solver T * Z) :=
  match status with
  | Sat =>
      match fuel with
      | O => OutOfFuel
      | S n =>
          let s := saveModel s in
          cost <- modelCost s ;
          if cost =? 0 then Ret (s, 0)
          else
            s <- tighten s maxCost weights cost ;
            '(s, status) <- Solve n s ;
            minimizeLoop n maxCost weights s status cost
      end
  | _ => Ret (s, cost)
  end.

Definition Minimize (fuel : nat) (s : Solver T) : result (Solver T * Z) :=
  '(s, status) <- Solve fuel s ;
  match status with
  | Unsat => Ret (s, -1)
  | _ =>
      match minLits s with
      | None => Ret (s, 0)
      | Some _ =>
          '(s, maxCost, weights) <- optimSetup s ;
          minimizeLoop fuel maxCost weights s status 0
      end
  end.

End Functions.

(** ** Invariants of the solver state, and what a backtrack undoes *)

Section Invariants.
Context {T : EngineTypes}.

(** [v] is an index of a slice of length [n]. *)
Definition inRange (n : nat) (v : Z) : Prop := 0 <= v /\ (Z.to_nat v < n)%nat.

(** The level at which the variable of [l] is bound: [abs(model[l.Var()])]. *)
Definition levelOf (m : list decLevel) (l : Lit) : decLevel :=
  abs (default 0 (m !! Z.to_nat (Lit_Var l))).

(** The slices indexed by variable have the length of the model, the
    literals of the trail and of the objective are literals of variables of
    the solver, and the reasons point into the heap. *)
Record wfBindings (s : Solver T) : Prop := {
  wf_reason : length (reason s) = length (model s);
  wf_polarity : length (polarity s) = length (model s);
  wf_trail : Forall (fun l => inRange (length (model s)) (Lit_Var l)) (trail s);
  wf_obj : Forall (fun l => inRange (length (model s)) (Lit_Var l))
                  (match minLits s with Some ls => ls | None => [] end);
  wf_heap : Forall (fun r => match r with
                             | Some c => (c < length (heap s))%nat
                             | None => True
                             end) (reason s) }.

(** Trail-model consistency (spec, section 8), the half that a backtrack
    relies on: a bound variable has a literal on the trail. *)
Definition trailCoversModel (s : Solver T) : Prop :=
  forall (i : nat) (a : decLevel),
    model s !! i = Some a -> a <> 0 -> Z.of_nat i ∈ Lit_Var <$> trail s.

(** The trail is in the order of the levels (spec, section 3). *)
Definition levelsSorted (s : Solver T) : Prop :=
  StronglySorted Z.le (levelOf (model s) <$> trail s).

(** The literals of the trail bound beyond [lvl], and the number of them
    whose reason is the clause [c]. *)
Definition undone (lvl : decLevel) (s : Solver T) : list Lit :=
  filter (fun l => lvl < levelOf (model s) l) (trail s).

Definition released (lvl : decLevel) (s : Solver T) (c : cid) : nat :=
  length (filter (fun l => reason s !! Z.to_nat (Lit_Var l) = Some (Some c))
                 (undone lvl s)).

(** What [cleanupBindings] needs of the missing [queue]: a variable is in
    the heap once inserted, and an insertion removes nothing. *)
Record queueLaws (E : EngineOps T) : Prop := {
  q_insert_same : forall q v, q_contains E (q_insert E q v) v = true;
  q_insert_keeps : forall q v w,
      q_contains E q w = true -> q_contains E (q_insert E q v) w = true }.

(** *** Section 4.10 of the spec in its own words

    The append-clause operation as the spec describes it, to be compared
    with [AppendClause] above: the value of a literal under the top-level
    assignment, the weight already satisfied, the literals that remain, and
    the four ways the reduced constraint is dealt with. *)

(** The value of [l] under [m]; an unbound variable gives Indet. *)
Definition statusOf (m : list decLevel) (l : Lit) : Status :=
  match m !! Z.to_nat (Lit_Var l) with
  | Some a =>
      if a =? 0 then Indet
      else if Bool.eqb (0 <? a) (IsPositive l) then Sat
      else Unsat
  | None => Indet
  end.

Definition sumW (ts : list (Lit * Z)) : Z :=
  foldr (fun t acc => snd t + acc) 0 ts.

Definition satTerms (m : list decLevel) (ts : list (Lit * Z)) : list (Lit * Z) :=
  filter (fun t => statusOf m (fst t) = Sat) ts.

Definition freeTerms (m : list decLevel) (ts : list (Lit * Z)) : list (Lit * Z) :=
  filter (fun t => statusOf m (fst t) = Indet) ts.

Inductive appendCase : Type :=
| AlreadySat
| MakesUnsat
| AllForced
| Attach.

(** Reduced cardinality: the threshold less the weight satisfied at the top
    level. Reduced max-weight: the weight of the literals that remain. *)
Definition appendVerdict (m : list decLevel) (cl : Clause) : appendCase :=
  let card' := cardinality cl - sumW (satTerms m (terms cl)) in
  let max' := sumW (freeTerms m (terms cl)) in
  if card' <=? 0 then AlreadySat
  else if max' <? card' then MakesUnsat
  else if max' =? card' then AllForced
  else Attach.

(** Weights are not negative, and the numbers of the constraint are far
    from the bounds of [int]. *)
Record boundedClause (cl : Clause) : Prop := {
  bc_weights : Forall (fun t => 0 <= snd t) (terms cl);
  bc_sum : sumW (terms cl) + Z.of_nat (length (terms cl)) < 2 ^ 62;
  bc_card : - 2 ^ 62 < cardinality cl < 2 ^ 62 }.

(** *** What the search leaves alone

    [p] is a view of the solver that the writes of the search do not reach:
    it ignores the fields that [propagateAndSearch] and the functions it
    calls assign ([status], [trail], [model], [polarity], [reason],
    [varQueue], [lbdStats], [Stats], [localNbRestarts], the clause objects
    and [wl.idxReduce]). *)
Record viewKept {A : Type} (p : Solver T -> A) : Prop := {
  vk_status : forall x s, p (set_status x s) = p s;
  vk_trail : forall x s, p (set_trail x s) = p s;
  vk_model : forall x s, p (set_model x s) = p s;
  vk_polarity : forall x s, p (set_polarity x s) = p s;
  vk_reason : forall x s, p (set_reason x s) = p s;
  vk_varQueue : forall x s, p (set_varQueue x s) = p s;
  vk_lbdStats : forall x s, p (set_lbdStats x s) = p s;
  vk_stats : forall x s, p (set_stats x s) = p s;
  vk_localNbRestarts : forall x s, p (set_localNbRestarts x s) = p s;
  vk_heap : forall x s, p (set_heap x s) = p s;
  vk_idxReduce : forall x s, p (set_wl (set_idxReduce x (wl s)) s) = p s }.

(** The missing functions that the search calls leave the view [p] as it
    is. *)
Record searchKeeps {A : Type} (E : EngineOps T) (p : Solver T -> A) : Prop := {
  sk_unify : forall s l k s' c, unifyLiteral E s l k = Ret (s', c) -> p s' = p s;
  sk_learn : forall s c k s' r u, learnClause E s c k = Ret (s', r, u) -> p s' = p s;
  sk_addLearned : forall s c s', addLearned E s c = Ret s' -> p s' = p s;
  sk_reduce : forall s s', reduceLearned E s = Ret s' -> p s' = p s;
  sk_bump : forall s s', bumpNbMax E s = Ret s' -> p s' = p s }.

(** The fields that only the drivers of solver.go write: the number of
    variables, the objective and the assumptions built from it; and the
    saved model. *)
Definition objView (s : Solver T) : nat * option (list Lit) * option (list Z) * list Lit :=
  (nbVars s, minLits s, minWeights s, asumptions s).

Definition savedView (s : Solver T)
  : nat * option (list Lit) * option (list Z) * list Lit * option (list decLevel) :=
  (objView s, lastModel s).

(** The missing functions do not write the fields of the drivers. *)
Record engineFrame (E : EngineOps T) : Prop := {
  ef_search : searchKeeps E savedView;
  ef_append : forall s c s', appendClause E s c = Ret s' -> savedView s' = savedView s }.

(** The database of problem constraints, which the missing functions of
    the search leave as it is. *)
Definition problemDB (s : Solver T) : list cid := pbClauses (wl s).

(** *** The objective (spec, section 4.9) in its own words *)

(** The weights of the objective literals, 1 by default. *)
Definition effWeights (s : Solver T) : list Z :=
  match minWeights s with
  | Some ws => ws
  | None => replicate (length (objLits s)) 1
  end.

Definition sumZ (ws : list Z) : Z := foldr Z.add 0 ws.

(** [maxCost]: the sum of all objective weights. *)
Definition maxCostOf (s : Solver T) : Z := sumZ (effWeights s).

(** [l] is true in the model [m] of levels, as the cost loop reads it. *)
Definition litTrueIn (m : list decLevel) (l : Lit) : bool :=
  Bool.eqb (0 <? default 0 (m !! Z.to_nat (Lit_Var l))) (IsPositive l).

(** The cost of a model: the sum of the weights of the objective literals
    that are true in it. *)
Definition objCost (s : Solver T) (m : list decLevel) : Z :=
  sumW (filter (fun t => litTrueIn m (fst t) = true)
               (zip (objLits s) (effWeights s))).

(** The same for the Boolean model that [Model] returns. *)
Definition litTrueInBools (bs : list bool) (l : Lit) : bool :=
  Bool.eqb (default false (bs !! Z.to_nat (Lit_Var l))) (IsPositive l).

Definition boolCost (s : Solver T) (bs : list bool) : Z :=
  sumW (filter (fun t => litTrueInBools bs (fst t) = true)
               (zip (objLits s) (effWeights s))).

(** Every objective literal has a weight, weights are not negative and
    their sum is far from the bounds of [int]. *)
Record boundedObjective (s : Solver T) : Prop := {
  bo_len : length (effWeights s) = length (objLits s);
  bo_pos : Forall (fun w => 0 <= w) (effWeights s);
  bo_sum : sumZ (effWeights s) + Z.of_nat (length (objLits s)) < 2 ^ 62 }.

(** The constraint that forbids every model of cost [cost] or more: a PB
    constraint, not a learned one, over the negations of the objective
    literals with their weights, with threshold [maxCost - cost + 1]. *)
Definition isTightening (s : Solver T) (cost : Z) (cl : Clause) : Prop :=
  pseudoBoolean cl = true /\ isLearned cl = false /\
  terms cl ≡ₚ zip (Negation <$> objLits s) (effWeights s) /\
  cardinality cl = maxCostOf s - cost + 1.

(** *** Top-level simplification (spec, section 4.8) *)

(** [l] is assigned true at level 1. *)
Definition topLevelTrue (m : list decLevel) (l : Lit) : Prop :=
  m !! Z.to_nat (Lit_Var l) = Some (if IsPositive l then 1 else -1).

(** The clause [c] of the heap is one that [satClause] finds satisfied. *)
Definition topSat (s : Solver T) (c : cid) : bool :=
  match heap s !! c with
  | Some cl =>
      match satClause s cl with
      | Ret b => b
      | _ => false
      end
  | None => false
  end.

(** The constraints of both databases are on the heap and speak of
    variables of the solver. *)
Record wfClauses (s : Solver T) : Prop := {
  wfc_reason : length (reason s) = length (model s);
  wfc_clauses :
    Forall (fun c => exists cl,
                heap s !! c = Some cl /\
                Forall (fun l => inRange (length (model s)) (Lit_Var l)) (lits cl))
           (pbClauses (wl s) ++ learned (wl s)) }.

(** What [rmSatClauses] needs of the missing [tryUnwatchClause]: it
    returns, and it only touches the watch lists. *)
Record unwatchLaws (E : EngineOps T) : Prop := {
  unwatch_total : forall s c, exists s', tryUnwatchClause E s c = Ret s';
  unwatch_frame : forall s c s',
      tryUnwatchClause E s c = Ret s' ->
      model s' = model s /\ heap s' = heap s /\ reason s' = reason s /\
      pbClauses (wl s') = pbClauses (wl s) /\ learned (wl s') = learned (wl s) }.

(** *** Enumeration (spec, section 4.11) in its own words *)

(** [ds] lists the decision literals of [s], the decision of level [j + 2]
    in slot [j]: each is bound at its level and has no reason, no other
    variable bound beyond level 1 lacks a reason, and the last literal of
    the trail is bound at the highest level. *)
Record decisionTrail (s : Solver T) (ds : list Lit) : Prop := {
  dt_reason : (length (reason s) <= length (model s))%nat;
  dt_small : Z.of_nat (length (model s)) < 2 ^ 31 /\ Z.of_nat (length ds) < 2 ^ 31;
  dt_top : exists l a,
      last (trail s) = Some l /\ 0 <= Lit_Var l /\
      model s !! Z.to_nat (Lit_Var l) = Some a /\
      abs a = Z.of_nat (length ds) + 1;
  dt_dec : forall j d,
      ds !! j = Some d ->
      0 <= d /\ reason s !! Z.to_nat (Lit_Var d) = Some None /\
      model s !! Z.to_nat (Lit_Var d) = Some (lvlToSignedLvl d (Z.of_nat j + 2));
  dt_only : forall i a,
      reason s !! i = Some None -> model s !! i = Some a -> 1 < abs a ->
      exists j d, ds !! j = Some d /\ Lit_Var d = Z.of_nat i }.

(** *** The run of [Enumerate] in its own words

    [enumRun E s new s']: from the state [s] the loop of [Enumerate], with a
    channel, sends the models [new] in this order and stops in [s']. Each
    turn searches from the state that the turn before left; a search that
    ends in Sat copies its model into the saved model, sends the [ModelMap]
    of it and blocks that model before the next turn; the loop stops when
    the status is Unsat. *)
Inductive enumRun (E : EngineOps T)
  : Solver T -> list (gmap Z bool) -> Solver T -> Prop :=
| enumRun_stop (s : Solver T) :
    status s = Unsat -> enumRun E s [] s
| enumRun_again (n : nat) (s s1 : Solver T) (new : list (gmap Z bool)) (s' : Solver T) :
    status s <> Unsat -> searchLoop E n s = Ret s1 -> status s1 <> Sat ->
    enumRun E s1 new s' -> enumRun E s new s'
| enumRun_model (n : nat) (s s1 s2 : Solver T) (mm : gmap Z bool)
    (new : list (gmap Z bool)) (s' : Solver T) :
    status s <> Unsat -> searchLoop E n s = Ret s1 -> status s1 = Sat ->
    ModelMap (saveModel s1) = Ret mm ->
    blockModel E n (saveModel s1) = Ret s2 ->
    enumRun E s2 new s' -> enumRun E s (mm :: new) s'.

End Invariants.

(** ** A small instance of the missing files

    Used to run the drivers on concrete problems. The heap order is first
    in, first out (activities are not modelled), no restart is ever asked
    for, and propagation rescans every constraint instead of following
    watch lists. *)
Module Ref.

Definition refT : EngineTypes :=
  {| watchIndex := unit; queue := list Z; lbdStatsT := unit |}.

(** Modelled from the spec: the PB semantics of section 4.2, for the missing
    propagation of watcher.go. [possible] is the weight of the literals not
    assigned false. *)
Definition litFalse (m : list decLevel) (l : Lit) : bool :=
  match m !! Z.to_nat (Lit_Var l) with
  | Some a => negb (a =? 0) && negb (Bool.eqb (0 <? a) (IsPositive l))
  | None => false
  end.

Definition litFree (m : list decLevel) (l : Lit) : bool :=
  match m !! Z.to_nat (Lit_Var l) with
  | Some a => a =? 0
  | None => false
  end.

Definition possible (m : list decLevel) (ts : list (Lit * Z)) : Z :=
  foldr (fun t acc => if litFalse m (fst t) then acc else snd t + acc) 0 ts.

(** What one constraint asks for under [m]: nothing, a conflict, or a
    literal it forces (dropping it would bring [possible] below the
    threshold). *)
Inductive demand : Type := Quiet | Conflict | Force (l : Lit).

Definition scanClause (m : list decLevel) (cl : Clause) : demand :=
  let p := possible m (terms cl) in
  if p <? cardinality cl then Conflict
  else match List.find (fun t => litFree m (fst t) && (p - snd t <? cardinality cl))
                       (terms cl) with
       | Some t => Force (fst t)
       | None => Quiet
       end.

Fixpoint scanAll (m : list decLevel) (hp : list Clause) (cs : list cid)
  : option (cid * demand) :=
  match cs with
  | [] => None
  | c :: cs' =>
      match hp !! c with
      | Some cl =>
          match scanClause m cl with
          | Quiet => scanAll m hp cs'
          | d => Some (c, d)
          end
      | None => scanAll m hp cs'
      end
  end.

Fixpoint propagate (fuel : nat) (s : Solver refT) (lvl : decLevel)
  : result (Solver refT * option cid) :=
  match scanAll (model s) (heap s) (pbClauses (wl s) ++ learned (wl s)) with
  | None => Ret (s, None)
  | Some (c, Force l) =>
      match fuel with
      | O => OutOfFuel
      | S n =>
          m <- upd (model s) (Lit_Var l) (lvlToSignedLvl l lvl) ;
          rs <- upd (reason s) (Lit_Var l) (Some c) ;
          cl <- deref s c ;
          let s := set_model m s in
          let s := set_reason rs s in
          let s := store s c (lock cl) in
          propagate n (set_trail (trail s ++ [l]) s) lvl
      end
  | Some (c, _) => Ret (s, Some c)
  end.

(** Modelled from the spec: [unifyLiteral] (section 4.4: set
    [model[v]] to the signed level, push the literal on the trail, propagate
    all consequences; the conflicting constraint or nil is returned). *)
Definition ref_unifyLiteral (s : Solver refT) (l : Lit) (lvl : decLevel)
  : result (Solver refT * option cid) :=
  m <- upd (model s) (Lit_Var l) (lvlToSignedLvl l lvl) ;
  let s := set_model m s in
  let s := set_trail (trail s ++ [l]) s in
  propagate (S (length (model s))) s lvl.

(** The decision literals of the trail, one per level from [lvl] down:
    the first literal of the trail bound at a level is its decision. *)
Definition decisionAt (s : Solver refT) (k : decLevel) : option Lit :=
  List.find (fun l => match model s !! Z.to_nat (Lit_Var l) with
                      | Some a => abs a =? k
                      | None => false
                      end) (trail s).

Fixpoint decisionsDown (s : Solver refT) (n : nat) (k : decLevel) : list Lit :=
  match n with
  | O => []
  | S n' =>
      match decisionAt s k with
      | Some d => Negation d :: decisionsDown s n' (k - 1)
      | None => decisionsDown s n' (k - 1)
      end
  end.

(** In place of the first-UIP analysis of the missing learn.go: the clause
    learned from a conflict at level [lvl] is the disjunction of the negated
    decisions of levels [lvl] down to 2, the negation of the last decision
    in slot 0; a single decision gives a unit. *)
Definition ref_learnClause (s : Solver refT) (conflict : cid) (lvl : decLevel)
  : result (Solver refT * option cid * Lit) :=
  match decisionsDown s (Z.to_nat (lvl - 1)) lvl with
  | [] => Panic
  | [u] => Ret (s, None, u)
  | ls =>
      let cl := {| terms := (fun l => (l, 1)) <$> ls; cardinality := 1;
                   pseudoBoolean := false; isLearned := true;
                   lbdValue := Z.of_nat (length ls); lockCount := 0 |} in
      let '(s, c) := alloc s cl in
      Ret (s, Some c, hd 0 ls)
  end.

Definition ref_appendClause (s : Solver refT) (c : cid) : result (Solver refT) :=
  Ret (set_wl (set_pbClauses (pbClauses (wl s) ++ [c]) (wl s)) s).

Definition ref_addLearned (s : Solver refT) (c : cid) : result (Solver refT) :=
  Ret (set_wl (set_learned (learned (wl s) ++ [c]) (wl s)) s).

Definition refOps : EngineOps refT :=
  Build_EngineOps refT
    (fun (q : list Z) v => bool_decide (v ∈ q))
    (fun (q : list Z) v => q ++ [v])
    (fun (q : list Z) => match q with [] => true | _ => false end)
    (fun (q : list Z) => match q with [] => (-1, []) | v :: q' => (v, q') end)
    (fun (_ : list Z) ints => ints)
    (fun _ => false)
    (fun l => l)
    (fun l _ => l)
    (fun l _ => l)
    ref_unifyLiteral
    ref_learnClause
    ref_appendClause
    ref_addLearned
    (fun s => Ret s)
    (fun s => Ret s)
    (fun s _ => Ret s).

(** A solver over [nbVars] variables with the given constraints and
    objective, nothing assigned: what [New] builds from a [Problem]. *)
Definition mkSolver (n : nat) (cls : list Clause) (ml : option (list Lit))
    (mw : option (list Z)) : Solver refT :=
  Build_Solver refT n Indet
    (Build_watcherList refT (seq 0 (length cls)) [] 1 2000 ())
    [] (replicate n 0) None
    (foldl (fun pol lit => <[Z.to_nat (Lit_Var lit) := negb (IsPositive lit)]> pol)
           (replicate n false) (default [] ml))
    (replicate n None)
    (Z.of_nat <$> seq 0 n) ()
    {| NbRestarts := 0; NbConflicts := 0; NbDecisions := 0; NbUnitLearned := 0;
       NbBinaryLearned := 0; NbLearned := 0; NbDeleted := 0 |}
    ml mw [] 0 cls.

(** Example problems. [x1], [x2], [x3] are the positive literals of the
    variables 0, 1, 2 (DIMACS 1, 2, 3). *)
Definition x1 : Lit := IntToLit 1.
Definition x2 : Lit := IntToLit 2.
Definition x3 : Lit := IntToLit 3.

(** [x1 or x2], minimise [x1 + x2]. *)
Definition pbOr : Solver refT :=
  mkSolver 2 [mkClause [x1; x2]] (Some [x1; x2]) (Some [1; 1]).

(** One variable, no constraint, minimise [x1 + not x1]. *)
Definition pbBoth : Solver refT :=
  mkSolver 1 [] (Some [x1; Negation x1]) (Some [1; 1]).

(** One variable, no constraint, minimise [not x1 + 2 x1]. *)
Definition pbWorse : Solver refT :=
  mkSolver 1 [] (Some [Negation x1; x1]) (Some [1; 2]).

(** [x1 or x2 or x3], no objective. *)
Definition pbOr3 : Solver refT :=
  mkSolver 3 [mkClause [x1; x2; x3]] None None.

(** A solver in the middle of a search on three variables: [x1] was
    assigned at the top level, [x2] decided at level 2, and the clause
    [not x2 or not x3] then propagated [not x3]. *)
Definition midSearch : Solver refT :=
  let s := mkSolver 3 [lock (mkClause [Negation x3; Negation x2])] None None in
  @set_varQueue refT []
    (set_reason [None; None; Some 0%nat]
       (set_model [1; 2; -2] (set_trail [x1; x2; Negation x3] s))).

(** The same solver with the constraint [3 x1 + 2 x2 + x3 >= 4] on its
    heap, not yet appended. *)
Definition pbClause : Clause :=
  {| terms := [(x1, 3); (x2, 2); (x3, 1)]; cardinality := 4;
     pseudoBoolean := true; isLearned := false; lbdValue := 0; lockCount := 0 |}.

Definition midSearchPB : Solver refT :=
  set_heap (heap midSearch ++ [pbClause]) midSearch.

(** The same solver with the constraint [3 x1 + 2 not x2 + x3 >= 6] on its
    heap, not yet appended: with [x1] true it asks for both [not x2] and
    [x3]. *)
Definition pbForced : Clause :=
  {| terms := [(x1, 3); (Negation x2, 2); (x3, 1)]; cardinality := 6;
     pseudoBoolean := true; isLearned := false; lbdValue := 0; lockCount := 0 |}.

Definition midSearchForced : Solver refT :=
  set_heap (heap midSearch ++ [pbForced]) midSearch.

(** [(x1 or x2) and (x1 or not x2) and (x1 or x2 or x3)]: the first decision,
    [not x1], runs into a conflict and the unit [x1] is learned. *)
Definition pbUnit : Solver refT :=
  mkSolver 3 [mkClause [x1; x2]; mkClause [x1; Negation x2]; mkClause [x1; x2; x3]]
           None None.

(** The solver that [Solve] leaves on [pbUnit]. *)
Definition unitLearned : Solver refT :=
  match Solve refOps 20 pbUnit with
  | Ret (s, _) => s
  | _ => pbUnit
  end.

(** [x1 or x2], minimise [x1 + x2], no weights given. *)
Definition pbUnweighted : Solver refT :=
  mkSolver 2 [mkClause [x1; x2]] (Some [x1; x2]) None.

(** The solver that [Solve] leaves on [pbOr], and what the lines before
    the loop of [Minimize] make of it. *)
Definition solvedOr : Solver refT :=
  match Solve refOps 20 pbOr with
  | Ret (s, _) => s
  | _ => pbOr
  end.

Definition setupOr : Solver refT :=
  match optimSetup solvedOr with
  | Ret (s, _, _) => s
  | _ => solvedOr
  end.

(** The first model that [CountModels] finds on [pbOr3]. *)
Definition foundOr3 : Solver refT :=
  match ('(s, _) <- chooseLit refOps 50 pbOr3 ; searchLoop refOps 49 s) with
  | Ret s => s
  | _ => pbOr3
  end.

End Ref.

End solver.

(* ===================================================================== *)
(** * Facts about package [bf]                                            *)
(* ===================================================================== *)

Module BfFacts.
Import bf.

(** The loop of [and.nnf] leaves the accumulator alone on subformulas whose
    normal form is [True]. *)
Lemma and_loop_all_true (rec : Formula -> option Formula) (a res : list Formula) :
  Forall (fun s => rec s = Some trueConst) a ->
  and_loop rec a res = Some (and_finish res).
Proof.
  intros Hall. revert res.
  induction Hall as [|s a Hs _ IH]; intros res; simpl.
  - reflexivity.
  - rewrite Hs. apply IH.
Qed.

Lemma or_loop_all_false (rec : Formula -> option Formula) (o res : list Formula) :
  Forall (fun s => rec s = Some falseConst) o ->
  or_loop rec o res = Some (or_finish res).
Proof.
  intros Hall. revert res.
  induction Hall as [|s o Hs _ IH]; intros res; simpl.
  - reflexivity.
  - rewrite Hs. apply IH.
Qed.

(** C10. In package bf, the negation normal form of a conjunction all of
    whose subformulas normalise to [True] (in particular of the conjunction
    without subformulas, [And()]) is [False], and the normal form of a
    disjunction all of whose subformulas normalise to [False] (in particular
    of [Or()]) is [True]. *)
Theorem nnf_empty_or_trivial (n : nat) (conj disj : list Formula)
    (Hconj : Forall (fun s => nnf n s = Some trueConst) conj)
    (Hdisj : Forall (fun s => nnf n s = Some falseConst) disj) :
  nnf (S n) (And conj) = Some falseConst /\
  nnf (S n) (Or disj) = Some trueConst /\
  nnf (S n) (And []) = Some falseConst /\
  nnf (S n) (Or []) = Some trueConst.
Proof.
  repeat split; simpl.
  - rewrite (and_loop_all_true _ _ _ Hconj). reflexivity.
  - rewrite (or_loop_all_false _ _ _ Hdisj). reflexivity.
Qed.

(** The theorem at [And(True, Not(False))] and [Or(False, Not(True))]. *)
Lemma nnf_empty_or_trivial_witness :
  Forall (fun s => nnf 2 s = Some trueConst) [trueConst; Not falseConst] /\
  Forall (fun s => nnf 2 s = Some falseConst) [falseConst; Not trueConst] /\
  nnf 3 (And [trueConst; Not falseConst]) = Some falseConst /\
  nnf 3 (Or [falseConst; Not trueConst]) = Some trueConst.
Proof.
  assert (H1 : Forall (fun s => nnf 2 s = Some trueConst) [trueConst; Not falseConst])
    by (repeat constructor).
  assert (H2 : Forall (fun s => nnf 2 s = Some falseConst) [falseConst; Not trueConst])
    by (repeat constructor).
  split; [exact H1|]. split; [exact H2|].
  pose proof (nnf_empty_or_trivial 2 _ _ H1 H2) as (Ha & Ho & _).
  split; assumption.
Defined.

Local Open Scope nat_scope.

(** ** The shape of the normal form *)

Lemma normalIn_normal (f : Formula) : normalIn f = true -> normal f = true.
Proof. intros H. unfold normal. rewrite H. apply orb_true_r. Qed.

Lemma normal_not_const (f : Formula) :
  normal f = true -> isConst f = false -> normalIn f = true.
Proof. unfold normal. intros H Hc. rewrite Hc in H. exact H. Qed.

Lemma and_finish_normal (res : list Formula) :
  forallb (fun g => negb (isAnd g) && normalIn g) res = true ->
  normal (and_finish res) = true.
Proof.
  intros H. destruct res as [|r [|r' res]]; simpl in *.
  - reflexivity.
  - apply normalIn_normal. rewrite andb_true_r in H. apply andb_prop in H. tauto.
  - apply normalIn_normal. simpl. exact H.
Qed.

Lemma or_finish_normal (res : list Formula) :
  forallb (fun g => negb (isOr g) && normalIn g) res = true ->
  normal (or_finish res) = true.
Proof.
  intros H. destruct res as [|r [|r' res]]; simpl in *.
  - reflexivity.
  - apply normalIn_normal. rewrite andb_true_r in H. apply andb_prop in H. tauto.
  - apply normalIn_normal. simpl. exact H.
Qed.

Lemma and_loop_normal (rec : Formula -> option Formula) (a : list Formula) :
  (forall s r, s ∈ a -> rec s = Some r -> normal r = true) ->
  forall res r,
    forallb (fun g => negb (isAnd g) && normalIn g) res = true ->
    and_loop rec a res = Some r -> normal r = true.
Proof.
  induction a as [|s a IH]; intros Hrec res r Hres H; simpl in H.
  - injection H as <-. apply and_finish_normal. exact Hres.
  - assert (Hrec' : forall s0 r0, s0 ∈ a -> rec s0 = Some r0 -> normal r0 = true).
    { intros s0 r0 Hin. apply Hrec. right. exact Hin. }
    destruct (rec s) as [r'|] eqn:Hs; [|discriminate].
    pose proof (Hrec s r' ltac:(left) Hs) as Hn.
    assert (Hdefault : isConst r' = false -> isAnd r' = false ->
                       and_loop rec a (res ++ [r']) = Some r -> normal r = true).
    { intros Hc Ha. apply (IH Hrec'). rewrite forallb_app, Hres. simpl.
      rewrite Ha, (normal_not_const _ Hn Hc). reflexivity. }
    destruct r'; try (apply Hdefault; [reflexivity|reflexivity|exact H]).
    + exact (IH Hrec' _ _ Hres H).
    + injection H as <-. reflexivity.
    + apply (IH Hrec' (res ++ subs) r); [|exact H].
      rewrite forallb_app, Hres. simpl.
      pose proof (normal_not_const _ Hn eq_refl) as Hin. simpl in Hin.
      apply andb_prop in Hin. tauto.
Qed.

Lemma or_loop_normal (rec : Formula -> option Formula) (o : list Formula) :
  (forall s r, s ∈ o -> rec s = Some r -> normal r = true) ->
  forall res r,
    forallb (fun g => negb (isOr g) && normalIn g) res = true ->
    or_loop rec o res = Some r -> normal r = true.
Proof.
  induction o as [|s o IH]; intros Hrec res r Hres H; simpl in H.
  - injection H as <-. apply or_finish_normal. exact Hres.
  - assert (Hrec' : forall s0 r0, s0 ∈ o -> rec s0 = Some r0 -> normal r0 = true).
    { intros s0 r0 Hin. apply Hrec. right. exact Hin. }
    destruct (rec s) as [r'|] eqn:Hs; [|discriminate].
    pose proof (Hrec s r' ltac:(left) Hs) as Hn.
    assert (Hdefault : isConst r' = false -> isOr r' = false ->
                       or_loop rec o (res ++ [r']) = Some r -> normal r = true).
    { intros Hc Ha. apply (IH Hrec'). rewrite forallb_app, Hres. simpl.
      rewrite Ha, (normal_not_const _ Hn Hc). reflexivity. }
    destruct r'; try (apply Hdefault; [reflexivity|reflexivity|exact H]).
    + injection H as <-. reflexivity.
    + exact (IH Hrec' _ _ Hres H).
    + apply (IH Hrec' (res ++ subs) r); [|exact H].
      rewrite forallb_app, Hres. simpl.
      pose proof (normal_not_const _ Hn eq_refl) as Hin. simpl in Hin.
      apply andb_prop in Hin. tauto.
Qed.

Lemma nnf_result_normal (fuel : nat) (f r : Formula) :
  nnf fuel f = Some r -> normal r = true.
Proof.
  revert f r. induction fuel as [|n IH]; intros f r H; [discriminate|].
  simpl in H. destruct f as [| |v|v s|g|a|o].
  - injection H as <-. reflexivity.
  - injection H as <-. reflexivity.
  - injection H as <-. reflexivity.
  - injection H as <-. reflexivity.
  - destruct g as [| |v|v s|h|subs|subs].
    + injection H as <-. reflexivity.
    + injection H as <-. reflexivity.
    + injection H as <-. reflexivity.
    + injection H as <-. reflexivity.
    + exact (IH _ _ H).
    + destruct (nnf_each (nnf n) subs); [|discriminate]. exact (IH _ _ H).
    + destruct (nnf_each (nnf n) subs); [|discriminate]. exact (IH _ _ H).
  - apply (and_loop_normal (nnf n) a (fun s r _ => IH s r) [] r eq_refl H).
  - apply (or_loop_normal (nnf n) o (fun s r _ => IH s r) [] r eq_refl H).
Qed.

(** X1. Whatever [nnf] returns is in negation normal form: a constant, or a
    formula built from literals with conjunctions and disjunctions of two
    subformulas or more, none nested in one of its own kind. No [Var], no
    [Not] and no constant is left inside. *)
Theorem nnf_normal (fuel : nat) (f r : Formula)
    (Hrun : nnf fuel f = Some r) :
  normal r = true.
Proof. exact (nnf_result_normal fuel f r Hrun). Qed.

(** ** [nnf] keeps the truth value *)

Lemma and_finish_eval (v : variable -> bool) (res : list Formula) :
  res <> [] -> eval v (and_finish res) = forallb (eval v) res.
Proof.
  destruct res as [|r [|r' res]]; intros H; simpl; [congruence| |reflexivity].
  rewrite andb_true_r. reflexivity.
Qed.

Lemma or_finish_eval (v : variable -> bool) (res : list Formula) :
  res <> [] -> eval v (or_finish res) = existsb (eval v) res.
Proof.
  destruct res as [|r [|r' res]]; intros H; simpl; [congruence| |reflexivity].
  rewrite orb_false_r. reflexivity.
Qed.

Lemma and_finish_plain (res : list Formula) :
  res <> [] -> forallb plain res = true -> plain (and_finish res) = true.
Proof.
  destruct res as [|r [|r' res]]; intros H Hp; simpl in *; [congruence| |exact Hp].
  rewrite andb_true_r in Hp. exact Hp.
Qed.

Lemma or_finish_plain (res : list Formula) :
  res <> [] -> forallb plain res = true -> plain (or_finish res) = true.
Proof.
  destruct res as [|r [|r' res]]; intros H Hp; simpl in *; [congruence| |exact Hp].
  rewrite andb_true_r in Hp. exact Hp.
Qed.

Lemma plain_not_const (f : Formula) : plain f = true -> isConst f = false.
Proof. destruct f; simpl; congruence. Qed.

Lemma plain_And (l : list Formula) :
  plain (And l) = true -> l <> [] /\ forallb plain l = true.
Proof.
  simpl. intros H. apply andb_prop in H as [H1 H2]. split; [|exact H2].
  intros ->. discriminate.
Qed.

Lemma plain_Or (l : list Formula) :
  plain (Or l) = true -> l <> [] /\ forallb plain l = true.
Proof.
  simpl. intros H. apply andb_prop in H as [H1 H2]. split; [|exact H2].
  intros ->. discriminate.
Qed.

Lemma and_loop_eval (rec : Formula -> option Formula) (a : list Formula) :
  (forall s r, s ∈ a -> rec s = Some r ->
               plain r = true /\ forall v, eval v r = eval v s) ->
  forall res r,
    forallb plain res = true -> res ++ a <> [] ->
    and_loop rec a res = Some r ->
    plain r = true /\ forall v, eval v r = forallb (eval v) (res ++ a).
Proof.
  induction a as [|s a IH]; intros Hrec res r Hres Hne H; simpl in H.
  - injection H as <-. rewrite app_nil_r in *. split.
    + apply and_finish_plain; assumption.
    + intros v. apply and_finish_eval. exact Hne.
  - assert (Hrec' : forall s0 r0, s0 ∈ a -> rec s0 = Some r0 ->
                                  plain r0 = true /\ forall v, eval v r0 = eval v s0).
    { intros s0 r0 Hin. apply Hrec. right. exact Hin. }
    destruct (rec s) as [r'|] eqn:Hs; [|discriminate].
    destruct (Hrec s r' ltac:(left) Hs) as [Hp He].
    assert (Hdefault : and_loop rec a (res ++ [r']) = Some r ->
                       plain r = true /\
                       forall v, eval v r = forallb (eval v) (res ++ s :: a)).
    { intros H'. destruct (IH Hrec' (res ++ [r']) r) as [Hpr Her]; [| |exact H'|].
      - rewrite forallb_app, Hres. simpl. rewrite Hp. reflexivity.
      - destruct res; discriminate.
      - split; [exact Hpr|]. intros v. rewrite Her, !forallb_app. simpl.
        rewrite He, andb_true_r, andb_assoc. reflexivity. }
    destruct r'; try (apply Hdefault; exact H); try discriminate.
    destruct (plain_And _ Hp) as [Hl Hpl].
    destruct (IH Hrec' (res ++ subs) r) as [Hpr Her]; [| |exact H|].
    + rewrite forallb_app, Hres, Hpl. reflexivity.
    + destruct res, subs; try discriminate; congruence.
    + split; [exact Hpr|]. intros v. rewrite Her, !forallb_app. simpl.
      rewrite <- He. simpl. rewrite andb_assoc. reflexivity.
Qed.

Lemma or_loop_eval (rec : Formula -> option Formula) (o : list Formula) :
  (forall s r, s ∈ o -> rec s = Some r ->
               plain r = true /\ forall v, eval v r = eval v s) ->
  forall res r,
    forallb plain res = true -> res ++ o <> [] ->
    or_loop rec o res = Some r ->
    plain r = true /\ forall v, eval v r = existsb (eval v) (res ++ o).
Proof.
  induction o as [|s o IH]; intros Hrec res r Hres Hne H; simpl in H.
  - injection H as <-. rewrite app_nil_r in *. split.
    + apply or_finish_plain; assumption.
    + intros v. apply or_finish_eval. exact Hne.
  - assert (Hrec' : forall s0 r0, s0 ∈ o -> rec s0 = Some r0 ->
                                  plain r0 = true /\ forall v, eval v r0 = eval v s0).
    { intros s0 r0 Hin. apply Hrec. right. exact Hin. }
    destruct (rec s) as [r'|] eqn:Hs; [|discriminate].
    destruct (Hrec s r' ltac:(left) Hs) as [Hp He].
    assert (Hdefault : or_loop rec o (res ++ [r']) = Some r ->
                       plain r = true /\
                       forall v, eval v r = existsb (eval v) (res ++ s :: o)).
    { intros H'. destruct (IH Hrec' (res ++ [r']) r) as [Hpr Her]; [| |exact H'|].
      - rewrite forallb_app, Hres. simpl. rewrite Hp. reflexivity.
      - destruct res; discriminate.
      - split; [exact Hpr|]. intros v. rewrite Her, !existsb_app. simpl.
        rewrite He, orb_false_r, orb_assoc. reflexivity. }
    destruct r'; try (apply Hdefault; exact H); try discriminate.
    destruct (plain_Or _ Hp) as [Hl Hpl].
    destruct (IH Hrec' (res ++ subs) r) as [Hpr Her]; [| |exact H|].
    + rewrite forallb_app, Hres, Hpl. reflexivity.
    + destruct res, subs; try discriminate; congruence.
    + split; [exact Hpr|]. intros v. rewrite Her, !existsb_app. simpl.
      rewrite <- He. simpl. rewrite orb_assoc. reflexivity.
Qed.

Lemma nnf_each_spec (rec : Formula -> option Formula) (subs subs' : list Formula) :
  nnf_each rec subs = Some subs' ->
  Forall2 (fun sub r => rec (Not sub) = Some r) subs subs'.
Proof.
  revert subs'. induction subs as [|sub subs IH]; intros subs' H; simpl in H.
  - injection H as <-. constructor.
  - destruct (rec (Not sub)) as [r|] eqn:Hr; [|discriminate].
    destruct (nnf_each rec subs) as [rs|]; [|discriminate].
    injection H as <-. constructor; [exact Hr|]. apply IH. reflexivity.
Qed.

Lemma negated_subs (subs subs' : list Formula) :
  Forall2 (fun sub r => plain r = true /\ forall v, eval v r = negb (eval v sub))
          subs subs' ->
  forallb plain subs' = true /\ (subs <> [] -> subs' <> []) /\
  forall v, existsb (eval v) subs' = negb (forallb (eval v) subs) /\
            forallb (eval v) subs' = negb (existsb (eval v) subs).
Proof.
  induction 1 as [|sub r subs subs' [Hp He] _ (IHp & _ & IHe)]; simpl.
  - repeat split; congruence.
  - rewrite Hp, IHp. repeat split; try discriminate;
      destruct (IHe v) as [E1 E2]; rewrite ?E1, ?E2, He, ?negb_andb, ?negb_orb;
      reflexivity.
Qed.

Lemma plain_list_intro (l : list Formula) :
  l <> [] -> forallb plain l = true ->
  plain (And l) = true /\ plain (Or l) = true.
Proof.
  intros Hne Hp. simpl. rewrite Hp. destruct l; [congruence|]. auto.
Qed.

Lemma nnf_plain_eval (fuel : nat) (f r : Formula) :
  plain f = true -> nnf fuel f = Some r ->
  plain r = true /\ forall v, eval v r = eval v f.
Proof.
  revert f r.
  induction fuel as [|n IH]; intros f r Hp H; [discriminate|].
  assert (Hneg : forall subs subs',
             (forall x, In x subs -> plain x = true) ->
             Forall2 (fun sub r0 => nnf n (Not sub) = Some r0) subs subs' ->
             Forall2 (fun sub r0 => plain r0 = true /\
                                    forall v, eval v r0 = negb (eval v sub)) subs subs').
  { intros subs subs' Hall Heach. revert Hall.
    induction Heach as [|sub r0 subs subs' Hr _ IHe]; intros Hall; constructor.
    - apply (IH (Not sub) r0); [|exact Hr]. simpl. apply Hall. left. reflexivity.
    - apply IHe. intros x Hx. apply Hall. right. exact Hx. }
  simpl in H. destruct f as [| |x|x s|g|a|o]; try discriminate.
  - injection H as <-. split; [reflexivity|]. intros v. reflexivity.
  - injection H as <-. split; [reflexivity|]. intros v. reflexivity.
  - destruct g as [| |x|x s|h|subs|subs]; try discriminate.
    + injection H as <-. split; [reflexivity|]. intros v. reflexivity.
    + injection H as <-. split; [reflexivity|]. intros v. simpl.
      destruct s, (v x); reflexivity.
    + destruct (IH h r Hp H) as [Hpr Her]. split; [exact Hpr|].
      intros v. rewrite Her. simpl. rewrite negb_involutive. reflexivity.
    + destruct (nnf_each (nnf n) subs) as [subs'|] eqn:Heach; [|discriminate].
      apply nnf_each_spec in Heach. destruct (plain_And _ Hp) as [Hne Hall].
      rewrite forallb_forall in Hall.
      destruct (negated_subs _ _ (Hneg _ _ Hall Heach)) as (Hp' & Hne' & He').
      destruct (IH (Or subs') r) as [Hpr Her]; [|exact H|].
      * apply plain_list_intro; auto.
      * split; [exact Hpr|]. intros v. rewrite Her. simpl. apply He'.
    + destruct (nnf_each (nnf n) subs) as [subs'|] eqn:Heach; [|discriminate].
      apply nnf_each_spec in Heach. destruct (plain_Or _ Hp) as [Hne Hall].
      rewrite forallb_forall in Hall.
      destruct (negated_subs _ _ (Hneg _ _ Hall Heach)) as (Hp' & Hne' & He').
      destruct (IH (And subs') r) as [Hpr Her]; [|exact H|].
      * apply plain_list_intro; auto.
      * split; [exact Hpr|]. intros v. rewrite Her. simpl. apply He'.
  - destruct (plain_And _ Hp) as [Hne Hall]. rewrite forallb_forall in Hall.
    apply (and_loop_eval (nnf n) a) with (res := []); [|reflexivity|exact Hne|exact H].
    intros s r0 Hin Hr. apply (IH s r0); [|exact Hr].
    apply Hall. apply list_elem_of_In. exact Hin.
  - destruct (plain_Or _ Hp) as [Hne Hall]. rewrite forallb_forall in Hall.
    apply (or_loop_eval (nnf n) o) with (res := []); [|reflexivity|exact Hne|exact H].
    intros s r0 Hin Hr. apply (IH s r0); [|exact Hr].
    apply Hall. apply list_elem_of_In. exact Hin.
Qed.

(** X2. On a formula without constants and without empty conjunction or
    disjunction, [nnf] returns a formula with the same truth value under
    every valuation, again without constants. *)
Theorem nnf_keeps_truth (fuel : nat) (f r : Formula)
    (Hplain : plain f = true) (Hrun : nnf fuel f = Some r) :
  plain r = true /\ forall v, eval v r = eval v f.
Proof. exact (nnf_plain_eval fuel f r Hplain Hrun). Qed.

(** ** [nnf] terminates, and on its own results it is the identity *)

Lemma maxdepth_le (d : Formula -> nat) (l : list Formula) (m : nat) :
  foldr (fun g n => Nat.max (d g) n) 0%nat l <= m <-> Forall (fun g => d g <= m) l.
Proof.
  induction l as [|g l IH]; simpl.
  - split; [constructor|lia].
  - rewrite Forall_cons, <- IH. lia.
Qed.

Lemma maxdepth_elem (d : Formula -> nat) (l : list Formula) (g : Formula) :
  g ∈ l -> d g <= foldr (fun g n => Nat.max (d g) n) 0%nat l.
Proof.
  intros Hin. pose proof (proj1 (maxdepth_le d l _) (le_n _)) as H.
  rewrite Forall_forall in H. exact (H g Hin).
Qed.

Lemma ndepth_le_depth (n : nat) (f : Formula) : depth f <= n -> ndepth f <= depth f.
Proof.
  revert f. induction n as [|n IH]; intros f Hd; [destruct f; simpl in Hd; lia|].
  assert (Hlist : forall l, foldr (fun g k => Nat.max (depth g) k) 0%nat l <= n ->
                            foldr (fun g k => Nat.max (ndepth g) k) 0%nat l
                            <= foldr (fun g k => Nat.max (depth g) k) 0%nat l).
  { intros l Hl. apply maxdepth_le. apply maxdepth_le in Hl.
    rewrite Forall_forall in *. intros g Hg.
    pose proof (maxdepth_elem depth l g Hg). specialize (IH g (Hl g Hg)). lia. }
  destruct f as [| |x|x s|g|a|o]; simpl in *; try lia.
  - specialize (IH g). lia.
  - specialize (Hlist a). lia.
  - specialize (Hlist o). lia.
Qed.

Lemma and_finish_depth (res : list Formula) (m : nat) :
  Forall (fun g => depth g <= m) res -> depth (and_finish res) <= S m.
Proof.
  intros H. destruct res as [|r [|r' res]]; simpl; [lia| |].
  - apply Forall_cons in H as [H _]. lia.
  - apply maxdepth_le in H. simpl in H. lia.
Qed.

Lemma or_finish_depth (res : list Formula) (m : nat) :
  Forall (fun g => depth g <= m) res -> depth (or_finish res) <= S m.
Proof.
  intros H. destruct res as [|r [|r' res]]; simpl; [lia| |].
  - apply Forall_cons in H as [H _]. lia.
  - apply maxdepth_le in H. simpl in H. lia.
Qed.

Lemma and_loop_total (rec : Formula -> option Formula) (m : nat) (a : list Formula) :
  Forall (fun s => exists r, rec s = Some r /\ depth r <= m) a ->
  forall res, Forall (fun g => depth g <= m) res ->
              exists r, and_loop rec a res = Some r /\ depth r <= S m.
Proof.
  induction 1 as [|s a (r' & Hs & Hd) _ IH]; intros res Hres; simpl.
  - eexists. split; [reflexivity|]. apply and_finish_depth. exact Hres.
  - rewrite Hs.
    assert (Hdefault : exists r, and_loop rec a (res ++ [r']) = Some r /\ depth r <= S m).
    { apply IH. apply Forall_app. split; [exact Hres|]. repeat constructor. exact Hd. }
    destruct r'; try exact Hdefault.
    + apply IH. exact Hres.
    + eexists. split; [reflexivity|]. simpl. lia.
    + apply IH. apply Forall_app. split; [exact Hres|].
      simpl in Hd. apply maxdepth_le. lia.
Qed.

Lemma or_loop_total (rec : Formula -> option Formula) (m : nat) (o : list Formula) :
  Forall (fun s => exists r, rec s = Some r /\ depth r <= m) o ->
  forall res, Forall (fun g => depth g <= m) res ->
              exists r, or_loop rec o res = Some r /\ depth r <= S m.
Proof.
  induction 1 as [|s o (r' & Hs & Hd) _ IH]; intros res Hres; simpl.
  - eexists. split; [reflexivity|]. apply or_finish_depth. exact Hres.
  - rewrite Hs.
    assert (Hdefault : exists r, or_loop rec o (res ++ [r']) = Some r /\ depth r <= S m).
    { apply IH. apply Forall_app. split; [exact Hres|]. repeat constructor. exact Hd. }
    destruct r'; try exact Hdefault.
    + eexists. split; [reflexivity|]. simpl. lia.
    + apply IH. exact Hres.
    + apply IH. apply Forall_app. split; [exact Hres|].
      simpl in Hd. apply maxdepth_le. lia.
Qed.

Lemma nnf_each_total (rec : Formula -> option Formula) (m : nat) (subs : list Formula) :
  Forall (fun sub => exists r, rec (Not sub) = Some r /\ depth r <= m) subs ->
  exists subs', nnf_each rec subs = Some subs' /\
                Forall (fun r => depth r <= m) subs'.
Proof.
  induction 1 as [|sub subs (r & Hr & Hd) _ (subs' & IH & IHd)]; simpl.
  - eexists. split; [reflexivity|constructor].
  - rewrite Hr, IH. eexists. split; [reflexivity|]. constructor; assumption.
Qed.

Lemma nnf_total_bound (n : nat) :
  forall f, depth f + ndepth f <= n ->
            exists r, nnf n f = Some r /\ depth r <= ndepth f.
Proof.
  induction n as [|n IH]; intros f Hn; [destruct f; simpl in Hn; lia|].
  assert (Hnd : forall g, ndepth g <= depth g)
    by (intros g; exact (ndepth_le_depth _ g (le_n _))).
  assert (Hsubs : forall (l : list Formula) (D N : nat),
             foldr (fun g k => Nat.max (depth g) k) 0%nat l <= D ->
             foldr (fun g k => Nat.max (ndepth g) k) 0%nat l <= N ->
             D + N <= n ->
             Forall (fun s => exists r, nnf n s = Some r /\ depth r <= N) l).
  { intros l D N HD HN Hle. apply maxdepth_le in HD, HN.
    rewrite Forall_forall in *. intros s Hs.
    destruct (IH s) as (r & Hr & Hd); [specialize (HD s Hs); specialize (HN s Hs); lia|].
    exists r. split; [exact Hr|]. specialize (HN s Hs). lia. }
  assert (Hneg : forall (l : list Formula) (D N : nat),
             foldr (fun g k => Nat.max (depth g) k) 0%nat l <= D ->
             foldr (fun g k => Nat.max (ndepth g) k) 0%nat l <= N ->
             S (D + N) <= n ->
             Forall (fun s => exists r, nnf n (Not s) = Some r /\ depth r <= N) l).
  { intros l D N HD HN Hle. apply maxdepth_le in HD, HN.
    rewrite Forall_forall in *. intros s Hs.
    destruct (IH (Not s)) as (r & Hr & Hd);
      [simpl; specialize (HD s Hs); specialize (HN s Hs); lia|].
    exists r. split; [exact Hr|]. simpl in Hd. specialize (HN s Hs). lia. }
  destruct f as [| |x|x s|g|a|o]; simpl in Hn |- *;
    try (eexists; split; [reflexivity|simpl; lia]).
  - destruct g as [| |x|x s|h|subs|subs]; simpl in Hn |- *;
      try (eexists; split; [reflexivity|simpl; lia]).
    + apply IH. lia.
    + set (D := foldr (fun g k => Nat.max (depth g) k) 0%nat subs) in *.
      set (N := foldr (fun g k => Nat.max (ndepth g) k) 0%nat subs) in *.
      assert (N <= D).
      { pose proof (Hnd (And subs)) as H0. simpl in H0. fold D N in H0. lia. }
      destruct (nnf_each_total (nnf n) N subs) as (subs' & -> & Hd').
      { apply (Hneg subs D N); [reflexivity|reflexivity|lia]. }
      apply maxdepth_le in Hd'.
      destruct (IH (Or subs')) as (r & Hr & Hd).
      { pose proof (Hnd (Or subs')) as H0. simpl in H0 |- *. lia. }
      exists r. split; [exact Hr|]. simpl in Hd.
      pose proof (Hnd (Or subs')) as H0. simpl in H0.
      apply maxdepth_le in Hd'.
      assert (foldr (fun g k => Nat.max (ndepth g) k) 0%nat subs' <= N).
      { apply maxdepth_le. rewrite Forall_forall in *. intros g Hg.
        specialize (Hd' g Hg). specialize (Hnd g). lia. }
      lia.
    + set (D := foldr (fun g k => Nat.max (depth g) k) 0%nat subs) in *.
      set (N := foldr (fun g k => Nat.max (ndepth g) k) 0%nat subs) in *.
      assert (N <= D).
      { pose proof (Hnd (Or subs)) as H0. simpl in H0. fold D N in H0. lia. }
      destruct (nnf_each_total (nnf n) N subs) as (subs' & -> & Hd').
      { apply (Hneg subs D N); [reflexivity|reflexivity|lia]. }
      apply maxdepth_le in Hd'.
      destruct (IH (And subs')) as (r & Hr & Hd).
      { pose proof (Hnd (And subs')) as H0. simpl in H0 |- *. lia. }
      exists r. split; [exact Hr|]. simpl in Hd.
      apply maxdepth_le in Hd'.
      assert (foldr (fun g k => Nat.max (ndepth g) k) 0%nat subs' <= N).
      { apply maxdepth_le. rewrite Forall_forall in *. intros g Hg.
        specialize (Hd' g Hg). specialize (Hnd g). lia. }
      lia.
  - apply (and_loop_total (nnf n) _ a); [|constructor].
    eapply Hsubs; [reflexivity|reflexivity|lia].
  - apply (or_loop_total (nnf n) _ o); [|constructor].
    eapply Hsubs; [reflexivity|reflexivity|lia].
Qed.

Lemma and_loop_mono (rec1 rec2 : Formula -> option Formula) (a : list Formula) :
  (forall s r, rec1 s = Some r -> rec2 s = Some r) ->
  forall res r, and_loop rec1 a res = Some r -> and_loop rec2 a res = Some r.
Proof.
  intros Hrec. induction a as [|s a IH]; intros res r H; simpl in *; [exact H|].
  destruct (rec1 s) as [r'|] eqn:Hs; [|discriminate].
  rewrite (Hrec _ _ Hs). destruct r'; auto.
Qed.

Lemma or_loop_mono (rec1 rec2 : Formula -> option Formula) (o : list Formula) :
  (forall s r, rec1 s = Some r -> rec2 s = Some r) ->
  forall res r, or_loop rec1 o res = Some r -> or_loop rec2 o res = Some r.
Proof.
  intros Hrec. induction o as [|s o IH]; intros res r H; simpl in *; [exact H|].
  destruct (rec1 s) as [r'|] eqn:Hs; [|discriminate].
  rewrite (Hrec _ _ Hs). destruct r'; auto.
Qed.

Lemma nnf_each_mono (rec1 rec2 : Formula -> option Formula) (subs : list Formula) :
  (forall s r, rec1 s = Some r -> rec2 s = Some r) ->
  forall rs, nnf_each rec1 subs = Some rs -> nnf_each rec2 subs = Some rs.
Proof.
  intros Hrec. induction subs as [|s subs IH]; intros rs H; simpl in *; [exact H|].
  destruct (rec1 (Not s)) as [r'|] eqn:Hs; [|discriminate].
  rewrite (Hrec _ _ Hs).
  destruct (nnf_each rec1 subs) as [rs'|]; [|discriminate].
  rewrite (IH _ eq_refl). exact H.
Qed.

(** More fuel does not change what [nnf] returns. *)
Lemma nnf_fuel_mono (n : nat) :
  forall f r, nnf n f = Some r -> nnf (S n) f = Some r.
Proof.
  induction n as [|n IH]; intros f r H; [discriminate|].
  change (nnf (S (S n)) f) with
    (match f with
     | trueConst => Some trueConst
     | falseConst => Some falseConst
     | Var v => Some (Lit v false)
     | Lit v s => Some (Lit v s)
     | Not g =>
         match g with
         | Var v => Some (Lit v true)
         | Lit v s => Some (Lit v (negb s))
         | Not h => nnf (S n) h
         | And subs =>
             match nnf_each (nnf (S n)) subs with
             | None => None
             | Some subs' => nnf (S n) (Or subs')
             end
         | Or subs =>
             match nnf_each (nnf (S n)) subs with
             | None => None
             | Some subs' => nnf (S n) (And subs')
             end
         | trueConst => Some falseConst
         | falseConst => Some trueConst
         end
     | And a => and_loop (nnf (S n)) a []
     | Or o => or_loop (nnf (S n)) o []
     end).
  simpl in H. destruct f as [| |x|x s|g|a|o]; try exact H.
  - destruct g as [| |x|x s|h|subs|subs]; try exact H.
    + exact (IH _ _ H).
    + destruct (nnf_each (nnf n) subs) as [subs'|] eqn:He; [|discriminate].
      rewrite (nnf_each_mono _ _ _ IH _ He). exact (IH _ _ H).
    + destruct (nnf_each (nnf n) subs) as [subs'|] eqn:He; [|discriminate].
      rewrite (nnf_each_mono _ _ _ IH _ He). exact (IH _ _ H).
  - exact (and_loop_mono _ _ _ IH _ _ H).
  - exact (or_loop_mono _ _ _ IH _ _ H).
Qed.

Lemma nnf_fuel_le (n m : nat) (f r : Formula) :
  n <= m -> nnf n f = Some r -> nnf m f = Some r.
Proof.
  induction 1 as [|m _ IH]; intros H; [exact H|]. apply nnf_fuel_mono, IH, H.
Qed.

(** X3. [nnf] returns on every formula: the recursion of [not.nnf] on the
    formula it has just built comes to an end. Twice the depth of the
    formula is fuel enough, more fuel gives the same result, and the
    result is no deeper than the formula with its negations left out. *)
Theorem nnf_terminates (f : Formula) :
  exists r,
    (forall n, 2 * depth f <= n -> nnf n f = Some r) /\
    (forall n r', nnf n f = Some r' -> r' = r) /\
    depth r <= ndepth f.
Proof.
  pose proof (ndepth_le_depth _ f (le_n _)) as Hnd.
  destruct (nnf_total_bound (2 * depth f) f) as (r & Hr & Hd); [lia|].
  exists r. split; [|split; [|exact Hd]].
  - intros n Hn. exact (nnf_fuel_le _ _ _ _ Hn Hr).
  - intros n r' Hr'.
    pose proof (nnf_fuel_le _ (Nat.max n (2 * depth f)) _ _ (Nat.le_max_l _ _) Hr') as H1.
    pose proof (nnf_fuel_le _ (Nat.max n (2 * depth f)) _ _ (Nat.le_max_r _ _) Hr) as H2.
    congruence.
Qed.

Lemma and_loop_normal_id (rec : Formula -> option Formula) (a : list Formula) :
  Forall (fun g => rec g = Some g /\ isAnd g = false /\ isConst g = false) a ->
  forall res, and_loop rec a res = Some (and_finish (res ++ a)).
Proof.
  induction 1 as [|g a (Hg & Ha & Hc) _ IH]; intros res; simpl.
  - rewrite app_nil_r. reflexivity.
  - rewrite Hg.
    replace (res ++ g :: a) with ((res ++ [g]) ++ a) by (rewrite <- app_assoc; reflexivity).
    destruct g; try discriminate; apply IH.
Qed.

Lemma or_loop_normal_id (rec : Formula -> option Formula) (o : list Formula) :
  Forall (fun g => rec g = Some g /\ isOr g = false /\ isConst g = false) o ->
  forall res, or_loop rec o res = Some (or_finish (res ++ o)).
Proof.
  induction 1 as [|g o (Hg & Ho & Hc) _ IH]; intros res; simpl.
  - rewrite app_nil_r. reflexivity.
  - rewrite Hg.
    replace (res ++ g :: o) with ((res ++ [g]) ++ o) by (rewrite <- app_assoc; reflexivity).
    destruct g; try discriminate; apply IH.
Qed.

Lemma normalIn_not_const (g : Formula) : normalIn g = true -> isConst g = false.
Proof. destruct g; simpl; congruence. Qed.

Lemma nnf_normal_id (n : nat) :
  forall r, normal r = true -> depth r <= n -> nnf n r = Some r.
Proof.
  induction n as [|n IH]; intros r Hn Hd; [destruct r; simpl in Hd; lia|].
  destruct r as [| |x|x s|g|a|o]; try reflexivity; try discriminate.
  - simpl. apply normal_not_const in Hn; [|reflexivity]. simpl in Hn.
    apply andb_prop in Hn as [Hlen Hall]. rewrite forallb_forall in Hall.
    rewrite (and_loop_normal_id (nnf n) a).
    + simpl. destruct a as [|g1 [|g2 a]]; simpl in Hlen; try discriminate. reflexivity.
    + rewrite Forall_forall. intros g Hg.
      specialize (Hall g (proj1 (list_elem_of_In _ _) Hg)).
      apply andb_prop in Hall as [Hna Hni].
      split; [|split; [destruct (isAnd g); [discriminate|reflexivity]|
                        exact (normalIn_not_const _ Hni)]].
      apply IH; [apply normalIn_normal; exact Hni|].
      pose proof (maxdepth_elem depth a g Hg). simpl in Hd. lia.
  - simpl. apply normal_not_const in Hn; [|reflexivity]. simpl in Hn.
    apply andb_prop in Hn as [Hlen Hall]. rewrite forallb_forall in Hall.
    rewrite (or_loop_normal_id (nnf n) o).
    + simpl. destruct o as [|g1 [|g2 o]]; simpl in Hlen; try discriminate. reflexivity.
    + rewrite Forall_forall. intros g Hg.
      specialize (Hall g (proj1 (list_elem_of_In _ _) Hg)).
      apply andb_prop in Hall as [Hna Hni].
      split; [|split; [destruct (isOr g); [discriminate|reflexivity]|
                        exact (normalIn_not_const _ Hni)]].
      apply IH; [apply normalIn_normal; exact Hni|].
      pose proof (maxdepth_elem depth o g Hg). simpl in Hd. lia.
Qed.

(** X4. Normalising twice is normalising once: on a result of [nnf], [nnf]
    returns its argument (with fuel for its depth). *)
Theorem nnf_idempotent (fuel fuel' : nat) (f r : Formula)
    (Hrun : nnf fuel f = Some r) (Hfuel : depth r <= fuel') :
  nnf fuel' r = Some r.
Proof.
  apply nnf_normal_id; [|exact Hfuel]. exact (nnf_result_normal fuel f r Hrun).
Qed.


(** ** The derived connectives and [uniqueSmall] *)

(** X5. [Implies], [Eq] and [Xor] have the truth tables of implication,
    equivalence and exclusive or, and so have their normal forms when the
    two subformulas hold no constant. *)
Theorem connectives_truth (v : variable -> bool) (f1 f2 : Formula) :
  eval v (Implies f1 f2) = implb (eval v f1) (eval v f2) /\
  eval v (Eq f1 f2) = Bool.eqb (eval v f1) (eval v f2) /\
  eval v (Xor f1 f2) = xorb (eval v f1) (eval v f2) /\
  (plain f1 = true -> plain f2 = true ->
   forall n r,
     (nnf n (Implies f1 f2) = Some r -> eval v r = implb (eval v f1) (eval v f2)) /\
     (nnf n (Eq f1 f2) = Some r -> eval v r = Bool.eqb (eval v f1) (eval v f2)) /\
     (nnf n (Xor f1 f2) = Some r -> eval v r = xorb (eval v f1) (eval v f2))).
Proof.
  assert (H1 : eval v (Implies f1 f2) = implb (eval v f1) (eval v f2))
    by (simpl; destruct (eval v f1), (eval v f2); reflexivity).
  assert (H2 : eval v (Eq f1 f2) = Bool.eqb (eval v f1) (eval v f2))
    by (simpl; destruct (eval v f1), (eval v f2); reflexivity).
  assert (H3 : eval v (Xor f1 f2) = xorb (eval v f1) (eval v f2))
    by (simpl; destruct (eval v f1), (eval v f2); reflexivity).
  repeat (split; [assumption|]).
  intros Hp1 Hp2 n r.
  assert (Hpi : plain (Implies f1 f2) = true) by (simpl; rewrite Hp1, Hp2; reflexivity).
  assert (Hpe : plain (Eq f1 f2) = true) by (simpl; rewrite Hp1, Hp2; reflexivity).
  assert (Hpx : plain (Xor f1 f2) = true) by (simpl; rewrite Hp1, Hp2; reflexivity).
  split; [|split]; intros Hr.
  - rewrite <- H1. apply (nnf_plain_eval n _ r Hpi Hr).
  - rewrite <- H2. apply (nnf_plain_eval n _ r Hpe Hr).
  - rewrite <- H3. apply (nnf_plain_eval n _ r Hpx Hr).
Qed.

Lemma count_true_cons (v : variable -> bool) (x : variable) (vs : list variable) :
  length (filter (fun y => v y = true) (x :: vs))
  = ((if v x then 1 else 0) + length (filter (fun y => v y = true) vs))%nat.
Proof.
  rewrite filter_cons. destruct (decide (v x = true)) as [H|H].
  - rewrite H. reflexivity.
  - apply not_true_is_false in H. rewrite H. reflexivity.
Qed.

Lemma uniquePairs_eval (v : variable -> bool) (vs : list variable) :
  forallb (eval v) (uniquePairs (Var <$> vs))
  = (length (filter (fun x => v x = true) vs) <=? 1)%nat.
Proof.
  induction vs as [|x vs IH]; [reflexivity|].
  cbn [fmap list_fmap uniquePairs]. rewrite forallb_app.
  change (list_fmap variable Formula Var vs) with (Var <$> vs). rewrite IH.
  rewrite count_true_cons.
  assert (Hrow : forallb (eval v) ((fun g => Or [Not (Var x); Not g]) <$> (Var <$> vs))
                 = negb (v x) || (length (filter (fun y => v y = true) vs) =? 0)%nat).
  { clear IH. induction vs as [|y vs IH]; simpl.
    - rewrite orb_true_r. reflexivity.
    - change (list_fmap Formula Formula (fun g => Or [Not (Var x); Not g])
                (list_fmap variable Formula Var vs))
        with ((fun g => Or [Not (Var x); Not g]) <$> (Var <$> vs)).
      rewrite IH, count_true_cons, orb_false_r.
      destruct (v x), (v y); simpl; try reflexivity. }
  rewrite Hrow.
  destruct (v x); simpl.
  - destruct (length (filter _ vs)) as [|[|k]]; reflexivity.
  - reflexivity.
Qed.

(** X6. [uniqueSmall] is true exactly when one of the variables is true (one
    position of the list, if a variable is listed twice). *)
Theorem uniqueSmall_exactly_one (v : variable -> bool) (vs : list variable) :
  eval v (uniqueSmall vs) = true <->
  length (filter (fun x => v x = true) vs) = 1%nat.
Proof.
  unfold uniqueSmall. cbn [eval forallb]. rewrite uniquePairs_eval.
  assert (Hex : existsb (eval v) (Var <$> vs)
                = negb (length (filter (fun x => v x = true) vs) =? 0)%nat).
  { induction vs as [|x vs IH]; [reflexivity|]. simpl.
    change (list_fmap variable Formula Var vs) with (Var <$> vs).
    rewrite IH, count_true_cons. destruct (v x); reflexivity. }
  rewrite Hex.
  destruct (length (filter (fun x => v x = true) vs)) as [|[|k]]; simpl;
    split; intros H; try reflexivity; try discriminate; lia.
Qed.

(** ** Conversion to clauses: [cnfRec] and [asCnf] *)

Lemma cnfAnd_cons (rec : Formula -> vars -> option (vars * list (list Z)))
    (sub : Formula) (subs : list Formula) (vs : vars) (res : list (list Z)) :
  cnfAnd rec (sub :: subs) vs res =
  match rec sub vs with
  | Some (vs, r) => cnfAnd rec subs vs (res ++ r)
  | None => None
  end.
Proof. reflexivity. Qed.

Lemma cnfOrAnd_cons (rec : Formula -> vars -> option (vars * list (list Z))) (d : Z)
    (sub2 : Formula) (subs : list Formula) (vs : vars) (res : list (list Z)) :
  cnfOrAnd rec d (sub2 :: subs) vs res =
  match rec sub2 vs with
  | Some (vs, c :: _) => cnfOrAnd rec d subs vs (res ++ [c ++ [(- d)%Z]])
  | _ => None
  end.
Proof. reflexivity. Qed.

Lemma cnfOr_cons (rec : Formula -> vars -> option (vars * list (list Z)))
    (sub : Formula) (subs : list Formula) (vs : vars) (res : list (list Z))
    (lits : list Z) :
  cnfOr rec (sub :: subs) vs res lits =
  match sub with
  | Lit v signed =>
      let '(vs, x) := litValue vs v signed in
      cnfOr rec subs vs res (lits ++ [x])
  | And subs2 =>
      let '(vs, d) := vars_dummy vs in
      let lits := lits ++ [d] in
      match cnfOrAnd rec d subs2 vs res with
      | Some (vs, res) => cnfOr rec subs vs res lits
      | None => None
      end
  | _ => None
  end.
Proof. reflexivity. Qed.

Lemma cnfAnd_total (rec : Formula -> vars -> option (vars * list (list Z)))
    (subs : list Formula) :
  Forall (fun sub => forall vs, exists vs' c cs, rec sub vs = Some (vs', c :: cs)) subs ->
  forall vs res, exists vs' res', cnfAnd rec subs vs res = Some (vs', res ++ res') /\
                                  (subs <> [] -> res' <> []).
Proof.
  induction 1 as [|sub subs Hsub _ IH]; intros vs res.
  - exists vs, []. rewrite app_nil_r. split; [reflexivity|congruence].
  - rewrite cnfAnd_cons. destruct (Hsub vs) as (vs1 & c & cs & ->).
    destruct (IH vs1 (res ++ c :: cs)) as (vs' & res' & -> & _).
    exists vs', ((c :: cs) ++ res'). rewrite app_assoc. split; [reflexivity|discriminate].
Qed.

Lemma cnfOrAnd_total (rec : Formula -> vars -> option (vars * list (list Z))) (d : Z)
    (subs : list Formula) :
  Forall (fun sub => forall vs, exists vs' c cs, rec sub vs = Some (vs', c :: cs)) subs ->
  forall vs res, exists vs' res', cnfOrAnd rec d subs vs res = Some (vs', res').
Proof.
  induction 1 as [|sub subs Hsub _ IH]; intros vs res.
  - simpl. eauto.
  - rewrite cnfOrAnd_cons. destruct (Hsub vs) as (vs1 & c & cs & ->). apply IH.
Qed.

Lemma cnfOr_total (rec : Formula -> vars -> option (vars * list (list Z)))
    (subs : list Formula) :
  Forall (fun sub =>
            match sub with
            | Lit _ _ => True
            | And subs2 =>
                Forall (fun sub2 => forall vs, exists vs' c cs,
                                      rec sub2 vs = Some (vs', c :: cs)) subs2
            | _ => False
            end) subs ->
  forall vs res lits, exists vs' c cs, cnfOr rec subs vs res lits = Some (vs', c :: cs).
Proof.
  induction 1 as [|sub subs Hsub _ IH]; intros vs res lits.
  - exists vs. destruct res as [|c cs]; simpl; eauto.
  - rewrite cnfOr_cons. destruct sub; try contradiction.
    + destruct (litValue vs v signed) as [vs1 x]. apply IH.
    + destruct (vars_dummy vs) as [vs1 d].
      destruct (cnfOrAnd_total rec d subs0 Hsub vs1 res) as (vs2 & res2 & ->). apply IH.
Qed.

Lemma cnfRec_total_normal (n : nat) :
  forall g vs, depth g <= n -> normalIn g = true ->
               exists vs' c cs, cnfRec g vs = Some (vs', c :: cs).
Proof.
  induction n as [|n IH]; intros g vs Hd Hn; [destruct g; simpl in Hd; lia|].
  assert (Hkids : forall (l : list Formula) (k : Formula -> bool),
             foldr (fun g k => Nat.max (depth g) k) 0 l <= n ->
             forallb (fun g => k g && normalIn g) l = true ->
             Forall (fun sub => forall vs, exists vs' c cs,
                                  cnfRec sub vs = Some (vs', c :: cs)) l).
  { intros l k Hl Hall. apply maxdepth_le in Hl. rewrite forallb_forall in Hall.
    rewrite Forall_forall in *. intros sub Hsub vs0. apply IH; [exact (Hl sub Hsub)|].
    specialize (Hall sub (proj1 (list_elem_of_In _ _) Hsub)).
    apply andb_prop in Hall. tauto. }
  destruct g as [| |x|x s|h|a|o]; try discriminate.
  - simpl. destruct (litValue vs x s) as [vs1 y]. eauto.
  - simpl in Hn, Hd. apply andb_prop in Hn as [Hlen Hall].
    destruct (cnfAnd_total cnfRec a (Hkids a _ ltac:(lia) Hall) vs [])
      as (vs' & res' & Hrun & Hne).
    change (cnfRec (And a) vs) with (cnfAnd cnfRec a vs []). rewrite Hrun. simpl.
    destruct res' as [|c cs]; [|eauto].
    exfalso. apply Hne; [|reflexivity]. intros ->. discriminate.
  - simpl in Hn, Hd. apply andb_prop in Hn as [Hlen Hall].
    change (cnfRec (Or o) vs) with (cnfOr cnfRec o vs [] []).
    apply cnfOr_total. rewrite forallb_forall in Hall.
    assert (Hdo := proj1 (maxdepth_le depth o n) ltac:(lia)).
    rewrite Forall_forall in *. intros sub Hsub.
    specialize (Hall sub (proj1 (list_elem_of_In _ _) Hsub)).
    apply andb_prop in Hall as [Hno Hni]. specialize (Hdo sub Hsub).
    destruct sub as [| |x|x s|h|a|o']; try discriminate; [exact I|].
    simpl in Hni, Hdo. apply andb_prop in Hni as [_ Hall2].
    destruct n as [|n']; [lia|].
    assert (Hd2 := proj1 (maxdepth_le depth a n') ltac:(lia)).
    rewrite forallb_forall in Hall2. rewrite Forall_forall in *.
    intros sub2 Hsub2 vs0. apply IH; [specialize (Hd2 sub2 Hsub2); lia|].
    specialize (Hall2 sub2 (proj1 (list_elem_of_In _ _) Hsub2)).
    apply andb_prop in Hall2. tauto.
Qed.

(** X7. [asCnf] returns on every formula: on the normal form that [nnf] gives
    it, [cnfRec] meets none of its three panics (a formula that is not in
    normal form, a disjunction in a disjunction, the first clause of an
    empty list of clauses). *)
Theorem asCnf_never_panics (f : Formula) :
  exists c, asCnf f = Some c /\
            exists g, nnf (2 * depth f) f = Some g /\
                      cnfRec g {| all := ∅; pb := ∅ |} = Some (cnf_vars c, clauses c).
Proof.
  pose proof (ndepth_le_depth _ f (le_n _)) as Hnd.
  destruct (nnf_total_bound (2 * depth f) f) as (g & Hg & _); [lia|].
  pose proof (nnf_result_normal _ _ _ Hg) as Hn.
  unfold asCnf. rewrite Hg.
  assert (Hrun : exists vs cls, cnfRec g {| all := ∅; pb := ∅ |} = Some (vs, cls)).
  { unfold normal in Hn. destruct (isConst g) eqn:Hc.
    - destruct g; try discriminate; simpl; eauto.
    - destruct (cnfRec_total_normal (depth g) g {| all := ∅; pb := ∅ |} (le_n _) Hn)
        as (vs & c & cs & ->). eauto. }
  destruct Hrun as (vs & cls & Hrun). rewrite Hrun. eexists. split; [reflexivity|].
  exists g. split; [reflexivity|exact Hrun].
Qed.

(** *** The numbering of the variables *)

Local Open Scope Z_scope.

Lemma indexed_mono (vs vs' : vars) (x : Z) :
  all vs ⊆ all vs' -> indexed vs x -> indexed vs' x.
Proof.
  intros Hsub [H1 H2]. apply map_subseteq_size in Hsub. split; [exact H1|lia].
Qed.

Lemma clauses_mono (vs vs' : vars) (res : list (list Z)) :
  all vs ⊆ all vs' -> Forall (Forall (indexed vs)) res -> Forall (Forall (indexed vs')) res.
Proof.
  intros Hsub H. eapply Forall_impl; [exact H|]. intros c Hc.
  eapply Forall_impl; [exact Hc|]. intros x. apply indexed_mono. exact Hsub.
Qed.

Lemma known_mono (vs vs' : vars) (l : list variable) :
  pb vs ⊆ pb vs' ->
  Forall (fun v => is_Some (pb vs !! v)) l -> Forall (fun v => is_Some (pb vs' !! v)) l.
Proof.
  intros Hsub H. eapply Forall_impl; [exact H|]. intros v [val Hv]. exists val.
  exact (lookup_weaken _ _ _ _ Hv Hsub).
Qed.

Lemma empty_numbered : numbered {| all := ∅; pb := ∅ |}.
Proof.
  split; simpl; intros *; rewrite ?lookup_empty; discriminate.
Qed.

Lemma litValue_numbered (vs vs' : vars) (v : variable) (signed : bool) (x : Z) :
  numbered vs -> notGenerated v -> litValue vs v signed = (vs', x) ->
  numbered vs' /\ all vs ⊆ all vs' /\ pb vs ⊆ pb vs' /\
  indexed vs' x /\ pb vs' !! v = Some (Z.abs x).
Proof.
  intros [Hr Hi Hp Hd Ha] Hv. unfold litValue.
  destruct (all vs !! v) as [val|] eqn:Hlook; intros [= <- <-].
  - pose proof (Hr v val Hlook) as Hval.
    assert (Habs : Z.abs (if signed then - val else val) = val) by (destruct signed; lia).
    split; [split; assumption|]. split; [reflexivity|]. split; [reflexivity|].
    split; [unfold indexed; lia|]. rewrite Habs.
    destruct (Ha v val Hlook) as [H|H]; [exact H|]. destruct (Hv _ H).
  - set (val := Z.of_nat (size (all vs)) + 1).
    assert (Hsize : size (<[v := val]> (all vs)) = S (size (all vs)))
      by (apply map_size_insert_None; exact Hlook).
    assert (Hpbnone : pb vs !! v = None).
    { destruct (pb vs !! v) as [w|] eqn:Hw; [|reflexivity].
      rewrite (Hp v w Hw) in Hlook. discriminate. }
    assert (Habs : Z.abs (if signed then - val else val) = val)
      by (destruct signed; unfold val; lia).
    split; [split; simpl|].
    + intros w val' H. rewrite Hsize. apply lookup_insert_Some in H as [[_ <-]|[_ H]].
      * unfold val. lia.
      * specialize (Hr w val' H). lia.
    + intros w1 w2 val' H1 H2.
      apply lookup_insert_Some in H1 as [[<- <-]|[Hn1 H1]];
        apply lookup_insert_Some in H2 as [[<- E2]|[Hn2 H2]]; try congruence.
      * specialize (Hr w2 _ H2). unfold val in Hr. lia.
      * specialize (Hr w1 _ H1). unfold val in *. lia.
      * exact (Hi _ _ _ H1 H2).
    + intros w val' H. apply lookup_insert_Some in H as [[<- <-]|[Hn H]].
      * apply lookup_insert_eq.
      * rewrite lookup_insert_ne by exact Hn. exact (Hp _ _ H).
    + intros k val' H. rewrite lookup_insert_ne in H by (intros ->; exact (Hv k eq_refl)).
      exact (Hd _ _ H).
    + intros w val' H. apply lookup_insert_Some in H as [[<- <-]|[Hn H]].
      * left. apply lookup_insert_eq.
      * rewrite lookup_insert_ne by exact Hn. exact (Ha _ _ H).
    + simpl. split; [apply insert_subseteq; exact Hlook|].
      split; [apply insert_subseteq; exact Hpbnone|].
      split; [unfold indexed; simpl; rewrite Hsize, Habs; unfold val; lia|].
      rewrite Habs. apply lookup_insert_eq.
Qed.

Lemma dummy_name_inj (k1 k2 : Z) :
  dummyVar ("dummy-" +:+ pretty k1) = dummyVar ("dummy-" +:+ pretty k2) -> k1 = k2.
Proof.
  intros [= H]. apply (inj pretty). exact H.
Qed.

Lemma vars_dummy_numbered (vs vs' : vars) (d : Z) :
  numbered vs -> vars_dummy vs = (vs', d) ->
  numbered vs' /\ all vs ⊆ all vs' /\ pb vs' = pb vs /\ indexed vs' d /\ 0 < d.
Proof.
  intros [Hr Hi Hp Hd Ha]. unfold vars_dummy. intros [= <- <-].
  set (val := Z.of_nat (size (all vs)) + 1).
  set (key := dummyVar ("dummy-" +:+ pretty val)).
  assert (Hfresh : all vs !! key = None).
  { destruct (all vs !! key) as [w|] eqn:Hw; [|reflexivity].
    pose proof (Hd _ _ Hw) as ->. specialize (Hr _ _ Hw). unfold val in Hr. lia. }
  assert (Hsize : size (<[key := val]> (all vs)) = S (size (all vs)))
    by (apply map_size_insert_None; exact Hfresh).
  split; [split; simpl|].
  - intros w val' H. rewrite Hsize. apply lookup_insert_Some in H as [[_ <-]|[_ H]].
    + unfold val. lia.
    + specialize (Hr w val' H). lia.
  - intros w1 w2 val' H1 H2.
    apply lookup_insert_Some in H1 as [[<- <-]|[Hn1 H1]];
      apply lookup_insert_Some in H2 as [[<- E2]|[Hn2 H2]]; try congruence.
    + specialize (Hr w2 _ H2). unfold val in Hr. lia.
    + specialize (Hr w1 _ H1). unfold val in *. lia.
    + exact (Hi _ _ _ H1 H2).
  - intros w val' H. pose proof (Hp _ _ H) as Hall.
    rewrite lookup_insert_ne; [exact Hall|]. intros <-. congruence.
  - intros k val' H. apply lookup_insert_Some in H as [[Hk <-]|[Hn H]].
    + exact (dummy_name_inj _ _ Hk).
    + exact (Hd _ _ H).
  - intros w val' H. apply lookup_insert_Some in H as [[<- <-]|[Hn H]].
    + right. reflexivity.
    + exact (Ha _ _ H).
  - simpl. split; [apply insert_subseteq; exact Hfresh|]. split; [reflexivity|].
    split; [unfold indexed; simpl; rewrite Hsize; unfold val; lia|unfold val; lia].
Qed.

Lemma cnfAnd_numbered (rec : Formula -> vars -> option (vars * list (list Z)))
    (subs : list Formula) :
  Forall (fun sub => forall vs vs' cs,
              numbered vs -> rec sub vs = Some (vs', cs) ->
              numbered vs' /\ all vs ⊆ all vs' /\ pb vs ⊆ pb vs' /\
              Forall (Forall (indexed vs')) cs /\
              Forall (fun v => is_Some (pb vs' !! v)) (fvars sub)) subs ->
  forall vs res vs' res',
    numbered vs -> Forall (Forall (indexed vs)) res ->
    cnfAnd rec subs vs res = Some (vs', res') ->
    numbered vs' /\ all vs ⊆ all vs' /\ pb vs ⊆ pb vs' /\
    Forall (Forall (indexed vs')) res' /\
    Forall (fun v => is_Some (pb vs' !! v)) (concat (map fvars subs)).
Proof.
  induction 1 as [|sub subs Hsub _ IH]; intros vs res vs' res' Hn Hres H.
  - injection H as <- <-.
    split; [exact Hn|]. split; [reflexivity|]. split; [reflexivity|].
    split; [exact Hres|constructor].
  - rewrite cnfAnd_cons in H.
    destruct (rec sub vs) as [[vs1 r]|] eqn:Hr; [|discriminate].
    destruct (Hsub vs vs1 r Hn Hr) as (Hn1 & Ha1 & Hp1 & Hc1 & Hk1).
    destruct (IH vs1 (res ++ r) vs' res' Hn1) as (Hn' & Ha' & Hp' & Hc' & Hk'); [|exact H|].
    { apply Forall_app. split; [exact (clauses_mono _ _ _ Ha1 Hres)|exact Hc1]. }
    split; [exact Hn'|]. split; [etrans; eassumption|]. split; [etrans; eassumption|].
    split; [exact Hc'|]. simpl. apply Forall_app. split; [|exact Hk'].
    exact (known_mono _ _ _ Hp' Hk1).
Qed.

Lemma cnfOrAnd_numbered (rec : Formula -> vars -> option (vars * list (list Z)))
    (d : Z) (subs : list Formula) :
  Forall (fun sub => forall vs vs' cs,
              numbered vs -> rec sub vs = Some (vs', cs) ->
              numbered vs' /\ all vs ⊆ all vs' /\ pb vs ⊆ pb vs' /\
              Forall (Forall (indexed vs')) cs /\
              Forall (fun v => is_Some (pb vs' !! v)) (fvars sub)) subs ->
  forall vs res vs' res',
    numbered vs -> indexed vs d -> Forall (Forall (indexed vs)) res ->
    cnfOrAnd rec d subs vs res = Some (vs', res') ->
    numbered vs' /\ all vs ⊆ all vs' /\ pb vs ⊆ pb vs' /\
    Forall (Forall (indexed vs')) res' /\
    Forall (fun v => is_Some (pb vs' !! v)) (concat (map fvars subs)).
Proof.
  induction 1 as [|sub subs Hsub _ IH]; intros vs res vs' res' Hn Hd Hres H.
  - injection H as <- <-.
    split; [exact Hn|]. split; [reflexivity|]. split; [reflexivity|].
    split; [exact Hres|constructor].
  - rewrite cnfOrAnd_cons in H.
    destruct (rec sub vs) as [[vs1 [|c r]]|] eqn:Hr; try discriminate.
    destruct (Hsub vs vs1 (c :: r) Hn Hr) as (Hn1 & Ha1 & Hp1 & Hc1 & Hk1).
    apply Forall_cons in Hc1 as [Hc1 _].
    pose proof (indexed_mono _ _ _ Ha1 Hd) as Hd1.
    destruct (IH vs1 (res ++ [c ++ [- d]]) vs' res' Hn1 Hd1)
      as (Hn' & Ha' & Hp' & Hc' & Hk'); [|exact H|].
    { apply Forall_app. split; [exact (clauses_mono _ _ _ Ha1 Hres)|].
      constructor; [|constructor]. apply Forall_app. split; [exact Hc1|].
      constructor; [|constructor]. unfold indexed in *. lia. }
    split; [exact Hn'|]. split; [etrans; eassumption|]. split; [etrans; eassumption|].
    split; [exact Hc'|]. simpl. apply Forall_app. split; [|exact Hk'].
    exact (known_mono _ _ _ Hp' Hk1).
Qed.

Lemma cnfOr_numbered (rec : Formula -> vars -> option (vars * list (list Z)))
    (subs : list Formula) :
  Forall (fun sub =>
            match sub with
            | Lit x _ => notGenerated x
            | And subs2 =>
                Forall (fun sub2 => forall vs vs' cs,
                            numbered vs -> rec sub2 vs = Some (vs', cs) ->
                            numbered vs' /\ all vs ⊆ all vs' /\ pb vs ⊆ pb vs' /\
                            Forall (Forall (indexed vs')) cs /\
                            Forall (fun v => is_Some (pb vs' !! v)) (fvars sub2)) subs2
            | _ => True
            end) subs ->
  forall vs res lits vs' res',
    numbered vs -> Forall (Forall (indexed vs)) res -> Forall (indexed vs) lits ->
    cnfOr rec subs vs res lits = Some (vs', res') ->
    numbered vs' /\ all vs ⊆ all vs' /\ pb vs ⊆ pb vs' /\
    Forall (Forall (indexed vs')) res' /\
    Forall (fun v => is_Some (pb vs' !! v)) (concat (map fvars subs)).
Proof.
  induction 1 as [|sub subs Hsub _ IH]; intros vs res lits vs' res' Hn Hres Hlits H.
  - injection H as <- <-.
    split; [exact Hn|]. split; [reflexivity|]. split; [reflexivity|].
    split; [|constructor].
    apply Forall_app. split; [exact Hres|]. constructor; [exact Hlits|constructor].
  - rewrite cnfOr_cons in H. destruct sub as [| |x|x s|h|subs2|o]; try discriminate.
    + destruct (litValue vs x s) as [vs1 y] eqn:Hlv.
      destruct (litValue_numbered _ _ _ _ _ Hn Hsub Hlv) as (Hn1 & Ha1 & Hp1 & Hy & Hx).
      destruct (IH vs1 res (lits ++ [y]) vs' res' Hn1)
        as (Hn' & Ha' & Hp' & Hc' & Hk'); [| |exact H|].
      { exact (clauses_mono _ _ _ Ha1 Hres). }
      { apply Forall_app. split; [|constructor; [exact Hy|constructor]].
        eapply Forall_impl; [exact Hlits|]. intros z. apply indexed_mono. exact Ha1. }
      split; [exact Hn'|]. split; [etrans; eassumption|]. split; [etrans; eassumption|].
      split; [exact Hc'|]. simpl. constructor; [|exact Hk'].
      exists (Z.abs y). exact (lookup_weaken _ _ _ _ Hx Hp').
    + destruct (vars_dummy vs) as [vs1 d] eqn:Hdm.
      destruct (vars_dummy_numbered _ _ _ Hn Hdm) as (Hn1 & Ha1 & Hp1 & Hd & Hdpos).
      cbv zeta in H.
      destruct (cnfOrAnd rec d subs2 vs1 res) as [[vs2 res2]|] eqn:Hloop; [|discriminate].
      destruct (cnfOrAnd_numbered rec d subs2 Hsub vs1 res vs2 res2 Hn1 Hd)
        as (Hn2 & Ha2 & Hp2 & Hc2 & Hk2); [|exact Hloop|].
      { exact (clauses_mono _ _ _ Ha1 Hres). }
      destruct (IH vs2 res2 (lits ++ [d]) vs' res' Hn2 Hc2)
        as (Hn' & Ha' & Hp' & Hc' & Hk'); [|exact H|].
      { apply Forall_app.
        split; [|constructor; [exact (indexed_mono _ _ _ Ha2 Hd)|constructor]].
        eapply Forall_impl; [exact Hlits|]. intros z Hz.
        apply (indexed_mono vs1); [exact Ha2|]. apply (indexed_mono vs); assumption. }
      split; [exact Hn'|]. split; [etrans; [exact Ha1|]; etrans; eassumption|].
      split; [rewrite <- Hp1; etrans; eassumption|].
      split; [exact Hc'|]. simpl. apply Forall_app. split; [|exact Hk'].
      exact (known_mono _ _ _ Hp' Hk2).
Qed.

Lemma notGenerated_sub (l : list Formula) (sub : Formula) :
  Forall notGenerated (concat (map fvars l)) -> sub ∈ l ->
  Forall notGenerated (fvars sub).
Proof.
  intros H Hsub. rewrite Forall_forall in H. rewrite Forall_forall. intros v Hv.
  apply H. apply list_elem_of_In, in_concat. exists (fvars sub).
  split; [apply in_map; apply list_elem_of_In; exact Hsub|apply list_elem_of_In; exact Hv].
Qed.

Lemma cnfRec_numbered_aux (n : nat) :
  forall g vs vs' cs,
    (depth g <= n)%nat -> Forall notGenerated (fvars g) ->
    numbered vs -> cnfRec g vs = Some (vs', cs) ->
    numbered vs' /\ all vs ⊆ all vs' /\ pb vs ⊆ pb vs' /\
    Forall (Forall (indexed vs')) cs /\
    Forall (fun v => is_Some (pb vs' !! v)) (fvars g).
Proof.
  induction n as [|n IH]; intros g vs vs' cs Hd Hng Hn H; [destruct g; simpl in Hd; lia|].
  assert (Hkids : forall l : list Formula,
             (foldr (fun g k => Nat.max (depth g) k) 0%nat l <= n)%nat ->
             Forall notGenerated (concat (map fvars l)) ->
             Forall (fun sub => forall vs vs' cs,
                         numbered vs -> cnfRec sub vs = Some (vs', cs) ->
                         numbered vs' /\ all vs ⊆ all vs' /\ pb vs ⊆ pb vs' /\
                         Forall (Forall (indexed vs')) cs /\
                         Forall (fun v => is_Some (pb vs' !! v)) (fvars sub)) l).
  { intros l Hl Hnl. apply maxdepth_le in Hl. rewrite Forall_forall in Hl.
    rewrite Forall_forall. intros sub Hsub vs0 vs0' cs0.
    apply IH; [exact (Hl sub Hsub)|exact (notGenerated_sub l sub Hnl Hsub)]. }
  destruct g as [| |x|x s|h|a|o]; try discriminate.
  - injection H as <- <-.
    split; [exact Hn|]. split; [reflexivity|]. split; [reflexivity|].
    split; constructor.
  - injection H as <- <-.
    split; [exact Hn|]. split; [reflexivity|]. split; [reflexivity|].
    split; [constructor; [constructor|constructor]|constructor].
  - simpl in H. destruct (litValue vs x s) as [vs1 y] eqn:Hlv. injection H as <- <-.
    apply Forall_cons in Hng as [Hx _].
    destruct (litValue_numbered _ _ _ _ _ Hn Hx Hlv) as (Hn1 & Ha1 & Hp1 & Hy & Hk).
    split; [exact Hn1|]. split; [exact Ha1|]. split; [exact Hp1|].
    split; [constructor; [constructor; [exact Hy|constructor]|constructor]|].
    constructor; [eauto|constructor].
  - change (cnfRec (And a) vs) with (cnfAnd cnfRec a vs []) in H.
    simpl in Hd, Hng.
    apply (cnfAnd_numbered cnfRec a (Hkids a ltac:(lia) Hng) vs [] vs' cs Hn);
      [constructor|exact H].
  - change (cnfRec (Or o) vs) with (cnfOr cnfRec o vs [] []) in H.
    simpl in Hd, Hng.
    apply (cnfOr_numbered cnfRec o) with (vs := vs) (res := []) (lits := []);
      try assumption; try constructor.
    assert (Hdo := proj1 (maxdepth_le depth o n) ltac:(lia)).
    rewrite Forall_forall in Hdo. rewrite Forall_forall. intros sub Hsub.
    specialize (Hdo sub Hsub).
    pose proof (notGenerated_sub o sub Hng Hsub) as Hnsub.
    destruct sub as [| |x|x s|h|a|o']; try exact I.
    + apply Forall_cons in Hnsub as [Hx _]. exact Hx.
    + simpl in Hdo, Hnsub. apply Hkids; [lia|exact Hnsub].
Qed.

Lemma and_finish_fvars (res : list Formula) (v : variable) :
  v ∈ fvars (and_finish res) -> v ∈ concat (map fvars res).
Proof.
  destruct res as [|r [|r' res]]; simpl; [intros H; exact H| |intros H; exact H].
  rewrite app_nil_r. intros H; exact H.
Qed.

Lemma or_finish_fvars (res : list Formula) (v : variable) :
  v ∈ fvars (or_finish res) -> v ∈ concat (map fvars res).
Proof.
  destruct res as [|r [|r' res]]; simpl; [intros H; exact H| |intros H; exact H].
  rewrite app_nil_r. intros H; exact H.
Qed.

Lemma fvars_concat_app (l k : list Formula) (v : variable) :
  v ∈ concat (map fvars (l ++ k)) <->
  v ∈ concat (map fvars l) \/ v ∈ concat (map fvars k).
Proof. rewrite map_app, concat_app, elem_of_app. reflexivity. Qed.

Lemma and_loop_fvars (rec : Formula -> option Formula) (a : list Formula) :
  (forall s r v, s ∈ a -> rec s = Some r -> v ∈ fvars r -> v ∈ fvars s) ->
  forall res r v,
    and_loop rec a res = Some r -> v ∈ fvars r ->
    v ∈ concat (map fvars res) \/ v ∈ concat (map fvars a).
Proof.
  induction a as [|s a IH]; intros Hrec res r v H Hv; simpl in H.
  - injection H as <-. left. apply and_finish_fvars. exact Hv.
  - assert (Hrec' : forall s0 r0 v0, s0 ∈ a -> rec s0 = Some r0 ->
                                     v0 ∈ fvars r0 -> v0 ∈ fvars s0).
    { intros s0 r0 v0 Hin. apply Hrec. right. exact Hin. }
    destruct (rec s) as [r'|] eqn:Hs; [|discriminate].
    pose proof (fun v0 => Hrec s r' v0 ltac:(left) Hs) as Hsub.
    assert (Hstep : forall l,
               (forall v0, v0 ∈ concat (map fvars l) -> v0 ∈ fvars r') ->
               and_loop rec a (res ++ l) = Some r ->
               v ∈ concat (map fvars res) \/ v ∈ concat (map fvars (s :: a))).
    { intros l Hl H'. destruct (IH Hrec' _ _ _ H' Hv) as [Hin|Hin].
      - apply fvars_concat_app in Hin as [Hin|Hin]; [left; exact Hin|].
        right. simpl. apply elem_of_app. left. apply Hsub, Hl, Hin.
      - right. simpl. apply elem_of_app. right. exact Hin. }
    destruct r'.
    + destruct (IH Hrec' _ _ _ H Hv) as [Hin|Hin]; [left; exact Hin|].
      right. simpl. apply elem_of_app. right. exact Hin.
    + injection H as <-. simpl in Hv. inversion Hv.
    + apply (Hstep [Var v0]); [|exact H]. simpl. intros v1. rewrite ?app_nil_r. auto.
    + apply (Hstep [Lit v0 signed]); [|exact H]. simpl. intros v1. rewrite ?app_nil_r. auto.
    + apply (Hstep [Not r']); [|exact H]. simpl. intros v1. rewrite ?app_nil_r. auto.
    + apply (Hstep subs); [|exact H]. simpl. auto.
    + apply (Hstep [Or subs]); [|exact H]. simpl. intros v1. rewrite ?app_nil_r. auto.
Qed.

Lemma or_loop_fvars (rec : Formula -> option Formula) (o : list Formula) :
  (forall s r v, s ∈ o -> rec s = Some r -> v ∈ fvars r -> v ∈ fvars s) ->
  forall res r v,
    or_loop rec o res = Some r -> v ∈ fvars r ->
    v ∈ concat (map fvars res) \/ v ∈ concat (map fvars o).
Proof.
  induction o as [|s o IH]; intros Hrec res r v H Hv; simpl in H.
  - injection H as <-. left. apply or_finish_fvars. exact Hv.
  - assert (Hrec' : forall s0 r0 v0, s0 ∈ o -> rec s0 = Some r0 ->
                                     v0 ∈ fvars r0 -> v0 ∈ fvars s0).
    { intros s0 r0 v0 Hin. apply Hrec. right. exact Hin. }
    destruct (rec s) as [r'|] eqn:Hs; [|discriminate].
    pose proof (fun v0 => Hrec s r' v0 ltac:(left) Hs) as Hsub.
    assert (Hstep : forall l,
               (forall v0, v0 ∈ concat (map fvars l) -> v0 ∈ fvars r') ->
               or_loop rec o (res ++ l) = Some r ->
               v ∈ concat (map fvars res) \/ v ∈ concat (map fvars (s :: o))).
    { intros l Hl H'. destruct (IH Hrec' _ _ _ H' Hv) as [Hin|Hin].
      - apply fvars_concat_app in Hin as [Hin|Hin]; [left; exact Hin|].
        right. simpl. apply elem_of_app. left. apply Hsub, Hl, Hin.
      - right. simpl. apply elem_of_app. right. exact Hin. }
    destruct r'.
    + injection H as <-. simpl in Hv. inversion Hv.
    + destruct (IH Hrec' _ _ _ H Hv) as [Hin|Hin]; [left; exact Hin|].
      right. simpl. apply elem_of_app. right. exact Hin.
    + apply (Hstep [Var v0]); [|exact H]. simpl. intros v1. rewrite ?app_nil_r. auto.
    + apply (Hstep [Lit v0 signed]); [|exact H]. simpl. intros v1. rewrite ?app_nil_r. auto.
    + apply (Hstep [Not r']); [|exact H]. simpl. intros v1. rewrite ?app_nil_r. auto.
    + apply (Hstep [And subs]); [|exact H]. simpl. intros v1. rewrite ?app_nil_r. auto.
    + apply (Hstep subs); [|exact H]. simpl. auto.
Qed.

Lemma nnf_each_fvars (rec : Formula -> option Formula) (subs subs' : list Formula) :
  (forall s r v, rec (Not s) = Some r -> v ∈ fvars r -> v ∈ fvars s) ->
  nnf_each rec subs = Some subs' ->
  forall v, v ∈ concat (map fvars subs') -> v ∈ concat (map fvars subs).
Proof.
  intros Hrec H. apply nnf_each_spec in H.
  induction H as [|s r subs subs' Hr _ IH]; intros v Hv; [exact Hv|].
  simpl in *. apply elem_of_app in Hv as [Hv|Hv]; apply elem_of_app.
  - left. exact (Hrec _ _ _ Hr Hv).
  - right. exact (IH v Hv).
Qed.

(** [nnf] invents no variable. *)
Lemma nnf_fvars (n : nat) :
  forall f r v, nnf n f = Some r -> v ∈ fvars r -> v ∈ fvars f.
Proof.
  induction n as [|n IH]; intros f r v H Hv; [discriminate|].
  simpl in H. destruct f as [| |x|x s|g|a|o].
  - injection H as <-. exact Hv.
  - injection H as <-. exact Hv.
  - injection H as <-. exact Hv.
  - injection H as <-. exact Hv.
  - destruct g as [| |x|x s|h|subs|subs].
    + injection H as <-. inversion Hv.
    + injection H as <-. inversion Hv.
    + injection H as <-. exact Hv.
    + injection H as <-. exact Hv.
    + exact (IH _ _ _ H Hv).
    + destruct (nnf_each (nnf n) subs) as [subs'|] eqn:He; [|discriminate].
      pose proof (IH _ _ _ H Hv) as Hv'. simpl in Hv' |- *.
      apply (nnf_each_fvars (nnf n) subs subs'); [|exact He|exact Hv'].
      intros s0 r0 v0 Hr0 Hv0. exact (IH _ _ _ Hr0 Hv0).
    + destruct (nnf_each (nnf n) subs) as [subs'|] eqn:He; [|discriminate].
      pose proof (IH _ _ _ H Hv) as Hv'. simpl in Hv' |- *.
      apply (nnf_each_fvars (nnf n) subs subs'); [|exact He|exact Hv'].
      intros s0 r0 v0 Hr0 Hv0. exact (IH _ _ _ Hr0 Hv0).
  - destruct (and_loop_fvars (nnf n) a (fun s r v _ => IH s r v) [] r v H Hv) as [Hin|Hin];
      [inversion Hin|exact Hin].
  - destruct (or_loop_fvars (nnf n) o (fun s r v _ => IH s r v) [] r v H Hv) as [Hin|Hin];
      [inversion Hin|exact Hin].
Qed.

(** X8. The numbering of [asCnf], for a formula none of whose variables bears
    a name of the form that [vars.dummy] makes up: the indices in [all] are
    1 to [len(all)], no two variables share one, [pb] is a part of [all],
    every literal of every clause is a non-zero index of [all], and every
    variable of the normal form has its index in [pb]. *)
Theorem asCnf_numbering (f : Formula) (c : cnf)
    (Hnames : Forall notGenerated (fvars f))
    (Hrun : asCnf f = Some c) :
  numbered (cnf_vars c) /\
  Forall (Forall (indexed (cnf_vars c))) (clauses c) /\
  exists g, nnf (2 * depth f) f = Some g /\
            Forall (fun v => is_Some (pb (cnf_vars c) !! v)) (fvars g).
Proof.
  unfold asCnf in Hrun.
  destruct (nnf (2 * depth f) f) as [g|] eqn:Hg; [|discriminate].
  destruct (cnfRec g {| all := ∅; pb := ∅ |}) as [[vs cls]|] eqn:Hc; [|discriminate].
  injection Hrun as <-. simpl.
  assert (Hng : Forall notGenerated (fvars g)).
  { rewrite Forall_forall in Hnames. rewrite Forall_forall. intros v Hv.
    apply Hnames. exact (nnf_fvars _ _ _ _ Hg Hv). }
  destruct (cnfRec_numbered_aux (depth g) g _ vs cls (le_n _) Hng empty_numbered Hc)
    as (Hn & _ & _ & Hcl & Hk).
  split; [exact Hn|]. split; [exact Hcl|]. exists g. split; [reflexivity|exact Hk].
Qed.

(** The variables that [Var] makes are never taken for generated ones. *)
Lemma pbVar_notGenerated (n : string) : notGenerated (pbVar n).
Proof. intros k H. discriminate H. Qed.

(** The theorem at [a | (b & c)]. *)
Lemma asCnf_numbering_witness :
  let f := Or [Var (pbVar "a"); And [Var (pbVar "b"); Var (pbVar "c")]] in
  exists c, asCnf f = Some c /\ clauses c = [[3; -2]; [4; -2]; [1; 2]] /\
            numbered (cnf_vars c) /\
            Forall (Forall (indexed (cnf_vars c))) (clauses c).
Proof.
  intros f.
  destruct (asCnf f) as [c|] eqn:Hc; [|vm_compute in Hc; discriminate Hc].
  exists c. split; [reflexivity|].
  split; [vm_compute in Hc; injection Hc as <-; reflexivity|].
  assert (Hnames : Forall notGenerated (fvars f)).
  { repeat constructor; apply pbVar_notGenerated. }
  destruct (asCnf_numbering f c Hnames Hc) as (Hn & Hcl & _).
  split; [exact Hn|exact Hcl].
Defined.

(** ** The theorems on [nnf] at [!(a & !(b | !c))] *)

Local Open Scope nat_scope.

Lemma nnf_normal_witness :
  let f := Not (And [Var (pbVar "a"); Not (Or [Var (pbVar "b"); Not (Var (pbVar "c"))])]) in
  let r := Or [Lit (pbVar "a") true; Lit (pbVar "b") false; Lit (pbVar "c") true] in
  nnf 6 f = Some r /\ normal r = true.
Proof.
  intros f r.
  assert (Hrun : nnf 6 f = Some r) by reflexivity.
  split; [exact Hrun|]. exact (nnf_normal 6 f r Hrun).
Defined.

Lemma nnf_keeps_truth_witness :
  let f := Not (And [Var (pbVar "a"); Not (Or [Var (pbVar "b"); Not (Var (pbVar "c"))])]) in
  let r := Or [Lit (pbVar "a") true; Lit (pbVar "b") false; Lit (pbVar "c") true] in
  plain f = true /\ nnf 6 f = Some r /\
  plain r = true /\ forall v, eval v r = eval v f.
Proof.
  intros f r.
  assert (Hplain : plain f = true) by reflexivity.
  assert (Hrun : nnf 6 f = Some r) by reflexivity.
  split; [exact Hplain|]. split; [exact Hrun|].
  exact (nnf_keeps_truth 6 f r Hplain Hrun).
Defined.

Lemma nnf_idempotent_witness :
  let f := Not (And [Var (pbVar "a"); Not (Or [Var (pbVar "b"); Not (Var (pbVar "c"))])]) in
  let r := Or [Lit (pbVar "a") true; Lit (pbVar "b") false; Lit (pbVar "c") true] in
  nnf 6 f = Some r /\ depth r <= 2 /\ nnf 2 r = Some r.
Proof.
  intros f r.
  assert (Hrun : nnf 6 f = Some r) by reflexivity.
  assert (Hfuel : depth r <= 2) by (simpl; lia).
  split; [exact Hrun|]. split; [exact Hfuel|].
  exact (nnf_idempotent 6 2 f r Hrun Hfuel).
Defined.

Local Open Scope Z_scope.

(** ** The clauses of [asCnf] and the models of the formula *)

Lemma cnfRec_numbered (g : Formula) (vs vs' : vars) (cs : list (list Z)) :
  Forall notGenerated (fvars g) -> numbered vs -> cnfRec g vs = Some (vs', cs) ->
  numbered vs' /\ all vs ⊆ all vs' /\ pb vs ⊆ pb vs' /\
  Forall (Forall (indexed vs')) cs /\
  Forall (fun v => is_Some (pb vs' !! v)) (fvars g).
Proof. apply (cnfRec_numbered_aux (depth g)). apply le_n. Qed.

Lemma kids_numbered (l : list Formula) :
  Forall notGenerated (concat (map fvars l)) ->
  Forall (fun sub => forall vs vs' cs,
              numbered vs -> cnfRec sub vs = Some (vs', cs) ->
              numbered vs' /\ all vs ⊆ all vs' /\ pb vs ⊆ pb vs' /\
              Forall (Forall (indexed vs')) cs /\
              Forall (fun v => is_Some (pb vs' !! v)) (fvars sub)) l.
Proof.
  intros Hng. rewrite Forall_forall. intros sub Hsub vs vs' cs.
  apply cnfRec_numbered. exact (notGenerated_sub l sub Hng Hsub).
Qed.

Lemma cnfAnd_keeps (subs : list Formula) (vs vs' : vars) (res res' : list (list Z)) :
  Forall notGenerated (concat (map fvars subs)) ->
  numbered vs -> Forall (Forall (indexed vs)) res ->
  cnfAnd cnfRec subs vs res = Some (vs', res') ->
  numbered vs' /\ all vs ⊆ all vs' /\ pb vs ⊆ pb vs' /\
  Forall (Forall (indexed vs')) res'.
Proof.
  intros Hng Hn Hres H.
  destruct (cnfAnd_numbered cnfRec subs (kids_numbered subs Hng) vs res vs' res' Hn Hres H)
    as (H1 & H2 & H3 & H4 & _).
  split; [exact H1|]. split; [exact H2|]. split; [exact H3|exact H4].
Qed.

Lemma cnfOrAnd_keeps (d : Z) (subs : list Formula) (vs vs' : vars)
    (res res' : list (list Z)) :
  Forall notGenerated (concat (map fvars subs)) ->
  numbered vs -> indexed vs d -> Forall (Forall (indexed vs)) res ->
  cnfOrAnd cnfRec d subs vs res = Some (vs', res') ->
  numbered vs' /\ all vs ⊆ all vs' /\ pb vs ⊆ pb vs' /\
  Forall (Forall (indexed vs')) res'.
Proof.
  intros Hng Hn Hd Hres H.
  destruct (cnfOrAnd_numbered cnfRec d subs (kids_numbered subs Hng)
              vs res vs' res' Hn Hd Hres H) as (H1 & H2 & H3 & H4 & _).
  split; [exact H1|]. split; [exact H2|]. split; [exact H3|exact H4].
Qed.

Lemma cnfOr_keeps (subs : list Formula) (vs vs' : vars) (res res' : list (list Z))
    (lits : list Z) :
  Forall notGenerated (concat (map fvars subs)) ->
  numbered vs -> Forall (Forall (indexed vs)) res -> Forall (indexed vs) lits ->
  cnfOr cnfRec subs vs res lits = Some (vs', res') ->
  numbered vs' /\ all vs ⊆ all vs' /\ pb vs ⊆ pb vs' /\
  Forall (Forall (indexed vs')) res'.
Proof.
  intros Hng Hn Hres Hlits H.
  assert (Hk : Forall (fun sub =>
            match sub with
            | Lit x _ => notGenerated x
            | And subs2 =>
                Forall (fun sub2 => forall vs vs' cs,
                            numbered vs -> cnfRec sub2 vs = Some (vs', cs) ->
                            numbered vs' /\ all vs ⊆ all vs' /\ pb vs ⊆ pb vs' /\
                            Forall (Forall (indexed vs')) cs /\
                            Forall (fun v => is_Some (pb vs' !! v)) (fvars sub2)) subs2
            | _ => True
            end) subs).
  { rewrite Forall_forall. intros sub Hsub.
    pose proof (notGenerated_sub subs sub Hng Hsub) as Hnsub.
    destruct sub as [| |x|x s|h|a|o']; try exact I.
    - apply Forall_cons in Hnsub as [Hx _]. exact Hx.
    - simpl in Hnsub. apply kids_numbered. exact Hnsub. }
  destruct (cnfOr_numbered cnfRec subs Hk vs res lits vs' res' Hn Hres Hlits H)
    as (H1 & H2 & H3 & H4 & _).
  split; [exact H1|]. split; [exact H2|]. split; [exact H3|exact H4].
Qed.

Lemma cnfHolds_app (m : Z -> bool) (a b : list (list Z)) :
  cnfHolds m (a ++ b) = cnfHolds m a && cnfHolds m b.
Proof. apply forallb_app. Qed.

Lemma clauseHolds_app (m : Z -> bool) (a b : list Z) :
  clauseHolds m (a ++ b) = clauseHolds m a || clauseHolds m b.
Proof. apply existsb_app. Qed.

Lemma litHolds_pos (m : Z -> bool) (d : Z) : 0 < d -> litHolds m d = m d.
Proof. intros Hd. unfold litHolds. destruct (Z.ltb_spec 0 d); [reflexivity|lia]. Qed.

Lemma litHolds_neg (m : Z -> bool) (d : Z) : 0 < d -> litHolds m (- d) = negb (m d).
Proof.
  intros Hd. unfold litHolds. destruct (Z.ltb_spec 0 (- d)); [lia|].
  rewrite Z.opp_involutive. reflexivity.
Qed.

(** The int that [litValue] returns holds in a model exactly when the
    literal holds in the valuation read back from it. *)
Lemma litValue_reads (m : Z -> bool) (vf vs vs1 : vars) (v : variable) (s : bool) (x : Z) :
  numbered vs -> notGenerated v -> litValue vs v s = (vs1, x) -> pb vs1 ⊆ pb vf ->
  litHolds m x = eval (readBack vf m) (Lit v s).
Proof.
  intros Hn Hv H Hsub. unfold litValue in H.
  assert (Hgoal : forall val, 0 < val -> pb vf !! v = Some val ->
                              litHolds m (if s then - val else val) =
                              eval (readBack vf m) (Lit v s)).
  { intros val Hpos Hl. simpl. unfold readBack. rewrite Hl.
    destruct s; [rewrite litHolds_neg by exact Hpos|rewrite litHolds_pos by exact Hpos];
      reflexivity. }
  destruct (all vs !! v) as [val|] eqn:E.
  - injection H as <- <-.
    pose proof (nb_range _ Hn v val E) as Hr.
    destruct (nb_all _ Hn v val E) as [Hp|Hd]; [|exfalso; exact (Hv _ Hd)].
    apply Hgoal; [lia|]. exact (lookup_weaken _ _ _ _ Hp Hsub).
  - injection H as <- <-. simpl in Hsub. apply Hgoal; [lia|].
    apply (lookup_weaken _ _ _ _ (lookup_insert_eq _ _ _) Hsub).
Qed.

Section Sound.

Variables (m : Z -> bool) (vf : vars).

Lemma cnfOr_lits (subs : list Formula) :
  forallb isLit subs = true ->
  Forall notGenerated (concat (map fvars subs)) ->
  forall vs res lits vs' res',
    numbered vs -> Forall (Forall (indexed vs)) res -> Forall (indexed vs) lits ->
    cnfOr cnfRec subs vs res lits = Some (vs', res') ->
    exists lits', res' = res ++ [lits'] /\
      (pb vs' ⊆ pb vf ->
       clauseHolds m lits' = clauseHolds m lits || existsb (eval (readBack vf m)) subs).
Proof.
  induction subs as [|sub subs IH]; intros Hl Hng vs res lits vs' res' Hn Hres Hlits H.
  - simpl in H. injection H as <- <-. exists lits. split; [reflexivity|].
    intros _. simpl. rewrite orb_false_r. reflexivity.
  - destruct sub as [| |x|x s|h|a|o']; try discriminate Hl.
    simpl in Hl. rewrite cnfOr_cons in H.
    destruct (litValue vs x s) as [vs1 y] eqn:Hlv.
    simpl in Hng. apply Forall_cons in Hng as [Hx Hng].
    destruct (litValue_numbered _ _ _ _ _ Hn Hx Hlv) as (Hn1 & Ha1 & Hp1 & Hy & _).
    assert (Hres1 := clauses_mono vs vs1 res Ha1 Hres).
    assert (Hlits1 : Forall (indexed vs1) (lits ++ [y])).
    { apply Forall_app. split.
      - eapply Forall_impl; [exact Hlits|]. intros z. apply indexed_mono. exact Ha1.
      - constructor; [exact Hy|constructor]. }
    destruct (cnfOr_keeps _ _ _ _ _ _ Hng Hn1 Hres1 Hlits1 H) as (_ & _ & Hp' & _).
    destruct (IH Hl Hng vs1 res (lits ++ [y]) vs' res' Hn1 Hres1 Hlits1 H)
      as (lits' & -> & Hh).
    exists lits'. split; [reflexivity|]. intros Hsub. rewrite (Hh Hsub).
    rewrite clauseHolds_app. unfold clauseHolds at 2. cbn [existsb].
    rewrite (litValue_reads m vf vs vs1 x s y Hn Hx Hlv) by (etransitivity; eassumption).
    rewrite orb_false_r, orb_assoc. reflexivity.
Qed.

Lemma clausal_one_clause (g : Formula) (vs vs' : vars) (cs : list (list Z)) :
  clausal g = true -> Forall notGenerated (fvars g) -> numbered vs ->
  cnfRec g vs = Some (vs', cs) ->
  exists c, cs = [c] /\
            (pb vs' ⊆ pb vf -> clauseHolds m c = eval (readBack vf m) g).
Proof.
  intros Hc Hng Hn H. destruct g as [| |x|x s|h|a|o]; try discriminate Hc.
  - simpl in H. destruct (litValue vs x s) as [vs1 y] eqn:Hlv. injection H as <- <-.
    apply Forall_cons in Hng as [Hx _].
    exists [y]. split; [reflexivity|]. intros Hsub.
    unfold clauseHolds. cbn [existsb]. rewrite orb_false_r.
    exact (litValue_reads m vf vs vs1 x s y Hn Hx Hlv Hsub).
  - change (cnfRec (Or o) vs) with (cnfOr cnfRec o vs [] []) in H.
    simpl in Hc, Hng.
    destruct (cnfOr_lits o Hc Hng vs [] [] vs' cs Hn ltac:(constructor) ltac:(constructor) H)
      as (lits' & -> & Hh).
    exists lits'. split; [reflexivity|]. intros Hsub. rewrite (Hh Hsub). reflexivity.
Qed.

Lemma cnfOrAnd_sound (d : Z) (subs : list Formula) :
  forallb clausal subs = true ->
  Forall notGenerated (concat (map fvars subs)) ->
  forall vs res vs' res',
    numbered vs -> indexed vs d -> 0 < d -> Forall (Forall (indexed vs)) res ->
    cnfOrAnd cnfRec d subs vs res = Some (vs', res') ->
    pb vs' ⊆ pb vf -> cnfHolds m res' = true ->
    cnfHolds m res = true /\
    (m d = true -> forallb (eval (readBack vf m)) subs = true).
Proof.
  induction subs as [|sub subs IH];
    intros Hc Hng vs res vs' res' Hn Hd Hpos Hres H Hsub Hm.
  - simpl in H. injection H as <- <-. split; [exact Hm|reflexivity].
  - simpl in Hc. apply andb_true_iff in Hc as [Hc1 Hc].
    simpl in Hng. apply Forall_app in Hng as [Hng1 Hng].
    rewrite cnfOrAnd_cons in H.
    destruct (cnfRec sub vs) as [[vs1 cs]|] eqn:E; [|discriminate H].
    destruct (clausal_one_clause sub vs vs1 cs Hc1 Hng1 Hn E) as (c & -> & Hcl).
    destruct (cnfRec_numbered sub vs vs1 [c] Hng1 Hn E) as (Hn1 & Ha1 & Hp1 & Hcs & _).
    assert (Hd1 := indexed_mono vs vs1 d Ha1 Hd).
    assert (Hres1 : Forall (Forall (indexed vs1)) (res ++ [c ++ [- d]])).
    { apply Forall_app. split; [exact (clauses_mono vs vs1 res Ha1 Hres)|].
      constructor; [|constructor]. apply Forall_app. split.
      - apply Forall_cons in Hcs as [Hcs _]. exact Hcs.
      - constructor; [|constructor]. unfold indexed in *. rewrite Z.abs_opp. exact Hd1. }
    destruct (cnfOrAnd_keeps _ _ _ _ _ _ Hng Hn1 Hd1 Hres1 H) as (_ & _ & Hp' & _).
    destruct (IH Hc Hng vs1 _ vs' res' Hn1 Hd1 Hpos Hres1 H Hsub Hm) as [Hm1 Hrest].
    rewrite cnfHolds_app in Hm1. apply andb_true_iff in Hm1 as [Hm0 Hm1].
    split; [exact Hm0|]. intros Hmd. simpl. rewrite (Hrest Hmd), andb_true_r.
    simpl in Hm1. rewrite andb_true_r, clauseHolds_app in Hm1.
    unfold clauseHolds at 2 in Hm1. cbn [existsb] in Hm1.
    rewrite litHolds_neg, Hmd in Hm1 by exact Hpos. simpl in Hm1.
    rewrite orb_false_r in Hm1. rewrite <- Hcl; [exact Hm1|].
    etransitivity; eassumption.
Qed.

Lemma cnfOr_sound (subs : list Formula) :
  forallb (fun sub => match sub with
                      | Lit _ _ => true
                      | And subs2 => forallb clausal subs2
                      | _ => false
                      end) subs = true ->
  Forall notGenerated (concat (map fvars subs)) ->
  forall vs res lits vs' res',
    numbered vs -> Forall (Forall (indexed vs)) res -> Forall (indexed vs) lits ->
    cnfOr cnfRec subs vs res lits = Some (vs', res') ->
    pb vs' ⊆ pb vf -> cnfHolds m res' = true ->
    cnfHolds m res = true /\
    (clauseHolds m lits = true \/ existsb (eval (readBack vf m)) subs = true).
Proof.
  induction subs as [|sub subs IH];
    intros Hs Hng vs res lits vs' res' Hn Hres Hlits H Hsub Hm.
  - simpl in H. injection H as <- <-. rewrite cnfHolds_app in Hm.
    apply andb_true_iff in Hm as [Hm0 Hm1]. split; [exact Hm0|]. left.
    simpl in Hm1. rewrite andb_true_r in Hm1. exact Hm1.
  - simpl in Hs. apply andb_true_iff in Hs as [Hs1 Hs].
    simpl in Hng. apply Forall_app in Hng as [Hng1 Hng].
    rewrite cnfOr_cons in H.
    destruct sub as [| |x|x s|h|a|o']; try discriminate Hs1.
    + destruct (litValue vs x s) as [vs1 y] eqn:Hlv.
      apply Forall_cons in Hng1 as [Hx _].
      destruct (litValue_numbered _ _ _ _ _ Hn Hx Hlv) as (Hn1 & Ha1 & Hp1 & Hy & _).
      assert (Hres1 := clauses_mono vs vs1 res Ha1 Hres).
      assert (Hlits1 : Forall (indexed vs1) (lits ++ [y])).
      { apply Forall_app. split.
        - eapply Forall_impl; [exact Hlits|]. intros z. apply indexed_mono. exact Ha1.
        - constructor; [exact Hy|constructor]. }
      destruct (cnfOr_keeps _ _ _ _ _ _ Hng Hn1 Hres1 Hlits1 H) as (_ & _ & Hp' & _).
      destruct (IH Hs Hng vs1 res _ vs' res' Hn1 Hres1 Hlits1 H Hsub Hm) as [Hm0 Hor].
      split; [exact Hm0|]. destruct Hor as [Hor|Hor].
      * rewrite clauseHolds_app in Hor. apply orb_true_iff in Hor as [Hor|Hor];
          [left; exact Hor|]. right.
        unfold clauseHolds in Hor. cbn [existsb] in Hor. rewrite orb_false_r in Hor.
        rewrite (litValue_reads m vf vs vs1 x s y Hn Hx Hlv) in Hor
          by (etransitivity; eassumption).
        cbn [existsb]. rewrite Hor. reflexivity.
      * right. cbn [existsb]. rewrite Hor. apply orb_true_r.
    + destruct (vars_dummy vs) as [vs1 d] eqn:Hdm.
      destruct (vars_dummy_numbered _ _ _ Hn Hdm) as (Hn1 & Ha1 & Hp1 & Hd & Hpos).
      cbv zeta in H.
      destruct (cnfOrAnd cnfRec d a vs1 res) as [[vs2 res2]|] eqn:E; [|discriminate H].
      simpl in Hng1.
      assert (Hres1 := clauses_mono vs vs1 res Ha1 Hres).
      destruct (cnfOrAnd_keeps _ _ _ _ _ _ Hng1 Hn1 Hd Hres1 E) as (Hn2 & Ha2 & Hp2 & Hres2).
      assert (Hlits2 : Forall (indexed vs2) (lits ++ [d])).
      { apply Forall_app. split.
        - eapply Forall_impl; [exact Hlits|]. intros z Hz.
          apply (indexed_mono vs1 vs2 z Ha2). exact (indexed_mono vs vs1 z Ha1 Hz).
        - constructor; [exact (indexed_mono vs1 vs2 d Ha2 Hd)|constructor]. }
      destruct (cnfOr_keeps _ _ _ _ _ _ Hng Hn2 Hres2 Hlits2 H) as (_ & _ & Hp' & _).
      destruct (IH Hs Hng vs2 res2 _ vs' res' Hn2 Hres2 Hlits2 H Hsub Hm) as [Hm2 Hor].
      destruct (cnfOrAnd_sound d a Hs1 Hng1 vs1 res vs2 res2 Hn1 Hd Hpos Hres1 E
                  ltac:(etransitivity; eassumption) Hm2) as [Hm0 Hand].
      split; [exact Hm0|]. destruct Hor as [Hor|Hor].
      * rewrite clauseHolds_app in Hor. apply orb_true_iff in Hor as [Hor|Hor];
          [left; exact Hor|]. right.
        unfold clauseHolds in Hor. cbn [existsb] in Hor. rewrite orb_false_r in Hor.
        rewrite litHolds_pos in Hor by exact Hpos.
        cbn [existsb eval]. rewrite (Hand Hor). reflexivity.
      * right. cbn [existsb]. rewrite Hor. apply orb_true_r.
Qed.

Lemma cnfAnd_sound (subs : list Formula) :
  Forall (fun sub => forall vs vs' cs,
              numbered vs -> cnfRec sub vs = Some (vs', cs) ->
              pb vs' ⊆ pb vf -> cnfHolds m cs = true ->
              eval (readBack vf m) sub = true) subs ->
  Forall notGenerated (concat (map fvars subs)) ->
  forall vs res vs' res',
    numbered vs -> Forall (Forall (indexed vs)) res ->
    cnfAnd cnfRec subs vs res = Some (vs', res') ->
    pb vs' ⊆ pb vf -> cnfHolds m res' = true ->
    cnfHolds m res = true /\ forallb (eval (readBack vf m)) subs = true.
Proof.
  induction subs as [|sub subs IH];
    intros Hrec Hng vs res vs' res' Hn Hres H Hsub Hm.
  - simpl in H. injection H as <- <-. split; [exact Hm|reflexivity].
  - apply Forall_cons in Hrec as [Hrec1 Hrec].
    simpl in Hng. apply Forall_app in Hng as [Hng1 Hng].
    rewrite cnfAnd_cons in H.
    destruct (cnfRec sub vs) as [[vs1 cs]|] eqn:E; [|discriminate H].
    destruct (cnfRec_numbered sub vs vs1 cs Hng1 Hn E) as (Hn1 & Ha1 & Hp1 & Hcs & _).
    assert (Hres1 : Forall (Forall (indexed vs1)) (res ++ cs)).
    { apply Forall_app. split; [exact (clauses_mono vs vs1 res Ha1 Hres)|exact Hcs]. }
    destruct (cnfAnd_keeps _ _ _ _ _ Hng Hn1 Hres1 H) as (_ & _ & Hp' & _).
    destruct (IH Hrec Hng vs1 _ vs' res' Hn1 Hres1 H Hsub Hm) as [Hm1 Hrest].
    rewrite cnfHolds_app in Hm1. apply andb_true_iff in Hm1 as [Hm0 Hm1].
    split; [exact Hm0|]. simpl. rewrite Hrest, andb_true_r.
    apply (Hrec1 vs vs1 cs Hn E); [etransitivity; eassumption|exact Hm1].
Qed.

Lemma cnfRec_sound_aux (n : nat) :
  forall g vs vs' cs,
    (depth g <= n)%nat -> supported g = true -> Forall notGenerated (fvars g) ->
    numbered vs -> cnfRec g vs = Some (vs', cs) ->
    pb vs' ⊆ pb vf -> cnfHolds m cs = true ->
    eval (readBack vf m) g = true.
Proof.
  induction n as [|n IH]; intros g vs vs' cs Hd Hs Hng Hn H Hsub Hm;
    [destruct g; simpl in Hd; lia|].
  destruct g as [| |x|x s|h|a|o]; try discriminate Hs.
  - reflexivity.
  - injection H as <- <-. discriminate Hm.
  - destruct (clausal_one_clause (Lit x s) vs vs' cs eq_refl Hng Hn H) as (c & -> & Hc).
    rewrite <- (Hc Hsub). simpl in Hm. rewrite andb_true_r in Hm. exact Hm.
  - change (cnfRec (And a) vs) with (cnfAnd cnfRec a vs []) in H.
    simpl in Hd, Hs, Hng.
    apply (cnfAnd_sound a) with (vs := vs) (res := []) (vs' := vs') (res' := cs);
      try assumption; [|constructor].
    assert (Hda := proj1 (maxdepth_le depth a n) ltac:(lia)).
    rewrite Forall_forall in Hda. rewrite Forall_forall. intros sub Hsubin vs0 vs0' cs0.
    apply IH; [exact (Hda sub Hsubin)| |exact (notGenerated_sub a sub Hng Hsubin)].
    rewrite forallb_forall in Hs. apply Hs. apply list_elem_of_In. exact Hsubin.
  - change (cnfRec (Or o) vs) with (cnfOr cnfRec o vs [] []) in H.
    simpl in Hs, Hng.
    destruct (cnfOr_sound o Hs Hng vs [] [] vs' cs Hn ltac:(constructor) ltac:(constructor)
                H Hsub Hm) as [_ [Hor|Hor]]; [discriminate Hor|exact Hor].
Qed.

End Sound.

(** X9. For a formula [f] without constants and without empty conjunction
    or disjunction ([plain]), whose variables bear none of the names that
    [vars.dummy] makes up ([notGenerated]), and whose normal form [g] is one
    that [cnfRec] supports ([supported]): a model of the clauses of [asCnf]
    is a model of the formula, that is, the valuation that [cnf.solve]
    reads back from the model makes the formula true. *)
Theorem asCnf_sound (f g : Formula) (c : cnf) (m : Z -> bool)
    (Hplain : plain f = true)
    (Hnames : Forall notGenerated (fvars f))
    (Hnnf : nnf (2 * depth f) f = Some g)
    (Hsup : supported g = true)
    (Hrun : asCnf f = Some c)
    (Hmodel : cnfHolds m (clauses c) = true) :
  eval (readBack (cnf_vars c) m) f = true.
Proof.
  unfold asCnf in Hrun. rewrite Hnnf in Hrun.
  destruct (cnfRec g {| all := ∅; pb := ∅ |}) as [[vs cls]|] eqn:Hc; [|discriminate].
  injection Hrun as <-. simpl in *.
  destruct (nnf_plain_eval _ _ _ Hplain Hnnf) as [_ Hev]. rewrite <- Hev.
  assert (Hng : Forall notGenerated (fvars g)).
  { rewrite Forall_forall in Hnames. rewrite Forall_forall. intros v Hv.
    apply Hnames. exact (nnf_fvars _ _ _ _ Hnnf Hv). }
  exact (cnfRec_sound_aux m vs (depth g) g _ vs cls (le_n _) Hsup Hng
           empty_numbered Hc (reflexivity _) Hmodel).
Qed.

(** The theorem at [a | (b & (c | d))], with the model where only the
    dummy variable (index 2), [b] (3) and [c] (4) are true. *)
Lemma asCnf_sound_witness :
  let f := Or [Var (pbVar "a");
               And [Var (pbVar "b"); Or [Var (pbVar "c"); Var (pbVar "d")]]] in
  let m := fun i : Z => (i =? 2) || (i =? 3) || (i =? 4) in
  exists c, asCnf f = Some c /\ clauses c = [[3; -2]; [4; 5; -2]; [1; 2]] /\
            cnfHolds m (clauses c) = true /\
            eval (readBack (cnf_vars c) m) f = true.
Proof.
  intros f m.
  destruct (asCnf f) as [c|] eqn:Hc; [|vm_compute in Hc; discriminate Hc].
  exists c. split; [reflexivity|].
  assert (Hcl : clauses c = [[3; -2]; [4; 5; -2]; [1; 2]])
    by (vm_compute in Hc; injection Hc as <-; reflexivity).
  assert (Hm : cnfHolds m (clauses c) = true) by (rewrite Hcl; reflexivity).
  split; [exact Hcl|]. split; [exact Hm|].
  apply (asCnf_sound f
           (Or [Lit (pbVar "a") false;
                And [Lit (pbVar "b") false;
                     Or [Lit (pbVar "c") false; Lit (pbVar "d") false]]]) c m).
  - reflexivity.
  - repeat constructor; apply pbVar_notGenerated.
  - reflexivity.
  - reflexivity.
  - exact Hc.
  - exact Hm.
Defined.

(** X11. Deeper than that, [cnfRec] keeps only the first clause of what it
    makes of a subformula of a conjunction met in a disjunction. For
    [a | (b & (c | (d & e)))] the clauses are [3 -2], [6 -5 -2] and [1 2]:
    the model in which only the index 2 (the first dummy variable) and 3
    ([b]) are true satisfies them, and the valuation read back from it,
    where only [b] is true, makes the formula false. *)
Theorem asCnf_drops_clauses :
  let f := Or [Var (pbVar "a");
               And [Var (pbVar "b");
                    Or [Var (pbVar "c"); And [Var (pbVar "d"); Var (pbVar "e")]]]] in
  let m := fun i : Z => (i =? 2) || (i =? 3) in
  exists c, asCnf f = Some c /\
            clauses c = [[3; -2]; [6; -5; -2]; [1; 2]] /\
            cnfHolds m (clauses c) = true /\
            eval (readBack (cnf_vars c) m) f = false /\
            plain f = true /\ Forall notGenerated (fvars f).
Proof.
  intros f m.
  destruct (asCnf f) as [c|] eqn:Hc; [|vm_compute in Hc; discriminate Hc].
  exists c. split; [reflexivity|].
  vm_compute in Hc. injection Hc as <-.
  split; [reflexivity|]. split; [reflexivity|]. split; [vm_compute; reflexivity|].
  split; [reflexivity|]. repeat constructor; apply pbVar_notGenerated.
Qed.

Local Open Scope Z_scope.

(** ** Every model of the formula extends to a model of the clauses *)

Lemma sameOn_refl (vs : vars) (m : Z -> bool) : sameOn vs m m.
Proof. intros i _. reflexivity. Qed.

Lemma sameOn_trans (vs vs1 : vars) (m m1 m2 : Z -> bool) :
  all vs ⊆ all vs1 -> sameOn vs m m1 -> sameOn vs1 m1 m2 -> sameOn vs m m2.
Proof.
  intros Hsub H1 H2 i Hi. pose proof (map_subseteq_size _ _ Hsub) as Hsz.
  rewrite H2 by lia. apply H1. exact Hi.
Qed.

Lemma sameOn_lit (vs : vars) (m m' : Z -> bool) (x : Z) :
  sameOn vs m m' -> indexed vs x -> litHolds m' x = litHolds m x.
Proof.
  intros Hs Hx. unfold indexed in Hx. unfold litHolds.
  destruct (Z.ltb_spec 0 x); [apply Hs; lia|]. f_equal. apply Hs. lia.
Qed.

Lemma sameOn_clause (vs : vars) (m m' : Z -> bool) (c : list Z) :
  sameOn vs m m' -> Forall (indexed vs) c -> clauseHolds m' c = clauseHolds m c.
Proof.
  intros Hs Hc. induction Hc as [|x c Hx _ IH]; [reflexivity|].
  unfold clauseHolds in *. cbn [existsb]. rewrite IH, (sameOn_lit vs m m' x Hs Hx).
  reflexivity.
Qed.

Lemma sameOn_cnf (vs : vars) (m m' : Z -> bool) (cs : list (list Z)) :
  sameOn vs m m' -> Forall (Forall (indexed vs)) cs -> cnfHolds m' cs = cnfHolds m cs.
Proof.
  intros Hs Hc. induction Hc as [|c cs Hx _ IH]; [reflexivity|].
  unfold cnfHolds in *. cbn [forallb]. rewrite IH, (sameOn_clause vs m m' c Hs Hx).
  reflexivity.
Qed.

Section Complete.

Variable rho : variable -> bool.

Lemma litValue_complete (vs vs1 : vars) (v : variable) (s : bool) (x : Z)
    (m : Z -> bool) :
  numbered vs -> notGenerated v -> litValue vs v s = (vs1, x) -> agrees rho vs m ->
  exists m', sameOn vs m m' /\ agrees rho vs1 m' /\
             litHolds m' x = eval rho (Lit v s).
Proof.
  intros Hn Hv H Hag. unfold litValue in H.
  destruct (all vs !! v) as [val|] eqn:E.
  - injection H as <- <-. exists m.
    split; [apply sameOn_refl|]. split; [exact Hag|].
    pose proof (nb_range _ Hn v val E) as Hr.
    destruct (nb_all _ Hn v val E) as [Hp|Hd]; [|exfalso; exact (Hv _ Hd)].
    simpl. rewrite <- (Hag v val Hp).
    destruct s; [rewrite litHolds_neg by lia|rewrite litHolds_pos by lia]; reflexivity.
  - injection H as <- <-.
    set (val := Z.of_nat (size (all vs)) + 1).
    exists (fun i => if i =? val then rho v else m i).
    split; [|split].
    + intros i Hi. destruct (Z.eqb_spec i val); [subst val; lia|reflexivity].
    + intros w i Hw. simpl in Hw.
      destruct (decide (v = w)) as [<-|Hne].
      * rewrite lookup_insert_eq in Hw. injection Hw as <-.
        rewrite Z.eqb_refl. reflexivity.
      * rewrite lookup_insert_ne in Hw by exact Hne.
        pose proof (nb_range _ Hn w i (nb_pb _ Hn w i Hw)) as Hr.
        destruct (Z.eqb_spec i val); [subst val; lia|]. exact (Hag w i Hw).
    + simpl.
      destruct s; [rewrite litHolds_neg by (subst val; lia)
                  |rewrite litHolds_pos by (subst val; lia)];
        rewrite Z.eqb_refl; reflexivity.
Qed.

Lemma vars_dummy_complete (vs vs1 : vars) (d : Z) (m : Z -> bool) (b : bool) :
  numbered vs -> vars_dummy vs = (vs1, d) -> agrees rho vs m ->
  exists m', sameOn vs m m' /\ agrees rho vs1 m' /\ m' d = b.
Proof.
  intros Hn H Hag. unfold vars_dummy in H. injection H as <- <-.
  set (val := Z.of_nat (size (all vs)) + 1).
  exists (fun i => if i =? val then b else m i).
  split; [|split].
  - intros i Hi. destruct (Z.eqb_spec i val); [subst val; lia|reflexivity].
  - intros w i Hw. simpl in Hw.
    pose proof (nb_range _ Hn w i (nb_pb _ Hn w i Hw)) as Hr.
    destruct (Z.eqb_spec i val); [subst val; lia|]. exact (Hag w i Hw).
  - rewrite Z.eqb_refl. reflexivity.
Qed.

Lemma cnfAnd_complete (subs : list Formula) :
  Forall (fun sub => forall vs vs' cs m,
              numbered vs -> cnfRec sub vs = Some (vs', cs) -> agrees rho vs m ->
              exists m', sameOn vs m m' /\ agrees rho vs' m' /\
                         (eval rho sub = true -> cnfHolds m' cs = true)) subs ->
  Forall notGenerated (concat (map fvars subs)) ->
  forall vs res vs' res' m,
    numbered vs -> Forall (Forall (indexed vs)) res ->
    cnfAnd cnfRec subs vs res = Some (vs', res') -> agrees rho vs m ->
    exists m', sameOn vs m m' /\ agrees rho vs' m' /\
               (cnfHolds m res = true -> forallb (eval rho) subs = true ->
                cnfHolds m' res' = true).
Proof.
  induction subs as [|sub subs IH];
    intros Hrec Hng vs res vs' res' m Hn Hres H Hag.
  - simpl in H. injection H as <- <-. exists m.
    split; [apply sameOn_refl|]. split; [exact Hag|]. intros Hm _. exact Hm.
  - apply Forall_cons in Hrec as [Hrec1 Hrec].
    simpl in Hng. apply Forall_app in Hng as [Hng1 Hng].
    rewrite cnfAnd_cons in H.
    destruct (cnfRec sub vs) as [[vs1 cs]|] eqn:E; [|discriminate H].
    destruct (cnfRec_numbered sub vs vs1 cs Hng1 Hn E) as (Hn1 & Ha1 & Hp1 & Hcs & _).
    assert (Hres1 : Forall (Forall (indexed vs1)) (res ++ cs)).
    { apply Forall_app. split; [exact (clauses_mono vs vs1 res Ha1 Hres)|exact Hcs]. }
    destruct (Hrec1 vs vs1 cs m Hn E Hag) as (m1 & Hs1 & Hag1 & Hc1).
    destruct (IH Hrec Hng vs1 _ vs' res' m1 Hn1 Hres1 H Hag1) as (m' & Hs' & Hag' & Hc').
    exists m'. split; [exact (sameOn_trans vs vs1 m m1 m' Ha1 Hs1 Hs')|].
    split; [exact Hag'|]. intros Hm Hall. simpl in Hall.
    apply andb_true_iff in Hall as [Hsubt Hall].
    apply Hc'; [|exact Hall]. rewrite cnfHolds_app.
    rewrite (sameOn_cnf vs m m1 res Hs1 Hres), Hm, (Hc1 Hsubt). reflexivity.
Qed.

Lemma cnfOrAnd_complete (d : Z) (subs : list Formula) :
  Forall (fun sub => forall vs vs' cs m,
              numbered vs -> cnfRec sub vs = Some (vs', cs) -> agrees rho vs m ->
              exists m', sameOn vs m m' /\ agrees rho vs' m' /\
                         (eval rho sub = true -> cnfHolds m' cs = true)) subs ->
  Forall notGenerated (concat (map fvars subs)) ->
  forall vs res vs' res' m,
    numbered vs -> indexed vs d -> 0 < d -> Forall (Forall (indexed vs)) res ->
    cnfOrAnd cnfRec d subs vs res = Some (vs', res') -> agrees rho vs m ->
    exists m', sameOn vs m m' /\ agrees rho vs' m' /\
               (cnfHolds m res = true ->
                m d = false \/ forallb (eval rho) subs = true ->
                cnfHolds m' res' = true).
Proof.
  induction subs as [|sub subs IH];
    intros Hrec Hng vs res vs' res' m Hn Hd Hpos Hres H Hag.
  - simpl in H. injection H as <- <-. exists m.
    split; [apply sameOn_refl|]. split; [exact Hag|]. intros Hm _. exact Hm.
  - apply Forall_cons in Hrec as [Hrec1 Hrec].
    simpl in Hng. apply Forall_app in Hng as [Hng1 Hng].
    rewrite cnfOrAnd_cons in H.
    destruct (cnfRec sub vs) as [[vs1 [|c cs]]|] eqn:E; try discriminate H.
    destruct (cnfRec_numbered sub vs vs1 _ Hng1 Hn E) as (Hn1 & Ha1 & Hp1 & Hcs & _).
    assert (Hd1 := indexed_mono vs vs1 d Ha1 Hd).
    assert (Hres1 : Forall (Forall (indexed vs1)) (res ++ [c ++ [- d]])).
    { apply Forall_app. split; [exact (clauses_mono vs vs1 res Ha1 Hres)|].
      constructor; [|constructor]. apply Forall_app. split.
      - apply Forall_cons in Hcs as [Hcs _]. exact Hcs.
      - constructor; [|constructor]. unfold indexed in *. rewrite Z.abs_opp. exact Hd1. }
    destruct (Hrec1 vs vs1 _ m Hn E Hag) as (m1 & Hs1 & Hag1 & Hc1).
    destruct (IH Hrec Hng vs1 _ vs' res' m1 Hn1 Hd1 Hpos Hres1 H Hag1)
      as (m' & Hs' & Hag' & Hc').
    exists m'. split; [exact (sameOn_trans vs vs1 m m1 m' Ha1 Hs1 Hs')|].
    split; [exact Hag'|]. intros Hm Hor.
    assert (Hmd : m1 d = m d) by (apply Hs1; unfold indexed in Hd; lia).
    apply Hc'.
    + rewrite cnfHolds_app, (sameOn_cnf vs m m1 res Hs1 Hres), Hm.
      simpl. rewrite andb_true_r, clauseHolds_app.
      unfold clauseHolds at 2. cbn [existsb].
      rewrite litHolds_neg, Hmd, orb_false_r by exact Hpos.
      destruct Hor as [Hor|Hor]; [rewrite Hor; apply orb_true_r|].
      simpl in Hor. apply andb_true_iff in Hor as [Hsubt _].
      specialize (Hc1 Hsubt). simpl in Hc1. apply andb_true_iff in Hc1 as [Hc1 _].
      rewrite Hc1. reflexivity.
    + rewrite Hmd. destruct Hor as [Hor|Hor]; [left; exact Hor|right].
      simpl in Hor. apply andb_true_iff in Hor as [_ Hor]. exact Hor.
Qed.

Lemma cnfOr_complete (subs : list Formula) :
  Forall (fun sub =>
            match sub with
            | And subs2 =>
                Forall (fun sub2 => forall vs vs' cs m,
                            numbered vs -> cnfRec sub2 vs = Some (vs', cs) ->
                            agrees rho vs m ->
                            exists m', sameOn vs m m' /\ agrees rho vs' m' /\
                                       (eval rho sub2 = true -> cnfHolds m' cs = true))
                       subs2
            | _ => True
            end) subs ->
  Forall notGenerated (concat (map fvars subs)) ->
  forall vs res lits vs' res' m,
    numbered vs -> Forall (Forall (indexed vs)) res -> Forall (indexed vs) lits ->
    cnfOr cnfRec subs vs res lits = Some (vs', res') -> agrees rho vs m ->
    exists m', sameOn vs m m' /\ agrees rho vs' m' /\
               (cnfHolds m res = true ->
                clauseHolds m lits = true \/ existsb (eval rho) subs = true ->
                cnfHolds m' res' = true).
Proof.
  induction subs as [|sub subs IH];
    intros Hrec Hng vs res lits vs' res' m Hn Hres Hlits H Hag.
  - simpl in H. injection H as <- <-. exists m.
    split; [apply sameOn_refl|]. split; [exact Hag|]. intros Hm [Hor|Hor];
      [|discriminate Hor].
    rewrite cnfHolds_app, Hm. simpl. rewrite Hor. reflexivity.
  - apply Forall_cons in Hrec as [Hrec1 Hrec].
    simpl in Hng. apply Forall_app in Hng as [Hng1 Hng].
    rewrite cnfOr_cons in H.
    destruct sub as [| |x|x s|h|a|o']; try discriminate H.
    + destruct (litValue vs x s) as [vs1 y] eqn:Hlv.
      apply Forall_cons in Hng1 as [Hx _].
      destruct (litValue_numbered _ _ _ _ _ Hn Hx Hlv) as (Hn1 & Ha1 & Hp1 & Hy & _).
      assert (Hres1 := clauses_mono vs vs1 res Ha1 Hres).
      assert (Hlits1 : Forall (indexed vs1) (lits ++ [y])).
      { apply Forall_app. split.
        - eapply Forall_impl; [exact Hlits|]. intros z. apply indexed_mono. exact Ha1.
        - constructor; [exact Hy|constructor]. }
      destruct (litValue_complete vs vs1 x s y m Hn Hx Hlv Hag) as (m1 & Hs1 & Hag1 & Hl1).
      destruct (IH Hrec Hng vs1 res _ vs' res' m1 Hn1 Hres1 Hlits1 H Hag1)
        as (m' & Hs' & Hag' & Hc').
      exists m'. split; [exact (sameOn_trans vs vs1 m m1 m' Ha1 Hs1 Hs')|].
      split; [exact Hag'|]. intros Hm Hor. apply Hc'.
      * rewrite (sameOn_cnf vs m m1 res Hs1 Hres). exact Hm.
      * rewrite clauseHolds_app, (sameOn_clause vs m m1 lits Hs1 Hlits).
        unfold clauseHolds at 2. cbn [existsb]. rewrite Hl1, orb_false_r.
        destruct Hor as [Hor|Hor]; [left; rewrite Hor; reflexivity|].
        cbn [existsb] in Hor. apply orb_true_iff in Hor as [Hor|Hor];
          [left; rewrite Hor; apply orb_true_r|right; exact Hor].
    + destruct (vars_dummy vs) as [vs1 d] eqn:Hdm.
      destruct (vars_dummy_numbered _ _ _ Hn Hdm) as (Hn1 & Ha1 & Hp1 & Hd & Hpos).
      cbv zeta in H.
      destruct (cnfOrAnd cnfRec d a vs1 res) as [[vs2 res2]|] eqn:E; [|discriminate H].
      simpl in Hng1.
      assert (Hres1 := clauses_mono vs vs1 res Ha1 Hres).
      destruct (cnfOrAnd_keeps _ _ _ _ _ _ Hng1 Hn1 Hd Hres1 E) as (Hn2 & Ha2 & Hp2 & Hres2).
      assert (Hlits1 : Forall (indexed vs1) lits).
      { eapply Forall_impl; [exact Hlits|]. intros z. apply indexed_mono. exact Ha1. }
      assert (Hlits2 : Forall (indexed vs2) (lits ++ [d])).
      { apply Forall_app. split.
        - eapply Forall_impl; [exact Hlits1|]. intros z. apply indexed_mono. exact Ha2.
        - constructor; [exact (indexed_mono vs1 vs2 d Ha2 Hd)|constructor]. }
      destruct (vars_dummy_complete vs vs1 d m (forallb (eval rho) a) Hn Hdm Hag)
        as (m1 & Hs1 & Hag1 & Hd1).
      destruct (cnfOrAnd_complete d a Hrec1 Hng1 vs1 res vs2 res2 m1 Hn1 Hd Hpos Hres1 E Hag1)
        as (m2 & Hs2 & Hag2 & Hc2).
      destruct (IH Hrec Hng vs2 res2 _ vs' res' m2 Hn2 Hres2 Hlits2 H Hag2)
        as (m' & Hs' & Hag' & Hc').
      exists m'.
      split; [exact (sameOn_trans vs vs2 m m2 m' ltac:(etransitivity; eassumption)
                       (sameOn_trans vs vs1 m m1 m2 Ha1 Hs1 Hs2) Hs')|].
      split; [exact Hag'|]. intros Hm Hor. apply Hc'.
      * apply Hc2; [rewrite (sameOn_cnf vs m m1 res Hs1 Hres); exact Hm|].
        rewrite Hd1. destruct (forallb (eval rho) a); [right|left]; reflexivity.
      * rewrite clauseHolds_app, (sameOn_clause vs1 m1 m2 lits Hs2 Hlits1),
          (sameOn_clause vs m m1 lits Hs1 Hlits).
        unfold clauseHolds at 2. cbn [existsb].
        rewrite litHolds_pos, orb_false_r by exact Hpos.
        assert (Hd2 : m2 d = m1 d) by (apply Hs2; unfold indexed in Hd; lia).
        rewrite Hd2, Hd1.
        destruct Hor as [Hor|Hor]; [left; rewrite Hor; reflexivity|].
        cbn [existsb eval] in Hor. apply orb_true_iff in Hor as [Hor|Hor];
          [left; rewrite Hor; apply orb_true_r|right; exact Hor].
Qed.

Lemma cnfRec_complete_aux (n : nat) :
  forall g vs vs' cs m,
    (depth g <= n)%nat -> Forall notGenerated (fvars g) ->
    numbered vs -> cnfRec g vs = Some (vs', cs) -> agrees rho vs m ->
    exists m', sameOn vs m m' /\ agrees rho vs' m' /\
               (eval rho g = true -> cnfHolds m' cs = true).
Proof.
  induction n as [|n IH]; intros g vs vs' cs m Hd Hng Hn H Hag;
    [destruct g; simpl in Hd; lia|].
  assert (Hkids : forall l : list Formula,
             (foldr (fun g k => Nat.max (depth g) k) 0%nat l <= n)%nat ->
             Forall notGenerated (concat (map fvars l)) ->
             Forall (fun sub => forall vs vs' cs m,
                         numbered vs -> cnfRec sub vs = Some (vs', cs) ->
                         agrees rho vs m ->
                         exists m', sameOn vs m m' /\ agrees rho vs' m' /\
                                    (eval rho sub = true -> cnfHolds m' cs = true)) l).
  { intros l Hl Hnl. apply maxdepth_le in Hl. rewrite Forall_forall in Hl.
    rewrite Forall_forall. intros sub Hsub vs0 vs0' cs0 m0.
    apply IH; [exact (Hl sub Hsub)|exact (notGenerated_sub l sub Hnl Hsub)]. }
  destruct g as [| |x|x s|h|a|o]; try discriminate H.
  - injection H as <- <-. exists m.
    split; [apply sameOn_refl|]. split; [exact Hag|]. reflexivity.
  - injection H as <- <-. exists m.
    split; [apply sameOn_refl|]. split; [exact Hag|]. intros Hf. discriminate Hf.
  - simpl in H. destruct (litValue vs x s) as [vs1 y] eqn:Hlv. injection H as <- <-.
    apply Forall_cons in Hng as [Hx _].
    destruct (litValue_complete vs vs1 x s y m Hn Hx Hlv Hag) as (m' & Hs & Hag' & Hl).
    exists m'. split; [exact Hs|]. split; [exact Hag'|]. intros Ht.
    simpl. rewrite Hl, Ht. reflexivity.
  - change (cnfRec (And a) vs) with (cnfAnd cnfRec a vs []) in H.
    simpl in Hd, Hng.
    destruct (cnfAnd_complete a (Hkids a ltac:(lia) Hng) Hng vs [] vs' cs m Hn
                ltac:(constructor) H Hag) as (m' & Hs & Hag' & Hc).
    exists m'. split; [exact Hs|]. split; [exact Hag'|]. intros Ht. apply Hc;
      [reflexivity|exact Ht].
  - change (cnfRec (Or o) vs) with (cnfOr cnfRec o vs [] []) in H.
    simpl in Hd, Hng.
    assert (Hrec : Forall (fun sub =>
            match sub with
            | And subs2 =>
                Forall (fun sub2 => forall vs vs' cs m,
                            numbered vs -> cnfRec sub2 vs = Some (vs', cs) ->
                            agrees rho vs m ->
                            exists m', sameOn vs m m' /\ agrees rho vs' m' /\
                                       (eval rho sub2 = true -> cnfHolds m' cs = true))
                       subs2
            | _ => True
            end) o).
    { assert (Hdo := proj1 (maxdepth_le depth o n) ltac:(lia)).
      rewrite Forall_forall in Hdo. rewrite Forall_forall. intros sub Hsub.
      specialize (Hdo sub Hsub).
      pose proof (notGenerated_sub o sub Hng Hsub) as Hnsub.
      destruct sub as [| |x|x s|h|a|o']; try exact I.
      simpl in Hdo, Hnsub. apply Hkids; [lia|exact Hnsub]. }
    destruct (cnfOr_complete o Hrec Hng vs [] [] vs' cs m Hn
                ltac:(constructor) ltac:(constructor) H Hag) as (m' & Hs & Hag' & Hc).
    exists m'. split; [exact Hs|]. split; [exact Hag'|]. intros Ht. apply Hc;
      [reflexivity|right; exact Ht].
Qed.

End Complete.

(** X10. For a formula [f] without constants and without empty conjunction
    or disjunction ([plain]), whose variables bear none of the names that
    [vars.dummy] makes up ([notGenerated]): every valuation that makes the
    formula true extends to a model of the clauses of [asCnf], a model that
    gives each variable of [pb] the value of the valuation, so that
    [cnf.solve] reads the valuation back. *)
Theorem asCnf_complete (f : Formula) (c : cnf) (rho : variable -> bool)
    (Hplain : plain f = true)
    (Hnames : Forall notGenerated (fvars f))
    (Hrun : asCnf f = Some c)
    (Htrue : eval rho f = true) :
  exists m, cnfHolds m (clauses c) = true /\
            forall v, is_Some (pb (cnf_vars c) !! v) ->
                      readBack (cnf_vars c) m v = rho v.
Proof.
  unfold asCnf in Hrun.
  destruct (nnf (2 * depth f) f) as [g|] eqn:Hg; [|discriminate].
  destruct (cnfRec g {| all := ∅; pb := ∅ |}) as [[vs cls]|] eqn:Hc; [|discriminate].
  injection Hrun as <-. simpl.
  destruct (nnf_plain_eval _ _ _ Hplain Hg) as [_ Hev].
  assert (Hng : Forall notGenerated (fvars g)).
  { rewrite Forall_forall in Hnames. rewrite Forall_forall. intros v Hv.
    apply Hnames. exact (nnf_fvars _ _ _ _ Hg Hv). }
  assert (Hag0 : agrees rho {| all := ∅; pb := ∅ |} (fun _ => false)).
  { intros v i Hv. simpl in Hv. rewrite lookup_empty in Hv. discriminate Hv. }
  destruct (cnfRec_complete_aux rho (depth g) g _ vs cls _ (le_n _) Hng
              empty_numbered Hc Hag0) as (m & _ & Hag & Hcl).
  exists m. split; [apply Hcl; rewrite Hev; exact Htrue|].
  intros v [i Hi]. unfold readBack. rewrite Hi. exact (Hag v i Hi).
Qed.

(** The theorem at [a | (b & (c | (d & e)))] and the valuation where only
    [a] is true. *)
Lemma asCnf_complete_witness :
  let f := Or [Var (pbVar "a");
               And [Var (pbVar "b");
                    Or [Var (pbVar "c"); And [Var (pbVar "d"); Var (pbVar "e")]]]] in
  let rho := fun v : variable => bool_decide (v = pbVar "a") in
  exists c, asCnf f = Some c /\ eval rho f = true /\
    exists m, cnfHolds m (clauses c) = true /\
              forall v, is_Some (pb (cnf_vars c) !! v) ->
                        readBack (cnf_vars c) m v = rho v.
Proof.
  intros f rho.
  destruct (asCnf f) as [c|] eqn:Hc; [|vm_compute in Hc; discriminate Hc].
  exists c. split; [reflexivity|]. split; [reflexivity|].
  apply (asCnf_complete f c rho).
  - reflexivity.
  - repeat constructor; apply pbVar_notGenerated.
  - exact Hc.
  - reflexivity.
Defined.

End BfFacts.

(* ===================================================================== *)
(** * Facts about package [solver]                                        *)
(* ===================================================================== *)

Module SolverFacts.
Import solver.

(** ** The outcome monad and slices *)

Lemma bind_Ret {A B : Type} (m : result A) (k : A -> result B) (b : B) :
  bind m k = Ret b -> exists a, m = Ret a /\ k a = Ret b.
Proof. destruct m; simpl; intros H; try discriminate. eauto. Qed.

Lemma idx_Ret {A : Type} (l : list A) (i : Z) (x : A) :
  idx l i = Ret x <-> 0 <= i /\ l !! Z.to_nat i = Some x.
Proof.
  unfold idx. destruct (Z.ltb_spec i 0).
  - split; [discriminate | lia].
  - destruct (l !! Z.to_nat i) eqn:Hl; split.
    + intros [= ->]. auto.
    + intros [_ [= ->]]. reflexivity.
    + discriminate.
    + intros [_ ?]. discriminate.
Qed.

Lemma upd_Ret {A : Type} (l l' : list A) (i : Z) (x : A) :
  upd l i x = Ret l' <->
  0 <= i /\ (Z.to_nat i < length l)%nat /\ l' = <[Z.to_nat i := x]> l.
Proof.
  unfold upd. destruct (Z.ltb_spec i 0).
  - split; [discriminate | lia].
  - destruct (Nat.ltb_spec (Z.to_nat i) (length l)); split.
    + intros [= <-]. auto.
    + intros (_ & _ & ->). reflexivity.
    + discriminate.
    + lia.
Qed.

Lemma idx_in_range {A : Type} (l : list A) (i : Z) :
  0 <= i -> (Z.to_nat i < length l)%nat -> exists x, idx l i = Ret x.
Proof.
  intros H0 Hlt. destruct (lookup_lt_is_Some_2 l _ Hlt) as [x Hx].
  exists x. apply idx_Ret. auto.
Qed.

Lemma upd_in_range {A : Type} (l : list A) (i : Z) (x : A) :
  0 <= i -> (Z.to_nat i < length l)%nat -> upd l i x = Ret (<[Z.to_nat i := x]> l).
Proof. intros. apply upd_Ret. auto. Qed.

Lemma copySlice_same_length {A : Type} (dst src : list A) :
  length dst = length src -> copySlice dst src = src.
Proof.
  intros H. unfold copySlice.
  rewrite take_ge, drop_ge by lia. apply app_nil_r.
Qed.

(** Inversion of a chain of binds that returned. *)
Tactic Notation "inv_bind" hyp(H) "as" simple_intropattern(a) ident(Ha) :=
  apply bind_Ret in H; destruct H as (a & Ha & H).

(** ** [Solve] on a solver that is already Unsat *)

Section SolveUnsat.
Context {T : EngineTypes} (E : EngineOps T).

(** C9. A solver whose status is Unsat answers [Solve] with Unsat at once:
    no fuel is used, so no search step is made, and the solver that comes
    back is the solver that went in. *)
Theorem Solve_unsat_immediate (fuel : nat) (s : Solver T)
    (Hunsat : status s = Unsat) :
  Solve E fuel s = Ret (s, Unsat) /\ Solve E 0 s = Ret (s, Unsat).
Proof. unfold Solve. rewrite Hunsat. auto. Qed.

End SolveUnsat.

(** The theorem at the problem [x1 or x2] once it was declared Unsat. *)
Lemma Solve_unsat_immediate_witness :
  status (set_status Unsat Ref.pbOr) = Unsat /\
  Solve Ref.refOps 5 (set_status Unsat Ref.pbOr) = Ret (set_status Unsat Ref.pbOr, Unsat).
Proof.
  split; [reflexivity|].
  apply (Solve_unsat_immediate Ref.refOps 5 (set_status Unsat Ref.pbOr)).
  reflexivity.
Defined.

Lemma filter_all {A : Type} (P : A -> Prop) `{!forall x, Decision (P x)} (l : list A) :
  Forall P l -> filter P l = l.
Proof.
  induction 1 as [|x l Hx _ IH]; [reflexivity|].
  rewrite filter_cons_True by exact Hx. congruence.
Qed.

Lemma filter_none {A : Type} (P : A -> Prop) `{!forall x, Decision (P x)} (l : list A) :
  Forall (fun x => ~ P x) l -> filter P l = [].
Proof.
  induction 1 as [|x l Hx _ IH]; [reflexivity|].
  rewrite filter_cons_False by exact Hx. exact IH.
Qed.

Lemma filter_agree {A : Type} (P Q : A -> Prop)
    `{!forall x, Decision (P x)} `{!forall x, Decision (Q x)} (l : list A) :
  Forall (fun x => P x <-> Q x) l -> filter P l = filter Q l.
Proof.
  induction 1 as [|x l Hx _ IH]; [reflexivity|].
  rewrite !filter_cons. rewrite IH.
  destruct (decide (P x)), (decide (Q x)); tauto.
Qed.

(** ** Backtracking: [cleanupBindings] *)

Section Backtrack.
Context {T : EngineTypes} (E : EngineOps T).

Lemma levelOf_lookup (m : list decLevel) (l : Lit) (a : decLevel) :
  m !! Z.to_nat (Lit_Var l) = Some a -> levelOf m l = abs a.
Proof. unfold levelOf. intros ->. reflexivity. Qed.

(** The scan of the trail: the kept literals are bound at [lvl] at most, the
    first undone literal is bound beyond it. *)
Lemma splitTrail_spec (m : list decLevel) (lvl : decLevel) (tr keep undo : list Lit) :
  splitTrail m lvl tr = Ret (keep, undo) ->
  tr = keep ++ undo /\
  Forall (fun l => levelOf m l <= lvl) keep /\
  match undo with
  | [] => True
  | u :: _ => lvl < levelOf m u
  end.
Proof.
  revert keep undo. induction tr as [|lit tr IH]; intros keep undo H; simpl in H.
  - injection H as <- <-. auto.
  - inv_bind H as a Ha. apply idx_Ret in Ha as [_ Hl].
    destruct (Z.ltb_spec lvl (abs a)).
    + injection H as <- <-. rewrite (levelOf_lookup _ _ _ Hl). auto.
    + inv_bind H as [k u] Hrec. injection H as <- <-.
      destruct (IH _ _ Hrec) as (-> & Hk & Hu).
      split; [reflexivity|]. split; [|exact Hu].
      constructor; [|exact Hk]. rewrite (levelOf_lookup _ _ _ Hl). lia.
Qed.

Lemma splitTrail_total (m : list decLevel) (lvl : decLevel) (tr : list Lit) :
  Forall (fun l => inRange (length m) (Lit_Var l)) tr ->
  exists keep undo, splitTrail m lvl tr = Ret (keep, undo).
Proof.
  induction 1 as [|lit tr [H0 Hlt] _ (k & u & IH)]; simpl.
  - eauto.
  - destruct (idx_in_range m _ H0 Hlt) as [a ->]. simpl.
    destruct (lvl <? abs a); [eauto|]. rewrite IH. simpl. eauto.
Qed.

(** On a trail sorted by level the scan is a filter. *)
Lemma splitTrail_sorted (m : list decLevel) (lvl : decLevel) (tr keep undo : list Lit) :
  StronglySorted Z.le (levelOf m <$> tr) ->
  splitTrail m lvl tr = Ret (keep, undo) ->
  keep = filter (fun l => levelOf m l <= lvl) tr /\
  undo = filter (fun l => lvl < levelOf m l) tr.
Proof.
  intros Hs H. destruct (splitTrail_spec _ _ _ _ _ H) as (-> & Hk & Hu).
  rewrite fmap_app in Hs.
  assert (Hall : Forall (fun l => lvl < levelOf m l) undo).
  { destruct undo as [|u undo]; [constructor|].
    apply StronglySorted_app_1_r in Hs. rewrite fmap_cons in Hs.
    apply StronglySorted_cons in Hs as [Hle _].
    constructor; [exact Hu|].
    rewrite Forall_fmap in Hle. eapply Forall_impl; [exact Hle|].
    simpl. intros x Hx. lia. }
  rewrite !filter_app. split.
  - rewrite (filter_all _ keep Hk).
    rewrite (filter_none (fun l => levelOf m l <= lvl) undo), app_nil_r; [reflexivity|].
    eapply Forall_impl; [exact Hall|]. simpl. intros; lia.
  - rewrite (filter_all _ undo Hall).
    rewrite (filter_none (fun l => lvl < levelOf m l) keep); [reflexivity|].
    eapply Forall_impl; [exact Hk|]. simpl. intros; lia.
Qed.

(** One step of the inner loop. *)
Lemma unbind_spec (s s1 : Solver T) (ti ti1 : list Z) (l : Lit) :
  queueLaws E ->
  unbind E (s, ti) l = Ret (s1, ti1) ->
  inRange (length (model s)) (Lit_Var l) /\
  (Z.to_nat (Lit_Var l) < length (reason s))%nat /\
  length (heap s1) = length (heap s) /\
  model s1 = <[Z.to_nat (Lit_Var l) := 0]> (model s) /\
  reason s1 = <[Z.to_nat (Lit_Var l) := None]> (reason s) /\
  polarity s1 = <[Z.to_nat (Lit_Var l) := IsPositive l]> (polarity s) /\
  (forall c, heap s1 !! c =
             if decide (reason s !! Z.to_nat (Lit_Var l) = Some (Some c))
             then unlock <$> heap s !! c else heap s !! c) /\
  q_contains E (varQueue s1) (Lit_Var l) = true /\
  (forall w, q_contains E (varQueue s) w = true ->
             q_contains E (varQueue s1) w = true) /\
  trail s1 = trail s /\ status s1 = status s /\ wl s1 = wl s /\
  nbVars s1 = nbVars s /\ lastModel s1 = lastModel s /\ minLits s1 = minLits s /\
  minWeights s1 = minWeights s /\ asumptions s1 = asumptions s.
Proof.
  unfold unbind. intros HQ H.
  inv_bind H as m Hm. apply upd_Ret in Hm as (H0 & Hlt & ->).
  inv_bind H as r Hr. simpl in Hr. apply idx_Ret in Hr as [_ Hr].
  inv_bind H as s2 Hs2. inv_bind H as pol Hpol.
  apply upd_Ret in Hpol as (_ & _ & ->).
  set (v := Z.to_nat (Lit_Var l)) in *.
  assert (Hs2' : length (heap s2) = length (heap s) /\
                 model s2 = <[v := 0]> (model s) /\
                 reason s2 = <[v := None]> (reason s) /\
                 (forall c, heap s2 !! c =
                            if decide (reason s !! v = Some (Some c))
                            then unlock <$> heap s !! c else heap s !! c) /\
                 polarity s2 = polarity s /\ varQueue s2 = varQueue s /\
                 trail s2 = trail s /\ status s2 = status s /\ wl s2 = wl s /\
                 nbVars s2 = nbVars s /\ lastModel s2 = lastModel s /\
                 minLits s2 = minLits s /\ minWeights s2 = minWeights s /\
                 asumptions s2 = asumptions s).
  { destruct r as [c0|].
    - inv_bind Hs2 as cl Hcl. unfold deref in Hcl. simpl in Hcl.
      destruct (heap s !! c0) as [cl0|] eqn:Hh; [|discriminate].
      injection Hcl as ->.
      inv_bind Hs2 as rs Hrs. apply upd_Ret in Hrs as (_ & _ & ->).
      injection Hs2 as <-. simpl. repeat split; try reflexivity.
      { apply length_insert. }
      intros c. rewrite Hr. destruct (decide (Some (Some c0) = Some (Some c))) as [Heq|Hne].
      + injection Heq as <-. rewrite Hh. simpl.
        apply list_lookup_insert_eq. eapply lookup_lt_Some; eauto.
      + apply list_lookup_insert_ne. congruence.
    - injection Hs2 as <-. simpl. repeat split; try reflexivity.
      + symmetry. apply list_insert_id. exact Hr.
      + intros c. rewrite Hr. destruct (decide (Some None = Some (Some c))); [discriminate|].
        reflexivity. }
  destruct Hs2' as (Hhl & Hm & Hre & Hhp & Hpo & Hq & Htr & Hst & Hwl & Hnb & Hlm & Hml & Hmw & Has).
  split; [split; assumption|].
  split; [eapply lookup_lt_Some; eassumption|].
  destruct (q_contains E (varQueue (set_polarity _ s2)) (Lit_Var l)) eqn:Hc;
    injection H as <- <-; simpl in *.
  - rewrite Hpo. repeat split; try assumption.
    intros w. rewrite Hq. auto.
  - rewrite Hpo. repeat split; try assumption.
    + apply (q_insert_same E HQ).
    + intros w Hw. apply (q_insert_keeps E HQ). rewrite Hq. exact Hw.
Qed.

(** The inner loop as a whole. *)
Lemma unbindAll_spec (undo : list Lit) (s s1 : Solver T) (ti ti1 : list Z) :
  queueLaws E ->
  foldM (unbind E) (s, ti) undo = Ret (s1, ti1) ->
  Forall (fun l => inRange (length (model s)) (Lit_Var l)) undo /\
  length (model s1) = length (model s) /\
  (forall l, l ∈ undo ->
             model s1 !! Z.to_nat (Lit_Var l) = Some 0 /\
             reason s1 !! Z.to_nat (Lit_Var l) = Some None /\
             q_contains E (varQueue s1) (Lit_Var l) = true) /\
  (forall i, Z.of_nat i ∉ Lit_Var <$> undo ->
             model s1 !! i = model s !! i /\ reason s1 !! i = reason s !! i) /\
  (forall w, q_contains E (varQueue s) w = true ->
             q_contains E (varQueue s1) w = true) /\
  trail s1 = trail s /\ status s1 = status s /\ wl s1 = wl s /\
  nbVars s1 = nbVars s /\ lastModel s1 = lastModel s /\ minLits s1 = minLits s /\
  minWeights s1 = minWeights s /\ asumptions s1 = asumptions s.
Proof.
  intros HQ. revert s ti.
  induction undo as [|l undo IH]; intros s ti H; simpl in H.
  - injection H as <- <-.
    split; [constructor|]. split; [reflexivity|].
    split; [intros x Hx; inversion Hx|]. repeat split; auto.
  - inv_bind H as [s2 ti2] Hstep.
    destruct (unbind_spec _ _ _ _ _ HQ Hstep)
      as (Hin & Hrl & _ & Hm & Hre & _ & _ & Hqc & Hqk & Htr & Hst & Hwl & Hnb & Hlm & Hml & Hmw & Has).
    destruct (IH _ _ H)
      as (Hall & Hlen & Hundo & Hout & Hqk' & Htr' & Hst' & Hwl' & Hnb' & Hlm' & Hml' & Hmw' & Has').
    assert (Hlen2 : length (model s2) = length (model s))
      by (rewrite Hm; apply length_insert).
    split.
    { constructor; [exact Hin|]. eapply Forall_impl; [exact Hall|].
      simpl. intros x. rewrite Hlen2. auto. }
    split; [congruence|].
    split.
    { intros x Hx. apply elem_of_cons in Hx as [->|Hx]; [|auto].
      destruct (decide (Lit_Var l ∈ Lit_Var <$> undo)) as [Hdup|Hnew].
      - apply list_elem_of_fmap in Hdup as (y & Hy & Hyin).
        rewrite Hy. auto.
      - destruct Hin as [H0 Hlt].
        assert (Hn : Z.of_nat (Z.to_nat (Lit_Var l)) ∉ Lit_Var <$> undo)
          by (rewrite Z2Nat.id by exact H0; exact Hnew).
        destruct (Hout _ Hn) as [-> ->]. rewrite Hm, Hre.
        rewrite !list_lookup_insert_eq by lia. auto. }
    split.
    { intros i Hi. rewrite fmap_cons in Hi. apply not_elem_of_cons in Hi as [Hne Hi].
      destruct (Hout _ Hi) as [-> ->]. rewrite Hm, Hre.
      destruct Hin as [H0 _].
      rewrite !list_lookup_insert_ne by lia. auto. }
    split; [auto|].
    repeat split; congruence.
Qed.

(** Every reason pointer that the loop clears releases one lock on its
    clause. *)
Lemma unbindAll_heap (undo : list Lit) (s s1 : Solver T) (ti ti1 : list Z)
    (c : cid) (cl : Clause) :
  queueLaws E ->
  NoDup (Lit_Var <$> undo) ->
  foldM (unbind E) (s, ti) undo = Ret (s1, ti1) ->
  heap s !! c = Some cl ->
  heap s1 !! c =
  Some (Nat.iter (length (filter (fun l => reason s !! Z.to_nat (Lit_Var l) = Some (Some c))
                                 undo)) unlock cl).
Proof.
  intros HQ. revert s ti cl.
  induction undo as [|l undo IH]; intros s ti cl Hnd H Hc; simpl in H.
  - injection H as <- <-. exact Hc.
  - inv_bind H as [s2 ti2] Hstep.
    rewrite fmap_cons in Hnd. apply NoDup_cons in Hnd as [Hnew Hnd].
    destruct (unbind_spec _ _ _ _ _ HQ Hstep)
      as ([H0 _] & _ & _ & _ & Hre & _ & Hhp & _).
    destruct (unbindAll_spec _ _ _ _ _ HQ H) as (Hall & _).
    assert (Hagree : filter (fun x => reason s2 !! Z.to_nat (Lit_Var x) = Some (Some c)) undo
                     = filter (fun x => reason s !! Z.to_nat (Lit_Var x) = Some (Some c)) undo).
    { apply filter_agree. apply Forall_forall. intros x Hx.
      rewrite Hre. rewrite list_lookup_insert_ne; [reflexivity|].
      rewrite Forall_forall in Hall. destruct (Hall x Hx) as [Hx0 _].
      intros Heq. apply Hnew. apply list_elem_of_fmap. exists x. split; [lia|exact Hx]. }
    specialize (Hhp c). rewrite Hc in Hhp.
    rewrite filter_cons.
    destruct (decide (reason s !! Z.to_nat (Lit_Var l) = Some (Some c))) as [Hr|Hr].
    + simpl in Hhp. rewrite (IH _ _ _ Hnd H Hhp), Hagree.
      cbn [length]. rewrite Nat.iter_succ_r. reflexivity.
    + rewrite (IH _ _ _ Hnd H Hhp), Hagree. reflexivity.
Qed.

(** The loops of [cleanupBindings] do not panic on a well-formed state. *)
Lemma unbindAll_total (undo : list Lit) (s : Solver T) (ti : list Z) :
  queueLaws E ->
  Forall (fun l => inRange (length (model s)) (Lit_Var l)) undo ->
  length (reason s) = length (model s) ->
  length (polarity s) = length (model s) ->
  Forall (fun r => match r with
                   | Some c => (c < length (heap s))%nat
                   | None => True
                   end) (reason s) ->
  exists s1 ti1, foldM (unbind E) (s, ti) undo = Ret (s1, ti1) /\
                 length (polarity s1) = length (polarity s).
Proof.
  intros HQ. revert s ti.
  induction undo as [|l undo IH]; intros s ti Hall Hrl Hpl Hhp.
  - simpl. eauto.
  - cbn [foldM]. apply Forall_cons in Hall as [[H0 Hlt] Hall].
    assert (Hstep : exists s2 ti2, unbind E (s, ti) l = Ret (s2, ti2)).
    { unfold unbind. rewrite (upd_in_range _ _ _ H0 Hlt). simpl.
      destruct (idx_in_range (reason s) (Lit_Var l) H0 ltac:(lia)) as [r Hr].
      rewrite Hr. simpl. apply idx_Ret in Hr as [_ Hr].
      destruct r as [c|].
      - rewrite Forall_lookup in Hhp. specialize (Hhp _ _ Hr). simpl in Hhp.
        destruct (lookup_lt_is_Some_2 _ _ Hhp) as [cl Hcl].
        unfold deref. simpl. rewrite Hcl. simpl.
        rewrite upd_in_range by (simpl; lia). simpl.
        rewrite upd_in_range by lia. simpl.
        destruct (q_contains E _ _); eauto.
      - simpl. rewrite upd_in_range by lia. simpl.
        destruct (q_contains E _ _); eauto. }
    destruct Hstep as (s2 & ti2 & Hstep). rewrite Hstep. simpl.
    destruct (unbind_spec _ _ _ _ _ HQ Hstep)
      as (_ & _ & Hhl & Hm & Hre & Hpo & _).
    destruct (IH s2 ti2) as (s1 & ti1 & Hrun & Hlen).
    + rewrite Hm, length_insert. exact Hall.
    + rewrite Hm, Hre, !length_insert. exact Hrl.
    + rewrite Hm, Hpo, !length_insert. exact Hpl.
    + rewrite Hre, Hhl. apply Forall_insert; [exact Hhp|exact I].
    + exists s1, ti1. split; [exact Hrun|].
      rewrite Hlen, Hpo, length_insert. reflexivity.
Qed.

Lemma resetPolarity_total (ls : list Lit) (pol : list bool) :
  Forall (fun l => inRange (length pol) (Lit_Var l)) ls ->
  exists pol', foldM (fun pol lit => upd pol (Lit_Var lit) (negb (IsPositive lit))) pol ls
               = Ret pol'.
Proof.
  revert pol. induction ls as [|l ls IH]; intros pol Hall; simpl.
  - eauto.
  - apply Forall_cons in Hall as [[H0 Hlt] Hall].
    rewrite (upd_in_range _ _ _ H0 Hlt). simpl.
    apply IH. rewrite length_insert. exact Hall.
Qed.

Lemma resetOptimPolarity_spec (s s' : Solver T) :
  resetOptimPolarity s = Ret s' -> exists pol, s' = set_polarity pol s.
Proof.
  unfold resetOptimPolarity. destruct (minLits s).
  - intros H. inv_bind H as pol Hpol. injection H as <-. eauto.
  - intros [= <-]. exists (polarity s). destruct s; reflexivity.
Qed.

(** [cleanupBindings], taken apart. *)
Lemma cleanupBindings_inv (lvl : decLevel) (s s' : Solver T) :
  cleanupBindings E lvl s = Ret s' ->
  exists keep undo s1 ti1 pol,
    splitTrail (model s) lvl (trail s) = Ret (keep, undo) /\
    foldM (unbind E) (s, []) undo = Ret (s1, ti1) /\
    s' = set_polarity pol
           (set_varQueue (foldl (q_insert E) (varQueue s1) (reverse ti1))
                         (set_trail keep s1)).
Proof.
  unfold cleanupBindings. intros H.
  inv_bind H as [keep undo] Hsplit. inv_bind H as [s1 ti1] Hfold.
  apply resetOptimPolarity_spec in H as [pol ->].
  exists keep, undo, s1, ti1, pol. auto.
Qed.

Lemma foldl_insert_keeps (q : queue T) (vs : list Z) (w : Z) :
  queueLaws E ->
  q_contains E q w = true -> q_contains E (foldl (q_insert E) q vs) w = true.
Proof.
  intros HQ. revert q. induction vs as [|v vs IH]; intros q Hq; simpl; [exact Hq|].
  apply IH. apply (q_insert_keeps E HQ). exact Hq.
Qed.

Lemma cleanupBindings_total (lvl : decLevel) (s : Solver T) :
  queueLaws E -> wfBindings s -> exists s', cleanupBindings E lvl s = Ret s'.
Proof.
  intros HQ [Hrl Hpl Htr Hobj Hhp]. unfold cleanupBindings.
  destruct (splitTrail_total (model s) lvl (trail s) Htr) as (keep & undo & Hsplit).
  rewrite Hsplit. simpl.
  destruct (splitTrail_spec _ _ _ _ _ Hsplit) as (Heq & _).
  rewrite Heq in Htr. apply Forall_app in Htr as [_ Hundo].
  destruct (unbindAll_total undo s [] HQ Hundo Hrl Hpl Hhp) as (s1 & ti1 & Hrun & Hlen).
  rewrite Hrun. simpl.
  destruct (unbindAll_spec _ _ _ _ _ HQ Hrun) as (_ & _ & _ & _ & _ & _ & _ & _ & _ & _ & Hml & _).
  unfold resetOptimPolarity. simpl. rewrite Hml.
  destruct (minLits s) as [ls|]; [|eauto].
  destruct (resetPolarity_total ls (polarity s1)) as [pol ->]; [|simpl; eauto].
  rewrite Hlen, Hpl. exact Hobj.
Qed.

(** What [cleanupBindings] does to a well-formed solver, in full. *)
Lemma cleanupBindings_effect (lvl : decLevel) (s : Solver T) :
  queueLaws E -> wfBindings s -> levelsSorted s -> NoDup (Lit_Var <$> trail s) ->
  exists s',
    cleanupBindings E lvl s = Ret s' /\
    trail s' = filter (fun l => levelOf (model s) l <= lvl) (trail s) /\
    (forall l, l ∈ trail s' ->
               model s' !! Z.to_nat (Lit_Var l) = model s !! Z.to_nat (Lit_Var l) /\
               levelOf (model s') l <= lvl) /\
    (forall l, l ∈ undone lvl s ->
               model s' !! Z.to_nat (Lit_Var l) = Some 0 /\
               reason s' !! Z.to_nat (Lit_Var l) = Some None /\
               q_contains E (varQueue s') (Lit_Var l) = true) /\
    (forall i, model s' !! i = model s !! i \/ model s' !! i = Some 0) /\
    (forall c cl, heap s !! c = Some cl ->
                  heap s' !! c = Some (Nat.iter (released lvl s c) unlock cl)) /\
    length (model s') = length (model s) /\
    status s' = status s /\ wl s' = wl s /\ nbVars s' = nbVars s /\
    lastModel s' = lastModel s /\ minLits s' = minLits s /\
    minWeights s' = minWeights s /\ asumptions s' = asumptions s.
Proof.
  intros HQ Hwf Hsorted Hnd.
  destruct (cleanupBindings_total lvl s HQ Hwf) as [s' Hrun].
  exists s'. split; [exact Hrun|].
  destruct (cleanupBindings_inv _ _ _ Hrun) as (keep & undo & s1 & ti1 & pol & Hsplit & Hfold & ->).
  destruct (splitTrail_spec _ _ _ _ _ Hsplit) as (Htr & Hkeep & _).
  destruct (splitTrail_sorted _ _ _ _ _ Hsorted Hsplit) as [Hk Hu].
  destruct (unbindAll_spec _ _ _ _ _ HQ Hfold)
    as (Hall & Hlen & Hundo & Hout & Hqk & _ & Hst & Hwl & Hnb & Hlm & Hml & Hmw & Has).
  rewrite Htr, fmap_app in Hnd. apply NoDup_app in Hnd as (_ & Hdisj & Hndu).
  pose proof (wf_trail s Hwf) as Hrange. rewrite Htr in Hrange.
  apply Forall_app in Hrange as [Hrk _].
  simpl. split; [exact Hk|]. split; [|split; [|split; [|split]]].
  - intros l Hl.
    assert (Hl0 : 0 <= Lit_Var l).
    { rewrite Forall_forall in Hrk. apply (Hrk l Hl). }
    assert (Hsame : model s1 !! Z.to_nat (Lit_Var l) = model s !! Z.to_nat (Lit_Var l)).
    { apply Hout. rewrite Z2Nat.id by exact Hl0.
      apply Hdisj. apply list_elem_of_fmap_2. exact Hl. }
    split; [exact Hsame|].
    unfold levelOf. rewrite Hsame. rewrite Forall_forall in Hkeep. apply (Hkeep l Hl).
  - intros l Hl. unfold undone in Hl. rewrite <- Hu in Hl.
    destruct (Hundo l Hl) as (Hm & Hr & Hq).
    split; [exact Hm|]. split; [exact Hr|].
    apply foldl_insert_keeps; [exact HQ|exact Hq].
  - intros i. destruct (decide (Z.of_nat i ∈ Lit_Var <$> undo)) as [Hin|Hnin].
    + right. apply list_elem_of_fmap in Hin as (l & Hv & Hl).
      destruct (Hundo l Hl) as (Hm & _). rewrite <- Hv, Nat2Z.id in Hm. exact Hm.
    + left. apply (Hout i Hnin).
  - intros c cl Hc. unfold released, undone. rewrite <- Hu.
    apply (unbindAll_heap undo s s1 [] ti1 c cl HQ Hndu Hfold Hc).
  - repeat split; assumption.
Qed.

(** C5. Backtrack coherence. On a well-formed solver (every bound
    variable is on the trail, the trail is in the order of the levels and
    names a variable once), [cleanupBindings(L)] returns, and afterwards:
    the trail is the old trail without the literals bound beyond [L], so
    that the literals bound at [L] or below survive with their binding (for
    [L = 1], the restart, the top-level assignments survive); every
    variable that was bound beyond [L] has [model[v] = 0], a nil reason and
    is in the variable order heap; and every clause has been unlocked once
    for each undone literal whose reason it was. *)
Theorem cleanupBindings_coherent (lvl : decLevel) (s : Solver T)
    (HQ : queueLaws E) (Hlvl : 0 <= lvl) (Hwf : wfBindings s)
    (Hcov : trailCoversModel s) (Hsorted : levelsSorted s)
    (Hnd : NoDup (Lit_Var <$> trail s)) :
  exists s',
    cleanupBindings E lvl s = Ret s' /\
    trail s' = filter (fun l => levelOf (model s) l <= lvl) (trail s) /\
    (forall l, l ∈ trail s' ->
               model s' !! Z.to_nat (Lit_Var l) = model s !! Z.to_nat (Lit_Var l) /\
               levelOf (model s') l <= lvl) /\
    (forall (i : nat) (a : decLevel),
        model s !! i = Some a -> lvl < abs a ->
        model s' !! i = Some 0 /\ reason s' !! i = Some None /\
        q_contains E (varQueue s') (Z.of_nat i) = true) /\
    (forall c cl, heap s !! c = Some cl ->
                  heap s' !! c = Some (Nat.iter (released lvl s c) unlock cl)).
Proof.
  destruct (cleanupBindings_effect lvl s HQ Hwf Hsorted Hnd)
    as (s' & Hrun & Htr & Hkept & Hundone & _ & Hheap & _).
  exists s'. repeat (split; [assumption|]). split; [|exact Hheap].
  intros i a Hi Ha.
  assert (Hne : a <> 0) by (intros ->; change (abs 0) with 0 in Ha; lia).
  specialize (Hcov i a Hi Hne).
  apply list_elem_of_fmap in Hcov as (l & Hv & Hl).
  assert (Hlu : l ∈ undone lvl s).
  { apply list_elem_of_filter. split; [|exact Hl].
    unfold levelOf. rewrite <- Hv, Nat2Z.id, Hi. exact Ha. }
  destruct (Hundone l Hlu) as (Hm & Hr & Hq).
  rewrite <- Hv, Nat2Z.id in Hm, Hr. rewrite <- Hv in Hq. auto.
Qed.

End Backtrack.

(** The instance [refOps] satisfies the laws asked of the queue. *)
Lemma refOps_queueLaws : queueLaws Ref.refOps.
Proof.
  split; simpl.
  - intros q v. apply bool_decide_eq_true. apply elem_of_app. right. constructor.
  - intros q v w Hw. apply bool_decide_eq_true. apply bool_decide_eq_true in Hw.
    apply elem_of_app. left. exact Hw.
Qed.

(** The theorem at a restart ([L = 1]) in the middle of a search: [x1] is
    a top-level assignment, [x2] the decision of level 2, [not x3] was
    propagated at level 2 by the clause 0, which is locked once. *)
Lemma cleanupBindings_coherent_witness :
  queueLaws Ref.refOps /\ 0 <= 1 /\ wfBindings Ref.midSearch /\
  trailCoversModel Ref.midSearch /\ levelsSorted Ref.midSearch /\
  NoDup (Lit_Var <$> trail Ref.midSearch) /\
  exists s', cleanupBindings Ref.refOps 1 Ref.midSearch = Ret s' /\
             trail s' = [Ref.x1] /\ model s' = [1; 0; 0] /\
             reason s' = [None; None; None] /\
             lockCount <$> heap s' !! 0%nat = Some 0.
Proof.
  assert (Hwf : wfBindings Ref.midSearch).
  { split; simpl; try reflexivity; repeat constructor; compute; congruence. }
  assert (Hcov : trailCoversModel Ref.midSearch).
  { intros i a Hi Ha. simpl in *.
    destruct i as [|[|[|i]]]; simpl in Hi; try discriminate;
      injection Hi as <-; apply list_elem_of_In; simpl; auto. }
  assert (Hsorted : levelsSorted Ref.midSearch).
  { unfold levelsSorted. simpl. repeat constructor; compute; congruence. }
  assert (Hnd : NoDup (Lit_Var <$> trail Ref.midSearch)).
  { simpl. apply NoDup_ListNoDup. repeat constructor; simpl; intuition discriminate. }
  repeat (split; [first [exact refOps_queueLaws | lia | assumption]|]).
  destruct (cleanupBindings_coherent Ref.refOps 1 Ref.midSearch
              refOps_queueLaws ltac:(lia) Hwf Hcov Hsorted Hnd)
    as (s' & Hrun & Htr & _ & _ & Hheap).
  exists s'. split; [exact Hrun|].
  vm_compute in Hrun. injection Hrun as <-. repeat split; reflexivity.
Defined.

(** ** [Model] and [ModelMap] *)

(** The loop of [Model]: the signs of the saved levels, written over the
    first slots of [res]. *)
Lemma Model_loop (lm : list decLevel) (k : nat) (res : list bool) :
  (k + length lm <= length res)%nat ->
  foldM (fun res '(i, lvl) => upd res (Z.of_nat i) (0 <? lvl)) res
        (zip (seq k (length lm)) lm)
  = Ret (take k res ++ ((fun lvl => 0 <? lvl) <$> lm) ++ drop (k + length lm) res).
Proof.
  revert k res. induction lm as [|a lm IH]; intros k res Hlen; simpl.
  - rewrite Nat.add_0_r, take_drop. reflexivity.
  - simpl in Hlen. rewrite upd_in_range by lia. simpl.
    rewrite Nat2Z.id. rewrite IH by (rewrite length_insert; lia).
    f_equal.
    rewrite (take_S_r _ _ (0 <? a)) by (apply list_lookup_insert_eq; lia).
    rewrite take_insert_ge by lia.
    rewrite drop_insert_lt by lia.
    rewrite <- app_assoc. simpl.
    replace (k + S (length lm))%nat with (S (k + length lm)) by lia. reflexivity.
Qed.

(** The loop of [ModelMap]: variable [i] (key [i + 1]) is mapped to the sign
    of its saved level. *)
Lemma ModelMap_loop (lm : list decLevel) (i : nat) (a : decLevel) :
  lm !! i = Some a ->
  foldl (fun (res : gmap Z bool) '(i, lvl) => <[Z.of_nat i + 1 := (0 <? lvl)]> res)
        ∅ (zip (seq 0 (length lm)) lm) !! (Z.of_nat i + 1) = Some (0 <? a).
Proof.
  revert i a. induction lm as [|b lm IH] using rev_ind; intros i a Hi.
  - discriminate.
  - rewrite length_app, seq_app. simpl.
    rewrite zip_with_app by (rewrite length_seq; reflexivity).
    rewrite foldl_app. simpl.
    destruct (decide (i = length lm)) as [->|Hne].
    + rewrite list_lookup_middle in Hi by reflexivity. injection Hi as ->.
      apply lookup_insert_eq.
    + rewrite lookup_insert_ne by lia. apply IH.
      rewrite lookup_app_l in Hi; [exact Hi|].
      apply lookup_lt_Some in Hi. rewrite length_app in Hi. simpl in Hi. lia.
Qed.

Section Models.
Context {T : EngineTypes} (E : EngineOps T).

Lemma Solve_Sat_saves (fuel : nat) (s s' : Solver T) :
  Solve E fuel s = Ret (s', Sat) -> lastModel s' = Some (model s').
Proof.
  unfold Solve. intros H.
  assert (Hloop : exists s1, s' = match status s1 with
                                  | Sat => set_lastModel
                                             (Some (copySlice (replicate (length (model s1)) 0)
                                                              (model s1))) s1
                                  | _ => s1
                                  end /\
                             status s' = Sat).
  { destruct (status s) eqn:Hst.
    - inv_bind H as s1 Hloop. injection H as <- Heq. exists s1. split; [reflexivity|].
      exact Heq.
    - inv_bind H as s1 Hloop. injection H as <- Heq. exists s1. split; [reflexivity|].
      exact Heq.
    - injection H as <- Heq. congruence. }
  destruct Hloop as (s1 & -> & Hsat).
  destruct (status s1) eqn:Hs1; try congruence.
  simpl. rewrite copySlice_same_length by apply length_replicate. reflexivity.
Qed.

(** C8, as the code has it. [Model] and [ModelMap] panic when [lastModel]
    is nil, and the status of the solver plays no part in what they do:
    changing the status changes neither result. When [lastModel] is not
    nil, [ModelMap] maps variable [i + 1] to the sign of the saved level
    [i], and [Model] (for a [lastModel] no longer than [nbVars]) returns
    these signs, whatever the status. A Sat outcome of [Solve] leaves in
    [lastModel] the model it found. *)
Theorem Model_panics_without_saved_model (fuel : nat) (s0 s : Solver T)
    (Hsolve : Solve E fuel s0 = Ret (s, Sat)) :
  (forall s' : Solver T, lastModel s' = None -> Model s' = Panic /\ ModelMap s' = Panic) /\
  (forall (st : Status) (s' : Solver T),
      Model (set_status st s') = Model s' /\ ModelMap (set_status st s') = ModelMap s') /\
  (forall (s' : Solver T) lm,
      lastModel s' = Some lm ->
      (exists mm, ModelMap s' = Ret mm /\
                  forall i a, lm !! i = Some a -> mm !! (Z.of_nat i + 1) = Some (0 <? a)) /\
      ((length lm <= nbVars s')%nat ->
       Model s' = Ret (((fun lvl => 0 <? lvl) <$> lm) ++
                       replicate (nbVars s' - length lm) false))) /\
  lastModel s = Some (model s).
Proof.
  split; [|split; [|split]].
  - intros s' Hnone. unfold Model, ModelMap. rewrite Hnone. auto.
  - intros st s'. split; reflexivity.
  - intros s' lm Hlm. unfold Model, ModelMap. rewrite Hlm. split.
    + eexists. split; [reflexivity|]. intros i a. apply ModelMap_loop.
    + intros Hlen. rewrite Model_loop by (rewrite length_replicate; lia).
      simpl. rewrite drop_replicate. reflexivity.
  - exact (Solve_Sat_saves _ _ _ Hsolve).
Qed.

End Models.

(** The theorem at [x1 or x2]: [Solve] finds a model and saves it; with
    the status set to Unsat [Model] returns the same; with [lastModel] nil
    it panics. *)
Lemma Model_panics_without_saved_model_witness :
  exists s, Solve Ref.refOps 20 Ref.pbOr = Ret (s, Sat) /\
            lastModel s = Some (model s) /\
            Model (set_status Unsat s) = Model s /\
            Model (set_lastModel None s) = Panic.
Proof.
  assert (Hs : exists s, Solve Ref.refOps 20 Ref.pbOr = Ret (s, Sat))
    by (eexists; vm_compute; reflexivity).
  destruct Hs as [s Hs]. exists s. split; [exact Hs|].
  destruct (Model_panics_without_saved_model Ref.refOps 20 Ref.pbOr s Hs)
    as (Hnone & Hstatus & _ & Hsaved).
  split; [exact Hsaved|]. split; [exact (proj1 (Hstatus Unsat s))|].
  apply Hnone. reflexivity.
Defined.

(** C8 as stated fails: after [Minimize] on [x1 or x2] with objective
    [x1 + x2] the status is Unsat (the tightened problem has no model), and
    [Model] and [ModelMap] return the saved model instead of panicking. *)
Lemma Model_after_Minimize_counterexample :
  match Minimize Ref.refOps 20 Ref.pbOr with
  | Ret (s, cost) =>
      cost = 1 /\ status s = Unsat /\ Model s = Ret [false; true] /\
      ModelMap s = Ret (<[2 := true]> (<[1 := false]> ∅))
  | _ => False
  end.
Proof. vm_compute. repeat split. Qed.

(** ** Appending a constraint: [AppendClause] *)

Lemma wrap_fits (z : Z) : - 2 ^ 63 <= z < 2 ^ 63 -> wrap z = z.
Proof.
  intros H. unfold wrap. rewrite Z.mod_small by lia. lia.
Qed.

Lemma sumW_app (l k : list (Lit * Z)) : sumW (l ++ k) = sumW l + sumW k.
Proof. induction l as [|t l IH]; simpl; [reflexivity|]. rewrite IH. lia. Qed.

Lemma sumW_perm (l k : list (Lit * Z)) : l ≡ₚ k -> sumW l = sumW k.
Proof. induction 1; simpl; lia. Qed.

Lemma sumW_nonneg (l : list (Lit * Z)) :
  Forall (fun t => 0 <= snd t) l -> 0 <= sumW l.
Proof. induction 1; simpl; lia. Qed.

Lemma sumW_filter_le (P : Lit * Z -> Prop) `{!forall t, Decision (P t)} (l : list (Lit * Z)) :
  Forall (fun t => 0 <= snd t) l -> 0 <= sumW (filter P l) <= sumW l.
Proof.
  induction 1 as [|t l Ht _ IH]; simpl; [lia|].
  rewrite filter_cons. destruct (decide (P t)); simpl; lia.
Qed.

(** [removeLit] on the slot that follows [K]: what is left of the tail is
    the tail without its head, in some order. *)
Lemma removeLit_middle (cl : Clause) (K R : list (Lit * Z)) (t : Lit * Z) :
  terms cl = K ++ t :: R ->
  exists R', R' ≡ₚ R /\
             removeLit cl (Z.of_nat (length K)) = Ret (set_terms (K ++ R') cl).
Proof.
  intros Hts. unfold removeLit. rewrite Hts.
  assert (Hidx : idx (K ++ t :: R) (Z.of_nat (length K)) = Ret t).
  { apply idx_Ret. split; [lia|]. rewrite Nat2Z.id. apply list_lookup_middle. reflexivity. }
  rewrite Hidx. simpl.
  destruct R as [|r R0 _] using rev_ind.
  - rewrite last_snoc. rewrite upd_in_range by (rewrite ?length_app; simpl; lia).
    simpl. exists []. split; [reflexivity|].
    rewrite Nat2Z.id, length_insert, length_app. simpl.
    rewrite insert_app_r_alt, Nat.sub_diag by lia. simpl.
    rewrite take_app_le by lia. rewrite take_ge by lia.
    rewrite app_nil_r. reflexivity.
  - replace (K ++ t :: R0 ++ [r]) with ((K ++ t :: R0) ++ [r])
      by (rewrite <- app_assoc; reflexivity).
    rewrite last_snoc. rewrite upd_in_range by (rewrite ?length_app; simpl; lia).
    simpl. exists (r :: R0). split.
    { apply Permutation_cons_append. }
    rewrite Nat2Z.id, length_insert.
    rewrite <- app_assoc. simpl.
    rewrite insert_app_r_alt, Nat.sub_diag by lia. simpl.
    replace (K ++ r :: R0 ++ [r]) with ((K ++ r :: R0) ++ [r])
      by (rewrite <- app_assoc; reflexivity).
    rewrite !length_app. simpl. rewrite length_app. simpl.
    rewrite take_app_length'; [reflexivity|].
    rewrite length_app. simpl. lia.
Qed.

Section Append.
Context {T : EngineTypes} (E : EngineOps T).

Lemma litStatus_statusOf (s : Solver T) (l : Lit) :
  inRange (length (model s)) (Lit_Var l) ->
  litStatus s l = Ret (statusOf (model s) l).
Proof.
  intros [H0 Hlt]. unfold litStatus, statusOf.
  destruct (idx_in_range (model s) _ H0 Hlt) as [a Ha]. rewrite Ha. simpl.
  apply idx_Ret in Ha as [_ ->].
  destruct (a =? 0); [reflexivity|]. destruct (Bool.eqb _ _); reflexivity.
Qed.

Lemma appendScan_S (n : nat) (s : Solver T) (cl : Clause) (i minW maxW : Z) :
  appendScan (S n) s cl i minW maxW =
  if i <? Z.of_nat (Len cl) then
    lit <- Get cl i ;
    st <- litStatus s lit ;
    match st with
    | Sat =>
        w <- Weight cl i ;
        cl' <- removeLit cl i ;
        appendScan n s (updateCardinality cl' (neg w)) i (add minW w) (add maxW w)
    | Unsat =>
        cl' <- removeLit cl i ;
        appendScan n s cl' i minW maxW
    | Indet =>
        w <- Weight cl i ;
        appendScan n s cl (add i 1) minW (add maxW w)
    end
  else Ret (cl, minW, maxW).
Proof. reflexivity. Qed.

Lemma appendScan_done (n : nat) (s : Solver T) (cl : Clause) (minW maxW : Z) :
  appendScan n s cl (Z.of_nat (Len cl)) minW maxW = Ret (cl, minW, maxW).
Proof. destruct n; simpl; rewrite Z.ltb_irrefl; reflexivity. Qed.

(** The loop of [AppendClause], from slot [length K] on: [K] are the
    literals already kept, [R] the literals still to look at. *)
Lemma appendScan_spec (s : Solver T) (card0 : Z) (n : nat) :
  forall (cl : Clause) (K R : list (Lit * Z)) (minW maxW : Z),
    terms cl = K ++ R -> (length R <= n)%nat ->
    Forall (fun t => inRange (length (model s)) (Lit_Var (fst t))) R ->
    Forall (fun t => 0 <= snd t) R ->
    0 <= minW <= maxW ->
    maxW + sumW R + Z.of_nat (length K + length R) < 2 ^ 62 ->
    cardinality cl = card0 - minW -> - 2 ^ 62 < card0 < 2 ^ 62 ->
    exists cl' R',
      appendScan n s cl (Z.of_nat (length K)) minW maxW =
        Ret (cl', minW + sumW (satTerms (model s) R),
             maxW + sumW (satTerms (model s) R) + sumW (freeTerms (model s) R)) /\
      R' ≡ₚ freeTerms (model s) R /\ terms cl' = K ++ R' /\
      cardinality cl' = card0 - (minW + sumW (satTerms (model s) R)) /\
      pseudoBoolean cl' = pseudoBoolean cl /\ isLearned cl' = isLearned cl /\
      lbdValue cl' = lbdValue cl /\ lockCount cl' = lockCount cl.
Proof.
  induction n as [|n IH]; intros cl K R minW maxW Hts Hlen Hrange Hpos Hmin Hsum Hcard Hc0.
  - destruct R; [|simpl in Hlen; lia]. rewrite app_nil_r in Hts.
    exists cl, []. replace (length K) with (Len cl) by (unfold Len; rewrite Hts; reflexivity).
    rewrite appendScan_done. simpl. rewrite !Z.add_0_r, Hts, app_nil_r.
    repeat split; try reflexivity. exact Hcard.
  - destruct R as [|t R0].
    { rewrite app_nil_r in Hts.
      exists cl, []. replace (length K) with (Len cl) by (unfold Len; rewrite Hts; reflexivity).
      rewrite appendScan_done. simpl. rewrite !Z.add_0_r, Hts, app_nil_r.
      repeat split; try reflexivity. exact Hcard. }
    apply Forall_cons in Hrange as [Ht Hrange].
    apply Forall_cons in Hpos as [Hw Hpos].
    simpl in Hlen, Hsum.
    pose proof (sumW_nonneg _ Hpos) as HsR0.
    rewrite appendScan_S.
    assert (Hcond : (Z.of_nat (length K) <? Z.of_nat (Len cl)) = true).
    { apply Z.ltb_lt. unfold Len. rewrite Hts, length_app. simpl. lia. }
    rewrite Hcond.
    assert (Hidx : idx (terms cl) (Z.of_nat (length K)) = Ret t).
    { apply idx_Ret. split; [lia|]. rewrite Nat2Z.id, Hts.
      apply list_lookup_middle. reflexivity. }
    unfold Get, Weight. rewrite Hidx. simpl.
    rewrite (litStatus_statusOf s (fst t) Ht).
    simpl.
    destruct (removeLit_middle cl K R0 t Hts) as (R1 & HR1 & Hrm).
    assert (Hlen1 : length R1 = length R0) by (rewrite HR1; reflexivity).
    assert (Hrange1 : Forall (fun t => inRange (length (model s)) (Lit_Var (fst t))) R1)
      by (rewrite HR1; exact Hrange).
    assert (Hpos1 : Forall (fun t => 0 <= snd t) R1) by (rewrite HR1; exact Hpos).
    assert (Hsum1 : sumW R1 = sumW R0) by (apply sumW_perm; exact HR1).
    assert (Hsat1 : sumW (satTerms (model s) R1) = sumW (satTerms (model s) R0)).
    { apply sumW_perm. unfold satTerms. rewrite HR1. reflexivity. }
    assert (Hfree1 : freeTerms (model s) R1 ≡ₚ freeTerms (model s) R0).
    { unfold freeTerms. rewrite HR1. reflexivity. }
    unfold satTerms, freeTerms in *. rewrite !filter_cons.
    destruct (statusOf (model s) (fst t)) eqn:Hst.
    + (* Indet: the literal is kept *)
      destruct (decide (Indet = Sat)) as [?|_]; [discriminate|].
      destruct (decide (Indet = Indet)) as [_|?]; [|congruence].
      unfold add. rewrite !wrap_fits by lia.
      destruct (IH cl (K ++ [t]) R0 minW (maxW + snd t)) as (cl' & R' & Hrun & HR' & Hts' & Hcd' & Hrest);
        try assumption; try lia.
      { rewrite Hts, <- app_assoc. reflexivity. }
      { rewrite length_app. simpl. lia. }
      rewrite length_app in Hrun. simpl in Hrun.
      replace (Z.of_nat (length K + 1)) with (Z.of_nat (length K) + 1) in Hrun by lia.
      exists cl', (t :: R'). split.
      { rewrite Hrun. simpl. do 2 f_equal. lia. }
      split; [rewrite HR'; reflexivity|].
      split; [rewrite Hts', <- app_assoc; reflexivity|].
      split; [rewrite Hcd'; lia|exact Hrest].
    + (* Sat: the literal leaves, its weight is granted *)
      destruct (decide (Sat = Sat)) as [_|?]; [|congruence].
      destruct (decide (Sat = Indet)) as [?|_]; [discriminate|].
      rewrite Hrm. simpl.
      unfold add, neg. rewrite !wrap_fits by lia.
      destruct (IH (updateCardinality (set_terms (K ++ R1) cl) (- snd t)) K R1
                   (minW + snd t) (maxW + snd t))
        as (cl' & R' & Hrun & HR' & Hts' & Hcd' & Hrest);
        try assumption; try reflexivity; try lia.
      { simpl. unfold add. rewrite wrap_fits by lia. lia. }
      exists cl', R'. split.
      { rewrite Hrun, Hsat1. simpl. do 2 f_equal; [f_equal|]; try lia.
        rewrite (sumW_perm _ _ Hfree1). lia. }
      split; [rewrite HR'; exact Hfree1|].
      split; [exact Hts'|].
      split; [rewrite Hcd', Hsat1; simpl; lia|exact Hrest].
    + (* Unsat: the literal leaves *)
      destruct (decide (Unsat = Sat)) as [?|_]; [discriminate|].
      destruct (decide (Unsat = Indet)) as [?|_]; [discriminate|].
      rewrite Hrm. simpl.
      destruct (IH (set_terms (K ++ R1) cl) K R1 minW maxW)
        as (cl' & R' & Hrun & HR' & Hts' & Hcd' & Hrest);
        try assumption; try reflexivity; try lia.
      exists cl', R'. split.
      { rewrite Hrun, Hsat1. do 2 f_equal. rewrite (sumW_perm _ _ Hfree1). reflexivity. }
      split; [rewrite HR'; exact Hfree1|].
      split; [exact Hts'|].
      split; [rewrite Hcd', Hsat1; reflexivity|exact Hrest].
Qed.

Lemma iter_unlock_fields (k : nat) (cl : Clause) :
  terms (Nat.iter k unlock cl) = terms cl /\
  cardinality (Nat.iter k unlock cl) = cardinality cl.
Proof. induction k as [|k [IH1 IH2]]; simpl; auto. Qed.


End Append.


(** ** Frame facts: what the functions of solver.go leave alone *)

Section Frames.
Context {T : EngineTypes} (E : EngineOps T).
Context {A : Type} (p : Solver T -> A) (Hp : viewKept p).

Ltac vk :=
  unfold store;
  repeat first
    [ rewrite (vk_status p Hp) | rewrite (vk_trail p Hp) | rewrite (vk_model p Hp)
    | rewrite (vk_polarity p Hp) | rewrite (vk_reason p Hp)
    | rewrite (vk_varQueue p Hp) | rewrite (vk_lbdStats p Hp)
    | rewrite (vk_stats p Hp) | rewrite (vk_localNbRestarts p Hp)
    | rewrite (vk_heap p Hp) | rewrite (vk_idxReduce p Hp) ].

Lemma unbind_keeps (s s1 : Solver T) (ti ti1 : list Z) (l : Lit) :
  unbind E (s, ti) l = Ret (s1, ti1) -> p s1 = p s.
Proof.
  unfold unbind. intros H.
  inv_bind H as m Hm. inv_bind H as r Hr. inv_bind H as s2 Hs2. inv_bind H as pol Hpol.
  assert (Hs2' : p s2 = p s).
  { destruct r as [c0|].
    - inv_bind Hs2 as cl Hcl. inv_bind Hs2 as rs Hrs. injection Hs2 as <-. vk. reflexivity.
    - injection Hs2 as <-. vk. reflexivity. }
  destruct (q_contains E _ _); injection H as <- _; vk; exact Hs2'.
Qed.

Lemma unbindAll_keeps (undo : list Lit) (s s1 : Solver T) (ti ti1 : list Z) :
  foldM (unbind E) (s, ti) undo = Ret (s1, ti1) -> p s1 = p s.
Proof.
  revert s ti. induction undo as [|l undo IH]; intros s ti H; simpl in H.
  - injection H as <- _. reflexivity.
  - inv_bind H as [s2 ti2] Hstep.
    rewrite (IH _ _ H). exact (unbind_keeps _ _ _ _ _ Hstep).
Qed.

Lemma cleanupBindings_keeps (lvl : decLevel) (s s' : Solver T) :
  cleanupBindings E lvl s = Ret s' -> p s' = p s.
Proof.
  intros H. destruct (cleanupBindings_inv E _ _ _ H)
    as (keep & undo & s1 & ti1 & pol & _ & Hfold & ->).
  vk. exact (unbindAll_keeps _ _ _ _ _ Hfold).
Qed.

Lemma chooseLit_keeps (fuel : nat) (s s' : Solver T) (l : Lit) :
  chooseLit E fuel s = Ret (s', l) -> p s' = p s.
Proof.
  unfold chooseLit. intros H. inv_bind H as [v q] Hv.
  destruct (v =? -1).
  - injection H as <- _. vk. reflexivity.
  - inv_bind H as pol Hpol. injection H as <- _. vk. reflexivity.
Qed.

Lemma rebuildOrderHeap_keeps (s s' : Solver T) :
  rebuildOrderHeap E s = Ret s' -> p s' = p s.
Proof.
  unfold rebuildOrderHeap. intros H. inv_bind H as ints Hints.
  injection H as <-. vk. reflexivity.
Qed.

Context (Hk : searchKeeps E p).

Lemma propagateUnits_keeps (units : list Lit) (s s' : Solver T) :
  propagateUnits E s units = Ret s' -> p s' = p s.
Proof.
  revert s. induction units as [|u units IH]; intros s H; simpl in H.
  - injection H as <-. reflexivity.
  - inv_bind H as s1 Hclean. inv_bind H as m Hm. inv_bind H as [s2 conflict] Hunify.
    assert (H2 : p s2 = p s).
    { rewrite (sk_unify E p Hk _ _ _ _ _ Hunify). vk.
      rewrite (cleanupBindings_keeps _ _ _ Hclean). vk. reflexivity. }
    destruct conflict.
    + injection H as <-. vk. exact H2.
    + inv_bind H as s3 Hheap. rewrite (IH _ H), (rebuildOrderHeap_keeps _ _ Hheap). exact H2.
Qed.

Lemma propagateAndSearch_S (n : nat) (s : Solver T) (lit : Lit) (lvl : decLevel) :
  propagateAndSearch E (S n) s lit lvl =
  if lit =? -1 then Ret (s, Sat)
  else
    '(s, conflict) <- unifyLiteral E s lit lvl ;
    match conflict with
    | None =>
        if lbd_mustRestart E (lbdStats s) then
          let s := set_lbdStats (lbd_clear E (lbdStats s)) s in
          s <- cleanupBindings E 1 s ;
          Ret (s, Indet)
        else
          s <- (if mul (idxReduce (wl s)) (nbMax (wl s)) <=? NbConflicts (stats s)
                then
                  if nbMax (wl s) =? 0 then Panic
                  else
                    let r := add (wrap (NbConflicts (stats s) `quot` nbMax (wl s))) 1 in
                    let s := set_wl (set_idxReduce r (wl s)) s in
                    s <- reduceLearned E s ;
                    bumpNbMax E s
                else Ret s) ;
          let lvl := add lvl 1 in
          '(s, lit) <- chooseLit E n s ;
          propagateAndSearch E n s lit lvl
    | Some conflict =>
        let s := set_stats (incrConflicts (stats s)) s in
        let s := set_lbdStats
                   (lbd_addConflict E (lbdStats s) (Z.of_nat (length (trail s)))) s in
        '(s, learnt, unit) <- learnClause E s conflict lvl ;
        match learnt with
        | None =>
            let s := set_stats (incrUnitLearned (stats s)) s in
            let s := set_lbdStats (lbd_addLbd E (lbdStats s) 1) s in
            s <- cleanupBindings E 1 s ;
            m <- upd (model s) (Lit_Var unit) (lvlToSignedLvl unit 1) ;
            let s := set_model m s in
            '(s, conflict) <- unifyLiteral E s unit 1 ;
            match conflict with
            | Some _ => Ret (set_status Unsat s, Unsat)
            | None =>
                s <- rebuildOrderHeap E s ;
                '(s, lit) <- chooseLit E n s ;
                propagateAndSearch E n s lit 2
            end
        | Some learnt =>
            cl <- deref s learnt ;
            let s := if (Len cl =? 2)%nat
                     then set_stats (incrBinaryLearned (stats s)) s else s in
            let s := set_stats (incrLearned (stats s)) s in
            let s := set_lbdStats (lbd_addLbd E (lbdStats s) (lbdValue cl)) s in
            s <- addLearned E s learnt ;
            cl <- deref s learnt ;
            '(lvl, lit) <- backtrackData cl (model s) ;
            s <- cleanupBindings E lvl s ;
            rs <- upd (reason s) (Lit_Var lit) (Some learnt) ;
            let s := set_reason rs s in
            cl <- deref s learnt ;
            let s := store s learnt (lock cl) in
            propagateAndSearch E n s lit lvl
        end
    end.
Proof. reflexivity. Qed.

Lemma propagateAndSearch_keeps (fuel : nat) :
  forall (s s' : Solver T) (lit : Lit) (lvl : decLevel) (st : Status),
    propagateAndSearch E fuel s lit lvl = Ret (s', st) -> p s' = p s.
Proof.
  induction fuel as [|n IH]; intros s s' lit lvl st H.
  - simpl in H. destruct (lit =? -1); [|discriminate]. injection H as <- _. reflexivity.
  - rewrite propagateAndSearch_S in H.
    destruct (lit =? -1); [injection H as <- _; reflexivity|].
    inv_bind H as [s1 conflict] Hunify.
    pose proof (sk_unify E p Hk _ _ _ _ _ Hunify) as H1.
    destruct conflict as [conflict|].
    + cbv zeta in H. inv_bind H as [[s2 learnt] unit] Hlearn.
      assert (H2 : p s2 = p s).
      { rewrite (sk_learn E p Hk _ _ _ _ _ _ Hlearn). vk. exact H1. }
      destruct learnt as [learnt|].
      * inv_bind H as cl Hcl. inv_bind H as s3 Hadd.
        assert (H3 : p s3 = p s).
        { rewrite (sk_addLearned E p Hk _ _ _ Hadd). vk.
          destruct (Len cl =? 2)%nat; vk; exact H2. }
        inv_bind H as cl2 Hcl2. inv_bind H as [lvl2 lit2] Hbt.
        inv_bind H as s4 Hclean. inv_bind H as rs Hrs. inv_bind H as cl3 Hcl3.
        rewrite (IH _ _ _ _ _ H). vk.
        rewrite (cleanupBindings_keeps _ _ _ Hclean). exact H3.
      * inv_bind H as s3 Hclean. inv_bind H as m Hm. inv_bind H as [s4 c2] Hunify2.
        assert (H4 : p s4 = p s).
        { rewrite (sk_unify E p Hk _ _ _ _ _ Hunify2). vk.
          rewrite (cleanupBindings_keeps _ _ _ Hclean). vk. exact H2. }
        destruct c2.
        -- injection H as <- _. vk. exact H4.
        -- inv_bind H as s5 Hheap. inv_bind H as [s6 lit6] Hchoose.
           rewrite (IH _ _ _ _ _ H), (chooseLit_keeps _ _ _ _ Hchoose),
             (rebuildOrderHeap_keeps _ _ Hheap). exact H4.
    + destruct (lbd_mustRestart E (lbdStats s1)).
      * cbv zeta in H. inv_bind H as s2 Hclean. injection H as <- _.
        rewrite (cleanupBindings_keeps _ _ _ Hclean). vk. exact H1.
      * inv_bind H as s2 Hred.
        assert (H2 : p s2 = p s).
        { destruct (mul _ _ <=? _).
          - destruct (nbMax (wl s1) =? 0); [discriminate|].
            cbv zeta in Hred. inv_bind Hred as s3 Hr.
            rewrite (sk_bump E p Hk _ _ Hred), (sk_reduce E p Hk _ _ Hr). vk. exact H1.
          - injection Hred as <-. exact H1. }
        cbv zeta in H. inv_bind H as [s3 lit3] Hchoose.
        rewrite (IH _ _ _ _ _ H), (chooseLit_keeps _ _ _ _ Hchoose). exact H2.
Qed.

Lemma search_keeps (fuel : nat) (s s' : Solver T) :
  search E fuel s = Ret s' -> p s' = p s.
Proof.
  unfold search. intros H. inv_bind H as [s1 lit] Hchoose. inv_bind H as [s2 st] Hps.
  injection H as <-. vk.
  rewrite (propagateAndSearch_keeps _ _ _ _ _ _ Hps), (chooseLit_keeps _ _ _ _ Hchoose).
  vk. reflexivity.
Qed.

Lemma solveLoop_keeps (fuel : nat) :
  forall s s' : Solver T, solveLoop E fuel s = Ret s' -> p s' = p s.
Proof.
  induction fuel as [|n IH]; intros s s' H; simpl in H.
  - destruct (status s); try discriminate; injection H as <-; reflexivity.
  - destruct (status s); try (injection H as <-; reflexivity).
    inv_bind H as s1 Hsearch. pose proof (search_keeps _ _ _ Hsearch) as H1.
    destruct (status s1).
    + inv_bind H as s2 Hheap.
      rewrite (IH _ _ H), (rebuildOrderHeap_keeps _ _ Hheap). vk. exact H1.
    + rewrite (IH _ _ H). exact H1.
    + rewrite (IH _ _ H). exact H1.
Qed.

End Frames.

(** ** Top-level simplification: [satClause] and [rmSatClauses] *)

Lemma satLits_spec (m : list decLevel) (ls : list Lit) :
  Forall (fun l => inRange (length m) (Lit_Var l)) ls ->
  exists b, satLits m ls = Ret b /\ (b = true <-> Exists (topLevelTrue m) ls).
Proof.
  induction 1 as [|l ls [H0 Hlt] _ (b & IH & Hb)]; simpl.
  - exists false. split; [reflexivity|]. split; [discriminate|]. intros H; inversion H.
  - destruct (idx_in_range m _ H0 Hlt) as [a Ha]. rewrite Ha. simpl.
    apply idx_Ret in Ha as [_ Ha].
    destruct ((a =? 1) && IsPositive l || (a =? -1) && negb (IsPositive l)) eqn:Hd.
    + exists true. split; [reflexivity|]. split; [|reflexivity]. intros _.
      constructor. unfold topLevelTrue. rewrite Ha. f_equal.
      destruct (IsPositive l), (Z.eqb_spec a 1), (Z.eqb_spec a (-1));
        simpl in Hd; congruence.
    + exists b. split; [exact IH|]. rewrite Hb. split.
      * intros He. constructor 2. exact He.
      * intros He. inversion He as [? ? Hl|]; subst; [|assumption].
        unfold topLevelTrue in Hl. rewrite Ha in Hl. injection Hl as ->.
        destruct (IsPositive l); simpl in Hd; discriminate.
Qed.

Section TopLevel.
Context {T : EngineTypes} (E : EngineOps T).

(** [satClause] says yes exactly on the plain clauses of cardinality 1 whose
    length is not 2 and that have a literal true at level 1. *)
Lemma satClause_spec (s : Solver T) (cl : Clause) :
  Forall (fun l => inRange (length (model s)) (Lit_Var l)) (lits cl) ->
  exists b, satClause s cl = Ret b /\
            (b = true <->
             Len cl <> 2%nat /\ cardinality cl = 1 /\ pseudoBoolean cl = false /\
             Exists (topLevelTrue (model s)) (lits cl)).
Proof.
  intros Hr. unfold satClause.
  destruct (Nat.eqb_spec (Len cl) 2) as [H2|H2]; simpl.
  { exists false. split; [reflexivity|]. split; [discriminate|]. intros [? _]. congruence. }
  destruct (Z.eqb_spec (cardinality cl) 1) as [H1|H1]; simpl.
  2:{ exists false. split; [reflexivity|]. split; [discriminate|]. intros (_ & ? & _). congruence. }
  destruct (pseudoBoolean cl) eqn:Hpb.
  { exists false. split; [reflexivity|]. split; [discriminate|]. intros (_ & _ & ? & _). congruence. }
  destruct (satLits_spec (model s) (lits cl) Hr) as (b & -> & Hb).
  exists b. split; [reflexivity|]. rewrite Hb. tauto.
Qed.

Lemma topSat_ext (s s' : Solver T) (c : cid) :
  model s' = model s -> heap s' = heap s -> topSat s' c = topSat s c.
Proof.
  intros Hm Hh. unfold topSat, satClause. rewrite Hm, Hh. reflexivity.
Qed.

Lemma rmSatLoop_S (get : watcherList T -> list cid)
    (set : list cid -> watcherList T -> watcherList T)
    (n : nat) (s : Solver T) (i j : Z) :
  rmSatLoop E get set (S n) s i j =
  if i <=? j then
    c <- idx (get (wl s)) i ;
    cl <- deref s c ;
    b <- satClause s cl ;
    if b then
      cj <- idx (get (wl s)) j ;
      cs <- upd (get (wl s)) i cj ;
      let s := set_wl (set cs (wl s)) s in
      s <- tryUnwatchClause E s c ;
      cl <- deref s c ;
      f <- First cl ;
      r <- idx (reason s) (Lit_Var f) ;
      s <- (if decide (r = Some c)
            then rs <- upd (reason s) (Lit_Var f) None ; Ret (set_reason rs s)
            else Ret s) ;
      rmSatLoop E get set n s i (j - 1)
    else rmSatLoop E get set n s (i + 1) j
  else Ret (s, j).
Proof. reflexivity. Qed.

Lemma rmSatLoop_done (get : watcherList T -> list cid)
    (set : list cid -> watcherList T -> watcherList T)
    (n : nat) (s : Solver T) (i j : Z) :
  j < i -> rmSatLoop E get set n s i j = Ret (s, j).
Proof.
  intros H. destruct n; simpl; destruct (Z.leb_spec i j); try lia; reflexivity.
Qed.

(** One of the two loops of [rmSatClauses], on the slice [get (wl s)]:
    [K] are the constraints already kept, [R] those still to look at, [G]
    the slots given up. *)
Lemma rmSatLoop_spec (get : watcherList T -> list cid)
    (set : list cid -> watcherList T -> watcherList T)
    (Hgs : forall x w, get (set x w) = x)
    (Hget : forall s c s', tryUnwatchClause E s c = Ret s' -> get (wl s') = get (wl s))
    (HU : unwatchLaws E) (n : nat) :
  forall (s : Solver T) (K R G : list cid),
    get (wl s) = K ++ R ++ G -> (length R <= n)%nat ->
    length (reason s) = length (model s) ->
    Forall (fun c => exists cl,
                heap s !! c = Some cl /\
                Forall (fun l => inRange (length (model s)) (Lit_Var l)) (lits cl)) R ->
    exists s' R' G',
      rmSatLoop E get set n s (Z.of_nat (length K)) (Z.of_nat (length K + length R) - 1)
        = Ret (s', Z.of_nat (length K + length R') - 1) /\
      get (wl s') = K ++ R' ++ G' /\
      R' ≡ₚ filter (fun c => topSat s c = false) R /\
      model s' = model s /\ heap s' = heap s /\
      length (reason s') = length (reason s) /\
      (forall f : watcherList T -> list cid,
          (forall x w, f (set x w) = f w) ->
          (forall s c s', tryUnwatchClause E s c = Ret s' -> f (wl s') = f (wl s)) ->
          f (wl s') = f (wl s)).
Proof.
  induction n as [|n IH]; intros s K R G Hget0 Hlen Hrl Hwf.
  - destruct R; [|simpl in Hlen; lia].
    exists s, [], G. rewrite rmSatLoop_done by (simpl; lia).
    repeat split; auto.
  - destruct R as [|c R0].
    { exists s, [], G. rewrite rmSatLoop_done by (simpl; lia). repeat split; auto. }
    apply Forall_cons in Hwf as [(cl & Hcl & Hrange) Hwf].
    simpl in Hlen.
    rewrite rmSatLoop_S.
    remember (Z.of_nat (length K + length (c :: R0)) - 1) as j eqn:Hjdef.
    cbn [length] in Hjdef.
    destruct (Z.leb_spec (Z.of_nat (length K)) j) as [_|Hbad]; [|lia].
    assert (Hidx : idx (get (wl s)) (Z.of_nat (length K)) = Ret c).
    { apply idx_Ret. split; [lia|]. rewrite Nat2Z.id, Hget0.
      apply list_lookup_middle. reflexivity. }
    rewrite Hidx. simpl. unfold deref at 1. rewrite Hcl. simpl.
    destruct (satClause_spec s cl Hrange) as (b & Hsat & Hb).
    rewrite Hsat. simpl.
    assert (Htop : topSat s c = b) by (unfold topSat; rewrite Hcl, Hsat; reflexivity).
    destruct b.
    + (* satisfied: the last constraint takes its slot *)
      assert (Hlast : exists z R1, R1 ≡ₚ R0 /\
                 idx (get (wl s)) j = Ret z /\
                 <[length K := z]> (get (wl s)) = K ++ R1 ++ z :: G).
      { destruct R0 as [|z R0' _] using rev_ind.
        - exists c, []. split; [reflexivity|]. split.
          + simpl in Hjdef. replace j with (Z.of_nat (length K)) by lia.
            exact Hidx.
          + rewrite Hget0. simpl. apply list_insert_id. apply list_lookup_middle. reflexivity.
        - exists z, (z :: R0').
          split; [apply Permutation_cons_append|]. split.
          + rewrite length_app in Hjdef. simpl in Hjdef.
            apply idx_Ret. split; [lia|]. rewrite Hget0.
            replace (Z.to_nat j) with (length (K ++ c :: R0'))
              by (rewrite length_app; simpl; lia).
              replace (K ++ (c :: R0' ++ [z]) ++ G) with ((K ++ c :: R0') ++ z :: G)
                by (by simplify_list_eq).
              apply list_lookup_middle. reflexivity.
          + rewrite Hget0. simpl.
            rewrite insert_app_r_alt, Nat.sub_diag by lia. simpl.
            by simplify_list_eq. }
      destruct Hlast as (z & R1 & HR1 & Hj & Hins).
      rewrite Hj. simpl.
      assert (Hi : (length K < length (get (wl s)))%nat).
      { rewrite Hget0, !length_app. simpl. lia. }
      rewrite upd_in_range by lia. simpl. rewrite Nat2Z.id, Hins.
      set (s1 := set_wl (set (K ++ R1 ++ z :: G) (wl s)) s).
      destruct (unwatch_total E HU s1 c) as [s2 Hs2]. rewrite Hs2. simpl.
      destruct (unwatch_frame E HU _ _ _ Hs2) as (Hm2 & Hh2 & Hr2 & _).
      unfold s1 in Hm2, Hh2, Hr2. simpl in Hm2, Hh2, Hr2.
      unfold deref. rewrite Hh2. simpl. rewrite Hcl. simpl.
      assert (Hex : Exists (topLevelTrue (model s)) (lits cl)) by (apply Hb; reflexivity).
      assert (Hfirst : exists f, First cl = Ret f /\ inRange (length (model s)) (Lit_Var f)).
      { unfold First, Get, lits in *. destruct (terms cl) as [|t ts].
        - inversion Hex.
        - exists (fst t). split; [reflexivity|]. inversion Hrange; assumption. }
      destruct Hfirst as (f & -> & [Hf0 Hflt]). simpl.
      destruct (idx_in_range (reason s2) (Lit_Var f) Hf0) as [r Hr].
      { rewrite Hr2. simpl. lia. }
      rewrite Hr. simpl.
      set (s3 := if decide (r = Some c)
                 then set_reason (<[Z.to_nat (Lit_Var f) := None]> (reason s2)) s2 else s2).
      assert (Hs3 : (if decide (r = Some c)
                     then rs <- upd (reason s2) (Lit_Var f) None ; Ret (set_reason rs s2)
                     else Ret s2) = Ret s3).
      { unfold s3. destruct (decide (r = Some c)); [|reflexivity].
        rewrite upd_in_range; [reflexivity|exact Hf0|]. rewrite Hr2. simpl. lia. }
      rewrite Hs3. simpl.
      assert (Hwl3 : wl s3 = wl s2) by (unfold s3; destruct (decide _); reflexivity).
      assert (Hm3 : model s3 = model s) by (unfold s3; destruct (decide _); simpl; congruence).
      assert (Hh3 : heap s3 = heap s) by (unfold s3; destruct (decide _); simpl; congruence).
      assert (Hr3 : length (reason s3) = length (reason s)).
      { unfold s3. destruct (decide _); simpl; rewrite ?length_insert, Hr2; reflexivity. }
      destruct (IH s3 K R1 (z :: G)) as (s' & R' & G' & Hrun & Hget' & HR' & Hm' & Hh' & Hr' & Hoth).
      { rewrite Hwl3, (Hget _ _ _ Hs2). unfold s1. simpl. apply Hgs. }
      { rewrite HR1. lia. }
      { rewrite Hr3, Hm3. exact Hrl. }
      { rewrite HR1, Hm3, Hh3. exact Hwf. }
      exists s', R', G'.
      replace (j - 1) with (Z.of_nat (length K + length R1) - 1) by (rewrite HR1; lia).
      split; [exact Hrun|]. split; [exact Hget'|]. split.
      { rewrite HR'. rewrite filter_cons_False by (rewrite Htop; discriminate).
        rewrite <- HR1. apply reflexive_eq. apply list_filter_iff.
        intros x. rewrite (topSat_ext s s3 x Hm3 Hh3). reflexivity. }
      split; [congruence|]. split; [congruence|]. split; [congruence|].
      intros g Hg1 Hg2. rewrite (Hoth g Hg1 Hg2), Hwl3, (Hg2 _ _ _ Hs2).
      unfold s1. simpl. apply Hg1.
    + (* not satisfied: the constraint is kept *)
      destruct (IH s (K ++ [c]) R0 G) as (s' & R' & G' & Hrun & Hget' & HR' & Hrest).
      { rewrite Hget0, <- app_assoc. reflexivity. }
      { lia. }
      { exact Hrl. }
      { exact Hwf. }
      rewrite length_app in Hrun. simpl in Hrun.
      replace (Z.of_nat (length K + 1)) with (Z.of_nat (length K) + 1) in Hrun by lia.
      replace (Z.of_nat (length K + 1 + length R0) - 1) with j in Hrun by lia.
      exists s', (c :: R'), G'. split.
      { rewrite Hrun. do 2 f_equal. simpl. lia. }
      split; [rewrite Hget', <- app_assoc; reflexivity|]. split.
      { rewrite filter_cons_True by exact Htop. rewrite HR'. reflexivity. }
      exact Hrest.
Qed.

End TopLevel.

Lemma viewKept_savedView {T : EngineTypes} : viewKept (@savedView T).
Proof. split; reflexivity. Qed.

Lemma viewKept_objView {T : EngineTypes} : viewKept (@objView T).
Proof. split; reflexivity. Qed.

Lemma viewKept_problemDB {T : EngineTypes} : viewKept (@problemDB T).
Proof. split; reflexivity. Qed.

Section TopLevelMain.
Context {T : EngineTypes} (E : EngineOps T).

(** C7, as the code has it. [rmSatClauses] returns, and it takes out of the
    database of problem constraints and out of the database of learned
    constraints the constraints that [satClause] accepts, and only these:
    the plain clauses (not PB) of cardinality 1 whose length is not 2
    and that have a literal assigned true at level 1; binary clauses,
    constraints of another cardinality and PB constraints stay. The search
    does not call it: [propagateAndSearch], where the call after a learned
    unit is commented out, leaves the database of problem constraints as
    it found it. *)
Theorem rmSatClauses_removes_accepted (s : Solver T)
    (HU : unwatchLaws E) (HP : searchKeeps E problemDB) (Hwf : wfClauses s) :
  (exists s',
      rmSatClauses E s = Ret s' /\
      pbClauses (wl s') ≡ₚ filter (fun c => topSat s c = false) (pbClauses (wl s)) /\
      learned (wl s') ≡ₚ filter (fun c => topSat s c = false) (learned (wl s))) /\
  (forall c cl,
      c ∈ pbClauses (wl s) ++ learned (wl s) -> heap s !! c = Some cl ->
      (topSat s c = true <->
       Len cl <> 2%nat /\ cardinality cl = 1 /\ pseudoBoolean cl = false /\
       Exists (topLevelTrue (model s)) (lits cl))) /\
  (forall fuel lit lvl s2 st,
      propagateAndSearch E fuel s lit lvl = Ret (s2, st) ->
      pbClauses (wl s2) = pbClauses (wl s)).
Proof.
  destruct Hwf as [Hrl Hcl]. split; [|split].
  - apply Forall_app in Hcl as [Hpb Hle].
    unfold rmSatClauses.
    destruct (rmSatLoop_spec E pbClauses set_pbClauses (fun _ _ => eq_refl)
                (fun s c s' H => proj1 (proj2 (proj2 (proj2 (unwatch_frame E HU s c s' H)))))
                HU (length (pbClauses (wl s))) s [] (pbClauses (wl s)) [])
      as (s1 & R1 & G1 & Hrun1 & Hget1 & HR1 & Hm1 & Hh1 & Hr1 & Hoth1).
    { rewrite app_nil_r. reflexivity. }
    { lia. }
    { exact Hrl. }
    { exact Hpb. }
    cbn [length Nat.add app] in Hrun1, Hget1. change (Z.of_nat 0) with 0 in Hrun1.
    rewrite Hrun1. simpl.
    replace (Z.to_nat (Z.of_nat (length R1) - 1 + 1)) with (length R1) by lia.
    rewrite Hget1, take_app_length.
    set (s1' := set_wl (set_pbClauses R1 (wl s1)) s1).
    assert (Hle1 : learned (wl s1) = learned (wl s)).
    { apply (Hoth1 learned); [reflexivity|].
      intros s0 c s0' H. apply (unwatch_frame E HU s0 c s0' H). }
    destruct (rmSatLoop_spec E learned set_learned (fun _ _ => eq_refl)
                (fun s c s' H => proj2 (proj2 (proj2 (proj2 (unwatch_frame E HU s c s' H)))))
                HU (length (learned (wl s1'))) s1' [] (learned (wl s1')) [])
      as (s2 & R2 & G2 & Hrun2 & Hget2 & HR2 & Hm2 & Hh2 & Hr2 & Hoth2).
    { rewrite app_nil_r. reflexivity. }
    { lia. }
    { unfold s1'. simpl. congruence. }
    { unfold s1'. simpl. rewrite Hle1, Hm1, Hh1. exact Hle. }
    cbn [length Nat.add app] in Hrun2, Hget2. change (Z.of_nat 0) with 0 in Hrun2.
    change (learned (wl s1')) with (learned (wl s1)) in Hrun2.
    rewrite Hrun2. simpl.
    replace (Z.to_nat (Z.of_nat (length R2) - 1 + 1)) with (length R2) by lia.
    rewrite Hget2, take_app_length.
    eexists. split; [reflexivity|]. simpl. split.
    + rewrite (Hoth2 pbClauses); [unfold s1'; simpl; exact HR1|reflexivity|].
      intros s0 c s0' H. apply (unwatch_frame E HU s0 c s0' H).
    + rewrite HR2. unfold s1' at 2. simpl. rewrite Hle1.
      apply reflexive_eq. apply list_filter_iff. intros x.
      rewrite (topSat_ext s s1' x); [reflexivity| |]; unfold s1'; simpl; assumption.
  - intros c cl Hc Hcl'.
    rewrite Forall_forall in Hcl. destruct (Hcl c Hc) as (cl0 & Hcl0 & Hrange).
    assert (cl0 = cl) by congruence. subst cl0.
    destruct (satClause_spec s cl Hrange) as (b & Hsat & Hb).
    unfold topSat. rewrite Hcl', Hsat. exact Hb.
  - intros fuel lit lvl s2 st H.
    exact (propagateAndSearch_keeps E problemDB viewKept_problemDB HP fuel _ _ _ _ _ H).
Qed.

End TopLevelMain.

(** Facts about the instance [refOps]. *)
Lemma ref_propagate_keeps {A : Type} (p : Solver Ref.refT -> A) (Hp : viewKept p) (fuel : nat) :
  forall s lvl s' c, Ref.propagate fuel s lvl = Ret (s', c) -> p s' = p s.
Proof.
  induction fuel as [|n IH]; intros s lvl s' c H; simpl in H.
  - destruct (Ref.scanAll _ _ _) as [[c0 d]|]; [destruct d|];
      try discriminate; injection H as <- _; reflexivity.
  - destruct (Ref.scanAll _ _ _) as [[c0 d]|]; [destruct d|];
      try (injection H as <- _; reflexivity).
    inv_bind H as m Hm. inv_bind H as rs Hrs. inv_bind H as cl Hcl.
    rewrite (IH _ _ _ _ H). unfold store.
    rewrite (vk_trail p Hp), (vk_heap p Hp), (vk_reason p Hp), (vk_model p Hp).
    reflexivity.
Qed.

Lemma refOps_searchKeeps {A : Type} (p : Solver Ref.refT -> A) :
  viewKept p ->
  (forall x s, p (set_wl (set_learned x (wl s)) s) = p s) ->
  searchKeeps Ref.refOps p.
Proof.
  intros Hp Hl. split; simpl.
  - intros s l k s' c H. unfold Ref.ref_unifyLiteral in H.
    inv_bind H as m Hm. rewrite (ref_propagate_keeps p Hp _ _ _ _ _ H).
    rewrite (vk_trail p Hp), (vk_model p Hp). reflexivity.
  - intros s c k s' r u H. unfold Ref.ref_learnClause in H.
    destruct (Ref.decisionsDown s _ k) as [|d [|d' ds]]; try discriminate.
    + injection H as <- _ _. reflexivity.
    + injection H as <- _ _. apply (vk_heap p Hp).
  - intros s c s' [= <-]. apply Hl.
  - intros s s' [= <-]. reflexivity.
  - intros s s' [= <-]. reflexivity.
Qed.

Lemma refOps_keeps_problemDB : searchKeeps Ref.refOps problemDB.
Proof. apply refOps_searchKeeps; [apply viewKept_problemDB|reflexivity]. Qed.

Lemma refOps_engineFrame : engineFrame Ref.refOps.
Proof.
  split.
  - apply refOps_searchKeeps; [apply viewKept_savedView|reflexivity].
  - intros s c s' [= <-]. reflexivity.
Qed.

Lemma refOps_unwatchLaws : unwatchLaws Ref.refOps.
Proof.
  split; simpl.
  - intros s c. eauto.
  - intros s c s' [= <-]. auto.
Qed.

(** The theorem after [Solve] on [(x1 or x2) and (x1 or not x2) and
    (x1 or x2 or x3)], where the unit [x1] was learned: called by hand,
    [rmSatClauses] takes the third clause out and keeps the two binary
    ones. *)
Lemma rmSatClauses_removes_accepted_witness :
  unwatchLaws Ref.refOps /\ searchKeeps Ref.refOps problemDB /\
  wfClauses Ref.unitLearned /\
  exists s', rmSatClauses Ref.refOps Ref.unitLearned = Ret s' /\
             pbClauses (wl s') = [0; 1]%nat /\ learned (wl s') = [].
Proof.
  assert (Hwf : wfClauses Ref.unitLearned).
  { split; [vm_compute; reflexivity|].
    let l := eval vm_compute in
               (pbClauses (wl Ref.unitLearned) ++ learned (wl Ref.unitLearned)) in
    change (pbClauses (wl Ref.unitLearned) ++ learned (wl Ref.unitLearned)) with l.
    repeat (constructor; [eexists; split; [vm_compute; reflexivity|];
                          repeat constructor; compute; congruence|]).
    constructor. }
  split; [exact refOps_unwatchLaws|]. split; [exact refOps_keeps_problemDB|].
  split; [exact Hwf|].
  destruct (rmSatClauses_removes_accepted Ref.refOps Ref.unitLearned
              refOps_unwatchLaws refOps_keeps_problemDB Hwf)
    as ((s' & Hrun & _) & _).
  exists s'. split; [exact Hrun|].
  vm_compute in Hrun. injection Hrun as <-. split; reflexivity.
Defined.

(** C7 as stated fails. [Solve] on the same problem learns the unit [x1]
    and ends with the third clause, [x1 or x2 or x3], still in the database
    of problem constraints although [x1] is true at level 1 and [satClause]
    accepts the clause: nothing was rescanned. And [satClause] refuses the
    first clause, [x1 or x2], a plain clause of cardinality 1 that [x1]
    satisfies at level 1: binary clauses are skipped as well. *)
Lemma rmSatClauses_not_called_counterexample :
  match Solve Ref.refOps 20 Ref.pbUnit with
  | Ret (s, st) =>
      st = Sat /\ NbUnitLearned (stats s) = 1 /\ model s !! 0%nat = Some 1 /\
      pbClauses (wl s) = [0; 1; 2]%nat /\
      topSat s 2%nat = true /\ topSat s 0%nat = false
  | _ => False
  end.
Proof. vm_compute. repeat split. Qed.

(** ** The optimisation loop: [Optimal] and [Minimize] *)

Lemma insertDesc_perm (p : Lit * Z) (l : list (Lit * Z)) : insertDesc p l ≡ₚ p :: l.
Proof.
  induction l as [|q l IH]; simpl; [reflexivity|].
  destruct (snd p <=? snd q); [|reflexivity].
  rewrite IH. apply perm_swap.
Qed.

Lemma sortDesc_perm (l : list (Lit * Z)) : sortDesc l ≡ₚ l.
Proof.
  unfold sortDesc.
  assert (H : forall acc, foldl (fun acc p => insertDesc p acc) acc l ≡ₚ acc ++ l).
  { induction l as [|p l IH]; intros acc; simpl.
    - rewrite app_nil_r. reflexivity.
    - rewrite IH, insertDesc_perm. rewrite (Permutation_middle acc l p). reflexivity. }
  apply (H []).
Qed.

(** [sort.Sort] on the assumptions and their weights: the pairs are kept. *)
Lemma sortWLits_spec (ls ls' : list Lit) (ws ws' : list Z) :
  length ws = length ls ->
  sortWLits ls ws = Ret (ls', ws') ->
  zip ls' ws' ≡ₚ zip ls ws /\ length ls' = length ls /\ length ws' = length ws.
Proof.
  intros Hlen. unfold sortWLits.
  destruct (length ls <=? 1)%nat; [intros [= <- <-]; auto|].
  destruct (length ws <? length ls)%nat; [discriminate|].
  intros [= <- <-]. rewrite <- Hlen, firstn_all, drop_all, app_nil_r.
  pose proof (sortDesc_perm (zip ls ws)) as Hp.
  rewrite zip_fst_snd. split; [exact Hp|].
  rewrite !length_fmap. rewrite (Permutation_length Hp).
  rewrite length_zip_with. lia.
Qed.

Lemma sumZ_replicate (n : nat) : sumZ (replicate n 1) = Z.of_nat n.
Proof. induction n as [|n IH]; simpl in *; lia. Qed.

Lemma foldl_add_sumZ (ws : list Z) (acc : Z) :
  0 <= acc -> Forall (fun w => 0 <= w) ws -> acc + sumZ ws < 2 ^ 62 ->
  foldl add acc ws = acc + sumZ ws.
Proof.
  intros Hacc Hpos. revert acc Hacc.
  induction Hpos as [|w ws Hw Hpos IH]; intros acc Hacc Hsum; simpl in *; [lia|].
  assert (0 <= sumZ ws).
  { clear -Hpos. induction Hpos; simpl; lia. }
  unfold add at 2. rewrite wrap_fits by lia. rewrite IH by lia. lia.
Qed.

Lemma sumZ_nonneg (ws : list Z) : Forall (fun w => 0 <= w) ws -> 0 <= sumZ ws.
Proof. induction 1; simpl; lia. Qed.

Lemma zip_replicate_ones (ls : list Lit) :
  zip ls (replicate (length ls) 1) = (fun l => (l, 1)) <$> ls.
Proof. induction ls as [|l ls IH]; simpl; [reflexivity|]. f_equal. exact IH. Qed.

Lemma sumW_zip_le (ls : list Lit) (ws : list Z) :
  Forall (fun w => 0 <= w) ws -> 0 <= sumW (zip ls ws) <= sumZ ws.
Proof.
  intros Hpos. revert ls. induction Hpos as [|w ws Hw Hpos IH]; intros [|l ls]; simpl;
    try lia.
  - pose proof (sumZ_nonneg _ Hpos). lia.
  - specialize (IH ls). lia.
Qed.

Lemma zip_weights_nonneg (ls : list Lit) (ws : list Z) :
  Forall (fun w => 0 <= w) ws -> Forall (fun t => 0 <= snd t) (zip ls ws).
Proof.
  intros Hpos. revert ls. induction Hpos as [|w ws Hw Hpos IH]; intros [|l ls]; simpl;
    constructor; auto.
Qed.

Section Optimisation.
Context {T : EngineTypes} (E : EngineOps T).

(** The weight that the cost loop adds for the objective literal [i]. *)
Lemma modelCost_loop (s : Solver T) (ls : list Lit) :
  forall (ws : list Z) (k : nat) (acc c : Z),
    length ws = length ls ->
    (forall j w, ws !! j = Some w ->
                 match minWeights s with
                 | None => w = 1
                 | Some ws0 => ws0 !! (k + j)%nat = Some w
                 end) ->
    Forall (fun w => 0 <= w) ws -> 0 <= acc -> acc + sumZ ws < 2 ^ 62 ->
    foldM (fun cost '(i, lit) =>
             a <- idx (model s) (Lit_Var lit) ;
             if Bool.eqb (0 <? a) (IsPositive lit) then
               match minWeights s with
               | None => Ret (add cost 1)
               | Some ws => w <- idx ws (Z.of_nat i) ; Ret (add cost w)
               end
             else Ret cost)
          acc (zip (seq k (length ls)) ls) = Ret c ->
    c = acc + sumW (filter (fun t => litTrueIn (model s) (fst t) = true) (zip ls ws)).
Proof.
  induction ls as [|l ls IH]; intros ws k acc c Hlen Hw Hpos Hacc Hsum H.
  - simpl in H. injection H as <-. destruct ws; simpl; lia.
  - destruct ws as [|w ws]; [discriminate|]. simpl in Hlen.
    apply Forall_cons in Hpos as [Hw0 Hpos]. simpl in Hsum.
    pose proof (sumZ_nonneg _ Hpos) as Hs.
    simpl in H. inv_bind H as acc' Hstep. inv_bind Hstep as a Ha.
    apply idx_Ret in Ha as [_ Ha].
    assert (Htrue : litTrueIn (model s) l = Bool.eqb (0 <? a) (IsPositive l)).
    { unfold litTrueIn. rewrite Ha. reflexivity. }
    assert (Hacc' : acc' = if litTrueIn (model s) l then acc + w else acc).
    { rewrite Htrue. destruct (Bool.eqb (0 <? a) (IsPositive l)).
      - pose proof (Hw 0%nat w eq_refl) as Hw1.
        destruct (minWeights s) as [ws0|].
        + inv_bind Hstep as w' Hw'. apply idx_Ret in Hw' as [_ Hw'].
          rewrite Nat2Z.id in Hw'. rewrite Nat.add_0_r in Hw1. rewrite Hw' in Hw1.
          injection Hw1 as ->.
          injection Hstep as <-. unfold add. apply wrap_fits. lia.
        + subst w. injection Hstep as <-. unfold add. apply wrap_fits. lia.
      - injection Hstep as <-. reflexivity. }
    assert (Hrec := IH ws (S k) acc' c).
    cbn [zip zip_with]. rewrite filter_cons. cbn [fst].
    rewrite Hrec; try assumption; try lia.
    + rewrite Hacc'. destruct (litTrueIn (model s) l) eqn:Hl.
      * destruct (decide (true = true)); [simpl; lia|congruence].
      * destruct (decide (false = true)); [discriminate|reflexivity].
    + intros j w' Hj. specialize (Hw (S j) w' Hj).
      destruct (minWeights s); [|exact Hw].
      replace (S k + j)%nat with (k + S j)%nat by lia. exact Hw.
    + rewrite Hacc'. destruct (litTrueIn (model s) l); lia.
    + rewrite Hacc'. destruct (litTrueIn (model s) l); lia.
Qed.

(** The cost that the loops compute is the cost of the current model. *)
Lemma modelCost_spec (s : Solver T) (c : Z) :
  boundedObjective s -> modelCost s = Ret c ->
  c = objCost s (model s) /\ 0 <= c <= maxCostOf s.
Proof.
  intros [Hlen Hpos Hsum] H. unfold modelCost in H.
  assert (Hc : c = 0 + objCost s (model s)).
  { unfold objCost. eapply (modelCost_loop s (objLits s) (effWeights s) 0 0 c);
      try eassumption; try lia.
    intros j w Hj. unfold effWeights in Hj.
    destruct (minWeights s); [exact Hj|].
    apply lookup_replicate in Hj as [-> _]. reflexivity. }
  split; [lia|]. rewrite Hc. unfold objCost, maxCostOf.
  pose proof (sumW_filter_le (fun t => litTrueIn (model s) (fst t) = true)
                (zip (objLits s) (effWeights s))
                (zip_weights_nonneg _ _ Hpos)).
  pose proof (sumW_zip_le (objLits s) (effWeights s) Hpos). lia.
Qed.

(** The prelude of both functions, and the constraint their loops build
    from it in any later state [s'] whose objective is still the same. *)
Lemma optimSetup_spec (s s1 : Solver T) (maxCost : Z) (weights : list Z) :
  boundedObjective s ->
  optimSetup s = Ret (s1, maxCost, weights) ->
  maxCost = maxCostOf s /\
  s1 = set_lastModel (Some (replicate (length (model s)) 0))
                     (set_asumptions (asumptions s1) s).
Proof.
  intros [Hlen Hpos Hsum] H. unfold optimSetup in H.
  inv_bind H as [asum ws] Hsort. injection H as <- <- <-.
  split; [|reflexivity].
  unfold maxCostOf, effWeights in *. destruct (minWeights s) as [ws0|].
  - rewrite foldl_add_sumZ; try assumption; lia.
  - rewrite sumZ_replicate. reflexivity.
Qed.

(** The constraint that the loops build from the sorted assumptions and
    weights, for an objective that has weights and at least one literal. *)
Lemma optimSetup_clause (s s1 s' : Solver T) (maxCost card : Z) (weights ws0 : list Z) :
  boundedObjective s ->
  minWeights s = Some ws0 -> objLits s <> [] ->
  optimSetup s = Ret (s1, maxCost, weights) ->
  objView s' = objView s1 ->
  exists cl,
    mkPBClause (copySlice (replicate (length (objLits s')) 0) (asumptions s'))
               (Some (copySlice (replicate (length (objWeights s')) 0) weights)) card
    = Ret cl /\
    pseudoBoolean cl = true /\ isLearned cl = false /\
    terms cl ≡ₚ zip (Negation <$> objLits s) (effWeights s) /\
    cardinality cl = card.
Proof.
  intros [Hlen Hpos Hsum] Hmin Hne H Hobj. unfold optimSetup in H.
  inv_bind H as [asum ws] Hsort. injection H as <- <- <-.
  unfold objView in Hobj. simpl in Hobj. injection Hobj as Hnb Hml Hmw Has.
  assert (Hol : objLits s' = objLits s) by (unfold objLits; rewrite Hml; reflexivity).
  assert (How : objWeights s' = objWeights s) by (unfold objWeights; rewrite Hmw; reflexivity).
  rewrite Hol, How, Has.
  unfold effWeights, objWeights in *. rewrite Hmin in *.
  assert (Hlen' : length ws0 = length (Negation <$> objLits s))
    by (rewrite length_fmap; exact Hlen).
  destruct (sortWLits_spec _ _ _ _ Hlen' Hsort) as (Hperm & Hl1 & Hl2).
  rewrite length_fmap in Hl1.
  rewrite !copySlice_same_length by (rewrite length_replicate; congruence).
  assert (Hpos' : (0 < length (objLits s))%nat)
    by (destruct (objLits s); [contradiction|simpl; lia]).
  unfold mkPBClause.
  assert (H0 : (length ws =? 0)%nat = false) by (apply Nat.eqb_neq; lia).
  assert (Hl : (length asum =? length ws)%nat = true) by (apply Nat.eqb_eq; lia).
  rewrite H0, Hl. eexists. split; [reflexivity|]. simpl. repeat split; try reflexivity.
  exact Hperm.
Qed.

Lemma solveLoop_decides (fuel : nat) :
  forall s s' : Solver T, solveLoop E fuel s = Ret s' -> status s' <> Indet.
Proof.
  induction fuel as [|n IH]; intros s s' H; simpl in H.
  - destruct (status s) eqn:Hst; try discriminate; injection H as <-; congruence.
  - destruct (status s) eqn:Hst; try (injection H as <-; congruence).
    inv_bind H as s1 Hsearch. destruct (status s1).
    + inv_bind H as s2 Hheap. exact (IH _ _ H).
    + exact (IH _ _ H).
    + exact (IH _ _ H).
Qed.

Context (Hframe : engineFrame E).

(** [Solve] answers Sat or Unsat; it writes the saved model on Sat only,
    and never the objective. *)
Lemma Solve_keeps (fuel : nat) (s s' : Solver T) (st : Status) :
  Solve E fuel s = Ret (s', st) ->
  st = status s' /\ st <> Indet /\ objView s' = objView s /\
  (st = Sat -> lastModel s' = Some (model s')) /\
  (st = Unsat -> lastModel s' = lastModel s).
Proof.
  intros H. pose proof H as H0. unfold Solve in H.
  assert (Hcase : (status s = Unsat /\ s' = s /\ st = Unsat) \/
                  exists s1, solveLoop E fuel (set_localNbRestarts 0 (set_status Indet s))
                             = Ret s1 /\
                             s' = match status s1 with
                                  | Sat => set_lastModel
                                             (Some (copySlice (replicate (length (model s1)) 0)
                                                              (model s1))) s1
                                  | _ => s1
                                  end /\
                             st = status s').
  { destruct (status s) eqn:Hst.
    - right. inv_bind H as s1 Hloop. injection H as <- <-. eauto.
    - right. inv_bind H as s1 Hloop. injection H as <- <-. eauto.
    - left. injection H as <- <-. auto. }
  destruct Hcase as [(Hst & -> & ->)|(s1 & Hloop & -> & ->)].
  - repeat split; try congruence.
  - pose proof (solveLoop_decides _ _ _ Hloop) as Hdec.
    pose proof (solveLoop_keeps E savedView viewKept_savedView (ef_search E Hframe)
                  _ _ _ Hloop) as Hsv.
    assert (Hov : objView s1 = objView s) by exact (f_equal fst Hsv).
    assert (Hlm : lastModel s1 = lastModel s) by exact (f_equal snd Hsv).
    clear H H0. destruct (status s1) eqn:Hs1; simpl; rewrite ?Hs1.
    + congruence.
    + repeat split; try congruence.
      * exact Hov.
      * intros _. rewrite copySlice_same_length by apply length_replicate. reflexivity.
    + repeat split; try congruence.
Qed.

Lemma AppendClause_keeps (s s' : Solver T) (c : cid) :
  AppendClause E s c = Ret s' -> savedView s' = savedView s.
Proof.
  unfold AppendClause. intros H.
  inv_bind H as s1 Hclean. inv_bind H as cl Hcl. inv_bind H as [[cl' minW] maxW] Hscan.
  pose proof (cleanupBindings_keeps E savedView viewKept_savedView _ _ _ Hclean) as H1.
  assert (H2 : savedView (store s1 c cl') = savedView s1) by reflexivity.
  destruct (cardinality cl <=? minW); [injection H as <-; congruence|].
  destruct (maxW <? cardinality cl); [injection H as <-; rewrite <- H1; reflexivity|].
  destruct (maxW =? cardinality cl).
  - rewrite (propagateUnits_keeps E savedView viewKept_savedView (ef_search E Hframe)
               _ _ _ H). congruence.
  - rewrite (ef_append E Hframe _ _ _ H). congruence.
Qed.

(** The objective of a later state is the objective set up at the start. *)
Lemma objView_objective (s s0 s1 : Solver T) (maxCost : Z) (weights : list Z) :
  optimSetup s0 = Ret (s1, maxCost, weights) ->
  objView s = objView s1 ->
  objLits s = objLits s0 /\ minWeights s = minWeights s0 /\ effWeights s = effWeights s0.
Proof.
  unfold optimSetup. intros H Hv. inv_bind H as [asum ws] Hsort. injection H as <- _ _.
  unfold objView in Hv. simpl in Hv. injection Hv as _ Hml Hmw _.
  unfold effWeights, objLits. rewrite Hml, Hmw. auto.
Qed.

Lemma boundedObjective_same (s s0 : Solver T) :
  objLits s = objLits s0 -> effWeights s = effWeights s0 ->
  boundedObjective s0 -> boundedObjective s.
Proof.
  intros Hl Hw [H1 H2 H3]. split; rewrite ?Hl, ?Hw; assumption.
Qed.

(** One tightening: the constraint that [tighten] builds and appends. *)
Lemma tighten_spec (s s0 s1 : Solver T) (maxCost cost : Z) (weights ws0 : list Z) :
  boundedObjective s0 ->
  minWeights s0 = Some ws0 -> objLits s0 <> [] ->
  optimSetup s0 = Ret (s1, maxCost, weights) ->
  objView s = objView s1 ->
  0 <= cost <= maxCost ->
  exists cl,
    isTightening s0 cost cl /\
    tighten E s maxCost weights cost =
      (sb <- AppendClause E (set_heap (heap s ++ [cl]) s) (length (heap s)) ;
       rebuildOrderHeap E sb).
Proof.
  intros Hobj Hmin Hne Hsetup Hview Hcost.
  destruct (optimSetup_spec s0 s1 maxCost weights Hobj Hsetup) as (Hmax & _).
  destruct (optimSetup_clause s0 s1 s maxCost (add (sub maxCost cost) 1) weights ws0
              Hobj Hmin Hne Hsetup Hview) as (cl & Hmk & Hpb & Hnl & Hterms & Hcard).
  exists cl. split.
  - repeat split; try assumption. rewrite Hcard, <- Hmax.
    destruct Hobj as [_ Hp Hs]. pose proof (sumZ_nonneg _ Hp) as Hnn.
    unfold maxCostOf in Hmax.
    unfold add, sub. rewrite (wrap_fits (maxCost - cost)) by lia.
    apply wrap_fits. lia.
  - unfold tighten. rewrite Hmk. reflexivity.
Qed.

Lemma bind_assoc {A B C : Type} (m : result A) (f : A -> result B) (g : B -> result C) :
  bind (bind m f) g = bind m (fun a => bind (f a) g).
Proof. destruct m; reflexivity. Qed.

Lemma minimizeLoop_S (n : nat) (maxCost : Z) (weights : list Z) (s : Solver T) (c0 : Z) :
  minimizeLoop E (S n) maxCost weights s Sat c0 =
  (cost <- modelCost (saveModel s) ;
   if cost =? 0 then Ret (saveModel s, 0)
   else
     s' <- tighten E (saveModel s) maxCost weights cost ;
     '(s', status) <- Solve E n s' ;
     minimizeLoop E n maxCost weights s' status cost).
Proof. reflexivity. Qed.

Lemma optimalLoop_S (n : nat) (maxCost : Z) (weights : list Z) (s : Solver T)
    (models : option (list Result)) (res : Result) :
  optimalLoop E (S n) maxCost weights s Sat models res =
  (cost <- modelCost (saveModel s) ;
   mm <- ModelMap (saveModel s) ;
   let res := {| r_Status := Sat; r_Model := Some mm; r_Weight := cost |} in
   models <- send models res ;
   if cost =? 0 then Ret (saveModel s, models, res)
   else
     s' <- tighten E (saveModel s) maxCost weights cost ;
     '(s', status) <- Solve E n s' ;
     optimalLoop E n maxCost weights s' status models res).
Proof. reflexivity. Qed.

Lemma minimizeLoop_stops (n : nat) (maxCost : Z) (weights : list Z) (s : Solver T)
    (st : Status) (c0 : Z) :
  st <> Sat -> minimizeLoop E n maxCost weights s st c0 = Ret (s, c0).
Proof. destruct n, st; simpl; congruence. Qed.

Lemma optimalLoop_stops (n : nat) (maxCost : Z) (weights : list Z) (s : Solver T)
    (st : Status) (models : option (list Result)) (res : Result) :
  st <> Sat -> optimalLoop E n maxCost weights s st models res = Ret (s, models, res).
Proof. destruct n, st; simpl; congruence. Qed.

(** X30. One iteration of the loop of [Minimize] and of [Optimal], for an
    objective that has weights, in a state [s] that still has the objective
    set up before the loop and a slice for the saved model as long as the
    model, on a model of cost [cost] other than 0: [maxCost] is the sum of
    the objective weights and [cost] the cost of the model; the loop copies
    the model into the saved model, and puts on the heap a constraint [cl]
    that is pseudo-Boolean, not learned, whose terms are the negated
    objective literals with their own weights, and whose threshold is
    [maxCost - cost + 1]; it hands it to [AppendClause], calls
    [rebuildOrderHeap], calls [Solve], and goes round again with the status
    that [Solve] answered. When that status is Unsat, [Minimize] returns
    [cost], [Optimal] returns the result it emitted for this model, and the
    saved model is the model of the start of the iteration, the one whose
    cost is [cost]. *)
Theorem tightening_step (n : nat) (s0 s1 s : Solver T) (maxCost cost c0 : Z)
    (weights ws0 : list Z) (dst : list decLevel)
    (Hobj : boundedObjective s0)
    (Hweighted : minWeights s0 = Some ws0)
    (Hsetup : optimSetup s0 = Ret (s1, maxCost, weights))
    (Hview : objView s = objView s1)
    (Hlast : lastModel s = Some dst)
    (Hdst : length dst = length (model s))
    (Hcost : modelCost (saveModel s) = Ret cost)
    (Hpos : cost <> 0) :
  maxCost = maxCostOf s0 /\ cost = objCost s0 (model s) /\
  lastModel (saveModel s) = Some (model s) /\
  exists cl,
    isTightening s0 cost cl /\
    let sa := set_heap (heap s ++ [cl]) (set_lastModel (Some (model s)) s) in
    let c := length (heap s) in
    minimizeLoop E (S n) maxCost weights s Sat c0 =
      (sb <- AppendClause E sa c ;
       sc <- rebuildOrderHeap E sb ;
       '(sd, st) <- Solve E n sc ;
       minimizeLoop E n maxCost weights sd st cost) /\
    (forall sent res mm,
        ModelMap (set_lastModel (Some (model s)) s) = Ret mm ->
        optimalLoop E (S n) maxCost weights s Sat (Some sent) res =
          (sb <- AppendClause E sa c ;
           sc <- rebuildOrderHeap E sb ;
           '(sd, st) <- Solve E n sc ;
           optimalLoop E n maxCost weights sd st
             (Some (sent ++ [{| r_Status := Sat; r_Model := Some mm; r_Weight := cost |}]))
             {| r_Status := Sat; r_Model := Some mm; r_Weight := cost |})) /\
    forall sb sc sd st,
      AppendClause E sa c = Ret sb ->
      rebuildOrderHeap E sb = Ret sc ->
      Solve E n sc = Ret (sd, st) ->
      objView sd = objView s1 /\
      (st = Unsat ->
       lastModel sd = Some (model s) /\
       minimizeLoop E (S n) maxCost weights s Sat c0 = Ret (sd, cost) /\
       forall sent res mm,
         ModelMap (set_lastModel (Some (model s)) s) = Ret mm ->
         optimalLoop E (S n) maxCost weights s Sat (Some sent) res =
           Ret (sd,
                Some (sent ++ [{| r_Status := Sat; r_Model := Some mm; r_Weight := cost |}]),
                {| r_Status := Sat; r_Model := Some mm; r_Weight := cost |})).
Proof.
  assert (Hsave : saveModel s = set_lastModel (Some (model s)) s).
  { unfold saveModel. rewrite Hlast, (copySlice_same_length dst (model s) Hdst).
    reflexivity. }
  rewrite <- Hsave.
  destruct (objView_objective (saveModel s) s0 s1 _ _ Hsetup Hview) as (Hl & Hmw & Hw).
  pose proof (boundedObjective_same (saveModel s) s0 Hl Hw Hobj) as Hobj'.
  destruct (modelCost_spec _ _ Hobj' Hcost) as (Hc & Hrange).
  assert (Hc0 : cost = objCost s0 (model s)).
  { rewrite Hc. unfold objCost. rewrite Hl, Hw. reflexivity. }
  assert (Hmax0 : maxCostOf (saveModel s) = maxCostOf s0)
    by (unfold maxCostOf; rewrite Hw; reflexivity).
  assert (Hlits : objLits s0 <> []).
  { intros Hnil. apply Hpos. rewrite Hc0. unfold objCost. rewrite Hnil. reflexivity. }
  destruct (optimSetup_spec s0 s1 maxCost weights Hobj Hsetup) as (Hmax & _).
  destruct (tighten_spec (saveModel s) s0 s1 maxCost cost weights ws0
              Hobj Hweighted Hlits Hsetup Hview)
    as (cl & Htight & Heq); [lia|].
  change (heap (saveModel s)) with (heap s) in Heq.
  assert (Hne : (cost =? 0) = false) by (apply Z.eqb_neq; exact Hpos).
  assert (Hmin : minimizeLoop E (S n) maxCost weights s Sat c0 =
                 (sb <- AppendClause E (set_heap (heap s ++ [cl]) (saveModel s))
                                     (length (heap s)) ;
                  sc <- rebuildOrderHeap E sb ;
                  '(sd, st) <- Solve E n sc ;
                  minimizeLoop E n maxCost weights sd st cost)).
  { rewrite minimizeLoop_S, Hcost. cbn [bind]. rewrite Hne, Heq, bind_assoc. reflexivity. }
  assert (Hopt : forall sent res mm,
             ModelMap (saveModel s) = Ret mm ->
             optimalLoop E (S n) maxCost weights s Sat (Some sent) res =
             (sb <- AppendClause E (set_heap (heap s ++ [cl]) (saveModel s))
                                 (length (heap s)) ;
              sc <- rebuildOrderHeap E sb ;
              '(sd, st) <- Solve E n sc ;
              optimalLoop E n maxCost weights sd st
                (Some (sent ++ [{| r_Status := Sat; r_Model := Some mm; r_Weight := cost |}]))
                {| r_Status := Sat; r_Model := Some mm; r_Weight := cost |})).
  { intros sent res mm Hmm. rewrite optimalLoop_S, Hcost. cbn [bind]. rewrite Hmm.
    cbn [bind send]. rewrite Hne, Heq, bind_assoc. reflexivity. }
  split; [exact Hmax|]. split; [exact Hc0|].
  split; [rewrite Hsave; reflexivity|].
  exists cl. split; [exact Htight|]. cbv zeta.
  split; [exact Hmin|]. split; [exact Hopt|].
  intros sb sc sd st Happ Hheap Hsolve.
  destruct (Solve_keeps _ _ _ _ Hsolve) as (_ & _ & Hov & _ & Hun).
  pose proof (AppendClause_keeps _ _ _ Happ) as Hsv.
  pose proof (rebuildOrderHeap_keeps E savedView viewKept_savedView _ _ Hheap) as Hsv'.
  assert (Hsc : savedView sc = savedView (saveModel s)) by (rewrite Hsv', Hsv; reflexivity).
  assert (Hsc1 : objView sc = objView s) by exact (f_equal fst Hsc).
  assert (Hsc2 : lastModel sc = lastModel (saveModel s)) by exact (f_equal snd Hsc).
  split.
  - rewrite Hov, Hsc1. exact Hview.
  - intros ->. split; [|split].
    + rewrite (Hun eq_refl), Hsc2, Hsave. reflexivity.
    + rewrite Hmin, Happ. cbn [bind]. rewrite Hheap. cbn [bind]. rewrite Hsolve.
      cbn [bind]. apply minimizeLoop_stops. discriminate.
    + intros sent res mm Hmm. rewrite (Hopt _ _ _ Hmm), Happ. cbn [bind].
      rewrite Hheap. cbn [bind]. rewrite Hsolve. cbn [bind].
      apply optimalLoop_stops. discriminate.
Qed.

Lemma tighten_keeps (s s' : Solver T) (maxCost cost : Z) (weights : list Z) :
  tighten E s maxCost weights cost = Ret s' -> savedView s' = savedView s.
Proof.
  unfold tighten, alloc. intros H. inv_bind H as cl Hcl. inv_bind H as sb Happ.
  rewrite (rebuildOrderHeap_keeps E savedView viewKept_savedView _ _ H).
  rewrite (AppendClause_keeps _ _ _ Happ). reflexivity.
Qed.

(** What the loop of [Minimize] returns, when it returns: the cost of the
    model it saved last. *)
Lemma minimizeLoop_result (s0 s1 : Solver T) (maxCost : Z) (weights : list Z) :
  boundedObjective s0 ->
  optimSetup s0 = Ret (s1, maxCost, weights) ->
  forall (n : nat) (s : Solver T) (st : Status) (c0 : Z) (s' : Solver T) (r : Z),
    objView s = objView s1 ->
    match st with
    | Sat => exists dst, lastModel s = Some dst /\ length dst = length (model s)
    | _ => exists lm, lastModel s = Some lm /\ c0 = objCost s0 lm /\ 0 <= c0
    end ->
    minimizeLoop E n maxCost weights s st c0 = Ret (s', r) ->
    exists lm, lastModel s' = Some lm /\ r = objCost s0 lm /\ 0 <= r.
Proof.
  intros Hobj Hsetup. induction n as [|n IH]; intros s st c0 s' r Hview Hpre H.
  - destruct st; simpl in H; try discriminate; injection H as <- <-; exact Hpre.
  - destruct st; try (simpl in H; injection H as <- <-; exact Hpre).
    destruct Hpre as (dst & Hdst & Hlen).
    rewrite minimizeLoop_S in H. inv_bind H as cost Hcost.
    destruct (objView_objective (saveModel s) s0 s1 _ _ Hsetup Hview) as (Hl & Hmw & Hw).
    pose proof (boundedObjective_same (saveModel s) s0 Hl Hw Hobj) as Hobj'.
    destruct (modelCost_spec _ _ Hobj' Hcost) as (Hc & Hrange).
    assert (Hc0 : cost = objCost s0 (model s)).
    { rewrite Hc. unfold objCost. rewrite Hl, Hw. reflexivity. }
    assert (Hsaved : lastModel (saveModel s) = Some (model s)).
    { unfold saveModel. simpl. rewrite Hdst, copySlice_same_length by exact Hlen.
      reflexivity. }
    destruct (cost =? 0) eqn:Hz.
    + injection H as <- <-. apply Z.eqb_eq in Hz. exists (model s).
      split; [exact Hsaved|]. split; [congruence|lia].
    + inv_bind H as sc Htight. inv_bind H as [sd st'] Hsolve.
      pose proof (tighten_keeps _ _ _ _ _ Htight) as Hsv.
      assert (Hsc1 : objView sc = objView s) by exact (f_equal fst Hsv).
      assert (Hsc2 : lastModel sc = lastModel (saveModel s)) by exact (f_equal snd Hsv).
      destruct (Solve_keeps _ _ _ _ Hsolve) as (_ & Hdec & Hov & Hsat & Hun).
      apply (IH sd st' cost s' r); [congruence| |exact H].
      destruct st'; [congruence| |].
      * exists (model sd). split; [exact (Hsat eq_refl)|reflexivity].
      * exists (model s). split; [rewrite (Hun eq_refl); congruence|]. split; [exact Hc0|lia].
Qed.

(** The Boolean model that [Model] builds has the cost of the saved levels. *)
Lemma Model_cost (s s0 : Solver T) (lm : list decLevel) :
  lastModel s = Some lm -> (length lm <= nbVars s)%nat ->
  exists bs, Model s = Ret bs /\ boolCost s0 bs = objCost s0 lm.
Proof.
  intros Hlm Hlen. unfold Model. rewrite Hlm.
  rewrite Model_loop by (rewrite length_replicate; lia). simpl.
  eexists. split; [reflexivity|]. unfold boolCost, objCost.
  apply (f_equal sumW), filter_agree, Forall_forall. intros [l w] _. simpl.
  unfold litTrueInBools, litTrueIn.
  assert (Hsame : default false
                    ((((fun lvl => 0 <? lvl) <$> lm) ++
                      drop (length lm) (replicate (nbVars s) false)) !! Z.to_nat (Lit_Var l))
                  = (0 <? default 0 (lm !! Z.to_nat (Lit_Var l)))).
  { destruct (lm !! Z.to_nat (Lit_Var l)) as [a|] eqn:Ha.
    - rewrite lookup_app_l by (rewrite length_fmap; eapply lookup_lt_Some; exact Ha).
      rewrite list_lookup_fmap, Ha. reflexivity.
    - apply lookup_ge_None in Ha.
      rewrite lookup_app_r by (rewrite length_fmap; exact Ha).
      rewrite drop_replicate. simpl.
      destruct (replicate _ false !! _) as [b|] eqn:Hb; [|reflexivity].
      apply lookup_replicate in Hb as [-> _]. reflexivity. }
  rewrite Hsame. reflexivity.
Qed.

Lemma Solve_objective (fuel : nat) (s sA : Solver T) (stA : Status) :
  Solve E fuel s = Ret (sA, stA) ->
  minLits sA = minLits s /\ minWeights sA = minWeights s /\
  objLits sA = objLits s /\ effWeights sA = effWeights s.
Proof.
  intros H. destruct (Solve_keeps _ _ _ _ H) as (_ & _ & Hov & _).
  unfold objView in Hov. injection Hov as _ Hml Hmw _.
  unfold effWeights, objLits. rewrite Hml, Hmw. auto.
Qed.

(** The sort of the empty weight list over two or more assumptions calls
    [Less] out of range. *)
Lemma optimSetup_unweighted (s : Solver T) (ls : list Lit) :
  minLits s = Some ls -> minWeights s = None -> (2 <= length ls)%nat ->
  optimSetup s = Panic.
Proof.
  intros Hl Hw Hlen. unfold optimSetup, sortWLits, objWeights, objLits.
  rewrite Hl, Hw, length_fmap.
  destruct (length ls) as [|[|k]] eqn:Hk; [lia|lia|]. reflexivity.
Qed.

(** What [Minimize] returns when it returns: -1 exactly when the first
    [Solve] answers Unsat, and otherwise the cost of the model it saved
    last, which is the model that [Model] then gives. *)
Lemma Minimize_protocol (fuel : nat) (s sA : Solver T) (stA : Status) :
  boundedObjective s ->
  Solve E fuel s = Ret (sA, stA) ->
  (stA = Unsat -> Minimize E fuel s = Ret (sA, -1)) /\
  (stA = Sat -> minLits s = None -> Minimize E fuel s = Ret (sA, 0)) /\
  forall s' r,
    Minimize E fuel s = Ret (s', r) ->
    (r = -1 <-> stA = Unsat) /\
    (stA = Sat ->
     exists lm, lastModel s' = Some lm /\ r = objCost s lm /\
                ((length lm <= nbVars s')%nat ->
                 exists bs, Model s' = Ret bs /\ boolCost s bs = r)).
Proof.
  intros Hobj Hsolve.
  destruct (Solve_keeps _ _ _ _ Hsolve) as (_ & Hdec & _ & Hsat & _).
  destruct (Solve_objective _ _ _ _ Hsolve) as (Hml & Hmw & Hl & Hw).
  assert (HobjA : boundedObjective sA) by exact (boundedObjective_same sA s Hl Hw Hobj).
  assert (Hcost : forall lm, objCost sA lm = objCost s lm)
    by (intros lm; unfold objCost; rewrite Hl, Hw; reflexivity).
  unfold Minimize. rewrite Hsolve. cbn [bind].
  destruct stA; [congruence| |].
  - split; [discriminate|]. split.
    + intros _ Hnone. rewrite Hml, Hnone. reflexivity.
    + intros s' r H.
      assert (Hres : exists lm, lastModel s' = Some lm /\ r = objCost s lm /\ 0 <= r).
      { destruct (minLits sA) as [ls|] eqn:HlsA.
        - inv_bind H as [[s1 maxCost] weights] Hsetup.
          destruct (optimSetup_spec sA s1 maxCost weights HobjA Hsetup)
            as (_ & Hs1).
          destruct (minimizeLoop_result sA s1 maxCost weights HobjA Hsetup
                      fuel s1 Sat 0 s' r eq_refl) as (lm & Hlm & Hr & Hpos).
          + exists (replicate (length (model sA)) 0). rewrite Hs1. simpl.
            split; [reflexivity|]. apply length_replicate.
          + exact H.
          + exists lm. rewrite <- Hcost. auto.
        - injection H as <- <-. exists (model sA). split; [exact (Hsat eq_refl)|].
          unfold objCost, objLits. rewrite <- Hml. simpl. split; [reflexivity|lia]. }
      destruct Hres as (lm & Hlm & Hr & Hpos).
      split; [split; [lia|discriminate]|].
      intros _. exists lm. split; [exact Hlm|]. split; [exact Hr|].
      intros Hlen. rewrite Hr. exact (Model_cost s' s lm Hlm Hlen).
  - split; [reflexivity|]. split; [discriminate|].
    intros s' r H. injection H as <- <-. split; [tauto|discriminate].
Qed.

(** C6, at the objective without weights. [Minimize] computes [maxCost] and
    the cost of a model with weight 1 for every literal when [minWeights]
    is nil, but sorts the assumptions together with the copy of
    [minWeights], which is then empty: as soon as the problem has a model
    and the objective two literals or more, [Minimize] panics and returns no
    cost; so does [Optimal]. *)
Theorem Minimize_unweighted_panics (fuel : nat) (s sA : Solver T) (ls : list Lit)
    (Hsolve : Solve E fuel s = Ret (sA, Sat))
    (Hlits : minLits s = Some ls)
    (Hnil : minWeights s = None)
    (Hlen : (2 <= length ls)%nat) :
  Minimize E fuel s = Panic /\
  forall models, Optimal E fuel s models = Panic.
Proof.
  destruct (Solve_objective _ _ _ _ Hsolve) as (Hml & Hmw & _).
  rewrite Hlits in Hml. rewrite Hnil in Hmw.
  pose proof (optimSetup_unweighted sA ls Hml Hmw Hlen) as Hsetup.
  split; [|intros models].
  - unfold Minimize. rewrite Hsolve. cbn [bind]. rewrite Hml, Hsetup. reflexivity.
  - unfold Optimal. rewrite Hsolve. cbn [bind]. rewrite Hml, Hsetup. reflexivity.
Qed.

End Optimisation.

(** The theorem at the first model of [x1 or x2] with objective [x1 + x2]:
    its cost is 1, the model is copied into the saved model, and the
    constraint appended has threshold 2. *)
Lemma tightening_step_witness :
  optimSetup Ref.solvedOr = Ret (Ref.setupOr, 2, [1; 1]) /\
  modelCost (saveModel Ref.setupOr) = Ret 1 /\
  lastModel (saveModel Ref.setupOr) = Some (model Ref.setupOr) /\
  exists cl, isTightening Ref.solvedOr 1 cl /\ cardinality cl = 2.
Proof.
  assert (H1 : optimSetup Ref.solvedOr = Ret (Ref.setupOr, 2, [1; 1]))
    by (vm_compute; reflexivity).
  assert (H2 : modelCost (saveModel Ref.setupOr) = Ret 1) by (vm_compute; reflexivity).
  assert (Hobj : boundedObjective Ref.solvedOr).
  { split; vm_compute; [reflexivity | repeat constructor; discriminate | reflexivity]. }
  assert (Hw : minWeights Ref.solvedOr = Some [1; 1]) by (vm_compute; reflexivity).
  assert (Hlast : lastModel Ref.setupOr = Some [0; 0]) by (vm_compute; reflexivity).
  assert (Hdst : length [0; 0] = length (model Ref.setupOr)) by (vm_compute; reflexivity).
  split; [exact H1|]. split; [exact H2|].
  destruct (tightening_step Ref.refOps refOps_engineFrame 0 Ref.solvedOr Ref.setupOr
              Ref.setupOr 2 1 0 [1; 1] [1; 1] [0; 0] Hobj Hw H1 eq_refl Hlast Hdst H2)
    as (_ & _ & Hsaved & cl & Ht & _); [discriminate|].
  split; [exact Hsaved|].
  exists cl. split; [exact Ht|].
  destruct Ht as (_ & _ & _ & ->). vm_compute. reflexivity.
Defined.

(** The theorem at [x1 or x2] with the objective [x1 + x2] given without
    weights. *)
Lemma Minimize_unweighted_panics_witness :
  Minimize Ref.refOps 20 Ref.pbUnweighted = Panic /\
  Optimal Ref.refOps 20 Ref.pbUnweighted None = Panic.
Proof.
  assert (Hs : exists sA, Solve Ref.refOps 20 Ref.pbUnweighted = Ret (sA, Sat))
    by (eexists; vm_compute; reflexivity).
  destruct Hs as [sA Hs].
  destruct (Minimize_unweighted_panics Ref.refOps refOps_engineFrame 20 Ref.pbUnweighted
              sA [Ref.x1; Ref.x2] Hs eq_refl eq_refl) as [H1 H2]; [simpl; lia|].
  split; [exact H1|apply H2].
Defined.

(** C2, at one variable without constraints and the objective
    [x1 + not x1]: every model costs 1. [Optimal] emits a first model of
    cost 1; the constraint it appends then asks for both [not x1] and [x1],
    [AppendClause] hands both to [propagateUnits], which writes the model
    for each without noticing that the second contradicts the first; the
    next [Solve] answers Sat again and a second result of cost 1 is
    emitted. The costs emitted are 1 and 1; both units are on the trail at
    the end, and the model holds the second. *)
Theorem Optimal_costs_repeat :
  match Optimal Ref.refOps 20 Ref.pbBoth (Some []) with
  | Ret (s, Some sent, res) =>
      r_Weight <$> sent = [1; 1] /\ r_Weight res = 1 /\ status s = Unsat /\
      trail s = [Negation Ref.x1; Ref.x1] /\ model s = [1]
  | _ => False
  end.
Proof. vm_compute. repeat split. Qed.

(** C1, at one variable without constraints and the objective
    [not x1 + 2 x1]: the assignment [x1] false costs 1, [x1] true costs 2,
    and both are models. The first [Solve] finds [x1] false, of cost 1. The
    constraint appended then is [x1 + 2 not x1 >= 3], which asks for both
    [x1] and [not x1]; [AppendClause] hands both to [propagateUnits], the
    second unit overwrites the first, and the next [Solve] answers Sat
    with [x1] true, of cost 2. The constraint after that makes the solver
    Unsat. [Minimize] returns 2 and [Optimal] the result of cost 2, with
    [x1] true as the saved model: the model returned when the re-solve
    answers Unsat is the last one saved, and it is not optimal. *)
Theorem Minimize_not_optimal :
  heap Ref.pbWorse = [] /\
  (boolCost Ref.pbWorse [false] = 1) /\ (boolCost Ref.pbWorse [true] = 2) /\
  match Solve Ref.refOps 20 Ref.pbWorse with
  | Ret (s, st) => st = Sat /\ Model s = Ret [false]
  | _ => False
  end /\
  match Minimize Ref.refOps 20 Ref.pbWorse with
  | Ret (s, cost) =>
      cost = 2 /\ status s = Unsat /\ Model s = Ret [true] /\
      trail s = [Negation Ref.x1; Ref.x1]
  | _ => False
  end /\
  match Optimal Ref.refOps 20 Ref.pbWorse (Some []) with
  | Ret (s, Some sent, res) =>
      r_Weight <$> sent = [1; 2] /\ r_Weight res = 2 /\
      r_Model res = Some (<[1 := true]> ∅) /\ status s = Unsat /\
      Model s = Ret [true]
  | _ => False
  end.
Proof. vm_compute. repeat split. Qed.

(** ** Enumeration: [decisionLits] and the step after a model *)

Lemma wrap32_fits (z : Z) : - 2 ^ 31 <= z < 2 ^ 31 -> wrap32 z = z.
Proof.
  intros H. unfold wrap32. rewrite Z.mod_small by lia. lia.
Qed.

(** A literal is twice its variable, plus one when it is negative; the
    negation flips that bit. *)
Lemma Lit_split (d : Lit) :
  0 <= d -> d = 2 * Lit_Var d + (if IsPositive d then 0 else 1).
Proof.
  intros Hd. unfold Lit_Var, IsPositive.
  pose proof (Z.quot_rem' d 2) as Hqr.
  pose proof (Z.rem_bound_pos d 2 Hd ltac:(lia)) as Hb.
  destruct (Z.eqb_spec (d `rem` 2) 0); lia.
Qed.

Lemma lxor_even (i : Z) : 0 <= i -> Z.lxor (2 * i) 1 = 2 * i + 1.
Proof. intros Hi. destruct i as [|p|p]; [reflexivity|reflexivity|lia]. Qed.

Lemma lxor_odd (i : Z) : 0 <= i -> Z.lxor (2 * i + 1) 1 = 2 * i.
Proof. intros Hi. destruct i as [|p|p]; [reflexivity|reflexivity|lia]. Qed.

Lemma Lit_Var_nonneg (d : Lit) : 0 <= d -> 0 <= Lit_Var d.
Proof. intros Hd. unfold Lit_Var. apply Z.quot_pos; lia. Qed.

Lemma Negation_spec (d : Lit) :
  0 <= d ->
  Negation d = (if IsPositive d then d + 1 else d - 1) /\
  Lit_Var (Negation d) = Lit_Var d.
Proof.
  intros Hd. pose proof (Lit_split d Hd) as Hs.
  pose proof (Lit_Var_nonneg d Hd) as Hv.
  assert (Hneg : Negation d = if IsPositive d then d + 1 else d - 1).
  { unfold Negation. destruct (IsPositive d).
    - rewrite Hs at 1. rewrite Z.add_0_r, lxor_even by exact Hv. lia.
    - rewrite Hs at 1. rewrite lxor_odd by exact Hv. lia. }
  split; [exact Hneg|]. rewrite Hneg. unfold Lit_Var in *.
  destruct (IsPositive d); Z.to_euclidean_division_equations; lia.
Qed.

Lemma level_signed (d : Lit) (k : Z) :
  2 <= k < 2 ^ 62 ->
  abs (lvlToSignedLvl d k) = k /\
  (lvlToSignedLvl d k <? 0) = negb (IsPositive d).
Proof.
  intros Hk. unfold lvlToSignedLvl, abs, neg.
  destruct (IsPositive d); simpl.
  - destruct (Z.ltb_spec k 0); [lia|]. auto.
  - rewrite (wrap_fits (- k)) by lia.
    destruct (Z.ltb_spec (- k) 0); [|lia].
    rewrite wrap_fits by lia. split; [lia|reflexivity].
Qed.

Section Enumeration.
Context {T : EngineTypes} (E : EngineOps T).

(** The literal that [decisionStep] writes for a decision on variable [i]
    is the negation of the decision. *)
Lemma decision_negated (d : Lit) (i : nat) :
  0 <= d -> Lit_Var d = Z.of_nat i -> Z.of_nat i < 2 ^ 31 - 1 ->
  (if negb (IsPositive d)
   then IntToLit (wrap32 (Z.of_nat i + 1))
   else IntToLit (wrap32 (- Z.of_nat i - 1))) = Negation d.
Proof.
  intros Hd Hv Hi. destruct (Negation_spec d Hd) as [-> _].
  pose proof (Lit_split d Hd) as Hs. rewrite Hv in Hs.
  unfold IntToLit. destruct (IsPositive d); simpl.
  - rewrite wrap32_fits by lia.
    destruct (Z.ltb_spec (- Z.of_nat i - 1) 0); lia.
  - rewrite wrap32_fits by lia.
    destruct (Z.ltb_spec (Z.of_nat i + 1) 0); lia.
Qed.

Lemma decisionStep_spec (s : Solver T) (ds : list Lit) (k : nat)
    (r : option cid) (ls : list Lit) :
  decisionTrail s ds ->
  reason s !! k = Some r ->
  length ls = length ds ->
  (forall j d, ds !! j = Some d ->
     ls !! j = Some (if (Z.to_nat (Lit_Var d) <? k)%nat then Negation d else 0)) ->
  exists ls',
    decisionStep s ls (k, r) = Ret ls' /\
    length ls' = length ds /\
    forall j d, ds !! j = Some d ->
      ls' !! j = Some (if (Z.to_nat (Lit_Var d) <? S k)%nat then Negation d else 0).
Proof.
  intros [Hreason [Hsmall Hcount] _ Hdec Honly] Hr Hlen Hinv.
  assert (Hk : (k < length (model s))%nat).
  { apply lookup_lt_Some in Hr. lia. }
  destruct (lookup_lt_is_Some_2 _ _ Hk) as [a Ha].
  assert (Hidx : idx (model s) (Z.of_nat k) = Ret a).
  { apply idx_Ret. rewrite Nat2Z.id. split; [lia|exact Ha]. }
  (* a decision literal on another variable is left as it is *)
  assert (Hother : (forall j d, ds !! j = Some d -> Z.to_nat (Lit_Var d) <> k) ->
                   forall j d, ds !! j = Some d ->
                     ls !! j = Some (if (Z.to_nat (Lit_Var d) <? S k)%nat
                                     then Negation d else 0)).
  { intros Hne j d Hd. rewrite (Hinv j d Hd). specialize (Hne j d Hd).
    destruct (Nat.ltb_spec (Z.to_nat (Lit_Var d)) k),
             (Nat.ltb_spec (Z.to_nat (Lit_Var d)) (S k)); try reflexivity; lia. }
  unfold decisionStep. rewrite Hidx. cbn [bind].
  destruct r as [c|].
  - exists ls. split; [reflexivity|]. split; [exact Hlen|].
    apply Hother. intros j d Hd Heq. destruct (Hdec j d Hd) as (_ & Hrd & _).
    rewrite Heq, Hr in Hrd. discriminate.
  - destruct (1 <? abs a) eqn:Hlvl.
    + apply Z.ltb_lt in Hlvl.
      destruct (Honly k a Hr Ha Hlvl) as (j0 & d0 & Hd0 & Hv0).
      destruct (Hdec j0 d0 Hd0) as (Hpos0 & _ & Hm0).
      rewrite Hv0, Nat2Z.id, Ha in Hm0. injection Hm0 as Ha0.
      assert (Hj0 : (j0 < length ds)%nat) by (eapply lookup_lt_Some; exact Hd0).
      destruct (level_signed d0 (Z.of_nat j0 + 2)) as [Habs Hsign]; [lia|].
      rewrite <- Ha0 in Habs, Hsign.
      assert (Hslot : sub (abs a) 2 = Z.of_nat j0).
      { unfold sub. rewrite Habs, wrap_fits by lia. lia. }
      rewrite Hslot, Hsign.
      assert (Hwrite : (if negb (IsPositive d0)
                        then upd ls (Z.of_nat j0) (IntToLit (wrap32 (Z.of_nat k + 1)))
                        else upd ls (Z.of_nat j0) (IntToLit (wrap32 (- Z.of_nat k - 1))))
                       = Ret (<[j0 := Negation d0]> ls)).
      { rewrite <- (decision_negated d0 k Hpos0 Hv0) by lia.
        destruct (negb (IsPositive d0));
          rewrite upd_in_range by (rewrite ?Nat2Z.id; lia);
          rewrite Nat2Z.id; reflexivity. }
      rewrite Hwrite. eexists. split; [reflexivity|].
      split; [rewrite length_insert; exact Hlen|].
      intros j d Hd. destruct (decide (j = j0)) as [->|Hne].
      * rewrite Hd0 in Hd. injection Hd as <-.
        rewrite list_lookup_insert_eq by lia.
        rewrite Hv0, Nat2Z.id.
        destruct (Nat.ltb_spec k (S k)); [reflexivity|lia].
      * rewrite list_lookup_insert_ne by congruence.
        rewrite (Hinv j d Hd).
        assert (Hvar : Z.to_nat (Lit_Var d) <> k).
        { intros Heq. destruct (Hdec j d Hd) as (_ & _ & Hm).
          rewrite Heq, Ha in Hm. injection Hm as Hm.
          assert (Hj : (j < length ds)%nat) by (eapply lookup_lt_Some; exact Hd).
          destruct (level_signed d (Z.of_nat j + 2)) as [Habs' _]; [lia|].
          rewrite <- Hm in Habs'. lia. }
        destruct (Nat.ltb_spec (Z.to_nat (Lit_Var d)) k),
                 (Nat.ltb_spec (Z.to_nat (Lit_Var d)) (S k)); try reflexivity; lia.
    + apply Z.ltb_ge in Hlvl. exists ls. split; [reflexivity|]. split; [exact Hlen|].
      apply Hother. intros j d Hd Heq. destruct (Hdec j d Hd) as (_ & _ & Hm).
      rewrite Heq, Ha in Hm. injection Hm as Hm.
      assert (Hj : (j < length ds)%nat) by (eapply lookup_lt_Some; exact Hd).
      destruct (level_signed d (Z.of_nat j + 2)) as [Habs' _]; [lia|].
      rewrite <- Hm in Habs'. lia.
Qed.

Lemma decisionLits_loop (s : Solver T) (ds : list Lit) :
  decisionTrail s ds ->
  forall (rs : list (option cid)) (k : nat) (ls : list Lit),
    (forall i r, rs !! i = Some r -> reason s !! (k + i)%nat = Some r) ->
    length ls = length ds ->
    (forall j d, ds !! j = Some d ->
       ls !! j = Some (if (Z.to_nat (Lit_Var d) <? k)%nat then Negation d else 0)) ->
    exists ls',
      foldM (decisionStep s) ls (zip (seq k (length rs)) rs) = Ret ls' /\
      length ls' = length ds /\
      forall j d, ds !! j = Some d ->
        ls' !! j = Some (if (Z.to_nat (Lit_Var d) <? k + length rs)%nat
                         then Negation d else 0).
Proof.
  intros Hdt. induction rs as [|r rs IH]; intros k ls Hrs Hlen Hinv.
  - exists ls. simpl. rewrite Nat.add_0_r. auto.
  - assert (Hr : reason s !! k = Some r).
    { specialize (Hrs 0%nat r eq_refl). rewrite Nat.add_0_r in Hrs. exact Hrs. }
    destruct (decisionStep_spec s ds k r ls Hdt Hr Hlen Hinv) as (ls1 & Hstep & Hlen1 & Hinv1).
    destruct (IH (S k) ls1) as (ls' & Hfold & Hlen' & Hinv'); [|exact Hlen1|exact Hinv1|].
    { intros i r' Hi. specialize (Hrs (S i) r' Hi).
      replace (S k + i)%nat with (k + S i)%nat by lia. exact Hrs. }
    exists ls'. split; [|split; [exact Hlen'|]].
    + cbn [length seq zip_with foldM]. rewrite Hstep. exact Hfold.
    + intros j d Hd. rewrite (Hinv' j d Hd). cbn [length].
      replace (S k + length rs)%nat with (k + S (length rs))%nat by lia. reflexivity.
Qed.

(** [decisionLits] returns the negated decisions, by level. *)
Lemma decisionLits_spec (s : Solver T) (ds : list Lit) :
  decisionTrail s ds -> decisionLits s = Ret (Negation <$> ds).
Proof.
  intros Hdt. pose proof Hdt as [Hreason [Hsmall Hcount] Htop Hdec Honly].
  destruct Htop as (l & a & Hlast & Hv & Ha & Habs).
  unfold decisionLits.
  assert (Hidx : idx (trail s) (Z.of_nat (length (trail s)) - 1) = Ret l).
  { apply idx_Ret. rewrite last_lookup in Hlast.
    assert (length (trail s) <> 0)%nat.
    { intros H0. destruct (trail s); [discriminate|]. discriminate. }
    split; [lia|].
    replace (Z.to_nat (Z.of_nat (length (trail s)) - 1)) with (pred (length (trail s)))
      by lia.
    exact Hlast. }
  rewrite Hidx. cbn [bind].
  assert (Hidx' : idx (model s) (Lit_Var l) = Ret a) by (apply idx_Ret; auto).
  rewrite Hidx'. cbn [bind]. rewrite Habs.
  assert (Hsub : sub (Z.of_nat (length ds) + 1) 1 = Z.of_nat (length ds)).
  { unfold sub. rewrite wrap_fits by lia. lia. }
  rewrite Hsub. destruct (Z.ltb_spec (Z.of_nat (length ds)) 0); [lia|].
  rewrite Nat2Z.id.
  destruct (decisionLits_loop s ds Hdt (reason s) 0 (replicate (length ds) 0))
    as (ls' & Hfold & Hlen' & Hinv').
  - intros i r Hi. exact Hi.
  - apply length_replicate.
  - intros j d Hd. rewrite lookup_replicate_2 by (eapply lookup_lt_Some; exact Hd).
    reflexivity.
  - rewrite Hfold. f_equal. apply list_eq. intros j.
    rewrite list_lookup_fmap.
    destruct (ds !! j) as [d|] eqn:Hd.
    + rewrite (Hinv' j d Hd). simpl.
      destruct (Hdec j d Hd) as (Hpos & Hrd & _).
      apply lookup_lt_Some in Hrd.
      destruct (Nat.ltb_spec (Z.to_nat (Lit_Var d)) (length (reason s))); [reflexivity|lia].
    + simpl. apply lookup_ge_None. apply lookup_ge_None in Hd. lia.
Qed.

Lemma decisionTrail_status (x : Status) (s : Solver T) (ds : list Lit) :
  decisionTrail s ds -> decisionTrail (set_status x s) ds.
Proof. intros [H1 H2 H3 H4 H5]. split; assumption. Qed.

Lemma countLoop_stops (n : nat) (s : Solver T) (nb : Z) :
  status s = Unsat -> countLoop E n s nb = Ret (s, nb).
Proof. intros H. destruct n; simpl; rewrite H; reflexivity. Qed.

Lemma enumLoop_stops (n : nat) (s : Solver T) (nb : Z) (models : option (list (gmap Z bool))) :
  status s = Unsat -> enumLoop E n s nb models = Ret (s, nb, models).
Proof. intros H. destruct n; simpl; rewrite H; reflexivity. Qed.

(** The level of the decision in slot [j]. *)
Lemma decision_level (s : Solver T) (ds : list Lit) (j : nat) (d : Lit) :
  decisionTrail s ds -> ds !! j = Some d ->
  0 <= d /\
  idx (model s) (Lit_Var d) = Ret (lvlToSignedLvl d (Z.of_nat j + 2)) /\
  abs (lvlToSignedLvl d (Z.of_nat j + 2)) = Z.of_nat j + 2 /\
  levelOf (model s) d = Z.of_nat j + 2.
Proof.
  intros [_ [_ Hcount] _ Hdec _] Hd. destruct (Hdec j d Hd) as (Hpos & _ & Hm).
  assert (Hj : (j < length ds)%nat) by (eapply lookup_lt_Some; exact Hd).
  destruct (level_signed d (Z.of_nat j + 2)) as [Habs _]; [lia|].
  split; [exact Hpos|]. split; [|split; [exact Habs|]].
  - apply idx_Ret. split; [apply Lit_Var_nonneg; exact Hpos|exact Hm].
  - unfold levelOf. rewrite Hm. exact Habs.
Qed.

(** C4. The step that [Enumerate] and [CountModels] take after a model, in
    a state [s] whose decision literals are [ds] (by level), for an
    [appendClause] that leaves the model alone. Both loops count the model
    and call [blockModel]; [decisionLits] returns the negations of [ds], by
    level. Without decisions the status becomes Unsat and both loops
    return. With one decision its negation goes through the body of
    [propagateUnits]: undo to level 1, bind it at level 1, [unifyLiteral] at
    level 1. With two or more, the clause of the negations is put on the
    heap and handed to [appendClause]; the solver then undoes to level
    [length ds], the level of the decision before the last; the reason of
    the variable of the last decision becomes the new clause, and
    [propagateAndSearch] is entered with the negation of the last
    decision at that level. *)
Theorem blockModel_cases (n : nat) (s : Solver T) (ds : list Lit)
    (Hdt : decisionTrail s ds)
    (Happend : forall s0 c s1, appendClause E s0 c = Ret s1 -> model s1 = model s0) :
  decisionLits (set_status Indet s) = Ret (Negation <$> ds) /\
  (forall s0 nb,
      status s0 <> Unsat -> searchLoop E n s0 = Ret s -> status s = Sat ->
      countLoop E (S n) s0 nb =
        (s' <- blockModel E n s ; countLoop E n s' (add nb 1)) /\
      enumLoop E (S n) s0 nb None =
        (s' <- blockModel E n s ; enumLoop E n s' (add nb 1) None)) /\
  (forall s0 sf nb sent,
      status s0 <> Unsat -> searchLoop E n s0 = Ret sf -> status sf = Sat ->
      s = saveModel sf ->
      enumLoop E (S n) s0 nb (Some sent) =
        (mm <- ModelMap s ;
         s' <- blockModel E n s ;
         enumLoop E n s' (add nb 1) (Some (sent ++ [mm])))) /\
  match ds with
  | [] =>
      blockModel E n s = Ret (set_status Unsat s) /\
      forall m nb,
        countLoop E m (set_status Unsat s) nb = Ret (set_status Unsat s, nb) /\
        forall models,
          enumLoop E m (set_status Unsat s) nb models
          = Ret (set_status Unsat s, nb, models)
  | [d] =>
      blockModel E n s =
        (let s0 := set_status Indet s in
         let s0 := set_lbdStats (lbd_addLbd E (lbdStats s0) 1) s0 in
         let s0 := set_stats (incrUnitLearned (stats s0)) s0 in
         s1 <- cleanupBindings E 1 s0 ;
         m <- upd (model s1) (Lit_Var (Negation d)) (lvlToSignedLvl (Negation d) 1) ;
         '(s2, conflict) <- unifyLiteral E (set_model m s1) (Negation d) 1 ;
         match conflict with
         | Some _ => Ret (set_status Unsat s2)
         | None => rebuildOrderHeap E s2
         end)
  | _ =>
      exists dtop dsnd,
        last ds = Some dtop /\
        ds !! (length ds - 2)%nat = Some dsnd /\
        levelOf (model s) dsnd = Z.of_nat (length ds) /\
        forall s1,
          appendClause E (set_heap (heap s ++ [mkClause (Negation <$> ds)])
                                   (set_status Indet s))
                       (length (heap s)) = Ret s1 ->
          blockModel E n s =
            (s2 <- cleanupBindings E (Z.of_nat (length ds)) s1 ;
             rs <- upd (reason s2) (Lit_Var dtop) (Some (length (heap s))) ;
             '(s3, _) <- propagateAndSearch E n (set_reason rs s2) (Negation dtop)
                                            (Z.of_nat (length ds)) ;
             Ret s3)
  end.
Proof.
  pose proof (decisionLits_spec _ _ (decisionTrail_status Indet s ds Hdt)) as Hlits.
  split; [exact Hlits|]. split; [|split].
  - intros s0 nb Hs0 Hloop Hsat. split.
    + simpl. destruct (status s0); try congruence; rewrite Hloop; cbn [bind];
        rewrite Hsat; reflexivity.
    + simpl. destruct (status s0); try congruence; rewrite Hloop; cbn [bind];
        rewrite Hsat; reflexivity.
  - intros s0 sf nb sent Hs0 Hloop Hsat ->.
    simpl. destruct (status s0); try congruence; rewrite Hloop; cbn [bind];
      rewrite Hsat; cbn [bind]; destruct (ModelMap (saveModel sf)); reflexivity.
  - unfold blockModel. rewrite Hlits. cbn [bind].
    destruct ds as [|d1 [|d2 ds']].
    + split; [reflexivity|]. intros m nb. split.
      * apply countLoop_stops. reflexivity.
      * intros models. apply enumLoop_stops. reflexivity.
    + cbn [fmap list_fmap propagateUnits].
      destruct (cleanupBindings E 1 _) as [s1| | |]; try reflexivity. cbn [bind].
      destruct (upd (model s1) _ _) as [m| | |]; try reflexivity. cbn [bind].
      destruct (unifyLiteral E _ _ _) as [[s2 [c|]]| | |]; try reflexivity.
      cbn [bind]. destruct (rebuildOrderHeap E s2); reflexivity.
    + remember (d1 :: d2 :: ds') as ds eqn:Hds.
      assert (Hlen : (2 <= length ds)%nat) by (subst ds; simpl; lia).
      destruct (lookup_lt_is_Some_2 ds (length ds - 1)%nat ltac:(lia)) as [dtop Htop].
      destruct (lookup_lt_is_Some_2 ds (length ds - 2)%nat ltac:(lia)) as [dsnd Hsnd].
      exists dtop, dsnd.
      destruct (decision_level s ds _ dtop Hdt Htop) as (Hpos & Hidx & Habs & _).
      destruct (decision_level s ds _ dsnd Hdt Hsnd) as (_ & _ & _ & Hlvl).
      split; [rewrite last_lookup; replace (pred (length ds)) with (length ds - 1)%nat by lia;
              exact Htop|].
      split; [exact Hsnd|]. split; [rewrite Hlvl; lia|].
      intros s1 Hs1.
      assert (Hbranch : forall (A : Type) (a b c : A),
                 match Negation <$> ds with [] => a | [_] => b | _ => c end = c).
      { intros A a b c. subst ds. reflexivity. }
      rewrite Hbranch. unfold alloc. cbn [heap set_status]. rewrite Hs1. cbn [bind].
      assert (Hlast : idx (Negation <$> ds) (Z.of_nat (length (Negation <$> ds)) - 1)
                      = Ret (Negation dtop)).
      { apply idx_Ret. rewrite length_fmap. split; [lia|].
        replace (Z.to_nat (Z.of_nat (length ds) - 1)) with (length ds - 1)%nat by lia.
        rewrite list_lookup_fmap, Htop. reflexivity. }
      rewrite Hlast. cbn [bind].
      destruct (Negation_spec dtop Hpos) as [_ Hvar]. rewrite Hvar.
      rewrite (Happend _ _ _ Hs1). cbn [model set_heap set_status].
      rewrite Hidx. cbn [bind]. rewrite Habs.
      pose proof Hdt as [_ [_ Hcount] _ _ _].
      assert (Hsub : sub (Z.of_nat (length ds - 1) + 2) 1 = Z.of_nat (length ds)).
      { unfold sub. rewrite wrap_fits by lia. lia. }
      rewrite Hsub. reflexivity.
Qed.

End Enumeration.

Lemma refOps_append_model (s0 : Solver Ref.refT) (c : cid) (s1 : Solver Ref.refT) :
  appendClause Ref.refOps s0 c = Ret s1 -> model s1 = model s0.
Proof. intros H. injection H as <-. reflexivity. Qed.

(** The theorem at the first model of [x1 or x2 or x3]: [not x2] was decided
    at level 2 and [not x3] at level 3, which forced [x1]; the blocking
    clause is [x2 or x3] and the solver goes back to level 2. *)
Lemma blockModel_cases_witness :
  decisionTrail Ref.foundOr3 [Negation Ref.x2; Negation Ref.x3] /\
  decisionLits (set_status Indet Ref.foundOr3) = Ret [Ref.x2; Ref.x3] /\
  exists dsnd,
    levelOf (model Ref.foundOr3) dsnd = 2 /\
    match blockModel Ref.refOps 40 Ref.foundOr3 with
    | Ret s' => reason s' !! 2%nat = Some (Some 1%nat) /\ model s' !! 2%nat = Some 2
    | _ => False
    end.
Proof.
  assert (Hdt : decisionTrail Ref.foundOr3 [Negation Ref.x2; Negation Ref.x3]).
  { split.
    - vm_compute. lia.
    - split; reflexivity.
    - exists Ref.x1, 3. repeat split; vm_compute; congruence.
    - intros j d Hd. destruct j as [|[|j]]; simpl in Hd; try discriminate;
        injection Hd as <-; repeat split; vm_compute; congruence.
    - intros i a Hr Hm Hlvl. destruct i as [|[|[|i]]]; vm_compute in Hr; try discriminate.
      + exists 0%nat, (Negation Ref.x2). split; reflexivity.
      + exists 1%nat, (Negation Ref.x3). split; reflexivity. }
  split; [exact Hdt|].
  destruct (blockModel_cases Ref.refOps 40 Ref.foundOr3 _ Hdt refOps_append_model)
    as (Hlits & _ & _ & dtop & dsnd & Hlast & Hsnd & Hlvl & Hstep).
  split; [exact Hlits|].
  exists dsnd. split; [exact Hlvl|].
  vm_compute. split; reflexivity.
Defined.

(** ** [Model] and [ModelMap] read the same saved model *)

Lemma Model_loop_panics (lm : list decLevel) :
  forall (k : nat) (res : list bool),
    (k <= length res)%nat -> (length res < k + length lm)%nat ->
    foldM (fun res '(i, lvl) => upd res (Z.of_nat i) (0 <? lvl)) res
          (zip (seq k (length lm)) lm) = Panic.
Proof.
  induction lm as [|a lm IH]; intros k res Hk Hlen; simpl in *; [lia|].
  unfold upd at 1. destruct (Z.ltb_spec (Z.of_nat k) 0); [reflexivity|].
  rewrite Nat2Z.id. destruct (Nat.ltb_spec k (length res)); [|reflexivity].
  simpl. apply IH; rewrite length_insert; lia.
Qed.

Lemma ModelMap_loop_dom (lm : list decLevel) (k : Z) :
  is_Some (foldl (fun (res : gmap Z bool) '(i, lvl) => <[Z.of_nat i + 1 := (0 <? lvl)]> res)
                 ∅ (zip (seq 0 (length lm)) lm) !! k) ->
  1 <= k <= Z.of_nat (length lm).
Proof.
  induction lm as [|b lm IH] using rev_ind; intros Hk.
  - simpl in Hk. rewrite lookup_empty in Hk. destruct Hk as [? Hk]. discriminate Hk.
  - rewrite length_app, seq_app in Hk. simpl in Hk.
    rewrite zip_with_app in Hk by (rewrite length_seq; reflexivity).
    rewrite foldl_app in Hk. simpl in Hk. rewrite length_app. simpl.
    destruct (decide (Z.of_nat (length lm) + 1 = k)) as [<-|Hne]; [lia|].
    rewrite lookup_insert_ne in Hk by exact Hne. specialize (IH Hk). lia.
Qed.

Section ModelViews.
Context {T : EngineTypes}.

(** X12. [Model] and [ModelMap] give every variable of the saved model the same
    value, true for a positive level; [ModelMap] has the keys 1 to the
    length of the saved model and [Model] has [nbVars] entries, false
    beyond the saved model. On a saved model longer than [nbVars],
    [ModelMap] still returns and [Model] panics. *)
Theorem Model_ModelMap_agree (s : Solver T) (lm : list decLevel)
    (Hsaved : lastModel s = Some lm) :
  (exists mm, ModelMap s = Ret mm /\
              (forall i a, lm !! i = Some a -> mm !! (Z.of_nat i + 1) = Some (0 <? a)) /\
              (forall k, is_Some (mm !! k) -> 1 <= k <= Z.of_nat (length lm))) /\
  ((length lm <= nbVars s)%nat ->
   Model s = Ret (((fun lvl => 0 <? lvl) <$> lm)
                  ++ replicate (nbVars s - length lm) false)) /\
  ((nbVars s < length lm)%nat -> Model s = Panic).
Proof.
  unfold Model, ModelMap. rewrite Hsaved. split; [|split].
  - eexists. split; [reflexivity|]. split.
    + intros i a Hi. exact (ModelMap_loop lm i a Hi).
    + intros k Hk. exact (ModelMap_loop_dom lm k Hk).
  - intros Hlen. rewrite Model_loop by (rewrite length_replicate; lia).
    simpl. rewrite drop_replicate. reflexivity.
  - intros Hlen. apply Model_loop_panics; rewrite length_replicate; lia.
Qed.

End ModelViews.

(** The theorem on the solver that [Solve] leaves on [x1 or x2]. *)
Lemma Model_ModelMap_agree_witness :
  lastModel Ref.solvedOr = Some [-2; 2] /\
  ModelMap Ref.solvedOr = Ret (<[2 := true]> (<[1 := false]> ∅)) /\
  Model Ref.solvedOr = Ret [false; true].
Proof.
  assert (Hs : lastModel Ref.solvedOr = Some [-2; 2]) by reflexivity.
  split; [exact Hs|].
  destruct (Model_ModelMap_agree Ref.solvedOr [-2; 2] Hs) as [_ [Hm _]].
  split; [reflexivity|]. apply Hm. simpl. lia.
Defined.

(** ** [Enumerate] and [CountModels] *)

Lemma add_wrap_1 (x : Z) : add (wrap x) 1 = wrap (x + 1).
Proof.
  unfold add, wrap.
  replace ((x + 2 ^ 63) `mod` 2 ^ 64 - 2 ^ 63 + 1 + 2 ^ 63)
    with ((x + 2 ^ 63) `mod` 2 ^ 64 + 1) by lia.
  rewrite Zplus_mod_idemp_l. f_equal. f_equal. lia.
Qed.

Section Enumerating.
Context {T : EngineTypes} (E : EngineOps T).

Lemma enumLoop_nil (fuel : nat) :
  forall (s : Solver T) (nb : Z),
    enumLoop E fuel s nb None =
    ('(s', nb') <- countLoop E fuel s nb ; Ret (s', nb', None)).
Proof.
  induction fuel as [|n IH]; intros s nb.
  - simpl. destruct (status s); reflexivity.
  - simpl. destruct (status s); try reflexivity.
    + destruct (searchLoop E n s) as [s1| | |]; try reflexivity. simpl.
      destruct (status s1); try apply IH.
      simpl. destruct (blockModel E n s1) as [s2| | |]; try reflexivity.
      simpl. apply IH.
    + destruct (searchLoop E n s) as [s1| | |]; try reflexivity. simpl.
      destruct (status s1); try apply IH.
      simpl. destruct (blockModel E n s1) as [s2| | |]; try reflexivity.
      simpl. apply IH.
Qed.

(** X13. Without a channel, [Enumerate] is [CountModels] on the solver with a
    fresh saved model: the same outcome, the same final solver, the same
    count. *)
Theorem Enumerate_nil_is_CountModels (fuel : nat) (s : Solver T) :
  Enumerate E fuel s None =
  ('(s', nb) <- CountModels E fuel
                  (set_lastModel (Some (replicate (length (model s)) 0)) s) ;
   Ret (s', nb, None)).
Proof.
  unfold Enumerate, CountModels.
  destruct (chooseLit E fuel _) as [[s1 l]| | |]; try reflexivity.
  simpl. apply enumLoop_nil.
Qed.

Lemma enumLoop_counts (fuel : nat) :
  forall (s : Solver T) (nb x : Z) (sent : list (gmap Z bool)) s' nb' ms,
    nb = wrap x ->
    enumLoop E fuel s nb (Some sent) = Ret (s', nb', ms) ->
    status s' = Unsat /\
    exists new, ms = Some (sent ++ new) /\
                nb' = wrap (x + Z.of_nat (length new)) /\
                enumRun E s new s'.
Proof.
  induction fuel as [|n IH]; intros s nb x sent s' nb' ms Hnb H.
  - simpl in H. destruct (status s) eqn:Hst; try discriminate H.
    injection H as <- <- <-. split; [exact Hst|]. exists [].
    rewrite app_nil_r, Z.add_0_r. split; [reflexivity|].
    split; [exact Hnb|constructor; exact Hst].
  - simpl in H.
    assert (Hgo : status s <> Unsat ->
                  (s1 <- searchLoop E n s ;
                   match status s1 with
                   | Sat =>
                       '(s2, models) <-
                          (mm <- ModelMap (saveModel s1) ;
                           models <- send (Some sent) mm ;
                           Ret (saveModel s1, models)) ;
                       s3 <- blockModel E n s2 ;
                       enumLoop E n s3 (add nb 1) models
                   | _ => enumLoop E n s1 nb (Some sent)
                   end) = Ret (s', nb', ms) ->
                  status s' = Unsat /\
                  exists new, ms = Some (sent ++ new) /\
                              nb' = wrap (x + Z.of_nat (length new)) /\
                              enumRun E s new s').
    { clear H. intros Hgoing H. inv_bind H as s1 Hs1.
      assert (Hother : status s1 <> Sat ->
                       enumLoop E n s1 nb (Some sent) = Ret (s', nb', ms) ->
                       status s' = Unsat /\
                       exists new, ms = Some (sent ++ new) /\
                                   nb' = wrap (x + Z.of_nat (length new)) /\
                                   enumRun E s new s').
      { intros Hns H'. destruct (IH _ _ _ _ _ _ _ Hnb H') as (Hu & new & Hms & Hnb' & Hr).
        split; [exact Hu|]. exists new. split; [exact Hms|]. split; [exact Hnb'|].
        exact (enumRun_again E n s s1 new s' Hgoing Hs1 Hns Hr). }
      destruct (status s1) eqn:Hst1;
        [apply Hother; [discriminate|exact H] | | apply Hother; [discriminate|exact H]].
      inv_bind H as [s2 models] Hs2. inv_bind Hs2 as mm Hmm.
      simpl in Hs2. injection Hs2 as <- <-.
      inv_bind H as s3 Hs3.
      assert (Hnb1 : add nb 1 = wrap (x + 1)) by (rewrite Hnb; apply add_wrap_1).
      destruct (IH _ _ _ _ _ _ _ Hnb1 H) as (Hu & new & -> & -> & Hr).
      split; [exact Hu|]. exists (mm :: new).
      split; [rewrite <- app_assoc; reflexivity|].
      split; [f_equal; simpl length; lia|].
      exact (enumRun_model E n s s1 s3 mm new s' Hgoing Hs1 Hst1 Hmm Hs3 Hr). }
    destruct (status s) eqn:Hst;
      [apply Hgo; [discriminate|exact H] | apply Hgo; [discriminate|exact H] |].
    injection H as <- <- <-. split; [exact Hst|]. exists [].
    rewrite app_nil_r, Z.add_0_r. split; [reflexivity|].
    split; [exact Hnb|constructor; exact Hst].
Qed.


(** X15. On a solver with nothing to decide and nothing on its trail (a problem
    without variables), the search answers Sat at once and the lines that
    block the model read [s.trail[-1]]: [CountModels] and [Enumerate]
    panic. *)
Theorem CountModels_nothing_to_decide (n : nat) (s : Solver T)
    (models : option (list (gmap Z bool)))
    (Hqueue : q_empty E (varQueue s) = true)
    (Hstatus : status s = Indet)
    (Htrail : trail s = []) :
  CountModels E (S (S n)) s = Panic /\
  Enumerate E (S (S n)) s models = Panic.
Proof.
  assert (Hchoose : forall k (s0 : Solver T),
             q_empty E (varQueue s0) = true ->
             chooseLit E k s0 = Ret (set_varQueue (varQueue s0) s0, -1)).
  { intros k s0 Hq. unfold chooseLit.
    assert (Hv : chooseVar E k (model s0) (varQueue s0) = Ret (-1, varQueue s0))
      by (destruct k; simpl; rewrite Hq; reflexivity).
    rewrite Hv. reflexivity. }
  assert (Hsearch : forall (s0 : Solver T),
             q_empty E (varQueue s0) = true -> status s0 = Indet -> trail s0 = [] ->
             exists s1, searchLoop E (S n) s0 = Ret s1 /\ status s1 = Sat /\
                        trail s1 = [] /\ lastModel s1 = lastModel s0).
  { intros s0 Hq Hst Htr. simpl. rewrite Hst. unfold search.
    rewrite Hchoose by exact Hq. simpl.
    assert (Hp : forall x : Solver T, propagateAndSearch E n x (-1) 2 = Ret (x, Sat))
      by (intros x; destruct n; reflexivity).
    rewrite Hp. simpl.
    eexists. split; [destruct n; reflexivity|]. simpl. auto. }
  assert (Hblock : forall (s1 : Solver T), trail s1 = [] -> blockModel E (S n) s1 = Panic).
  { intros s1 Htr. unfold blockModel, decisionLits. simpl. rewrite Htr. reflexivity. }
  split.
  - unfold CountModels. rewrite Hchoose by exact Hqueue.
    cbn -[searchLoop blockModel]. rewrite Hstatus.
    destruct (Hsearch (set_varQueue (varQueue s) s) Hqueue Hstatus Htrail)
      as (s1 & -> & Hst1 & Htr1 & _).
    cbn -[searchLoop blockModel]. rewrite Hst1. rewrite (Hblock s1 Htr1). reflexivity.
  - unfold Enumerate. rewrite Hchoose by exact Hqueue.
    cbn -[searchLoop blockModel ModelMap saveModel]. rewrite Hstatus.
    match goal with |- context [searchLoop E (S n) ?s0] =>
      destruct (Hsearch s0 Hqueue Hstatus Htrail) as (s1 & -> & Hst1 & Htr1 & Hlm1) end.
    cbn -[searchLoop blockModel ModelMap saveModel]. rewrite Hst1. simpl in Hlm1.
    destruct models as [sent|].
    + unfold ModelMap, saveModel. cbn -[blockModel]. rewrite Hlm1.
      cbn -[blockModel]. rewrite Hblock; [reflexivity|]. exact Htr1.
    + cbn -[blockModel]. rewrite (Hblock s1 Htr1). reflexivity.
Qed.

End Enumerating.

(** The theorem on the solver of the problem without variables. *)
Lemma CountModels_nothing_to_decide_witness :
  CountModels Ref.refOps 2 (Ref.mkSolver 0 [] None None) = Panic /\
  Enumerate Ref.refOps 2 (Ref.mkSolver 0 [] None None) (Some []) = Panic.
Proof.
  apply (CountModels_nothing_to_decide Ref.refOps 0 (Ref.mkSolver 0 [] None None) (Some []));
    reflexivity.
Defined.


(** ** [Optimal]: what it sends, and [Minimize] beside it *)

Section Optimum.
Context {T : EngineTypes} (E : EngineOps T).

Lemma Solve_status (fuel : nat) (s s' : Solver T) (st : Status) :
  Solve E fuel s = Ret (s', st) -> st = status s' /\ st <> Indet.
Proof.
  unfold Solve. intros H.
  destruct (status s) eqn:Hst.
  - inv_bind H as s1 Hs1. apply solveLoop_decides in Hs1.
    injection H as <- <-. split; [reflexivity|].
    destruct (status s1) eqn:Hst1; simpl; rewrite ?Hst1; congruence.
  - inv_bind H as s1 Hs1. apply solveLoop_decides in Hs1.
    injection H as <- <-. split; [reflexivity|].
    destruct (status s1) eqn:Hst1; simpl; rewrite ?Hst1; congruence.
  - injection H as <- <-. rewrite Hst. split; [reflexivity|discriminate].
Qed.

Lemma optimalLoop_sends (fuel : nat) :
  forall maxCost weights (s : Solver T) st sent res0 c0 s' ms res,
    optimalLoop E fuel maxCost weights s st (Some sent) res0 = Ret (s', ms, res) ->
    exists new,
      ms = Some (sent ++ new) /\
      Forall (fun r => r_Status r = Sat /\ is_Some (r_Model r)) new /\
      res = default res0 (last new) /\
      (st = Sat -> new <> []) /\
      minimizeLoop E fuel maxCost weights s st c0
      = Ret (s', match last new with Some r => r_Weight r | None => c0 end).
Proof.
  induction fuel as [|n IH]; intros maxCost weights s st sent res0 c0 s' ms res H.
  - destruct st; try discriminate H; injection H as <- <- <-;
      exists []; rewrite app_nil_r; repeat split; try constructor; discriminate.
  - destruct st;
      try (injection H as <- <- <-;
           exists []; rewrite app_nil_r; repeat split; try constructor; discriminate).
    simpl in H. inv_bind H as cost Hcost. inv_bind H as mm Hmm.
    simpl in H. simpl. rewrite Hcost. simpl.
    destruct (cost =? 0) eqn:Hz.
    + injection H as <- <- <-. apply Z.eqb_eq in Hz. subst cost.
      exists [{| r_Status := Sat; r_Model := Some mm; r_Weight := 0 |}].
      split; [reflexivity|]. split; [constructor; [split; [reflexivity|eauto]|constructor]|].
      split; [reflexivity|]. split; [discriminate|reflexivity].
    + inv_bind H as s1 Hs1. inv_bind H as [s2 st2] Hs2.
      rewrite Hs1. simpl. rewrite Hs2. simpl.
      destruct (IH _ _ _ _ _ _ cost _ _ _ H) as (new & -> & Hall & -> & Hne & Hmin).
      exists ({| r_Status := Sat; r_Model := Some mm; r_Weight := cost |} :: new).
      split; [rewrite <- app_assoc; reflexivity|].
      split; [constructor; [split; [reflexivity|eauto]|exact Hall]|].
      split; [rewrite last_cons; destruct (last new); reflexivity|].
      split; [discriminate|].
      rewrite Hmin, last_cons. destruct (last new); reflexivity.
Qed.

Lemma Optimal_run (fuel : nat) (s s' : Solver T) (sent : list Result)
    (ms : option (list Result)) (res : Result) :
  Optimal E fuel s (Some sent) = Ret (s', ms, res) ->
  Minimize E fuel s
  = Ret (s', match r_Status res with Unsat => -1 | _ => r_Weight res end) /\
  exists new,
    ms = Some (sent ++ new) /\
    Forall (fun r => r_Status r = Sat /\ is_Some (r_Model r)) new /\
    (r_Status res = Unsat /\ new = [] /\ status s' = Unsat \/
     r_Status res = Sat /\ is_Some (r_Model res) /\
     (last new = Some res \/ new = [] /\ minLits s' = None /\ r_Weight res = 0)).
Proof.
  unfold Optimal, Minimize. intros H. inv_bind H as [s1 st] Hs1. rewrite Hs1. simpl.
  destruct (Solve_status _ _ _ _ Hs1) as [Hst Hni].
  assert (Hsaved := Solve_Sat_saves E fuel s s1).
  destruct st; [contradiction| |].
  - specialize (Hsaved Hs1). destruct (minLits s1) eqn:Hml.
    + inv_bind H as [[s2 maxCost] weights] Hs2. rewrite Hs2. simpl.
      destruct (optimalLoop_sends _ _ _ _ _ _ _ 0 _ _ _ H)
        as (new & -> & Hall & -> & Hne & Hmin).
      specialize (Hne eq_refl). rewrite Hmin.
      destruct (last new) as [r|] eqn:Hlast;
        [|apply last_None in Hlast; contradiction].
      simpl. assert (Hr : r_Status r = Sat /\ is_Some (r_Model r)).
      { rewrite Forall_forall in Hall. apply Hall.
        apply last_Some in Hlast as [l' ->]. apply elem_of_app. right. left. }
      destruct Hr as [Hr1 Hr2]. rewrite Hr1. split; [reflexivity|].
      exists new. split; [reflexivity|]. split; [exact Hall|]. right. auto.
    + inv_bind H as mm Hmm. injection H as <- <- <-. simpl.
      rewrite copySlice_same_length by (rewrite length_replicate; reflexivity).
      assert (Hs : set_lastModel (Some (model s1)) s1 = s1)
        by (destruct s1; simpl in *; rewrite Hsaved; reflexivity).
      rewrite Hs. split; [reflexivity|]. exists [].
      rewrite app_nil_r. split; [reflexivity|]. split; [constructor|].
      right. split; [reflexivity|]. split; [eauto|]. right. auto.
  - injection H as <- <- <-. simpl. split; [reflexivity|]. exists [].
    rewrite app_nil_r. split; [reflexivity|]. split; [constructor|]. left. auto.
Qed.

(** X16. Whenever [Optimal] returns, [Minimize] on the same solver returns too,
    leaves the same solver and returns the weight of the result of
    [Optimal], or -1 when that result is Unsat. *)
Theorem Optimal_Minimize_agree (fuel : nat) (s s' : Solver T) (sent : list Result)
    (ms : option (list Result)) (res : Result)
    (Hrun : Optimal E fuel s (Some sent) = Ret (s', ms, res)) :
  Minimize E fuel s
  = Ret (s', match r_Status res with Unsat => -1 | _ => r_Weight res end).
Proof. exact (proj1 (Optimal_run fuel s s' sent ms res Hrun)). Qed.

(** X17. What [Optimal] writes on the channel: results of status Sat, each with
    a model. The result it returns is Unsat, with nothing sent and the
    solver Unsat, or it is a Sat result with a model: the last one sent, or,
    for a problem without objective, a result of weight 0 that was not
    sent. *)
Theorem Optimal_returns_last_sent (fuel : nat) (s s' : Solver T) (sent : list Result)
    (ms : option (list Result)) (res : Result)
    (Hrun : Optimal E fuel s (Some sent) = Ret (s', ms, res)) :
  exists new,
    ms = Some (sent ++ new) /\
    Forall (fun r => r_Status r = Sat /\ is_Some (r_Model r)) new /\
    (r_Status res = Unsat /\ new = [] /\ status s' = Unsat \/
     r_Status res = Sat /\ is_Some (r_Model res) /\
     (last new = Some res \/ new = [] /\ minLits s' = None /\ r_Weight res = 0)).
Proof. exact (proj2 (Optimal_run fuel s s' sent ms res Hrun)). Qed.

(** X18. With the nil channel, [Optimal] does not return on a satisfiable
    problem with an objective: the first result is sent on the channel
    without a test, and the send blocks. *)
Theorem Optimal_nil_channel_blocks (fuel : nat) (s s1 : Solver T) (ls : list Lit)
    (Hsat : Solve E fuel s = Ret (s1, Sat))
    (Hobj : minLits s1 = Some ls) :
  (forall r, Optimal E fuel s None <> Ret r) /\
  (forall s2 maxCost weights cost,
      optimSetup s1 = Ret (s2, maxCost, weights) ->
      modelCost (saveModel s2) = Ret cost ->
      fuel <> O ->
      Optimal E fuel s None = Blocked).
Proof.
  unfold Optimal. rewrite Hsat. simpl. rewrite Hobj.
  assert (Hsetup : forall s2 maxCost weights,
             optimSetup s1 = Ret (s2, maxCost, weights) ->
             exists m, lastModel s2 = Some m).
  { intros s2 maxCost weights H. unfold optimSetup in H.
    inv_bind H as [asum ws] Hsort. injection H as <- _ _. simpl. eauto. }
  split.
  - intros r H. inv_bind H as [[s2 maxCost] weights] Hs2.
    destruct fuel as [|n]; [discriminate H|]. simpl in H.
    inv_bind H as cost Hcost. inv_bind H as mm Hmm. discriminate H.
  - intros s2 maxCost weights cost Hs2 Hcost Hfuel. rewrite Hs2. simpl.
    destruct fuel as [|n]; [contradiction|]. simpl. rewrite Hcost. simpl.
    destruct (Hsetup _ _ _ Hs2) as [m Hm].
    unfold ModelMap, saveModel. simpl. rewrite Hm. reflexivity.
Qed.

End Optimum.

(** The theorems on [x1 or x2], minimise [x1 + x2]: one model of cost 1 is
    found, sent and returned, and the tightened problem is Unsat. *)
Lemma Optimal_Minimize_agree_witness :
  exists s' ms res,
    Optimal Ref.refOps 50 Ref.pbOr (Some []) = Ret (s', ms, res) /\
    r_Status res = Sat /\ r_Weight res = 1 /\
    Minimize Ref.refOps 50 Ref.pbOr = Ret (s', 1).
Proof.
  destruct (Optimal Ref.refOps 50 Ref.pbOr (Some [])) as [[[s' ms] res]| | |] eqn:Hrun;
    try (vm_compute in Hrun; discriminate Hrun).
  exists s', ms, res. split; [reflexivity|].
  assert (Hst : r_Status res = Sat)
    by (vm_compute in Hrun; injection Hrun as _ _ <-; reflexivity).
  assert (Hw : r_Weight res = 1)
    by (vm_compute in Hrun; injection Hrun as _ _ <-; reflexivity).
  split; [exact Hst|]. split; [exact Hw|].
  rewrite (Optimal_Minimize_agree Ref.refOps 50 Ref.pbOr s' [] ms res Hrun).
  rewrite Hst, Hw. reflexivity.
Defined.

Lemma Optimal_returns_last_sent_witness :
  exists s' ms res,
    Optimal Ref.refOps 50 Ref.pbOr (Some []) = Ret (s', ms, res) /\
    exists new, ms = Some new /\ Forall (fun r => r_Status r = Sat) new.
Proof.
  destruct (Optimal Ref.refOps 50 Ref.pbOr (Some [])) as [[[s' ms] res]| | |] eqn:Hrun;
    try (vm_compute in Hrun; discriminate Hrun).
  exists s', ms, res. split; [reflexivity|].
  destruct (Optimal_returns_last_sent Ref.refOps 50 Ref.pbOr s' [] ms res Hrun)
    as (new & Hms & Hall & _).
  exists new. split; [exact Hms|].
  eapply Forall_impl; [exact Hall|]. intros r [Hr _]. exact Hr.
Defined.

Lemma Optimal_nil_channel_blocks_witness :
  Solve Ref.refOps 20 Ref.pbOr = Ret (Ref.solvedOr, Sat) /\
  minLits Ref.solvedOr = Some [Ref.x1; Ref.x2] /\
  Optimal Ref.refOps 20 Ref.pbOr None = Blocked.
Proof.
  assert (Hsat : Solve Ref.refOps 20 Ref.pbOr = Ret (Ref.solvedOr, Sat))
    by (vm_compute; reflexivity).
  assert (Hobj : minLits Ref.solvedOr = Some [Ref.x1; Ref.x2])
    by (vm_compute; reflexivity).
  split; [exact Hsat|]. split; [exact Hobj|].
  destruct (Optimal_nil_channel_blocks Ref.refOps 20 Ref.pbOr Ref.solvedOr _ Hsat Hobj)
    as [_ Hb].
  destruct (optimSetup Ref.solvedOr) as [[[s2 mc] w]| | |] eqn:Hs2;
    try (vm_compute in Hs2; discriminate Hs2).
  destruct (modelCost (saveModel s2)) as [cost| | |] eqn:Hc.
  - exact (Hb s2 mc w cost eq_refl Hc ltac:(discriminate)).
  - exfalso. vm_compute in Hs2. injection Hs2 as <- _ _. vm_compute in Hc. discriminate Hc.
  - exfalso. vm_compute in Hs2. injection Hs2 as <- _ _. vm_compute in Hc. discriminate Hc.
  - exfalso. vm_compute in Hs2. injection Hs2 as <- _ _. vm_compute in Hc. discriminate Hc.
Defined.

(** ** Decisions: [chooseLit], [resetOptimPolarity], [litStatus] *)

Lemma foldM_app {A B : Type} (f : A -> B -> result A) (a : A) (l k : list B) :
  foldM f a (l ++ k) = (a' <- foldM f a l ; foldM f a' k).
Proof.
  revert a. induction l as [|b l IH]; intros a; simpl; [reflexivity|].
  destruct (f a b) as [a'| | |]; simpl; [apply IH|reflexivity..].
Qed.

Lemma SignedLit_Negation (l : Lit) :
  0 <= l -> SignedLit (Lit_Var l) (IsPositive l) = Negation l.
Proof.
  intros Hl. destruct (Negation_spec l Hl) as [Hn _]. rewrite Hn.
  pose proof (Lit_split l Hl) as Hs. unfold SignedLit.
  destruct (IsPositive l); lia.
Qed.

Lemma IsPositive_Negation (l : Lit) :
  0 <= l -> IsPositive (Negation l) = negb (IsPositive l).
Proof.
  intros Hl. destruct (Negation_spec l Hl) as [Hn _]. rewrite Hn.
  pose proof (Lit_split l Hl) as Hs.
  destruct (IsPositive l) eqn:Hp; unfold IsPositive in *; unfold Lit_Var in Hs.
  - apply Z.eqb_eq in Hp. simpl. apply Z.eqb_neq.
    Z.to_euclidean_division_equations; lia.
  - apply Z.eqb_neq in Hp. simpl. apply Z.eqb_eq.
    Z.to_euclidean_division_equations; lia.
Qed.

(** The loop of [resetOptimPolarity]: every literal is in range, the
    polarity of the variable of a literal that is alone on its variable is
    the opposite of the literal's sign, and the other slots are kept. *)
Lemma resetPolarity_loop (ls : list Lit) :
  forall (pol pol' : list bool),
    foldM (fun pol lit => upd pol (Lit_Var lit) (negb (IsPositive lit))) pol ls = Ret pol' ->
    length pol' = length pol /\
    (forall l, l ∈ ls -> 0 <= Lit_Var l /\ (Z.to_nat (Lit_Var l) < length pol)%nat) /\
    (forall l, l ∈ ls ->
               (forall l', l' ∈ ls -> Lit_Var l' = Lit_Var l -> l' = l) ->
               pol' !! Z.to_nat (Lit_Var l) = Some (negb (IsPositive l))) /\
    (forall i, (forall l, l ∈ ls -> Z.to_nat (Lit_Var l) <> i) -> pol' !! i = pol !! i).
Proof.
  induction ls as [|x ls IH] using rev_ind; intros pol pol' H.
  - simpl in H. injection H as <-. split; [reflexivity|].
    split; [intros l Hl; inversion Hl|]. split; [intros l Hl; inversion Hl|reflexivity].
  - rewrite foldM_app in H. inv_bind H as pol1 H1. simpl in H.
    inv_bind H as pol2 H2. injection H as <-.
    apply upd_Ret in H2 as (Hx0 & Hxlen & ->).
    destruct (IH _ _ H1) as (Hlen & Hrange & Hset & Hkeep).
    assert (Hrange' : forall l, l ∈ ls ++ [x] ->
                                0 <= Lit_Var l /\ (Z.to_nat (Lit_Var l) < length pol)%nat).
    { intros l Hl. apply elem_of_app in Hl as [Hl|Hl]; [exact (Hrange l Hl)|].
      apply list_elem_of_singleton in Hl. subst l. split; [exact Hx0|lia]. }
    split; [rewrite length_insert; exact Hlen|]. split; [exact Hrange'|]. split.
    + intros l Hl Huniq.
      destruct (decide (Lit_Var x = Lit_Var l)) as [Heq|Hne].
      * assert (x = l) by (apply Huniq; [apply elem_of_app; right; left|exact Heq]).
        subst x. apply list_lookup_insert_eq. exact Hxlen.
      * pose proof (Hrange' l Hl) as [Hl0 _].
        rewrite list_lookup_insert_ne by lia.
        apply elem_of_app in Hl as [Hl|Hl].
        -- apply Hset; [exact Hl|]. intros l' Hl'. apply Huniq.
           apply elem_of_app. left. exact Hl'.
        -- apply list_elem_of_singleton in Hl. subst l. contradiction.
    + intros i Hi. rewrite list_lookup_insert_ne.
      * apply Hkeep. intros l Hl. apply Hi. apply elem_of_app. left. exact Hl.
      * apply Hi. apply elem_of_app. right. left.
Qed.

Section Decisions.
Context {T : EngineTypes} (E : EngineOps T).

Lemma chooseVar_free (fuel : nat) :
  forall (m : list decLevel) (q q' : queue T) (v : Var),
    chooseVar E fuel m q = Ret (v, q') ->
    v = -1 /\ q_empty E q' = true \/
    0 <= v /\ m !! Z.to_nat v = Some 0.
Proof.
  induction fuel as [|n IH]; intros m q q' v H; simpl in H.
  - destruct (q_empty E q) eqn:Hq; [|discriminate H].
    injection H as <- <-. left. auto.
  - destruct (q_empty E q) eqn:Hq.
    + injection H as <- <-. left. auto.
    + destruct (q_removeMin E q) as [v2 q2].
      inv_bind H as a Ha. apply idx_Ret in Ha as [Hv0 Hva].
      destruct (Z.eqb_spec a 0) as [->|Hne]; [|exact (IH _ _ _ _ H)].
      destruct (Z.eqb_spec v2 (-1)); [lia|].
      injection H as <- <-. right. auto.
Qed.

(** X19. [chooseLit] writes nothing but the order heap and the number of
    decisions. It returns -1 only with an empty heap; any other literal
    it returns is on a variable that is free in the model, with the sign
    opposite to the saved polarity, and one more decision is counted. *)
Theorem chooseLit_free (fuel : nat) (s s' : Solver T) (lit : Lit)
    (Hrun : chooseLit E fuel s = Ret (s', lit)) :
  (exists q st, s' = set_stats st (set_varQueue q s)) /\
  (lit = -1 /\ q_empty E (varQueue s') = true /\ stats s' = stats s \/
   exists v p,
     0 <= v /\ model s !! Z.to_nat v = Some 0 /\
     polarity s !! Z.to_nat v = Some p /\
     lit = SignedLit v (negb p) /\ 0 <= lit /\
     NbDecisions (stats s') = add (NbDecisions (stats s)) 1).
Proof.
  unfold chooseLit in Hrun. inv_bind Hrun as [v q] Hv.
  apply chooseVar_free in Hv.
  destruct (Z.eqb_spec v (-1)) as [->|Hne].
  - injection Hrun as <- <-. split.
    + exists q, (stats s). destruct s; reflexivity.
    + left. destruct Hv as [[_ Hq]|[Hv _]]; [|lia]. auto.
  - inv_bind Hrun as p Hp. injection Hrun as <- <-.
    apply idx_Ret in Hp as [_ Hp]. simpl in Hp.
    destruct Hv as [[Hv _]|[Hv0 Hvm]]; [contradiction|]. split.
    + eexists _, _. reflexivity.
    + right. exists v, p. repeat split; try assumption.
      unfold SignedLit. destruct (negb p); lia.
Qed.

(** X20. After [resetOptimPolarity], the decision on the variable of an
    objective literal is the negation of that literal (for a literal that
    is alone on its variable in the objective): the search first tries to
    make the objective literals false. *)
Theorem objective_tried_false (fuel : nat) (s s1 s2 : Solver T) (ls : list Lit)
    (l lit : Lit)
    (Hobj : minLits s = Some ls)
    (Hin : l ∈ ls) (Hpos : 0 <= l)
    (Halone : forall l', l' ∈ ls -> Lit_Var l' = Lit_Var l -> l' = l)
    (Hreset : resetOptimPolarity s = Ret s1)
    (Hchoose : chooseLit E fuel s1 = Ret (s2, lit))
    (Hlit : lit <> -1)
    (Hvar : Lit_Var lit = Lit_Var l) :
  lit = Negation l.
Proof.
  unfold resetOptimPolarity in Hreset. rewrite Hobj in Hreset.
  inv_bind Hreset as pol Hpol. injection Hreset as <-.
  destruct (resetPolarity_loop ls _ _ Hpol) as (_ & _ & Hset & _).
  specialize (Hset l Hin Halone).
  unfold chooseLit in Hchoose. inv_bind Hchoose as [v q] Hv.
  destruct (Z.eqb_spec v (-1)) as [->|Hne].
  - injection Hchoose as _ <-. contradiction.
  - inv_bind Hchoose as p Hp. injection Hchoose as _ <-.
    apply idx_Ret in Hp as [Hv0 Hp]. simpl in Hp.
    assert (Hvl : v = Lit_Var l).
    { rewrite <- Hvar. unfold SignedLit, Lit_Var.
      destruct (negb p); Z.to_euclidean_division_equations; lia. }
    subst v. rewrite Hset in Hp. injection Hp as <-.
    rewrite negb_involutive. apply SignedLit_Negation. exact Hpos.
Qed.

(** X21. The status of the negation of a literal is the opposite of the status
    of the literal: Sat for Unsat, Unsat for Sat, Indet for Indet, and a
    panic for a panic. *)
Theorem litStatus_Negation (s : Solver T) (l : Lit) (Hpos : 0 <= l) :
  litStatus s (Negation l) =
  (st <- litStatus s l ;
   Ret (match st with Sat => Unsat | Unsat => Sat | Indet => Indet end)).
Proof.
  unfold litStatus. destruct (Negation_spec l Hpos) as [_ Hv].
  rewrite Hv, (IsPositive_Negation l Hpos).
  destruct (idx (model s) (Lit_Var l)) as [a| | |]; try reflexivity. simpl.
  destruct (a =? 0); [reflexivity|].
  destruct (0 <? a), (IsPositive l); reflexivity.
Qed.

(** X22. [rebuildOrderHeap] builds the heap from [nbVars] zeros followed by the
    free variables in increasing order: the slice made with
    [make([]int, s.nbVars)] is appended to, not filled. It panics when
    the model is shorter than [nbVars]. *)
Theorem rebuildOrderHeap_list (s : Solver T) :
  ((nbVars s <= length (model s))%nat ->
   rebuildOrderHeap E s =
   Ret (set_varQueue
          (q_build E (varQueue s)
             (replicate (nbVars s) 0
              ++ (Z.of_nat <$> filter (fun v => model s !! v = Some 0)
                                      (seq 0 (nbVars s))))) s)) /\
  ((length (model s) < nbVars s)%nat -> rebuildOrderHeap E s = Panic).
Proof.
  unfold rebuildOrderHeap.
  set (f := fun (ints : list Z) (v : nat) =>
              a <- idx (model s) (Z.of_nat v) ;
              if a =? 0 then Ret (ints ++ [Z.of_nat v]) else Ret ints).
  assert (Hstep : forall v ints,
             (v < length (model s))%nat ->
             f ints v = Ret (ints ++ (Z.of_nat <$> filter (fun v => model s !! v = Some 0) [v]))).
  { intros v ints Hv. unfold f.
    destruct (lookup_lt_is_Some_2 _ _ Hv) as [a Ha].
    assert (Hidx : idx (model s) (Z.of_nat v) = Ret a)
      by (apply idx_Ret; rewrite Nat2Z.id; split; [lia|exact Ha]).
    rewrite Hidx. simpl. rewrite filter_cons, filter_nil.
    destruct (Z.eqb_spec a 0) as [->|Hne].
    - rewrite decide_True by exact Ha. reflexivity.
    - rewrite decide_False by (rewrite Ha; intros [= ?]; contradiction).
      simpl. rewrite app_nil_r. reflexivity. }
  assert (Hok : forall l ints,
             Forall (fun v => (v < length (model s))%nat) l ->
             foldM f ints l
             = Ret (ints ++ (Z.of_nat <$> filter (fun v => model s !! v = Some 0) l))).
  { induction l as [|v l IH]; intros ints Hl.
    - simpl. rewrite app_nil_r. reflexivity.
    - apply Forall_cons in Hl as [Hv Hl]. simpl. rewrite (Hstep v ints Hv). simpl.
      rewrite (IH _ Hl), <- app_assoc, <- fmap_app.
      change (v :: l) with ([v] ++ l). rewrite filter_app. reflexivity. }
  split.
  - intros Hlen. rewrite Hok; [reflexivity|].
    apply Forall_forall. intros v Hv. apply elem_of_seq in Hv. lia.
  - intros Hlen.
    replace (nbVars s) with (length (model s) + S (nbVars s - length (model s) - 1))%nat
      at 2 by lia.
    rewrite seq_app, foldM_app, Hok
      by (apply Forall_forall; intros v Hv; apply elem_of_seq in Hv; lia).
    simpl. unfold f at 1. unfold idx.
    destruct (Z.ltb_spec (Z.of_nat (length (model s))) 0); [reflexivity|].
    rewrite Nat2Z.id, lookup_ge_None_2 by lia. reflexivity.
Qed.

End Decisions.

(** The theorems on [x1 or x2], minimise [x1 + x2]: the first decision is
    [not x1]. *)
Lemma chooseLit_free_witness :
  exists s', chooseLit Ref.refOps 5 Ref.pbOr = Ret (s', Negation Ref.x1) /\
             NbDecisions (stats s') = 1.
Proof.
  destruct (chooseLit Ref.refOps 5 Ref.pbOr) as [[s' lit]| | |] eqn:Hrun;
    try (vm_compute in Hrun; discriminate Hrun).
  assert (Hlit : lit = Negation Ref.x1)
    by (vm_compute in Hrun; injection Hrun as _ <-; reflexivity).
  subst lit. exists s'. split; [reflexivity|].
  destruct (chooseLit_free Ref.refOps 5 Ref.pbOr s' _ Hrun) as [_ [[Hm _]|Hd]].
  - vm_compute in Hm. discriminate Hm.
  - destruct Hd as (v & p & _ & _ & _ & _ & _ & Hn). rewrite Hn. reflexivity.
Defined.

Lemma objective_tried_false_witness :
  exists s1 s2 lit,
    resetOptimPolarity Ref.pbOr = Ret s1 /\
    chooseLit Ref.refOps 5 s1 = Ret (s2, lit) /\ lit = Negation Ref.x1.
Proof.
  destruct (resetOptimPolarity Ref.pbOr) as [s1| | |] eqn:Hreset;
    try (vm_compute in Hreset; discriminate Hreset).
  destruct (chooseLit Ref.refOps 5 s1) as [[s2 lit]| | |] eqn:Hchoose;
    try (vm_compute in Hreset; injection Hreset as <-;
         vm_compute in Hchoose; discriminate Hchoose).
  exists s1, s2, lit. split; [reflexivity|]. split; [exact Hchoose|].
  assert (Hl : lit = 1)
    by (vm_compute in Hreset; injection Hreset as <-;
        vm_compute in Hchoose; injection Hchoose as _ <-; reflexivity).
  apply (objective_tried_false Ref.refOps 5 Ref.pbOr s1 s2 [Ref.x1; Ref.x2] Ref.x1 lit).
  - reflexivity.
  - left.
  - vm_compute. discriminate.
  - intros l' Hl' Hv. apply elem_of_cons in Hl' as [->|Hl']; [reflexivity|].
    apply list_elem_of_singleton in Hl'. subst l'. vm_compute in Hv. discriminate Hv.
  - exact Hreset.
  - exact Hchoose.
  - rewrite Hl. discriminate.
  - rewrite Hl. reflexivity.
Defined.

Lemma litStatus_Negation_witness :
  litStatus Ref.midSearch Ref.x2 = Ret Sat /\
  litStatus Ref.midSearch (Negation Ref.x2) = Ret Unsat.
Proof.
  split; [reflexivity|].
  rewrite (litStatus_Negation Ref.midSearch Ref.x2); [reflexivity|].
  vm_compute. discriminate.
Defined.

(** ** The sort of the assumptions, and the outcome of the drivers *)

Lemma insertDesc_sorted (p : Lit * Z) (l : list (Lit * Z)) :
  StronglySorted (fun a b => snd b <= snd a) l ->
  StronglySorted (fun a b => snd b <= snd a) (insertDesc p l).
Proof.
  induction l as [|q l IH]; intros Hs; simpl.
  - constructor; constructor.
  - apply StronglySorted_inv in Hs as [Hs Hq].
    destruct (Z.leb_spec (snd p) (snd q)) as [Hle|Hlt].
    + constructor; [exact (IH Hs)|].
      rewrite (insertDesc_perm p l). constructor; [exact Hle|exact Hq].
    + constructor; [constructor; [exact Hs|exact Hq]|].
      constructor; [lia|]. eapply Forall_impl; [exact Hq|]. simpl. intros x Hx. lia.
Qed.

Lemma sortDesc_sorted (l : list (Lit * Z)) :
  StronglySorted (fun a b => snd b <= snd a) (sortDesc l).
Proof.
  unfold sortDesc.
  assert (H : forall acc, StronglySorted (fun a b : Lit * Z => snd b <= snd a) acc ->
                          StronglySorted (fun a b : Lit * Z => snd b <= snd a)
                                         (foldl (fun acc p => insertDesc p acc) acc l)).
  { induction l as [|p l IH]; intros acc Hacc; simpl; [exact Hacc|].
    apply IH, insertDesc_sorted, Hacc. }
  apply H. constructor.
Qed.

Lemma sorted_lookup (l : list (Lit * Z)) :
  StronglySorted (fun a b => snd b <= snd a) l ->
  forall i j wi wj, (i <= j)%nat ->
                    l.*2 !! i = Some wi -> l.*2 !! j = Some wj -> wj <= wi.
Proof.
  induction 1 as [|a l Hs IH Ha]; intros i j wi wj Hij Hi Hj; [discriminate Hi|].
  destruct i as [|i], j as [|j]; simpl in Hi, Hj.
  - injection Hi as <-. injection Hj as <-. lia.
  - injection Hi as <-. rewrite list_lookup_fmap in Hj.
    destruct (l !! j) as [b|] eqn:Hb; [|discriminate Hj]. injection Hj as <-.
    rewrite Forall_forall in Ha. apply Ha. apply list_elem_of_lookup. eauto.
  - lia.
  - apply (IH i j); [lia|exact Hi|exact Hj].
Qed.

(** X23. [sort.Sort(wLits{...})] on as many weights as literals: the pairs of a
    literal and its weight are the same as before, in an order in which
    the weights do not increase. Any sort has this result, whatever it does
    with equal weights. *)
Theorem sortWLits_sorted (ls ls' : list Lit) (ws ws' : list Z)
    (Hlen : length ws = length ls)
    (Hrun : sortWLits ls ws = Ret (ls', ws')) :
  zip ls' ws' ≡ₚ zip ls ws /\
  length ls' = length ls /\ length ws' = length ws /\
  forall i j wi wj, (i <= j)%nat -> ws' !! i = Some wi -> ws' !! j = Some wj -> wj <= wi.
Proof.
  destruct (sortWLits_spec ls ls' ws ws' Hlen Hrun) as (Hperm & Hl1 & Hl2).
  split; [exact Hperm|]. split; [exact Hl1|]. split; [exact Hl2|].
  unfold sortWLits in Hrun.
  destruct (Nat.leb_spec (length ls) 1) as [Hsmall|Hbig].
  - injection Hrun as <- <-. intros i j wi wj Hij Hi Hj.
    assert (Hi' := lookup_lt_Some _ _ _ Hi). assert (Hj' := lookup_lt_Some _ _ _ Hj).
    assert (i = j) by lia. subst j. rewrite Hi in Hj. injection Hj as <-. lia.
  - destruct (Nat.ltb_spec (length ws) (length ls)); [discriminate Hrun|].
    injection Hrun as <- <-. rewrite drop_ge, app_nil_r by lia.
    apply sorted_lookup, sortDesc_sorted.
Qed.

Lemma sortWLits_sorted_witness :
  sortWLits [4; 2; 6] [1; 3; 2] = Ret ([2; 6; 4], [3; 2; 1]) /\
  zip [2; 6; 4] [3; 2; 1] ≡ₚ zip [4; 2; 6] [1; 3; 2].
Proof.
  assert (Hrun : sortWLits [4; 2; 6] [1; 3; 2] = Ret ([2; 6; 4], [3; 2; 1]))
    by reflexivity.
  split; [exact Hrun|].
  exact (proj1 (sortWLits_sorted [4; 2; 6] [2; 6; 4] [1; 3; 2] [3; 2; 1] eq_refl Hrun)).
Defined.

Section Outcomes.
Context {T : EngineTypes} (E : EngineOps T).

(** X24. [satClause] answers for a constraint whose literals are variables of
    the model, and it answers true exactly for a plain clause (threshold 1,
    not pseudo-Boolean) of a length other than 2 with a literal that is
    true at level 1. *)
Theorem satClause_top_level (s : Solver T) (cl : Clause)
    (Hrange : Forall (fun l => inRange (length (model s)) (Lit_Var l)) (lits cl)) :
  exists b, satClause s cl = Ret b /\
            (b = true <->
             Len cl <> 2%nat /\ cardinality cl = 1 /\ pseudoBoolean cl = false /\
             Exists (topLevelTrue (model s)) (lits cl)).
Proof. exact (satClause_spec s cl Hrange). Qed.

Context (Hframe : engineFrame E).

(** X25. When [Solve] returns, the status it returns is the status of the
    solver and is Sat or Unsat; the number of variables, the objective and
    the assumptions are as before; after Sat the saved model is the model,
    after Unsat the saved model is the one of before. *)
Theorem Solve_outcome (fuel : nat) (s s' : Solver T) (st : Status)
    (Hrun : Solve E fuel s = Ret (s', st)) :
  st = status s' /\ st <> Indet /\ objView s' = objView s /\
  (st = Sat -> lastModel s' = Some (model s')) /\
  (st = Unsat -> lastModel s' = lastModel s).
Proof. exact (Solve_keeps E Hframe fuel s s' st Hrun). Qed.

(** X26. What [Minimize] returns: -1 exactly when the first [Solve] answers
    Unsat; otherwise the cost, in the objective, of the saved model it
    leaves, which is also the cost of the model that [Model] returns. *)
Theorem Minimize_cost_of_model (fuel : nat) (s sA s' : Solver T) (stA : Status) (r : Z)
    (Hobj : boundedObjective s)
    (Hsolve : Solve E fuel s = Ret (sA, stA))
    (Hrun : Minimize E fuel s = Ret (s', r)) :
  (r = -1 <-> stA = Unsat) /\
  (stA = Sat ->
   exists lm, lastModel s' = Some lm /\ r = objCost s lm /\
              ((length lm <= nbVars s')%nat ->
               exists bs, Model s' = Ret bs /\ boolCost s bs = r)).
Proof.
  destruct (Minimize_protocol E Hframe fuel s sA stA Hobj Hsolve) as (_ & _ & H).
  exact (H s' r Hrun).
Qed.

End Outcomes.

(** [satClause] on [x1 or x2 or x3] in a solver where [x1] is true at
    level 1. *)
Lemma satClause_top_level_witness :
  satClause Ref.midSearch (mkClause [Ref.x1; Ref.x2; Ref.x3]) = Ret true /\
  Exists (topLevelTrue (model Ref.midSearch)) [Ref.x1; Ref.x2; Ref.x3].
Proof.
  assert (Hrange : Forall (fun l => inRange (length (model Ref.midSearch)) (Lit_Var l))
                          (lits (mkClause [Ref.x1; Ref.x2; Ref.x3]))).
  { repeat constructor; vm_compute; try discriminate; lia. }
  destruct (satClause_top_level Ref.midSearch _ Hrange) as (b & Hb & Hiff).
  assert (Hb' : satClause Ref.midSearch (mkClause [Ref.x1; Ref.x2; Ref.x3]) = Ret true)
    by reflexivity.
  split; [exact Hb'|]. rewrite Hb' in Hb. injection Hb as <-.
  destruct (proj1 Hiff eq_refl) as (_ & _ & _ & Hex). exact Hex.
Defined.

Lemma Solve_outcome_witness :
  Solve Ref.refOps 20 Ref.pbOr = Ret (Ref.solvedOr, Sat) /\
  lastModel Ref.solvedOr = Some (model Ref.solvedOr) /\
  objView Ref.solvedOr = objView Ref.pbOr.
Proof.
  assert (Hrun : Solve Ref.refOps 20 Ref.pbOr = Ret (Ref.solvedOr, Sat))
    by (vm_compute; reflexivity).
  split; [exact Hrun|].
  destruct (Solve_outcome Ref.refOps refOps_engineFrame 20 Ref.pbOr Ref.solvedOr Sat Hrun)
    as (_ & _ & Hov & Hsat & _).
  split; [exact (Hsat eq_refl)|exact Hov].
Defined.

Lemma Minimize_cost_of_model_witness :
  exists s', Minimize Ref.refOps 50 Ref.pbOr = Ret (s', 1) /\
             exists lm, lastModel s' = Some lm /\ objCost Ref.pbOr lm = 1.
Proof.
  assert (Hobj : boundedObjective Ref.pbOr).
  { split; vm_compute; [reflexivity | repeat constructor; discriminate | reflexivity]. }
  destruct (Solve Ref.refOps 50 Ref.pbOr) as [[sA stA]| | |] eqn:Hsolve;
    try (vm_compute in Hsolve; discriminate Hsolve).
  assert (HstA : stA = Sat)
    by (vm_compute in Hsolve; injection Hsolve as _ <-; reflexivity).
  destruct (Minimize Ref.refOps 50 Ref.pbOr) as [[s' r]| | |] eqn:Hrun;
    try (vm_compute in Hrun; discriminate Hrun).
  assert (Hr : r = 1) by (vm_compute in Hrun; injection Hrun as _ <-; reflexivity).
  subst r. exists s'. split; [reflexivity|].
  destruct (Minimize_cost_of_model Ref.refOps refOps_engineFrame 50 Ref.pbOr sA s' stA 1
              Hobj Hsolve Hrun) as [_ Hcost].
  destruct (Hcost HstA) as (lm & Hlm & Hc & _).
  exists lm. split; [exact Hlm|]. symmetry. exact Hc.
Defined.

(** ** [Solve] with nothing left to decide, and the cost of a model *)

Section Exhausted.
Context {T : EngineTypes} (E : EngineOps T).

(** X27. With an empty order heap, [Solve] on a solver that is not Unsat answers
    Sat after one call of [search], without a look at the constraints: the
    model and the trail are as before and the model is saved. *)
Theorem Solve_empty_heap_Sat (n : nat) (s : Solver T)
    (Hqueue : q_empty E (varQueue s) = true)
    (Hstatus : status s <> Unsat) :
  exists s', Solve E (S n) s = Ret (s', Sat) /\
             status s' = Sat /\ model s' = model s /\ trail s' = trail s /\
             heap s' = heap s /\ wl s' = wl s /\
             lastModel s' = Some (model s) /\
             localNbRestarts s' = 1.
Proof.
  assert (Hchoose : forall k (s0 : Solver T),
             q_empty E (varQueue s0) = true ->
             chooseLit E k s0 = Ret (set_varQueue (varQueue s0) s0, -1)).
  { intros k s0 Hq. unfold chooseLit.
    assert (Hv : chooseVar E k (model s0) (varQueue s0) = Ret (-1, varQueue s0))
      by (destruct k; simpl; rewrite Hq; reflexivity).
    rewrite Hv. reflexivity. }
  assert (Hp : forall x : Solver T, propagateAndSearch E n x (-1) 2 = Ret (x, Sat))
    by (intros x; destruct n; reflexivity).
  assert (Hloop : forall s0 : Solver T,
             q_empty E (varQueue s0) = true -> status s0 = Indet ->
             solveLoop E (S n) s0
             = Ret (set_status Sat
                      (set_varQueue (varQueue s0)
                         (set_localNbRestarts (add (localNbRestarts s0) 1) s0)))).
  { intros s0 Hq Hst. simpl. rewrite Hst. unfold search.
    rewrite Hchoose by exact Hq. simpl. rewrite Hp. simpl.
    destruct n; reflexivity. }
  unfold Solve.
  destruct (status s) eqn:Hst; [| |contradiction].
  - rewrite Hloop by (simpl; auto). simpl.
    eexists. split; [reflexivity|]. simpl.
    rewrite copySlice_same_length by (rewrite length_replicate; reflexivity).
    repeat split; reflexivity.
  - rewrite Hloop by (simpl; auto). simpl.
    eexists. split; [reflexivity|]. simpl.
    rewrite copySlice_same_length by (rewrite length_replicate; reflexivity).
    repeat split; reflexivity.
Qed.

(** X28. The cost loop of [Optimal] and [Minimize]: on an objective whose
    literals all have a weight, with weights that are not negative and a
    sum far from the bounds of [int], the cost it computes is the sum of the
    weights of the objective literals that are true in the model, a number
    from 0 to the sum of all the weights. *)
Theorem modelCost_is_objCost (s : Solver T) (c : Z)
    (Hobj : boundedObjective s)
    (Hrun : modelCost s = Ret c) :
  c = objCost s (model s) /\ 0 <= c <= maxCostOf s.
Proof. exact (modelCost_spec s c Hobj Hrun). Qed.

End Exhausted.

(** [Solve] on [x1 or x2] with an emptied heap: Sat, with the model in
    which nothing is assigned. *)
Lemma Solve_empty_heap_Sat_witness :
  exists s', Solve Ref.refOps 1 (@set_varQueue Ref.refT [] Ref.pbOr) = Ret (s', Sat) /\
             lastModel s' = Some [0; 0].
Proof.
  destruct (Solve_empty_heap_Sat Ref.refOps 0 (@set_varQueue Ref.refT [] Ref.pbOr))
    as (s' & Hrun & _ & _ & _ & _ & _ & Hlm & _).
  - reflexivity.
  - discriminate.
  - exists s'. split; [exact Hrun|exact Hlm].
Defined.

Lemma modelCost_is_objCost_witness :
  modelCost (saveModel Ref.setupOr) = Ret 1 /\
  objCost (saveModel Ref.setupOr) (model (saveModel Ref.setupOr)) = 1.
Proof.
  assert (Hrun : modelCost (saveModel Ref.setupOr) = Ret 1) by (vm_compute; reflexivity).
  assert (Hobj : boundedObjective (saveModel Ref.setupOr)).
  { split; vm_compute; [reflexivity | repeat constructor; discriminate | reflexivity]. }
  split; [exact Hrun|].
  symmetry. exact (proj1 (modelCost_is_objCost (saveModel Ref.setupOr) 1 Hobj Hrun)).
Defined.

(** ** How [propagateAndSearch] ends *)

Section SearchEnds.
Context {T : EngineTypes} (E : EngineOps T).

Lemma propagateAndSearch_ends (fuel : nat) :
  forall (s s' : Solver T) (lit : Lit) (lvl : decLevel) (st : Status),
    propagateAndSearch E fuel s lit lvl = Ret (s', st) ->
    match st with
    | Sat => True
    | Unsat =>
        status s' = Unsat /\
        exists s0 s1 unit c,
          unifyLiteral E s0 unit 1 = Ret (s1, Some c) /\ s' = set_status Unsat s1
    | Indet =>
        exists s0, lbd_mustRestart E (lbdStats s0) = true /\
                   cleanupBindings E 1 (set_lbdStats (lbd_clear E (lbdStats s0)) s0) = Ret s'
    end.
Proof.
  induction fuel as [|n IH]; intros s s' lit lvl st H.
  - simpl in H. destruct (lit =? -1); [|discriminate]. injection H as _ <-. exact I.
  - rewrite propagateAndSearch_S in H.
    destruct (lit =? -1); [injection H as _ <-; exact I|].
    inv_bind H as [s1 conflict] Hunify.
    destruct conflict as [conflict|].
    + cbv zeta in H. inv_bind H as [[s2 learnt] unit] Hlearn.
      destruct learnt as [learnt|].
      * inv_bind H as cl Hcl. inv_bind H as s3 Hadd.
        inv_bind H as cl2 Hcl2. inv_bind H as [lvl2 lit2] Hbt.
        inv_bind H as s4 Hclean. inv_bind H as rs Hrs. inv_bind H as cl3 Hcl3.
        exact (IH _ _ _ _ _ H).
      * inv_bind H as s3 Hclean. inv_bind H as m Hm. inv_bind H as [s4 c2] Hunify2.
        destruct c2 as [c2|].
        -- injection H as <- <-. split; [reflexivity|].
           exists (set_model m s3), s4, unit, c2. split; [exact Hunify2|reflexivity].
        -- inv_bind H as s5 Hheap. inv_bind H as [s6 lit6] Hchoose.
           exact (IH _ _ _ _ _ H).
    + destruct (lbd_mustRestart E (lbdStats s1)) eqn:Hrestart.
      * cbv zeta in H. inv_bind H as s2 Hclean. injection H as <- <-.
        exists s1. split; [exact Hrestart|exact Hclean].
      * inv_bind H as s2 Hred. cbv zeta in H. inv_bind H as [s3 lit3] Hchoose.
        exact (IH _ _ _ _ _ H).
Qed.


End SearchEnds.


End SolverFacts.
